(** * Contact-form script (script.js): a shallow embedding and its properties

    The repository ships one script in two textual variants: a baseline
    version and an accessibility-enhanced version.  Both are embedded here,
    each in its own module ([Baseline], [Enhanced]), over one model of the
    browser document.  The listeners of the form, of the modal and of the
    window make up the transition system of a module; the click listeners
    on the links into the page and the section observer are added to it
    further down ([PageEvent]), which gives the script as a whole. *)

From Stdlib Require Import ZArith NArith QArith List Bool String Ascii Lia.
From stdpp Require Import gmap strings list fin_maps.

#[local] Set Warnings "-clear-no-such-hyp".

Local Open Scope Z_scope.
Local Open Scope string_scope.
Local Open Scope list_scope.

(** ** JavaScript strings

    A JavaScript string is a sequence of UTF-16 code units.  Code units are
    numbers; every property below holds for all of them, so no range
    restriction is imposed. *)

(** (The type of strings is written [list N] throughout.) *)

Definition ch (a : ascii) : N := N_of_ascii a.

(** A string literal of the source (all of them are ASCII). *)
Definition str (s : string) : list N := map N_of_ascii (list_ascii_of_string s).

(** [\s] of a regular expression, and the characters [String.prototype.trim]
    strips: WhiteSpace and LineTerminator of ECMAScript (TAB, LF, VT, FF, CR,
    SP, NBSP, U+1680, U+2000..U+200A, LS, PS, U+202F, U+205F, U+3000,
    U+FEFF). *)
Definition is_space (c : N) : bool :=
  ((9 <=? c) && (c <=? 13) || (c =? 32) || (c =? 160) || (c =? 5760)
   || (8192 <=? c) && (c <=? 8202) || (c =? 8232) || (c =? 8233)
   || (c =? 8239) || (c =? 8287) || (c =? 12288) || (c =? 65279))%N.

(** [\d]: the ASCII digits. *)
Definition is_digit (c : N) : bool := ((48 <=? c) && (c <=? 57))%N.

Fixpoint trimStart (s : list N) : list N :=
  match s with
  | c :: s' => if is_space c then trimStart s' else s
  | [] => []
  end.

(** [s.trim()] *)
Definition trim (s : list N) : list N := rev (trimStart (rev (trimStart s))).

(** [s === ''] *)
Definition is_empty (s : list N) : bool :=
  match s with [] => true | _ => false end.

(** JavaScript truthiness of a string that may be [undefined]/[null]. *)
Definition truthy (s : option (list N)) : bool :=
  match s with Some (_ :: _) => true | _ => false end.

(** [s.substring(a, b)] for [0 <= a], [0 <= b]: the arguments are clamped to
    the length and swapped when [a > b]. *)
Definition substring (s : list N) (a b : nat) : list N :=
  let a' := Nat.min a (length s) in
  let b' := Nat.min b (length s) in
  let lo := Nat.min a' b' in
  let hi := Nat.max a' b' in
  firstn (hi - lo) (skipn lo s).

(** [s.substring(a)] *)
Definition substring_from (s : list N) (a : nat) : list N := skipn a s.

(** ** Regular expressions

    The regular expressions written as literals in the script use only
    character classes, concatenation and [+]; they are embedded as terms of
    [regex] and run by derivatives. *)

Inductive regex : Type :=
| ReVoid : regex
| ReEps : regex
| ReClass : (N -> bool) -> regex
| ReSeq : regex -> regex -> regex
| ReAlt : regex -> regex -> regex
| ReStar : regex -> regex.

Definition RePlus (r : regex) : regex := ReSeq r (ReStar r).
Definition ReChar (c : N) : regex := ReClass (N.eqb c).
Definition ReOpt (r : regex) : regex := ReAlt ReEps r.

Fixpoint RePow (n : nat) (r : regex) : regex :=
  match n with O => ReEps | S n' => ReSeq r (RePow n' r) end.

(** [r{n,m}] with [m = n + extra] *)
Fixpoint ReUpTo (extra : nat) (r : regex) : regex :=
  match extra with O => ReEps | S k => ReOpt (ReSeq r (ReUpTo k r)) end.

Fixpoint nullable (r : regex) : bool :=
  match r with
  | ReVoid => false
  | ReEps => true
  | ReClass _ => false
  | ReSeq a b => nullable a && nullable b
  | ReAlt a b => nullable a || nullable b
  | ReStar _ => true
  end.

Fixpoint deriv (c : N) (r : regex) : regex :=
  match r with
  | ReVoid => ReVoid
  | ReEps => ReVoid
  | ReClass p => if p c then ReEps else ReVoid
  | ReSeq a b =>
      if nullable a then ReAlt (ReSeq (deriv c a) b) (deriv c b)
      else ReSeq (deriv c a) b
  | ReAlt a b => ReAlt (deriv c a) (deriv c b)
  | ReStar a => ReSeq (deriv c a) (ReStar a)
  end.

(** The whole of [s] is a word of [r]. *)
Fixpoint re_match (r : regex) (s : list N) : bool :=
  match s with
  | [] => nullable r
  | c :: s' => re_match (deriv c r) s'
  end.

(** A regular-expression object without flags: [test] looks for a match
    anywhere in the subject unless the pattern is anchored by [^] / [$]. *)
Record RegExpObj : Type := mkRegExp {
  re_anchor_start : bool;
  re_body : regex;
  re_anchor_end : bool
}.

Definition ReAny : regex := ReStar (ReClass (fun _ => true)).

Definition regexp_test (r : RegExpObj) (s : list N) : bool :=
  re_match
    (ReSeq (if re_anchor_start r then ReEps else ReAny)
       (ReSeq (re_body r) (if re_anchor_end r then ReEps else ReAny))) s.

(** [s.replace(/[class]/g, '')]: every character of the class is deleted. *)
Definition replace_class_all (cls : N -> bool) (s : list N) : list N :=
  List.filter (fun c => negb (cls c)) s.

(** The character classes of the script's literals. *)

(** [[^\s@]] *)
Definition cls_not_space_at (c : N) : bool :=
  negb (is_space c || (c =? ch "@")%N).

(** [[\s\-\(\)\.]] *)
Definition cls_separator (c : N) : bool :=
  is_space c || (c =? ch "-")%N || (c =? ch "(")%N || (c =? ch ")")%N
  || (c =? ch ".")%N.

(** [[^\d\s]] *)
Definition cls_not_digit_space (c : N) : bool :=
  negb (is_digit c || is_space c).

(** [new RegExp(pattern).test(subject)] for a pattern that comes from the
    document (the [data-pattern] attribute of a country option).  The
    pattern language is the browser's; the script only hands the string
    over.  [None] stands for the [SyntaxError] of [new RegExp]. *)
Class RegExpEngine : Type :=
  RegExp_test : list N -> list N -> option bool.

(** ** The document

    Every node the script touches is a record of the properties the script
    reads or writes.  A node is named by a key; for a node with an [id]
    attribute the key is that id, so [document.getElementById] is a lookup.
    Each id is assumed to name a node of the kind the script uses it as (an
    input for [firstName], a select for [countryCode], ...), and the phone
    input to be a text control, which has a selection. *)

Record OptionEl : Type := mkOption {
  o_attrs : gmap string (list N);
  o_text : list N
}.

Record Element : Type := mkElement {
  value : list N;
  defaultValue : list N;
  singleLine : bool;            (* value assignment strips LF and CR *)
  checked : bool;
  defaultChecked : bool;
  classList : gset string;
  attrs : gmap string (list N);
  textContent : list N;
  display : list N;             (* style.display *)
  required : bool;
  placeholder : list N;
  selectionStart : N;
  selectionEnd : N;
  options : list OptionEl;
  selectedIndex : Z;
  defaultSelectedIndex : Z;
  firstButton : option string;  (* querySelector('button') below this node *)
  submitButton : option string  (* querySelector('button[type="submit"]') *)
}.

Definition blank : Element :=
  mkElement [] [] true false false ∅ ∅ [] [] false [] 0 0 [] (-1) (-1) None None.

Definition with_value (v : list N) (e : Element) : Element :=
  mkElement v (defaultValue e) (singleLine e) (checked e) (defaultChecked e)
    (classList e) (attrs e) (textContent e) (display e) (required e)
    (placeholder e) (selectionStart e) (selectionEnd e) (options e)
    (selectedIndex e) (defaultSelectedIndex e) (firstButton e) (submitButton e).

Definition with_checked (b : bool) (e : Element) : Element :=
  mkElement (value e) (defaultValue e) (singleLine e) b (defaultChecked e)
    (classList e) (attrs e) (textContent e) (display e) (required e)
    (placeholder e) (selectionStart e) (selectionEnd e) (options e)
    (selectedIndex e) (defaultSelectedIndex e) (firstButton e) (submitButton e).

Definition with_classList (c : gset string) (e : Element) : Element :=
  mkElement (value e) (defaultValue e) (singleLine e) (checked e)
    (defaultChecked e) c (attrs e) (textContent e) (display e) (required e)
    (placeholder e) (selectionStart e) (selectionEnd e) (options e)
    (selectedIndex e) (defaultSelectedIndex e) (firstButton e) (submitButton e).

Definition with_attrs (a : gmap string (list N)) (e : Element) : Element :=
  mkElement (value e) (defaultValue e) (singleLine e) (checked e)
    (defaultChecked e) (classList e) a (textContent e) (display e) (required e)
    (placeholder e) (selectionStart e) (selectionEnd e) (options e)
    (selectedIndex e) (defaultSelectedIndex e) (firstButton e) (submitButton e).

Definition with_textContent (t : list N) (e : Element) : Element :=
  mkElement (value e) (defaultValue e) (singleLine e) (checked e)
    (defaultChecked e) (classList e) (attrs e) t (display e) (required e)
    (placeholder e) (selectionStart e) (selectionEnd e) (options e)
    (selectedIndex e) (defaultSelectedIndex e) (firstButton e) (submitButton e).

Definition with_display (d : list N) (e : Element) : Element :=
  mkElement (value e) (defaultValue e) (singleLine e) (checked e)
    (defaultChecked e) (classList e) (attrs e) (textContent e) d (required e)
    (placeholder e) (selectionStart e) (selectionEnd e) (options e)
    (selectedIndex e) (defaultSelectedIndex e) (firstButton e) (submitButton e).

Definition with_required (b : bool) (e : Element) : Element :=
  mkElement (value e) (defaultValue e) (singleLine e) (checked e)
    (defaultChecked e) (classList e) (attrs e) (textContent e) (display e) b
    (placeholder e) (selectionStart e) (selectionEnd e) (options e)
    (selectedIndex e) (defaultSelectedIndex e) (firstButton e) (submitButton e).

Definition with_placeholder (p : list N) (e : Element) : Element :=
  mkElement (value e) (defaultValue e) (singleLine e) (checked e)
    (defaultChecked e) (classList e) (attrs e) (textContent e) (display e)
    (required e) p (selectionStart e) (selectionEnd e) (options e)
    (selectedIndex e) (defaultSelectedIndex e) (firstButton e) (submitButton e).

Definition with_selection (s t : N) (e : Element) : Element :=
  mkElement (value e) (defaultValue e) (singleLine e) (checked e)
    (defaultChecked e) (classList e) (attrs e) (textContent e) (display e)
    (required e) (placeholder e) s t (options e)
    (selectedIndex e) (defaultSelectedIndex e) (firstButton e) (submitButton e).

Definition with_selectedIndex (i : Z) (e : Element) : Element :=
  mkElement (value e) (defaultValue e) (singleLine e) (checked e)
    (defaultChecked e) (classList e) (attrs e) (textContent e) (display e)
    (required e) (placeholder e) (selectionStart e) (selectionEnd e) (options e)
    i (defaultSelectedIndex e) (firstButton e) (submitButton e).

(** *** Element operations of the DOM *)

(** [el.classList.add(c)], [el.classList.remove(c)] *)
Definition classList_add (c : string) (e : Element) : Element :=
  with_classList ({[ c ]} ∪ classList e) e.
Definition classList_remove (c : string) (e : Element) : Element :=
  with_classList (classList e ∖ {[ c ]}) e.

(** [el.setAttribute(k, v)], [el.removeAttribute(k)], [el.getAttribute(k)] *)
Definition setAttribute (k : string) (v : list N) (e : Element) : Element :=
  with_attrs (<[ k := v ]> (attrs e)) e.
Definition removeAttribute (k : string) (e : Element) : Element :=
  with_attrs (delete k (attrs e)) e.
Definition getAttribute (k : string) (e : Element) : option (list N) :=
  attrs e !! k.
Definition option_getAttribute (k : string) (o : OptionEl) : option (list N) :=
  o_attrs o !! k.

Definition is_newline (c : N) : bool := ((c =? 10) || (c =? 13))%N.

(** [el.value = v] on a text control: a single-line control drops line
    breaks, and a changed value moves the cursor to the end of the text. *)
Definition assign_value (v : list N) (e : Element) : Element :=
  let v' := if singleLine e then List.filter (fun c => negb (is_newline c)) v
            else v in
  if decide (v' = value e) then e
  else with_selection (N.of_nat (length v')) (N.of_nat (length v'))
         (with_value v' e).

(** WebIDL [unsigned long] conversion of an integral number. *)
Definition to_uint32 (z : Z) : Z := z mod 2 ^ 32.

(** [el.setSelectionRange(s, t)] *)
Definition setSelectionRange (s t : Z) (e : Element) : Element :=
  let len := Z.of_nat (length (value e)) in
  let s1 := Z.min (to_uint32 s) len in
  let t1 := Z.min (to_uint32 t) len in
  let s2 := Z.min s1 t1 in
  with_selection (Z.to_N s2) (Z.to_N t1) e.

(** [form.reset()] on one control *)
Definition reset_control (e : Element) : Element :=
  with_selectedIndex (defaultSelectedIndex e)
    (with_checked (defaultChecked e)
       (with_selection (N.of_nat (length (defaultValue e)))
          (N.of_nat (length (defaultValue e)))
          (with_value (defaultValue e) e))).

(** ** The state of the page

    Besides the document: the lists the script obtains by selector queries
    (in document order), the scroll position, the pending timers, the
    script's own global [scrollTimeout], the focused node, and a log of the
    calls whose effect lies outside the document. *)

Inductive Effect : Type :=
| PreventDefault
| StopPropagation
| FormReset
| ScrollIntoView (target : string)   (* target.scrollIntoView({...}) *)
| OffcanvasHide.                     (* offcanvas.hide() *)

Inductive Callback : Type :=
| CbClearAnnouncer (announcer : string)   (* announcer.textContent = '' *)
| CbFocus (target : string)               (* closeButton.focus() *)
| CbNavUpdate.                            (* the debounced nav-link update *)

Record State : Type := mkState {
  doc : gmap string Element;
  formControls : list string;        (* the controls form.reset() resets *)
  formNodes : list string;           (* descendants of the form *)
  navLinks : list string;            (* querySelectorAll('.nav-link') *)
  sections : list (list N * Z);      (* section[id]: id and offsetTop *)
  scrollY : Q;
  timers : list (N * (nat * Callback)); (* pending: id, delay, callback *)
  nextTimer : N;
  scrollTimeout : option N;          (* undefined until the first scroll *)
  activeElement : option string;
  log : list Effect
}.

Definition set_doc (d : gmap string Element) (st : State) : State :=
  mkState d (formControls st) (formNodes st) (navLinks st) (sections st)
    (scrollY st) (timers st) (nextTimer st) (scrollTimeout st)
    (activeElement st) (log st).

Definition set_timers (t : list (N * (nat * Callback))) (n : N) (st : State)
  : State :=
  mkState (doc st) (formControls st) (formNodes st) (navLinks st) (sections st)
    (scrollY st) t n (scrollTimeout st) (activeElement st) (log st).

Definition set_scrollTimeout (t : option N) (st : State) : State :=
  mkState (doc st) (formControls st) (formNodes st) (navLinks st) (sections st)
    (scrollY st) (timers st) (nextTimer st) t (activeElement st) (log st).

Definition set_activeElement (a : option string) (st : State) : State :=
  mkState (doc st) (formControls st) (formNodes st) (navLinks st) (sections st)
    (scrollY st) (timers st) (nextTimer st) (scrollTimeout st) a (log st).

Definition set_log (l : list Effect) (st : State) : State :=
  mkState (doc st) (formControls st) (formNodes st) (navLinks st) (sections st)
    (scrollY st) (timers st) (nextTimer st) (scrollTimeout st)
    (activeElement st) l.

(** The node a reference points to. *)
Definition node (st : State) (r : string) : Element :=
  default blank (doc st !! r).

(** ** Handlers as state transformers that may throw *)

Inductive exn : Type := TypeError | SyntaxError | ReferenceError.

Inductive res (A : Type) : Type :=
| Ok : A -> res A
| Throw : exn -> res A.
Arguments Ok {A} _.
Arguments Throw {A} _.

Definition M (A : Type) : Type := State -> State * res A.

#[global] Instance M_ret : MRet M := fun A a st => (st, Ok a).
#[global] Instance M_bind : MBind M := fun A B f m st =>
  match m st with
  | (st', Ok a) => f a st'
  | (st', Throw e) => (st', Throw e)
  end.

Definition throw {A : Type} (e : exn) : M A := fun st => (st, Throw e).

(** Run a computation that only reads the state. *)
Definition reading {A : Type} (f : State -> res A) : M A :=
  fun st => (st, f st).

(** [document.getElementById(id)]: a reference or [null]. *)
Definition getElementById (id : string) : M (option string) :=
  fun st => (st, Ok (match doc st !! id with Some _ => Some id | None => None end)).

(** Read a property of a node, and change a node in place. *)
Definition getProp {A : Type} (r : string) (p : Element -> A) : M A :=
  fun st => (st, Ok (p (node st r))).
Definition update (r : string) (f : Element -> Element) : M unit :=
  fun st => (set_doc (alter f r (doc st)) st, Ok tt).

Definition emit (e : Effect) : M unit :=
  fun st => (set_log (log st ++ [e]) st, Ok tt).

(** [array.forEach(f)] *)
Fixpoint forEach {A : Type} (f : A -> M unit) (l : list A) : M unit :=
  match l with
  | [] => mret tt
  | x :: l' => f x ;; forEach f l'
  end.

(** A [forEach] whose callback updates one captured variable. *)
Fixpoint forEachAcc {A B : Type} (f : A -> B -> M B) (l : list A) (acc : B)
  : M B :=
  match l with
  | [] => mret acc
  | x :: l' => acc' ← f x acc; forEachAcc f l' acc'
  end.

(** [setTimeout(cb, delay)] returns the new timer's id;
    [clearTimeout(id)] drops the pending timer of that id, if any. *)
Definition setTimeout (cb : Callback) (delay : nat) : M N :=
  fun st =>
    (set_timers (timers st ++ [(nextTimer st, (delay, cb))])
       (N.succ (nextTimer st)) st,
     Ok (nextTimer st)).

Definition clearTimeout (id : option N) : M unit :=
  fun st =>
    match id with
    | Some i =>
        (set_timers (List.filter (fun t => negb (fst t =? i)%N) (timers st))
           (nextTimer st) st, Ok tt)
    | None => (st, Ok tt)
    end.

(** [el && el.checked] *)
Definition is_checked (r : option string) : M bool :=
  match r with
  | Some c => getProp c checked
  | None => mret false
  end.

(** [array[i]] for a number [i] *)
Definition index {A : Type} (l : list A) (i : Z) : option A :=
  if (i <? 0)%Z then None else nth_error l (Z.to_nat i).

(** [parent.querySelectorAll('.c1, .c2, ...')] over the given nodes *)
Definition with_any_class (cs : list string) (nodes : list string) (st : State)
  : list string :=
  List.filter
    (fun k => existsb (fun c => bool_decide (c ∈ classList (node st k))) cs)
    nodes.

Definition set_focus (r : string) : M unit :=
  fun st => (set_activeElement (Some r) st, Ok tt).

(** Listeners run by [dispatchEvent] or by a focus change: what they throw
    is reported by the browser and does not reach the caller. *)
Definition dispatch (listener : M unit) : M unit :=
  fun st => (fst (listener st), Ok tt).

(** [s.split(sep)] for a one-character separator *)
Fixpoint split_on (sep : N) (s : list N) : list (list N) :=
  match s with
  | [] => [[]]
  | c :: s' =>
      if (c =? sep)%N then [] :: split_on sep s'
      else match split_on sep s' with
           | h :: t => (c :: h) :: t
           | [] => [[c]]
           end
  end.

(** What can happen to the page: a change made by the user or the browser
    itself (typing, ticking a radio button, choosing an option), or an event
    the script listens to. *)
Inductive Event : Type :=
| UserEdit (k : string) (f : Element -> Element)
| ContactPhoneChange
| ContactEmailChange
| CountryCodeChange
| PhoneInput
| PhonePaste (text : list N)
| Blur (k : string)
| Submit
| OverlayClick
| Keydown (key : list N)
| Scroll (y : Q)
| TimerFire (id : N).

Definition set_scrollY (y : Q) (st : State) : State :=
  mkState (doc st) (formControls st) (formNodes st) (navLinks st) (sections st)
    y (timers st) (nextTimer st) (scrollTimeout st) (activeElement st) (log st).

(** The browser moves the viewport. *)
Definition scroll_to (y : Q) : M unit :=
  fun st => (set_scrollY y st, Ok tt).

(** The [elements] object of the script: property name and the id it was
    looked up by when the script was loaded. *)
Definition element_ids : list (string * string) :=
  [ ("contactEmail", "contactEmail"); ("contactPhone", "contactPhone");
    ("phoneGroup", "phone-group"); ("phoneInput", "phone");
    ("countryCode", "countryCode"); ("phoneError", "phoneError");
    ("firstName", "firstName"); ("lastName", "lastName");
    ("email", "email"); ("messageSubject", "messageSubject");
    ("message", "message"); ("form", "contactForm");
    ("successModal", "successModal"); ("modalOverlay", "modalOverlay") ].

Fixpoint assoc_name {A : Type} (k : string) (l : list (string * A)) : option A :=
  match l with
  | [] => None
  | (k', a) :: l' => if String.eqb k k' then Some a else assoc_name k l'
  end.

(** An entry of [fieldValidators]. *)
Record FieldConfig : Type := mkConfig {
  validator : list N -> bool;
  errorMessage : list N;
  emptyMessage : option (list N)     (* undefined except for email *)
}.

(** A validation function as [validateField] receives it: it reads the
    page and may throw. *)
Definition ValidationFn : Type := list N -> State -> res bool.

Definition pure_fn (f : list N -> bool) : ValidationFn := fun v _ => Ok (f v).

(** [() => false] *)
Definition always_false : ValidationFn := fun _ _ => Ok false.

(** ** The baseline variant (script.js, first copy) *)

Module Baseline.
Section Script.
Context `{engine : RegExpEngine}.

(** [/^[^\s@]+@[^\s@]+\.[^\s@]+$/] *)
Definition emailPattern : RegExpObj :=
  mkRegExp true
    (ReSeq (RePlus (ReClass cls_not_space_at))
       (ReSeq (ReChar (ch "@"))
          (ReSeq (RePlus (ReClass cls_not_space_at))
             (ReSeq (ReChar (ch "."))
                (RePlus (ReClass cls_not_space_at))))))
    true.

Definition isValidEmail (email : list N) : bool :=
  regexp_test emailPattern email.

Definition validatePhoneNumber (phoneNumber : list N)
    (countryCodeSelect : option string) : State -> res bool :=
  fun st =>
    let cleanNumber := replace_class_all cls_separator phoneNumber in
    match countryCodeSelect with
    | None => Throw TypeError
    | Some sel =>
        match index (options (node st sel)) (selectedIndex (node st sel)) with
        | None => Throw TypeError
        | Some selectedOption =>
            let pattern := option_getAttribute "data-pattern" selectedOption in
            if negb (truthy pattern) then Ok false
            else
              match RegExp_test (default [] pattern) cleanNumber with
              | None => Throw SyntaxError
              | Some b => Ok b
              end
        end
    end.

Definition validateField (field errorElement : option string)
    (validationFn : ValidationFn) (errorMessage : option (list N)) : M bool :=
  match field, errorElement with
  | Some field, Some errorElement =>
      v ← getProp field value;
      isValid ← reading (validationFn v);
      if negb isValid then
        update field (classList_add "is-invalid");;
        update field (classList_remove "is-valid");;
        (if truthy errorMessage
         then update errorElement (with_textContent (default [] errorMessage))
         else mret tt);;
        update errorElement (classList_add "d-block");;
        mret false
      else
        update field (classList_remove "is-invalid");;
        update field (classList_add "is-valid");;
        update errorElement (classList_remove "d-block");;
        mret true
  | _, _ => mret true
  end.

Definition clearValidation (field errorElement : option string) : M unit :=
  (match field with
   | Some field =>
       update field (classList_remove "is-invalid");;
       update field (classList_remove "is-valid")
   | None => mret tt
   end);;
  (match errorElement with
   | Some errorElement => update errorElement (classList_remove "d-block")
   | None => mret tt
   end).

(** [elements.name] *)
Definition elements (name : string) : M (option string) :=
  match assoc_name name element_ids with
  | Some id => getElementById id
  | None => mret None
  end.

(** *** Phone field management *)

(** [change] on [contactPhone] *)
Definition contactPhone_change : M unit :=
  this ← elements "contactPhone";
  match this with
  | None => mret tt
  | Some this =>
      chk ← getProp this checked;
      phoneGroup ← elements "phoneGroup";
      phoneInput ← elements "phoneInput";
      match chk, phoneGroup, phoneInput with
      | true, Some phoneGroup, Some phoneInput =>
          update phoneGroup (with_display (str "block"));;
          update phoneInput (with_required true)
      | _, _, _ => mret tt
      end
  end.

(** [change] on [contactEmail] *)
Definition contactEmail_change : M unit :=
  this ← elements "contactEmail";
  match this with
  | None => mret tt
  | Some this =>
      chk ← getProp this checked;
      phoneGroup ← elements "phoneGroup";
      phoneInput ← elements "phoneInput";
      match chk, phoneGroup, phoneInput with
      | true, Some phoneGroup, Some phoneInput =>
          update phoneGroup (with_display (str "none"));;
          update phoneInput (with_required false);;
          phoneError ← elements "phoneError";
          clearValidation (Some phoneInput) phoneError
      | _, _, _ => mret tt
      end
  end.

(** [change] on [countryCode] *)
Definition countryCode_change : M unit :=
  this ← elements "countryCode";
  phoneInput ← elements "phoneInput";
  match this, phoneInput with
  | Some this, Some phoneInput =>
      opts ← getProp this options;
      i ← getProp this selectedIndex;
      match index opts i with
      | None => throw TypeError
      | Some selectedOption =>
          let placeholder := option_getAttribute "data-placeholder" selectedOption in
          if truthy placeholder then
            update phoneInput (with_placeholder (default [] placeholder));;
            phoneError ← elements "phoneError";
            clearValidation (Some phoneInput) phoneError
          else mret tt
      end
  | _, _ => mret tt
  end.

(** [input] on [phoneInput] *)
Definition phoneInput_input : M unit :=
  this ← elements "phoneInput";
  match this with
  | None => mret tt
  | Some this =>
      cursorPos ← getProp this selectionStart;
      v ← getProp this value;
      let oldLength := length v in
      let cleaned := replace_class_all cls_not_digit_space v in
      update this (assign_value cleaned);;
      v' ← getProp this value;
      let newLength := length v' in
      let diff := Z.of_nat oldLength - Z.of_nat newLength in
      update this
        (setSelectionRange (Z.of_N cursorPos - diff) (Z.of_N cursorPos - diff))
  end.

(** [paste] on [phoneInput]; [pastedText] is the clipboard's text. *)
Definition phoneInput_paste (pastedText : list N) : M unit :=
  this ← elements "phoneInput";
  match this with
  | None => mret tt
  | Some this =>
      emit PreventDefault;;
      let cleaned := replace_class_all cls_not_digit_space pastedText in
      start ← getProp this selectionStart;
      end_ ← getProp this selectionEnd;
      currentValue ← getProp this value;
      update this
        (assign_value
           (substring currentValue 0 (N.to_nat start) ++ cleaned
            ++ substring_from currentValue (N.to_nat end_)));;
      let newPos := Z.of_N start + Z.of_nat (length cleaned) in
      update this (setSelectionRange newPos newPos);;
      dispatch phoneInput_input
  end.

(** *** Real-time validation (on blur) *)

Definition fieldValidators : list (string * FieldConfig) :=
  [ ("firstName",
     mkConfig (fun value => negb (is_empty (trim value)))
       (str "Please provide your first name.") None);
    ("lastName",
     mkConfig (fun value => negb (is_empty (trim value)))
       (str "Please provide your last name.") None);
    ("email",
     mkConfig (fun value => negb (is_empty (trim value)) && isValidEmail value)
       (str "Please provide a valid email address.")
       (Some (str "Please provide your email address.")));
    ("messageSubject",
     mkConfig (fun value => negb (is_empty (trim value)))
       (str "Please provide a subject.") None);
    ("message",
     mkConfig (fun value => negb (is_empty (trim value)))
       (str "Please write your message.") None) ].

(** [blur] on the field [elements[fieldName]] *)
Definition field_blur (fieldName : string) (config : FieldConfig) : M unit :=
  field ← elements fieldName;
  match field with
  | None => mret tt
  | Some this =>
      errorElement ← getElementById (fieldName ++ "Error");
      v ← getProp this value;
      if String.eqb fieldName "email" && is_empty (trim v) then
        validateField field errorElement always_false (emptyMessage config);;
        mret tt
      else
        validateField field errorElement (pure_fn (validator config))
          (Some (errorMessage config));;
        mret tt
  end.

(** [blur] on [phoneInput] *)
Definition phoneInput_blur : M unit :=
  this ← elements "phoneInput";
  match this with
  | None => mret tt
  | Some this =>
      contactPhone ← elements "contactPhone";
      chk ← is_checked contactPhone;
      if (chk : bool) then
        v ← getProp this value;
        phoneError ← elements "phoneError";
        countryCode ← elements "countryCode";
        if is_empty (trim v) then
          validateField (Some this) phoneError always_false
            (Some (str "Please provide your phone number."));;
          mret tt
        else
          validateField (Some this) phoneError
            (fun value => validatePhoneNumber value countryCode)
            (Some (str "Please provide a valid phone number for the selected country."));;
          mret tt
      else mret tt
  end.

(** *** Form submission *)

(** One round of the loop over [Object.keys(fieldValidators)]; [isValid] is
    the handler's variable of that name. *)
Definition validateTextField (entry : string * FieldConfig) (isValid : bool)
  : M bool :=
  let (fieldName, config) := entry in
  field ← elements fieldName;
  errorElement ← getElementById (fieldName ++ "Error");
  match field, errorElement with
  | Some f, Some _ =>
      if String.eqb fieldName "email" then
        v ← getProp f value;
        if is_empty (trim v) then
          r ← validateField field errorElement always_false
                (emptyMessage config);
          mret (r && isValid)
        else
          r ← validateField field errorElement (pure_fn (validator config))
                (Some (errorMessage config));
          mret (r && isValid)
      else
        r ← validateField field errorElement (pure_fn (validator config))
              (Some (errorMessage config));
        mret (r && isValid)
  | _, _ => mret isValid
  end.

(** The phone block of the submit handler. *)
Definition validatePhone (isValid : bool) : M bool :=
  contactPhone ← elements "contactPhone";
  chk ← is_checked contactPhone;
  if (chk : bool) then
    phoneInput ← elements "phoneInput";
    match phoneInput with
    | None => throw TypeError
    | Some p =>
        v ← getProp p value;
        phoneError ← elements "phoneError";
        countryCode ← elements "countryCode";
        if is_empty (trim v) then
          r ← validateField phoneInput phoneError always_false
                (Some (str "Please provide your phone number."));
          mret (r && isValid)
        else
          r ← validateField phoneInput phoneError
                (fun value => validatePhoneNumber value countryCode)
                (Some (str "Please provide a valid phone number for the selected country."));
          mret (r && isValid)
    end
  else mret isValid.

(** The value of [isValid] when the handler reaches [if (isValid)]. *)
Definition validateForm : M bool :=
  isValid ← forEachAcc validateTextField fieldValidators true;
  validatePhone isValid.

(** [this.reset()] *)
Definition form_reset : M unit :=
  emit FormReset;;
  ctrls ← reading (fun st => Ok (formControls st));
  forEach (fun c => update c reset_control) ctrls.

(** The branch taken when [isValid] is true. *)
Definition submit_success : M unit :=
  modalOverlay ← elements "modalOverlay";
  match modalOverlay with
  | None => throw TypeError
  | Some m => update m (with_display (str "block"))
  end;;
  successModal ← elements "successModal";
  match successModal with
  | None => throw TypeError
  | Some m => update m (with_display (str "block"))
  end;;
  form_reset;;
  marked ← reading (fun st =>
              Ok (with_any_class ["is-valid"; "is-invalid"] (formNodes st) st));
  forEach (fun el => update el (classList_remove "is-valid");;
                     update el (classList_remove "is-invalid")) marked;;
  feedback ← reading (fun st =>
                Ok (with_any_class ["invalid-feedback"] (formNodes st) st));
  forEach (fun el => update el (classList_remove "d-block")) feedback.

(** [submit] on the form *)
Definition form_submit : M unit :=
  this ← elements "form";
  match this with
  | None => mret tt
  | Some _ =>
      emit PreventDefault;;
      emit StopPropagation;;
      isValid ← validateForm;
      if (isValid : bool) then submit_success else mret tt
  end.

(** *** Modal management *)

Definition closeModal : M unit :=
  modalOverlay ← elements "modalOverlay";
  match modalOverlay with
  | Some m => update m (with_display (str "none"))
  | None => mret tt
  end;;
  successModal ← elements "successModal";
  match successModal with
  | Some m => update m (with_display (str "none"))
  | None => mret tt
  end.

(** [click] on [modalOverlay] *)
Definition modalOverlay_click : M unit :=
  modalOverlay ← elements "modalOverlay";
  match modalOverlay with
  | Some _ => closeModal
  | None => mret tt
  end.

(** *** Navigation *)

(** The id of the last section whose top the page has scrolled past
    (less 200 pixels), [''] when there is none. *)
Definition currentSection (st : State) : list N :=
  fold_left
    (fun current section =>
       if Qle_bool (inject_Z (snd section - 200)) (scrollY st)
       then fst section else current)
    (sections st) [].

Definition updateNavLinks : M unit :=
  current ← reading (fun st => Ok (currentSection st));
  links ← reading (fun st => Ok (navLinks st));
  forEach
    (fun link =>
       update link (classList_remove "active");;
       href ← getProp link (getAttribute "href");
       if bool_decide (href = Some (ch "#" :: current))
       then update link (classList_add "active")
       else mret tt)
    links.

(** [scroll] on [window]: the update runs in the handler itself. *)
Definition window_scroll : M unit := updateNavLinks.

(** The [blur] listeners the script has attached to the node [k]. *)
Definition blur_listeners (k : string) : M unit :=
  match assoc_name k fieldValidators with
  | Some config => field_blur k config
  | None => if String.eqb k "phone" then phoneInput_blur else mret tt
  end.

(** *** The page as a transition system *)

Definition handle (ev : Event) : M unit :=
  match ev with
  | UserEdit k f => update k f
  | ContactPhoneChange => contactPhone_change
  | ContactEmailChange => contactEmail_change
  | CountryCodeChange => countryCode_change
  | PhoneInput => phoneInput_input
  | PhonePaste text => phoneInput_paste text
  | Blur k => blur_listeners k
  | Submit => form_submit
  | OverlayClick => modalOverlay_click
  | Keydown _ => mret tt
  | Scroll y => scroll_to y;; window_scroll
  | TimerFire _ => mret tt
  end.

(** An exception ends the handler; the page stays as the handler left it. *)
Definition step (st : State) (ev : Event) : State := fst (handle ev st).

Definition run (evs : list Event) (st : State) : State := fold_left step evs st.

End Script.
End Baseline.

(** ** The accessibility-enhanced variant (script.js, second copy) *)

Module Enhanced.
Section Script.
Context `{engine : RegExpEngine}.

Definition announceToScreenReader (message : list N) : M unit :=
  announcer ← getElementById "status-announcer";
  match announcer with
  | Some a =>
      update a (with_textContent message);;
      setTimeout (CbClearAnnouncer a) 1000;;
      mret tt
  | None => mret tt
  end.

(** [/^[^\s@]+@[^\s@]+\.[^\s@]+$/] *)
Definition emailPattern : RegExpObj :=
  mkRegExp true
    (ReSeq (RePlus (ReClass cls_not_space_at))
       (ReSeq (ReChar (ch "@"))
          (ReSeq (RePlus (ReClass cls_not_space_at))
             (ReSeq (ReChar (ch "."))
                (RePlus (ReClass cls_not_space_at))))))
    true.

Definition isValidEmail (email : list N) : bool :=
  regexp_test emailPattern email.

Definition validatePhoneNumber (phoneNumber : list N)
    (countryCodeSelect : option string) : State -> res bool :=
  fun st =>
    let cleanNumber := replace_class_all cls_separator phoneNumber in
    match countryCodeSelect with
    | None => Throw TypeError
    | Some sel =>
        match index (options (node st sel)) (selectedIndex (node st sel)) with
        | None => Throw TypeError
        | Some selectedOption =>
            let pattern := option_getAttribute "data-pattern" selectedOption in
            if negb (truthy pattern) then Ok false
            else
              match RegExp_test (default [] pattern) cleanNumber with
              | None => Throw SyntaxError
              | Some b => Ok b
              end
        end
    end.

Definition validateField (field errorElement : option string)
    (validationFn : ValidationFn) (errorMessage : option (list N)) : M bool :=
  match field, errorElement with
  | Some field, Some errorElement =>
      v ← getProp field value;
      isValid ← reading (validationFn v);
      if negb isValid then
        update field (classList_add "is-invalid");;
        update field (classList_remove "is-valid");;
        update field (setAttribute "aria-invalid" (str "true"));;
        (if truthy errorMessage
         then update errorElement (with_textContent (default [] errorMessage))
         else mret tt);;
        update errorElement (classList_add "d-block");;
        mret false
      else
        update field (classList_remove "is-invalid");;
        update field (classList_add "is-valid");;
        update field (setAttribute "aria-invalid" (str "false"));;
        update errorElement (classList_remove "d-block");;
        mret true
  | _, _ => mret true
  end.

Definition clearValidation (field errorElement : option string) : M unit :=
  (match field with
   | Some field =>
       update field (classList_remove "is-invalid");;
       update field (classList_remove "is-valid");;
       update field (removeAttribute "aria-invalid")
   | None => mret tt
   end);;
  (match errorElement with
   | Some errorElement =>
       update errorElement (classList_remove "d-block");;
       update errorElement (with_textContent [])
   | None => mret tt
   end).

(** [elements.name] *)
Definition elements (name : string) : M (option string) :=
  match assoc_name name element_ids with
  | Some id => getElementById id
  | None => mret None
  end.

(** *** Phone field management *)

(** [change] on [contactPhone] *)
Definition contactPhone_change : M unit :=
  this ← elements "contactPhone";
  match this with
  | None => mret tt
  | Some this =>
      chk ← getProp this checked;
      phoneGroup ← elements "phoneGroup";
      phoneInput ← elements "phoneInput";
      match chk, phoneGroup, phoneInput with
      | true, Some phoneGroup, Some phoneInput =>
          update phoneGroup (with_display (str "block"));;
          update phoneInput (with_required true);;
          update phoneInput (setAttribute "aria-required" (str "true"));;
          announceToScreenReader (str "Phone number field is now required")
      | _, _, _ => mret tt
      end
  end.

(** [change] on [contactEmail] *)
Definition contactEmail_change : M unit :=
  this ← elements "contactEmail";
  match this with
  | None => mret tt
  | Some this =>
      chk ← getProp this checked;
      phoneGroup ← elements "phoneGroup";
      phoneInput ← elements "phoneInput";
      match chk, phoneGroup, phoneInput with
      | true, Some phoneGroup, Some phoneInput =>
          update phoneGroup (with_display (str "none"));;
          update phoneInput (with_required false);;
          update phoneInput (setAttribute "aria-required" (str "false"));;
          phoneError ← elements "phoneError";
          clearValidation (Some phoneInput) phoneError;;
          announceToScreenReader (str "Phone number field is no longer required")
      | _, _, _ => mret tt
      end
  end.

(** [change] on [countryCode] *)
Definition countryCode_change : M unit :=
  this ← elements "countryCode";
  phoneInput ← elements "phoneInput";
  match this, phoneInput with
  | Some this, Some phoneInput =>
      opts ← getProp this options;
      i ← getProp this selectedIndex;
      match index opts i with
      | None => throw TypeError
      | Some selectedOption =>
          let placeholder := option_getAttribute "data-placeholder" selectedOption in
          if truthy placeholder then
            update phoneInput (with_placeholder (default [] placeholder));;
            phoneError ← elements "phoneError";
            clearValidation (Some phoneInput) phoneError;;
            let countryName :=
              default (str "undefined")
                (nth_error (split_on (ch " ") (o_text selectedOption)) 1) in
            announceToScreenReader (str "Country code changed to " ++ countryName)
          else mret tt
      end
  | _, _ => mret tt
  end.

(** [input] on [phoneInput] *)
Definition phoneInput_input : M unit :=
  this ← elements "phoneInput";
  match this with
  | None => mret tt
  | Some this =>
      cursorPos ← getProp this selectionStart;
      v ← getProp this value;
      let oldLength := length v in
      let cleaned := replace_class_all cls_not_digit_space v in
      update this (assign_value cleaned);;
      v' ← getProp this value;
      let newLength := length v' in
      let diff := Z.of_nat oldLength - Z.of_nat newLength in
      update this
        (setSelectionRange (Z.of_N cursorPos - diff) (Z.of_N cursorPos - diff))
  end.

(** [paste] on [phoneInput]; [pastedText] is the clipboard's text. *)
Definition phoneInput_paste (pastedText : list N) : M unit :=
  this ← elements "phoneInput";
  match this with
  | None => mret tt
  | Some this =>
      emit PreventDefault;;
      let cleaned := replace_class_all cls_not_digit_space pastedText in
      start ← getProp this selectionStart;
      end_ ← getProp this selectionEnd;
      currentValue ← getProp this value;
      update this
        (assign_value
           (substring currentValue 0 (N.to_nat start) ++ cleaned
            ++ substring_from currentValue (N.to_nat end_)));;
      let newPos := Z.of_N start + Z.of_nat (length cleaned) in
      update this (setSelectionRange newPos newPos);;
      dispatch phoneInput_input
  end.

(** *** Real-time validation (on blur) *)

Definition fieldValidators : list (string * FieldConfig) :=
  [ ("firstName",
     mkConfig (fun value => negb (is_empty (trim value)))
       (str "Please provide your first name.") None);
    ("lastName",
     mkConfig (fun value => negb (is_empty (trim value)))
       (str "Please provide your last name.") None);
    ("email",
     mkConfig (fun value => negb (is_empty (trim value)) && isValidEmail value)
       (str "Please provide a valid email address.")
       (Some (str "Please provide your email address.")));
    ("messageSubject",
     mkConfig (fun value => negb (is_empty (trim value)))
       (str "Please provide a subject.") None);
    ("message",
     mkConfig (fun value => negb (is_empty (trim value)))
       (str "Please write your message.") None) ].

(** [blur] on the field [elements[fieldName]] *)
Definition field_blur (fieldName : string) (config : FieldConfig) : M unit :=
  field ← elements fieldName;
  match field with
  | None => mret tt
  | Some this =>
      errorElement ← getElementById (fieldName ++ "Error");
      v ← getProp this value;
      if String.eqb fieldName "email" && is_empty (trim v) then
        validateField field errorElement always_false (emptyMessage config);;
        mret tt
      else
        validateField field errorElement (pure_fn (validator config))
          (Some (errorMessage config));;
        mret tt
  end.

(** [blur] on [phoneInput] *)
Definition phoneInput_blur : M unit :=
  this ← elements "phoneInput";
  match this with
  | None => mret tt
  | Some this =>
      contactPhone ← elements "contactPhone";
      chk ← is_checked contactPhone;
      if (chk : bool) then
        v ← getProp this value;
        phoneError ← elements "phoneError";
        countryCode ← elements "countryCode";
        if is_empty (trim v) then
          validateField (Some this) phoneError always_false
            (Some (str "Please provide your phone number."));;
          mret tt
        else
          validateField (Some this) phoneError
            (fun value => validatePhoneNumber value countryCode)
            (Some (str "Please provide a valid phone number for the selected country."));;
          mret tt
      else mret tt
  end.

(** The [blur] listeners the script has attached to the node [k]. *)
Definition blur_listeners (k : string) : M unit :=
  match assoc_name k fieldValidators with
  | Some config => field_blur k config
  | None => if String.eqb k "phone" then phoneInput_blur else mret tt
  end.

(** [el.focus()]: the node that loses the focus is sent [blur] first. *)
Definition focus (r : string) : M unit :=
  cur ← reading (fun st => Ok (activeElement st));
  if bool_decide (cur = Some r) then mret tt
  else
    match cur with
    | Some c => dispatch (blur_listeners c)
    | None => mret tt
    end;;
    set_focus r.

(** *** Form submission *)

(** One round of the loop over [Object.keys(fieldValidators)]; [isValid] is
    the handler's variable of that name. *)
Definition validateTextField (entry : string * FieldConfig) (isValid : bool)
  : M bool :=
  let (fieldName, config) := entry in
  field ← elements fieldName;
  errorElement ← getElementById (fieldName ++ "Error");
  match field, errorElement with
  | Some f, Some _ =>
      if String.eqb fieldName "email" then
        v ← getProp f value;
        if is_empty (trim v) then
          r ← validateField field errorElement always_false
                (emptyMessage config);
          mret (r && isValid)
        else
          r ← validateField field errorElement (pure_fn (validator config))
                (Some (errorMessage config));
          mret (r && isValid)
      else
        r ← validateField field errorElement (pure_fn (validator config))
              (Some (errorMessage config));
        mret (r && isValid)
  | _, _ => mret isValid
  end.

(** The phone block of the submit handler. *)
Definition validatePhone (isValid : bool) : M bool :=
  contactPhone ← elements "contactPhone";
  chk ← is_checked contactPhone;
  if (chk : bool) then
    phoneInput ← elements "phoneInput";
    match phoneInput with
    | None => throw TypeError
    | Some p =>
        v ← getProp p value;
        phoneError ← elements "phoneError";
        countryCode ← elements "countryCode";
        if is_empty (trim v) then
          r ← validateField phoneInput phoneError always_false
                (Some (str "Please provide your phone number."));
          mret (r && isValid)
        else
          r ← validateField phoneInput phoneError
                (fun value => validatePhoneNumber value countryCode)
                (Some (str "Please provide a valid phone number for the selected country."));
          mret (r && isValid)
    end
  else mret isValid.

(** The value of [isValid] when the handler reaches [if (isValid)]. *)
Definition validateForm : M bool :=
  isValid ← forEachAcc validateTextField fieldValidators true;
  validatePhone isValid.

(** [this.reset()] *)
Definition form_reset : M unit :=
  emit FormReset;;
  ctrls ← reading (fun st => Ok (formControls st));
  forEach (fun c => update c reset_control) ctrls.

(** The branch taken when [isValid] is true. *)
Definition submit_success : M unit :=
  modalOverlay ← elements "modalOverlay";
  match modalOverlay with
  | None => throw TypeError
  | Some m =>
      update m (with_display (str "block"));;
      update m (setAttribute "aria-hidden" (str "false"))
  end;;
  successModal ← elements "successModal";
  match successModal with
  | None => throw TypeError
  | Some m =>
      update m (with_display (str "block"));;
      update m (setAttribute "aria-hidden" (str "false"));;
      closeButton ← getProp m firstButton;
      match closeButton with
      | Some b => setTimeout (CbFocus b) 100;; mret tt
      | None => mret tt
      end
  end;;
  announceToScreenReader (str "Message sent successfully!");;
  form_reset;;
  marked ← reading (fun st =>
              Ok (with_any_class ["is-valid"; "is-invalid"] (formNodes st) st));
  forEach (fun el => update el (classList_remove "is-valid");;
                     update el (classList_remove "is-invalid");;
                     update el (removeAttribute "aria-invalid")) marked;;
  feedback ← reading (fun st =>
                Ok (with_any_class ["invalid-feedback"] (formNodes st) st));
  forEach (fun el => update el (classList_remove "d-block");;
                     update el (with_textContent [])) feedback.

(** The branch taken when [isValid] is false. *)
Definition submit_failure : M unit :=
  announceToScreenReader
    (str "Form contains errors. Please check the fields and try again.");;
  firstInvalid ← reading (fun st =>
                    Ok (head (with_any_class ["is-invalid"] (formNodes st) st)));
  match firstInvalid with
  | Some f => focus f
  | None => mret tt
  end.

(** [submit] on the form *)
Definition form_submit : M unit :=
  this ← elements "form";
  match this with
  | None => mret tt
  | Some _ =>
      emit PreventDefault;;
      emit StopPropagation;;
      isValid ← validateForm;
      if (isValid : bool) then submit_success else submit_failure
  end.

(** *** Modal management *)

Definition closeModal : M unit :=
  modalOverlay ← elements "modalOverlay";
  match modalOverlay with
  | Some m =>
      update m (with_display (str "none"));;
      update m (setAttribute "aria-hidden" (str "true"))
  | None => mret tt
  end;;
  successModal ← elements "successModal";
  match successModal with
  | Some m =>
      update m (with_display (str "none"));;
      update m (setAttribute "aria-hidden" (str "true"))
  | None => mret tt
  end;;
  form ← elements "form";
  submitButton ← match form with
                 | Some f => getProp f submitButton
                 | None => mret None
                 end;
  match submitButton with
  | Some b => focus b
  | None => mret tt
  end.

(** [click] on [modalOverlay] *)
Definition modalOverlay_click : M unit :=
  modalOverlay ← elements "modalOverlay";
  match modalOverlay with
  | Some _ => closeModal
  | None => mret tt
  end.

(** [keydown] on the document *)
Definition document_keydown (key : list N) : M unit :=
  successModal ← elements "successModal";
  match successModal with
  | Some m =>
      d ← getProp m display;
      if bool_decide (key = str "Escape") && bool_decide (d = str "block")
      then closeModal else mret tt
  | None => mret tt
  end.

(** *** Navigation *)

Definition currentSection (st : State) : list N :=
  fold_left
    (fun current section =>
       if Qle_bool (inject_Z (snd section - 200)) (scrollY st)
       then fst section else current)
    (sections st) [].

(** The body of the debounced callback. *)
Definition updateNavLinks : M unit :=
  current ← reading (fun st => Ok (currentSection st));
  links ← reading (fun st => Ok (navLinks st));
  forEach
    (fun link =>
       update link (classList_remove "active");;
       update link (removeAttribute "aria-current");;
       href ← getProp link (getAttribute "href");
       if bool_decide (href = Some (ch "#" :: current))
       then update link (classList_add "active");;
            update link (setAttribute "aria-current" (str "page"))
       else mret tt)
    links.

(** [scroll] on [window] *)
Definition window_scroll : M unit :=
  pending ← reading (fun st => Ok (scrollTimeout st));
  clearTimeout pending;;
  id ← setTimeout CbNavUpdate 100;
  (fun st => (set_scrollTimeout (Some id) st, Ok tt)) : M unit.

(** *** Timers *)

Definition run_callback (cb : Callback) : M unit :=
  match cb with
  | CbClearAnnouncer a => update a (with_textContent [])
  | CbFocus b => focus b
  | CbNavUpdate => updateNavLinks
  end.

(** The timer [id] expires: it leaves the pending list and its callback
    runs.  An id that is not pending does nothing. *)
Definition timer_fire (id : N) : M unit :=
  fun st =>
    match List.find (fun t => (fst t =? id)%N) (timers st) with
    | Some (_, (_, cb)) =>
        run_callback cb
          (set_timers (List.filter (fun t => negb (fst t =? id)%N) (timers st))
             (nextTimer st) st)
    | None => (st, Ok tt)
    end.

(** *** The page as a transition system *)

Definition handle (ev : Event) : M unit :=
  match ev with
  | UserEdit k f => update k f
  | ContactPhoneChange => contactPhone_change
  | ContactEmailChange => contactEmail_change
  | CountryCodeChange => countryCode_change
  | PhoneInput => phoneInput_input
  | PhonePaste text => phoneInput_paste text
  | Blur k => blur_listeners k
  | Submit => form_submit
  | OverlayClick => modalOverlay_click
  | Keydown key => document_keydown key
  | Scroll y => scroll_to y;; window_scroll
  | TimerFire id => timer_fire id
  end.

(** An exception ends the handler; the page stays as the handler left it. *)
Definition step (st : State) (ev : Event) : State := fst (handle ev st).

Definition run (evs : list Event) (st : State) : State := fold_left step evs st.

End Script.
End Enhanced.

(** ** The navigation listeners

    Besides the listeners of the form, of the modal and of the window, both
    variants listen to clicks on the links of the page that point into it,
    and the enhanced variant observes the sections as they scroll into
    view.  The whole script is the transition system of one variant together
    with these. *)

(** *** The section observer (enhanced variant).
    The script announces the section that scrolls into view from the
    callback of an [IntersectionObserver] (threshold 0.5) on the sections
    of the page.  An entry of the callback is modelled by what the browser
    reports in it and what the callback reads of its target. *)

Record ObserverEntry : Type := mkEntry {
  isIntersecting : bool;
  intersectionRatio : Q;
  target_id : option (list N);      (* entry.target.getAttribute('id') *)
  target_heading : option (list N)  (* text of the target's first h1, h2
                                       or h3, if it has one *)
}.

(** One round of the callback's loop; [lastSection] is the script's
    variable of that name, and the result is its new value. *)
Definition observe_entry (entry : ObserverEntry) (lastSection : list N)
  : M (list N) :=
  if isIntersecting entry
     && negb (Qle_bool (intersectionRatio entry) (1 # 2)) then
    let sectionId := target_id entry in
    if truthy sectionId
       && negb (bool_decide (default [] sectionId = lastSection)) then
      match target_heading entry with
      | Some text =>
          Enhanced.announceToScreenReader
            (str "Navigated to " ++ text ++ str " section")
      | None => mret tt
      end;;
      mret (default [] sectionId)
    else mret lastSection
  else mret lastSection.

(** The callback of the observer. *)
Definition observer_callback (entries : list ObserverEntry)
    (lastSection : list N) : M (list N) :=
  forEachAcc observe_entry entries lastSection.

(** *** Clicks on the links into the page

    Both variants attach a [click] listener to every node that matches
    [a[href^="#"]] when the script is loaded.  The selector language of
    [document.querySelector] is the browser's, and so is the tree a
    selector is matched against: the script only hands the string over.
    [None] stands for the [SyntaxError] of a selector that is not valid,
    [Some None] for [null]. *)
Class SelectorEngine : Type :=
  querySelector : list N -> State -> option (option string).

Definition query `{selectors : SelectorEngine} (selector : list N)
  : M (option string) :=
  fun st =>
    match querySelector selector st with
    | Some target => (st, Ok target)
    | None => (st, Throw SyntaxError)
    end.

(** What [bootstrap.Offcanvas.getInstance(offcanvasEl)] answers: the
    library is not loaded (the name [bootstrap] is not defined), it has no
    instance for the node, or it has one.  What [hide] does to the page is
    the library's own business and not part of the script; the call is
    logged. *)
Inductive Bootstrap : Type := NotLoaded | NoInstance | Instance.

(** Close offcanvas if open *)
Definition offcanvas_hide (offcanvas : Bootstrap) : M unit :=
  offcanvasEl ← getElementById "offcanvasNavbar";
  match offcanvasEl with
  | Some _ =>
      match offcanvas with
      | NotLoaded => throw ReferenceError
      | NoInstance => mret tt
      | Instance => emit OffcanvasHide
      end
  | None => mret tt
  end.

(** [click] on a link [anchor] into the page, baseline variant.  A missing
    [href] attribute reads as [null], which [querySelector] takes as the
    selector [null].  [scrollIntoView] with smooth behaviour only starts
    the scroll: the call is logged, and the [scroll] events that follow
    are events of their own. *)
Definition baseline_anchor_click `{selectors : SelectorEngine}
    (anchor : string) (offcanvas : Bootstrap) : M unit :=
  emit PreventDefault;;
  href ← getProp anchor (getAttribute "href");
  target ← query (default (str "null") href);
  match target with
  | Some t =>
      emit (ScrollIntoView t);;
      offcanvas_hide offcanvas
  | None => mret tt
  end.

(** What can happen to the whole page: an event of the listeners above, a
    click on a link into the page, or a batch of entries of the section
    observer. *)
Inductive PageEvent : Type :=
| Listened (ev : Event)
| AnchorClick (anchor : string) (offcanvas : Bootstrap)
| Intersection (entries : list ObserverEntry).

(** *** The baseline variant as a whole: it has no section observer. *)

Definition baseline_page_handle `{engine : RegExpEngine}
    `{selectors : SelectorEngine} (ev : PageEvent) : M unit :=
  match ev with
  | Listened ev => Baseline.handle ev
  | AnchorClick anchor offcanvas => baseline_anchor_click anchor offcanvas
  | Intersection _ => mret tt
  end.

Definition baseline_page_step `{engine : RegExpEngine}
    `{selectors : SelectorEngine} (st : State) (ev : PageEvent) : State :=
  fst (baseline_page_handle ev st).

Definition baseline_page_run `{engine : RegExpEngine}
    `{selectors : SelectorEngine} (evs : list PageEvent) (st : State)
  : State :=
  fold_left baseline_page_step evs st.

(** *** The enhanced variant as a whole

    The navigation listeners of the enhanced variant keep state of their
    own: the timers that move the focus to a section once the page has
    scrolled there (kept apart from the timers above, with ids from the same
    counter), the nodes that carry the one-time [blur] listener which takes
    the [tabindex] attribute off again, and the observer's [lastSection].
    [headings] is the tree as these listeners query it. *)
Record Page : Type := mkPage {
  page_state : State;
  headings : gmap string string;          (* target.querySelector('h1, h2, h3') *)
  focusTimers : list (N * (nat * string)); (* pending: id, delay, target *)
  blurOnce : gset string;                 (* { once: true } blur listeners *)
  lastSection : list N
}.

Definition set_page_state (st : State) (pg : Page) : Page :=
  mkPage st (headings pg) (focusTimers pg) (blurOnce pg) (lastSection pg).

Definition set_focusTimers (t : list (N * (nat * string))) (pg : Page) : Page :=
  mkPage (page_state pg) (headings pg) t (blurOnce pg) (lastSection pg).

Definition set_blurOnce (b : gset string) (pg : Page) : Page :=
  mkPage (page_state pg) (headings pg) (focusTimers pg) b (lastSection pg).

Definition set_lastSection (l : list N) (pg : Page) : Page :=
  mkPage (page_state pg) (headings pg) (focusTimers pg) (blurOnce pg) l.

(** Handlers over the whole page. *)
Definition PM (A : Type) : Type := Page -> Page * res A.

#[global] Instance PM_ret : MRet PM := fun A a pg => (pg, Ok a).
#[global] Instance PM_bind : MBind PM := fun A B f m pg =>
  match m pg with
  | (pg', Ok a) => f a pg'
  | (pg', Throw e) => (pg', Throw e)
  end.

(** A handler of the listeners above, run on the whole page. *)
Definition lift {A : Type} (m : M A) : PM A :=
  fun pg => (set_page_state (fst (m (page_state pg))) pg,
             snd (m (page_state pg))).

Definition page_reading {A : Type} (f : Page -> A) : PM A :=
  fun pg => (pg, Ok (f pg)).

(** [setTimeout(() => { ... target ... }, delay)] of the click listener *)
Definition setFocusTimeout (target : string) (delay : nat) : PM N :=
  fun pg =>
    let st := page_state pg in
    (set_focusTimers (focusTimers pg ++ [(nextTimer st, (delay, target))])
       (set_page_state (set_timers (timers st) (N.succ (nextTimer st)) st) pg),
     Ok (nextTimer st)).

(** The one-time [blur] listener of the node [k], if it carries one:
    [this.removeAttribute('tabindex')]. *)
Definition blur_once (k : string) : PM unit :=
  fun pg =>
    if decide (k ∈ blurOnce pg) then
      (set_blurOnce (blurOnce pg ∖ {[ k ]})
         (set_page_state
            (fst (update k (removeAttribute "tabindex") (page_state pg))) pg),
       Ok tt)
    else (pg, Ok tt).

(** [focusTarget.addEventListener('blur', ..., { once: true })] *)
Definition add_blur_once (k : string) : PM unit :=
  fun pg => (set_blurOnce ({[ k ]} ∪ blurOnce pg) pg, Ok tt).

(** [el.focus()] on the whole page: the node that loses the focus is sent
    [blur], which runs the listeners attached when the script was loaded
    and then the one-time listener. *)
Definition page_focus `{engine : RegExpEngine} (r : string) : PM unit :=
  cur ← page_reading (fun pg => activeElement (page_state pg));
  if bool_decide (cur = Some r) then mret tt
  else
    match cur with
    | Some c => lift (dispatch (Enhanced.blur_listeners c));; blur_once c
    | None => mret tt
    end;;
    lift (set_focus r).

(** The callback of the click listener's timer: set focus to the target
    section after the scroll. *)
Definition focus_target `{engine : RegExpEngine} (target : string) : PM unit :=
  heading ← page_reading (fun pg => headings pg !! target);
  let focusTarget := default target heading in
  hadTabindex ← lift (getProp focusTarget
                        (fun e => bool_decide (is_Some (getAttribute "tabindex" e))));
  (if hadTabindex : bool then mret tt
   else lift (update focusTarget (setAttribute "tabindex" (str "-1"))));;
  page_focus focusTarget;;
  if hadTabindex : bool then mret tt else add_blur_once focusTarget.

(** [click] on a link [anchor] into the page, enhanced variant *)
Definition enhanced_anchor_click `{selectors : SelectorEngine}
    (anchor : string) (offcanvas : Bootstrap) : PM unit :=
  href ← lift (getProp anchor (getAttribute "href"));
  if negb (truthy href) || bool_decide (href = Some (str "#")) then mret tt
  else
    lift (emit PreventDefault);;
    target ← lift (query (default [] href));
    match target with
    | Some t =>
        lift (emit (ScrollIntoView t));;
        setFocusTimeout t 500;;
        lift (offcanvas_hide offcanvas)
    | None => mret tt
    end.

(** The node that is sent [blur] in the course of an event of the
    listeners above: the node of a [blur] event, or the node the focus has
    moved away from (a handler moves the focus as its last step, if at
    all). *)
Definition blurred (ev : Event) (before after : option string)
  : option string :=
  match ev with
  | Blur k => Some k
  | _ =>
      match before with
      | Some c => if bool_decide (after = Some c) then None else Some c
      | None => None
      end
  end.

(** An event of the listeners above on the whole page: what the handler
    throws ends the handler, and the one-time [blur] listener of the node
    that was sent [blur] runs. *)
Definition page_listened `{engine : RegExpEngine} (ev : Event) : PM unit :=
  before ← page_reading (fun pg => activeElement (page_state pg));
  lift (dispatch (Enhanced.handle ev));;
  after ← page_reading (fun pg => activeElement (page_state pg));
  match blurred ev before after with
  | Some c => blur_once c
  | None => mret tt
  end.

(** The timer [id] expires. *)
Definition page_timer_fire `{engine : RegExpEngine} (id : N) : PM unit :=
  fun pg =>
    match List.find (fun t => (fst t =? id)%N) (focusTimers pg) with
    | Some (_, (_, target)) =>
        focus_target target
          (set_focusTimers
             (List.filter (fun t => negb (fst t =? id)%N) (focusTimers pg)) pg)
    | None => page_listened (TimerFire id) pg
    end.

(** A batch of entries reaches the observer's callback. *)
Definition page_intersection (entries : list ObserverEntry) : PM unit :=
  fun pg =>
    match observer_callback entries (lastSection pg) (page_state pg) with
    | (st, Ok section) => (set_lastSection section (set_page_state st pg), Ok tt)
    | (st, Throw e) => (set_page_state st pg, Throw e)
    end.

Definition page_handle `{engine : RegExpEngine} `{selectors : SelectorEngine}
    (ev : PageEvent) : PM unit :=
  match ev with
  | Listened (TimerFire id) => page_timer_fire id
  | Listened ev => page_listened ev
  | AnchorClick anchor offcanvas => enhanced_anchor_click anchor offcanvas
  | Intersection entries => page_intersection entries
  end.

Definition page_step `{engine : RegExpEngine} `{selectors : SelectorEngine}
    (pg : Page) (ev : PageEvent) : Page :=
  fst (page_handle ev pg).

Definition page_run `{engine : RegExpEngine} `{selectors : SelectorEngine}
    (evs : list PageEvent) (pg : Page) : Page :=
  fold_left page_step evs pg.

(** The page before any event, on the document [st]. *)
Definition page_loaded (st : State) (tree : gmap string string) : Page :=
  mkPage st tree [] ∅ [].

(** ** A reference engine for a fragment of the pattern language

    Enough of [new RegExp(pattern).test(s)] to run the script on concrete
    documents: an optional [^], a sequence of atoms ([\d], [\s], [[0-9]],
    [.], an escaped or plain character), each with an optional quantifier
    ([*], [+], [?], [{n}], [{n,}], [{n,m}]), and an optional [$].  On this
    fragment it answers as the browser does; any other pattern is refused
    ([None]). *)

Definition is_special (c : N) : bool :=
  existsb (N.eqb c)
    [ch "^"; ch "$"; ch "\"; ch "."; ch "*"; ch "+"; ch "?"; ch "(";
     ch ")"; ch "["; ch "]"; ch "{"; ch "}"; ch "|"].

Definition is_alnum (c : N) : bool :=
  (is_digit c || (65 <=? c) && (c <=? 90) || (97 <=? c) && (c <=? 122))%N.

(** [.] without the [s] flag: anything but a line terminator *)
Definition cls_dot (c : N) : bool :=
  negb ((c =? 10) || (c =? 13) || (c =? 8232) || (c =? 8233))%N.

Fixpoint parse_digits (s : list N) (acc : option nat) : option nat * list N :=
  match s with
  | c :: s' =>
      if is_digit c
      then parse_digits s' (Some (10 * default O acc + N.to_nat (c - 48))%nat)
      else (acc, s)
  | [] => (acc, s)
  end.

Definition parse_atom (s : list N) : option (regex * list N) :=
  match s with
  | [] => None
  | c :: s' =>
      if (c =? ch "\")%N then
        match s' with
        | e :: s'' =>
            if (e =? ch "d")%N then Some (ReClass is_digit, s'')
            else if (e =? ch "s")%N then Some (ReClass is_space, s'')
            else if is_alnum e then None
            else Some (ReChar e, s'')
        | [] => None
        end
      else if (c =? ch ".")%N then Some (ReClass cls_dot, s')
      else if (c =? ch "[")%N then
        match s' with
        | a :: d :: b :: k :: s'' =>
            if ((a =? ch "0") && (d =? ch "-") && (b =? ch "9")
                && (k =? ch "]"))%N
            then Some (ReClass is_digit, s'') else None
        | _ => None
        end
      else if is_special c then None
      else Some (ReChar c, s')
  end.

Definition parse_quantifier (r : regex) (s : list N) : option (regex * list N) :=
  match s with
  | c :: s' =>
      if (c =? ch "*")%N then Some (ReStar r, s')
      else if (c =? ch "+")%N then Some (RePlus r, s')
      else if (c =? ch "?")%N then Some (ReOpt r, s')
      else if (c =? ch "{")%N then
        match parse_digits s' None with
        | (Some n, c1 :: s1) =>
            if (c1 =? ch "}")%N then Some (RePow n r, s1)
            else if (c1 =? ch ",")%N then
              match parse_digits s1 None with
              | (None, c2 :: s2) =>
                  if (c2 =? ch "}")%N
                  then Some (ReSeq (RePow n r) (ReStar r), s2) else None
              | (Some m, c2 :: s2) =>
                  if ((c2 =? ch "}")%N && (n <=? m)%nat)%bool
                  then Some (ReSeq (RePow n r) (ReUpTo (m - n) r), s2)
                  else None
              | _ => None
              end
            else None
        | _ => None
        end
      else Some (r, s)
  | [] => Some (r, s)
  end.

Fixpoint parse_body (fuel : nat) (s : list N) : option (regex * bool) :=
  match fuel with
  | O => None
  | S fuel' =>
      match s with
      | [] => Some (ReEps, false)
      | c :: s' =>
          if ((c =? ch "$")%N && is_empty s')%bool then Some (ReEps, true)
          else
            match parse_atom s with
            | None => None
            | Some (a, s1) =>
                match parse_quantifier a s1 with
                | None => None
                | Some (q, s2) =>
                    match parse_body fuel' s2 with
                    | None => None
                    | Some (r, anchored) => Some (ReSeq q r, anchored)
                    end
                end
            end
      end
  end.

Definition parse_pattern (p : list N) : option RegExpObj :=
  let (anchored_start, body) :=
    match p with
    | c :: p' => if (c =? ch "^")%N then (true, p') else (false, p)
    | [] => (false, p)
    end in
  match parse_body (S (length body)) body with
  | Some (r, anchored_end) => Some (mkRegExp anchored_start r anchored_end)
  | None => None
  end.

Definition fragment_engine : RegExpEngine :=
  fun pattern subject =>
    match parse_pattern pattern with
    | Some r => Some (regexp_test r subject)
    | None => None
    end.

(** ** A sample page

    A document with every node the script looks up, used to run the
    handlers on concrete input. *)

Definition text_input (v : list N) : Element := with_value v blank.

Definition feedback_div (text : list N) : Element :=
  with_textContent text (classList_add "invalid-feedback" blank).

Definition radio (b : bool) : Element :=
  mkElement [] [] true b b ∅ ∅ [] [] false [] 0 0 [] (-1) (-1) None None.

Definition hidden_div : Element := with_display (str "none") blank.

Definition nav_link (href : list N) : Element :=
  setAttribute "href" href (classList_add "nav-link" blank).

Definition swiss_option : OptionEl :=
  mkOption (<["data-pattern" := str "^\d{9}$"]>
             (<["data-placeholder" := str "79 123 45 67"]> ∅))
    (str "CH Switzerland (+41)").

(** An option without a [data-pattern] attribute. *)
Definition plain_option : OptionEl :=
  mkOption (<["data-placeholder" := str "Number"]> ∅) (str "XX Other").

(** An option whose pattern also accepts no digits at all. *)
Definition lax_option : OptionEl :=
  mkOption (<["data-pattern" := str "^\d*$"]> ∅) (str "YY Any").

(** An option whose [data-pattern] attribute is present and empty. *)
Definition empty_pattern_option : OptionEl :=
  mkOption (<["data-pattern" := []]> ∅) (str "ZZ None").

Definition country_options : list OptionEl :=
  [swiss_option; plain_option; lax_option; empty_pattern_option].

Definition country_select (i : Z) : Element :=
  mkElement [] [] true false false ∅ ∅ [] [] false [] 0 0
    country_options i 0 None None.

Definition form_node : Element :=
  mkElement [] [] true false false ∅ ∅ [] [] false [] 0 0 [] (-1) (-1)
    None (Some "submitButton").

Definition modal_node : Element :=
  mkElement [] [] true false false ∅ ∅ [] (str "none") false [] 0 0 []
    (-1) (-1) (Some "closeButton") None.

Definition sample_nodes
    (firstName lastName email subject message phone : list N)
    (byPhone : bool) (country : Z) : list (string * Element) :=
  [ ("contactEmail", radio (negb byPhone));
    ("contactPhone", radio byPhone);
    ("phone-group", hidden_div);
    ("phone", text_input phone);
    ("countryCode", country_select country);
    ("phoneError", feedback_div (str "Phone number required."));
    ("firstName", text_input firstName);
    ("lastName", text_input lastName);
    ("email", text_input email);
    ("messageSubject", text_input subject);
    ("message", with_value message (radio false));
    ("firstNameError", feedback_div (str "Required."));
    ("lastNameError", feedback_div (str "Required."));
    ("emailError", feedback_div (str "Required."));
    ("messageSubjectError", feedback_div (str "Required."));
    ("messageError", feedback_div (str "Required."));
    ("contactForm", form_node);
    ("submitButton", blank);
    ("successModal", modal_node);
    ("closeButton", blank);
    ("modalOverlay", hidden_div);
    ("status-announcer", blank);
    ("navHome", nav_link (str "#home"));
    ("navContact", nav_link (str "#contact")) ].

(** The page with the given nodes. *)
Definition page_of (nodes : list (string * Element)) : State :=
  mkState (list_to_map nodes)
    ["firstName"; "lastName"; "email"; "contactEmail"; "contactPhone";
     "countryCode"; "phone"; "messageSubject"; "message"]
    ["firstName"; "firstNameError"; "lastName"; "lastNameError"; "email";
     "emailError"; "contactEmail"; "contactPhone"; "phone-group";
     "countryCode"; "phone"; "phoneError"; "messageSubject";
     "messageSubjectError"; "message"; "messageError"; "submitButton"]
    ["navHome"; "navContact"]
    [(str "home", 0); (str "contact", 900)]
    0 [] 1 None None [].

(** The page with the given field values, contact method and selected
    country option. *)
Definition sample_page (firstName lastName email subject message phone : list N)
    (byPhone : bool) (country : Z) : State :=
  page_of (sample_nodes firstName lastName email subject message phone
             byPhone country).

(** The same page without the node of the given id. *)
Definition sample_page_without (id : string)
    (firstName lastName email subject message phone : list N)
    (byPhone : bool) (country : Z) : State :=
  page_of (List.filter (fun kv => negb (String.eqb (fst kv) id))
             (sample_nodes firstName lastName email subject message phone
                byPhone country)).

(** ** A reference engine for id selectors

    [#name] selects the node of the id [name], where [name] is made of
    ASCII letters, digits, hyphens and underscores and starts with a letter
    or an underscore.  Every other selector is refused: the engine is used
    on id selectors only. *)

Definition is_name_start (c : N) : bool :=
  ((65 <=? c) && (c <=? 90) || (97 <=? c) && (c <=? 122) || (c =? 95))%N.

Definition is_name_char (c : N) : bool :=
  is_name_start c || is_digit c || (c =? 45)%N.

Definition key_of (s : list N) : string :=
  string_of_list_ascii (map ascii_of_N s).

Definition id_selectors : SelectorEngine :=
  fun selector st =>
    match selector with
    | 35%N :: c :: name =>
        if is_name_start c && forallb is_name_char name then
          Some (match doc st !! key_of (c :: name) with
                | Some _ => Some (key_of (c :: name))
                | None => None
                end)
        else None
    | _ => None
    end.

(** The page [st] with one more node. *)
Definition with_node (k : string) (e : Element) (st : State) : State :=
  set_doc (<[ k := e ]> (doc st)) st.

(** The sample page with the section its second nav link points to, the
    heading of that section and the offcanvas menu, before any event. *)
Definition sample_site : Page :=
  page_loaded
    (with_node "contact" blank
       (with_node "contactHeading" blank
          (with_node "offcanvasNavbar" blank
             (sample_page [] [] [] [] [] [] false 0))))
    {[ "contact" := "contactHeading" ]}.

(** ** Vocabulary of the properties *)

Definition has_class (st : State) (k c : string) : Prop :=
  c ∈ classList (node st k).

(** A value with at least one character that is not white space. *)
Definition nonblank (v : list N) : Prop := is_empty (trim v) = false.

(** A node without its validation feedback: the class list, the attributes
    and the text are what the validation code writes. *)
Definition feedback_free (e : Element) : Element :=
  with_classList ∅ (with_attrs ∅ (with_textContent [] e)).

(** [st'] differs from [st] at most in validation feedback: no node has
    come or gone, and every node has kept its value, its checked and
    selected state, its display and all the rest. *)
Definition only_feedback_changed (st st' : State) : Prop :=
  (∀ k, feedback_free <$> doc st' !! k = feedback_free <$> doc st !! k)
  ∧ formControls st' = formControls st
  ∧ formNodes st' = formNodes st
  ∧ navLinks st' = navLinks st
  ∧ sections st' = sections st
  ∧ scrollY st' = scrollY st.

(** A property of the page that validation feedback cannot break: it
    survives every change of a node's classes, attributes or text, every
    new timer and every move of the focus. *)
Definition feedback_stable (R : State → Prop) : Prop :=
  (∀ k f, (∀ e, feedback_free (f e) = feedback_free e) →
          ∀ st, R st → R (fst (update k f st)))
  ∧ (∀ cb d st, R st → R (fst (setTimeout cb d st)))
  ∧ (∀ r st, R st → R (fst (set_focus r st))).

(** The signature of either variant's [validateField]. *)
Definition ValidateField : Type :=
  option string -> option string -> ValidationFn -> option (list N) -> M bool.

(** What [validateField] does on a rejected and on an accepted value when
    both nodes are there; the error text is replaced when a message that is
    not empty is given. *)
Definition reports_inline (validateField : ValidateField) : Prop :=
  ∀ (st : State) (field errorElement : string) (validationFn : ValidationFn)
    (errorMessage : option (list N)),
    is_Some (doc st !! field) →
    is_Some (doc st !! errorElement) →
    let out :=
      validateField (Some field) (Some errorElement) validationFn
        errorMessage st in
    (validationFn (value (node st field)) st = Ok false →
     snd out = Ok false
     ∧ has_class (fst out) field "is-invalid"
     ∧ ¬ has_class (fst out) field "is-valid"
     ∧ has_class (fst out) errorElement "d-block"
     ∧ textContent (node (fst out) errorElement)
       = (if truthy errorMessage then default [] errorMessage
          else textContent (node st errorElement))
     ∧ log (fst out) = log st
     ∧ timers (fst out) = timers st
     ∧ only_feedback_changed st (fst out))
    ∧ (validationFn (value (node st field)) st = Ok true →
       snd out = Ok true
       ∧ ¬ has_class (fst out) field "is-invalid"
       ∧ has_class (fst out) field "is-valid"
       ∧ ¬ has_class (fst out) errorElement "d-block"
       ∧ log (fst out) = log st
       ∧ timers (fst out) = timers st
       ∧ only_feedback_changed st (fst out)).

(** *** What the submit handler decides

    The verdict of validation as a function of the page: one test per entry
    of [fieldValidators] whose field and error node both exist, then the
    phone test when the phone method is ticked.  Both variants are proved to
    compute exactly this ([validateForm_baseline], [validateForm_enhanced]). *)

Definition field_ok (entry : string * FieldConfig) (st : State) : bool :=
  match doc st !! fst entry, doc st !! (fst entry ++ "Error")%string with
  | Some f, Some _ => validator (snd entry) (value f)
  | _, _ => true
  end.

Definition fields_ok (l : list (string * FieldConfig)) (st : State) : bool :=
  forallb (fun entry => field_ok entry st) l.

Definition phone_checked (st : State) : bool :=
  match doc st !! "contactPhone" with
  | Some c => checked c
  | None => false
  end.

Definition countryCode_ref (st : State) : option string :=
  match doc st !! "countryCode" with Some _ => Some "countryCode" | None => None end.

Definition phone_ok `{engine : RegExpEngine} (st : State) : res bool :=
  if phone_checked st then
    match doc st !! "phone" with
    | None => Throw TypeError
    | Some p =>
        match doc st !! "phoneError" with
        | None => Ok true
        | Some _ =>
            if is_empty (trim (value p)) then Ok false
            else Baseline.validatePhoneNumber (value p) (countryCode_ref st) st
        end
    end
  else Ok true.

Definition form_verdict `{engine : RegExpEngine} (st : State) : res bool :=
  match phone_ok st with
  | Ok r => Ok (r && fields_ok Baseline.fieldValidators st)
  | Throw e => Throw e
  end.

(** A validator that the submit handler runs rejects the value it is
    given: the validator of a text field that is there with its error node
    or, when the phone method is ticked and the phone input and its error
    node are there, the phone check, on a blank value or on one that
    [validatePhoneNumber] rejects.  (The two variants have the same
    validators.) *)
Definition field_rejected (st : State) (entry : string * FieldConfig) : Prop :=
  ∃ f, doc st !! fst entry = Some f
       ∧ is_Some (doc st !! (fst entry ++ "Error")%string)
       ∧ validator (snd entry) (value f) = false.

Definition phone_rejected `{engine : RegExpEngine} (st : State) : Prop :=
  phone_checked st = true
  ∧ ∃ p, doc st !! "phone" = Some p
         ∧ is_Some (doc st !! "phoneError")
         ∧ (is_empty (trim (value p)) = true
            ∨ Baseline.validatePhoneNumber (value p) (countryCode_ref st) st
              = Ok false).

Definition a_validator_fails `{engine : RegExpEngine} (st : State) : Prop :=
  (∃ entry, In entry Baseline.fieldValidators ∧ field_rejected st entry)
  ∨ phone_rejected st.

(** What the loop over [fieldValidators] relies on: the field is looked up
    under its own name, and the email validator rejects a blank value (so
    the two email branches agree on the verdict). *)
Definition entry_wf (entry : string * FieldConfig) : Prop :=
  assoc_name (fst entry) element_ids = Some (fst entry)
  ∧ (fst entry = "email" →
     ∀ v, is_empty (trim v) = true → validator (snd entry) v = false).

(** The page as the submit handler finds it after its first two calls. *)
Definition entered (st : State) : State :=
  set_log (log st ++ [PreventDefault; StopPropagation]) st.

(** *** Outcomes of a submit event, from [st] to [st'] *)

(** The success modal and its overlay are displayed and the form has been
    reset (once). *)
Definition shown_and_reset (st st' : State) : Prop :=
  display (node st' "successModal") = str "block"
  ∧ display (node st' "modalOverlay") = str "block"
  ∧ log st' = log st ++ [PreventDefault; StopPropagation; FormReset].

(** The default action and the propagation were stopped, the form was not
    reset, and nothing but validation feedback has changed: every value,
    every checked state, every selection and every display (that of the
    modal too) is as before. *)
Definition blocked (st st' : State) : Prop :=
  log st' = log st ++ [PreventDefault; StopPropagation]
  ∧ only_feedback_changed st st'.

(** The page right after the success branch has shown the modal and
    reset the form, [l] being the log at that point. *)
Definition success_state (l : list Effect) (st : State) : Prop :=
  display (node st "successModal") = str "block"
  ∧ display (node st "modalOverlay") = str "block"
  ∧ log st = l.

(** *** The conditions of a successful submission *)

Definition field_value (st : State) (k : string) : list N := value (node st k).

(** The option of the country selector that is selected, if any. *)
Definition selected_option (st : State) : option OptionEl :=
  match doc st !! "countryCode" with
  | Some cc => index (options cc) (selectedIndex cc)
  | None => None
  end.

(** Every node the submit handler refers to by name is in the document
    (the two radio buttons and the country selector may be missing). *)
Definition page_complete (st : State) : Prop :=
  Forall (λ id, is_Some (doc st !! id))
    ["contactForm"; "firstName"; "firstNameError"; "lastName";
     "lastNameError"; "email"; "emailError"; "messageSubject";
     "messageSubjectError"; "message"; "messageError"; "phone"; "phoneError";
     "successModal"; "modalOverlay"].

Definition text_fields_filled (st : State) : Prop :=
  nonblank (field_value st "firstName")
  ∧ nonblank (field_value st "lastName")
  ∧ nonblank (field_value st "email")
  ∧ Baseline.isValidEmail (field_value st "email") = true
  ∧ nonblank (field_value st "messageSubject")
  ∧ nonblank (field_value st "message").

(** The condition as the specification words it: the phone value is not
    the empty string and, separators removed, matches the regular
    expression in the [data-pattern] attribute of the selected option. *)
Definition submission_as_claimed `{engine : RegExpEngine} (st : State) : Prop :=
  text_fields_filled st
  ∧ (phone_checked st = true →
     field_value st "phone" ≠ []
     ∧ ∃ opt p,
         selected_option st = Some opt
         ∧ option_getAttribute "data-pattern" opt = Some p
         ∧ RegExp_test p
             (replace_class_all cls_separator (field_value st "phone"))
           = Some true).

(** The condition the handlers implement: the phone value is not blank
    and the attribute is not empty. *)
Definition submission_accepted `{engine : RegExpEngine} (st : State) : Prop :=
  text_fields_filled st
  ∧ (phone_checked st = true →
     nonblank (field_value st "phone")
     ∧ ∃ opt p,
         selected_option st = Some opt
         ∧ option_getAttribute "data-pattern" opt = Some p
         ∧ p ≠ []
         ∧ RegExp_test p
             (replace_class_all cls_separator (field_value st "phone"))
           = Some true).

(** Every value, checked state and selection of the page is as before. *)
Definition same_field_values (st st' : State) : Prop :=
  ∀ k, value (node st' k) = value (node st k)
       ∧ checked (node st' k) = checked (node st k)
       ∧ selectedIndex (node st' k) = selectedIndex (node st k).

(** When a submit event ends in success, for either variant. *)
Definition succeeds `{engine : RegExpEngine} (st : State) : Prop :=
  is_Some (doc st !! "contactForm")
  ∧ form_verdict st = Ok true
  ∧ is_Some (doc st !! "modalOverlay")
  ∧ is_Some (doc st !! "successModal").

(** A text made of digits and white space only. *)
Definition digits_and_spaces (v : list N) : Prop :=
  Forall (λ c, is_digit c || is_space c = true) v.

(** *** The first-name field *)

(** The first-name field is there with a blank value, and so is its error
    node. *)
Definition first_name_blank (st : State) : Prop :=
  ∃ f, doc st !! "firstName" = Some f
       ∧ is_empty (trim (value f)) = true
       ∧ is_Some (doc st !! "firstNameError").

(** The first-name field is marked invalid and its error text shows. *)
Definition first_name_flagged (st : State) : Prop :=
  has_class st "firstName" "is-invalid"
  ∧ has_class st "firstNameError" "d-block"
  ∧ textContent (node st "firstNameError")
    = str "Please provide your first name.".

Definition first_name_rejected (st : State) : Prop :=
  first_name_blank st ∧ first_name_flagged st.

(** *** Timers *)

Definition is_nav_update (t : N * (nat * Callback)) : bool :=
  match snd (snd t) with CbNavUpdate => true | _ => false end.

(** The pending timers whose callback is the nav-link update. *)
Definition pending_nav_updates (st : State) : list (N * (nat * Callback)) :=
  List.filter is_nav_update (timers st).

(** The pending timers with any other callback. *)
Definition other_timers (st : State) : list (N * (nat * Callback)) :=
  List.filter (λ t, negb (is_nav_update t)) (timers st).

(** What holds of the timers between events: ids are not reused, the
    script's [scrollTimeout] holds an id that was handed out, and the
    pending timer of that id, if there is one, is a nav-link update and the
    only one. *)
Definition timers_ok (st : State) : Prop :=
  Forall (λ t, (fst t < nextTimer st)%N) (timers st)
  ∧ NoDup (map fst (timers st))
  ∧ (∀ i, scrollTimeout st = Some i → (i < nextTimer st)%N)
  ∧ Forall (λ t, is_nav_update t = true ↔ scrollTimeout st = Some (fst t))
      (timers st).

(** Every timer pending in [st0] is still pending. *)
Definition timers_kept (st0 st : State) : Prop :=
  ∀ t, In t (timers st0) → In t (timers st).

(** Dropping the timer of one id. *)
Definition drop_timer (i : N) (st : State) : State :=
  set_timers (List.filter (fun t => negb (fst t =? i)%N) (timers st))
    (nextTimer st) st.

Definition cleared (id : option N) (st : State) : State :=
  match id with Some i => drop_timer i st | None => st end.

Definition pending (t : N * (nat * Callback)) (st : State) : Prop :=
  In t (timers st).

Definition same_timers_and_focus (st0 st : State) : Prop :=
  timers st = timers st0 ∧ nextTimer st = nextTimer st0
  ∧ scrollTimeout st = scrollTimeout st0
  ∧ activeElement st = activeElement st0.

(** ** Navigation *)

Definition scrolled_past (y : Q) (section : list N * Z) : bool :=
  Qle_bool (inject_Z (snd section - 200)) y.

Definition section_at (secs : list (list N * Z)) (y : Q) : list N :=
  default [] (last (map fst (List.filter (scrolled_past y) secs))).

Definition links_marked (marked : Element → Element → Prop) (st st' : State)
  : Prop :=
  ∀ k, match doc st !! k with
       | None => doc st' !! k = None
       | Some e =>
           ∃ e', doc st' !! k = Some e'
                 ∧ (k ∈ navLinks st → marked e e')
                 ∧ (k ∉ navLinks st → e' = e)
       end.

Definition points_to (current : list N) (e : Element) : Prop :=
  getAttribute "href" e = Some (ch "#" :: current).

Definition baseline_marked (current : list N) (e e' : Element) : Prop :=
  feedback_free e' = feedback_free e
  ∧ textContent e' = textContent e
  ∧ attrs e' = attrs e
  ∧ (∀ c, c ≠ "active" → c ∈ classList e' ↔ c ∈ classList e)
  ∧ ("active" ∈ classList e' ↔ points_to current e).

Definition enhanced_marked (current : list N) (e e' : Element) : Prop :=
  feedback_free e' = feedback_free e
  ∧ textContent e' = textContent e
  ∧ (∀ a, a ≠ "aria-current" → attrs e' !! a = attrs e !! a)
  ∧ (∀ c, c ≠ "active" → c ∈ classList e' ↔ c ∈ classList e)
  ∧ ("active" ∈ classList e' ↔ points_to current e)
  ∧ (getAttribute "aria-current" e' = Some (str "page") ↔ points_to current e)
  ∧ (getAttribute "aria-current" e' = None ↔ ¬ points_to current e).

Definition same_but_doc (st st' : State) : Prop :=
  set_doc (doc st) st' = st.

Definition mark_baseline (current : list N) (e : Element) : Element :=
  let e1 := classList_remove "active" e in
  if bool_decide (getAttribute "href" e1 = Some (ch "#" :: current))
  then classList_add "active" e1 else e1.

Definition mark_enhanced (current : list N) (e : Element) : Element :=
  let e1 := removeAttribute "aria-current" (classList_remove "active" e) in
  if bool_decide (getAttribute "href" e1 = Some (ch "#" :: current))
  then setAttribute "aria-current" (str "page") (classList_add "active" e1)
  else e1.

Definition mark_all (mark : Element → Element) (links : list string)
    (d : gmap string Element) : gmap string Element :=
  fold_left (λ d k, alter mark k d) links d.

(** ** The success modal *)

(** [el.style.display = 'none'], and the same with the [aria-hidden]
    attribute of the enhanced variant. *)
Definition hide : Element → Element := with_display (str "none").

Definition hide_aria (e : Element) : Element :=
  setAttribute "aria-hidden" (str "true") (with_display (str "none") e).

(** The node [k] is hidden. *)
Definition hidden (k : string) (st : State) : Prop :=
  display (node st k) = str "none".

Definition hidden_aria (k : string) (st : State) : Prop :=
  display (node st k) = str "none"
  ∧ getAttribute "aria-hidden" (node st k) = Some (str "true").

(** The two nodes of the success modal. *)
Definition modal_nodes : list string := ["modalOverlay"; "successModal"].

(** Nothing but the display of a node differs between the documents of
    [st] and [st']. *)
Definition only_display_changed (st st' : State) : Prop :=
  (∀ k, with_display [] <$> doc st' !! k = with_display [] <$> doc st !! k)
  ∧ set_doc (doc st) st' = st.

(** The enhanced [closeModal] up to the point where it moves the focus. *)
Definition modal_closed (st : State) : State :=
  set_doc (alter hide_aria "successModal"
             (alter hide_aria "modalOverlay" (doc st))) st.

(** ** The country selector *)

(** The second word of the selected option's text, as the enhanced
    variant announces it: [text.split(' ')[1]] inside a template literal. *)
Definition country_name (opt : OptionEl) : list N :=
  default (str "undefined") (nth_error (split_on (ch " ") (o_text opt)) 1).

(** The phone field shows no validation state. *)
Definition phone_unmarked (st : State) : Prop :=
  ¬ has_class st "phone" "is-valid"
  ∧ ¬ has_class st "phone" "is-invalid"
  ∧ ¬ has_class st "phoneError" "d-block".

(** ** Validation on blur and on submit *)

(** The ids of the fields the script validates, in the order the submit
    handler goes through them. *)
Definition validated_ids : list string :=
  ["firstName"; "lastName"; "email"; "messageSubject"; "message"; "phone"].

(** ** What the validators accept *)

(** The words of a regular expression. *)
Inductive matches : regex → list N → Prop :=
| MEps : matches ReEps []
| MClass (p : N → bool) (c : N) : p c = true → matches (ReClass p) [c]
| MSeq (a b : regex) (s t : list N) :
    matches a s → matches b t → matches (ReSeq a b) (s ++ t)
| MAltL (a b : regex) (s : list N) : matches a s → matches (ReAlt a b) s
| MAltR (a b : regex) (s : list N) : matches b s → matches (ReAlt a b) s
| MStarNil (a : regex) : matches (ReStar a) []
| MStarCons (a : regex) (s t : list N) :
    matches a s → matches (ReStar a) t → matches (ReStar a) (s ++ t).

(** A run of one or more characters that are neither white space nor
    [@]. *)
Definition plain (s : list N) : Prop :=
  s ≠ [] ∧ Forall (λ c, cls_not_space_at c = true) s.

(** [local@domain.tld] *)
Definition email_shaped (s : list N) : Prop :=
  ∃ l d t, s = l ++ ch "@" :: d ++ ch "." :: t
           ∧ plain l ∧ plain d ∧ plain t.

(** A value with a character that is not white space. *)
Definition visible (v : list N) : Prop :=
  Exists (λ c, is_space c = false) v.

(** ** What the phone input keeps *)

(** What a text control keeps of a value assigned to it. *)
Definition kept_text (e : Element) (v : list N) : list N :=
  if singleLine e then List.filter (fun c => negb (is_newline c)) v else v.

(** The digits and the white space of a text, in their order. *)
Definition digits_and_spaces_of (v : list N) : list N :=
  replace_class_all cls_not_digit_space v.

(** The text of a control with the clipboard's text put in place of the
    selection. *)
Definition with_pasted (e : Element) (text : list N) : list N :=
  substring (value e) 0 (N.to_nat (selectionStart e)) ++ text
  ++ substring_from (value e) (N.to_nat (selectionEnd e)).

(** Events whose handlers write a field's value, its checked state or its
    selected option: an edit by the user, typing or pasting in the phone
    input, and a submission (which may reset the form). *)
Definition writes_values (ev : Event) : bool :=
  match ev with
  | UserEdit _ _ | PhoneInput | PhonePaste _ | Submit => true
  | _ => false
  end.

(** ** What no handler touches *)

(** The page holds the values, checked states and selections of [st0], and
    its log. *)
Definition values_and_log_of (st0 st : State) : Prop :=
  same_field_values st0 st ∧ log st = log st0.

(** ** The form after a successful submission *)

(** No node of the form shows a validation mark or an error text, and
    every control of the form is back at its default, the form being that
    of [st0]. *)
Definition form_clean (st0 st : State) : Prop :=
  (∀ k, k ∈ formNodes st0 →
        ¬ has_class st k "is-valid" ∧ ¬ has_class st k "is-invalid"
        ∧ (has_class st k "invalid-feedback" → ¬ has_class st k "d-block"))
  ∧ (∀ k, k ∈ formControls st0 →
          value (node st k) = defaultValue (node st0 k)
          ∧ checked (node st k) = defaultChecked (node st0 k)
          ∧ selectedIndex (node st k) = defaultSelectedIndex (node st0 k)).

(** The form of [st] is that of [st0], with the same defaults. *)
Definition same_form (st0 st : State) : Prop :=
  formNodes st = formNodes st0 ∧ formControls st = formControls st0
  ∧ ∀ k, defaultValue (node st k) = defaultValue (node st0 k)
         ∧ defaultChecked (node st k) = defaultChecked (node st0 k)
         ∧ defaultSelectedIndex (node st k) = defaultSelectedIndex (node st0 k).

(** [form.reset()] as a function of the page. *)
Definition reset_form (st : State) : State :=
  set_doc (mark_all reset_control (formControls st) (doc st))
    (set_log (log st ++ [FormReset]) st).

(** [form.querySelectorAll(classes).forEach(g)] as a function of the
    page. *)
Definition unmark_all (g : Element → Element) (cs : list string) (st : State)
  : State :=
  set_doc (mark_all g (with_any_class cs (formNodes st) st) (doc st)) st.

Definition unmark_baseline (e : Element) : Element :=
  classList_remove "is-invalid" (classList_remove "is-valid" e).

Definition unmark_enhanced (e : Element) : Element :=
  removeAttribute "aria-invalid"
    (classList_remove "is-invalid" (classList_remove "is-valid" e)).

Definition unblock_baseline (e : Element) : Element :=
  classList_remove "d-block" e.

Definition unblock_enhanced (e : Element) : Element :=
  with_textContent [] (classList_remove "d-block" e).

(** The end of the success branch: the reset and the two loops. *)
Definition cleaned_baseline (st : State) : State :=
  unmark_all unblock_baseline ["invalid-feedback"]
    (unmark_all unmark_baseline ["is-valid"; "is-invalid"] (reset_form st)).

Definition cleaned_enhanced (st : State) : State :=
  unmark_all unblock_enhanced ["invalid-feedback"]
    (unmark_all unmark_enhanced ["is-valid"; "is-invalid"] (reset_form st)).

(** The three relations between a node before and after a loop. *)
Definition same_values (e e' : Element) : Prop :=
  value e' = value e ∧ checked e' = checked e
  ∧ selectedIndex e' = selectedIndex e.

Definition fewer_classes (e e' : Element) : Prop :=
  classList e' ⊆ classList e.

Definition is_reset (e e' : Element) : Prop :=
  value e' = defaultValue e ∧ checked e' = defaultChecked e
  ∧ selectedIndex e' = defaultSelectedIndex e
  ∧ defaultValue e' = defaultValue e ∧ defaultChecked e' = defaultChecked e
  ∧ defaultSelectedIndex e' = defaultSelectedIndex e.

(** [el.style.display = 'block'], and the same with the [aria-hidden]
    attribute of the enhanced variant. *)
Definition show : Element → Element := with_display (str "block").

Definition show_aria (e : Element) : Element :=
  setAttribute "aria-hidden" (str "false") (with_display (str "block") e).

(** Two documents with the same nodes, each with the same defaults. *)
Definition same_defaults (d d' : gmap string Element) : Prop :=
  ∀ k, match d !! k, d' !! k with
       | Some e, Some e' =>
           defaultValue e' = defaultValue e
           ∧ defaultChecked e' = defaultChecked e
           ∧ defaultSelectedIndex e' = defaultSelectedIndex e
       | None, None => True
       | _, _ => False
       end.

(** ** Announcements *)

(** The page with [message] in the announcer and the timer that will
    clear it. *)
Definition announced (message : list N) (st : State) : State :=
  set_timers
    (timers st
     ++ [(nextTimer st, (1000%nat, CbClearAnnouncer "status-announcer"))])
    (N.succ (nextTimer st))
    (set_doc (alter (with_textContent message) "status-announcer" (doc st))
       st).

(** ** Validating again *)

(** What [validateField] writes on the field and on its error node, for
    a verdict. *)
Definition field_mark_baseline (ok : bool) (e : Element) : Element :=
  if ok then classList_add "is-valid" (classList_remove "is-invalid" e)
  else classList_remove "is-valid" (classList_add "is-invalid" e).

Definition field_mark_enhanced (ok : bool) (e : Element) : Element :=
  if ok
  then setAttribute "aria-invalid" (str "false")
         (classList_add "is-valid" (classList_remove "is-invalid" e))
  else setAttribute "aria-invalid" (str "true")
         (classList_remove "is-valid" (classList_add "is-invalid" e)).

Definition error_mark (ok : bool) (msg : option (list N)) (e : Element)
  : Element :=
  if ok then classList_remove "d-block" e
  else classList_add "d-block"
         (if truthy msg then with_textContent (default [] msg) e else e).

(** The document with the marks of a verdict on the field [f] and the
    error node [e]. *)
Definition marked_doc (F E : Element → Element) (f e : string)
    (d : gmap string Element) : gmap string Element :=
  alter E e (alter F f d).

(** A validation function whose verdict depends on nothing that
    validation writes. *)
Definition reads_no_feedback (fn : ValidationFn) : Prop :=
  ∀ v st st', only_feedback_changed st st' → fn v st' = fn v st.

(** ** The focus after a blocked submission *)

(** The first node of the form that validation has marked invalid. *)
Definition first_invalid `{engine : RegExpEngine} (st : State)
  : option string :=
  head (with_any_class ["is-invalid"] (formNodes st)
          (fst (Enhanced.validateForm (entered st)))).

(** ** Separators in a phone number *)

(** ** What the section observer records *)

(** An entry that shows a section: more than half of it is in view, and
    it has an id that is not empty. *)
Definition shows_section (entry : ObserverEntry) : bool :=
  isIntersecting entry && negb (Qle_bool (intersectionRatio entry) (1 # 2))
  && truthy (target_id entry).

(** The section the last such entry shows, [lastSection] when there is
    none. *)
Definition section_shown (entries : list ObserverEntry) (lastSection : list N)
  : list N :=
  default lastSection
    (last (map (λ entry, default [] (target_id entry))
             (List.filter shows_section entries))).

(** An entry that tells nothing new: it shows no section, or the section
    already recorded. *)
Definition nothing_new (lastSection : list N) (entry : ObserverEntry) : Prop :=
  shows_section entry = false ∨ target_id entry = Some lastSection.

(** ** The whole page *)

(** [m] keeps [P] true of the whole page, whatever it returns or throws. *)
Definition page_preserves {A : Type} (P : Page → Prop) (m : PM A) : Prop :=
  ∀ pg, P pg → P (fst (m pg)).

(** The ids in [F] have been handed out and belong to no pending timer of
    the listeners of the form. *)
Definition ids_apart (F : list N) (st : State) : Prop :=
  Forall (λ i, (i < nextTimer st)%N) F ∧ Forall (λ t, fst t ∉ F) (timers st).

(** The timers of the whole page are in order: those of the form listeners
    are, and the timers of the click listener have ids of their own. *)
Definition page_timers_ok (pg : Page) : Prop :=
  timers_ok (page_state pg)
  ∧ NoDup (map fst (focusTimers pg))
  ∧ ids_apart (map fst (focusTimers pg)) (page_state pg).

(** *** What the navigation listeners leave alone *)

(** A call the click listener logs. *)
Definition navigation_call (e : Effect) : bool :=
  match e with
  | PreventDefault | ScrollIntoView _ | OffcanvasHide => true
  | _ => false
  end.

(** The page holds the values, checked states and selections of [st0], and
    its log with calls of the click listener added. *)
Definition values_of (st0 st : State) : Prop :=
  same_field_values st0 st
  ∧ ∃ rest, log st = log st0 ++ rest ∧ forallb navigation_call rest = true.

(** The page after the one-time [blur] listener of [c], if there is one. *)
Definition cleaned_up (c : option string) (pg : Page) : Page :=
  match c with
  | Some k => fst (blur_once k pg)
  | None => pg
  end.

(** An event that may write a value, on the whole page. *)
Definition page_writes_values (ev : PageEvent) : bool :=
  match ev with
  | Listened ev => writes_values ev
  | _ => false
  end.

Definition is_anchor_click (ev : PageEvent) : bool :=
  match ev with
  | AnchorClick _ _ => true
  | _ => false
  end.

(** *** The phone value between events *)

(** The default value of the phone input, which a reset of the form
    restores, is made of digits and white space. *)
Definition phone_default_clean (st : State) : Prop :=
  digits_and_spaces (defaultValue (node st "phone")).

(** So are both its value and its default value. *)
Definition phone_clean (st : State) : Prop :=
  digits_and_spaces (value (node st "phone")) ∧ phone_default_clean st.

(** The user (or the browser) changes a node; an [input] event follows
    when the node is the phone input. *)
Definition is_user_edit (ev : PageEvent) : bool :=
  match ev with
  | Listened (UserEdit _ _) => true
  | _ => false
  end.

(** * Properties *)

(** ** Nodes and updates *)

Lemma node_lookup (st : State) (k : string) (e : Element) :
  doc st !! k = Some e → node st k = e.
Proof. intros E. unfold node. by rewrite E. Qed.

Lemma doc_update (st : State) (k : string) (f : Element → Element) :
  doc (fst (update k f st)) = alter f k (doc st).
Proof. reflexivity. Qed.

Lemma node_alter_same (st : State) (d : gmap string Element) (k : string)
    (f : Element → Element) :
  is_Some (d !! k) →
  node (set_doc (alter f k d) st) k = f (node (set_doc d st) k).
Proof.
  intros [e E]. unfold node. simpl. rewrite lookup_alter_eq, E. reflexivity.
Qed.

Lemma node_alter_other (st : State) (d : gmap string Element) (k k' : string)
    (f : Element → Element) :
  k ≠ k' →
  node (set_doc (alter f k d) st) k' = node (set_doc d st) k'.
Proof.
  intros Hne. unfold node. simpl. by rewrite lookup_alter_ne.
Qed.

Lemma node_set_doc (st : State) : set_doc (doc st) st = st.
Proof. by destruct st. Qed.

Lemma is_Some_alter (d : gmap string Element) (k k' : string)
    (f : Element → Element) :
  is_Some (alter f k d !! k') ↔ is_Some (d !! k').
Proof.
  destruct (decide (k = k')) as [->|Hne].
  - rewrite lookup_alter_eq. by rewrite fmap_is_Some.
  - by rewrite lookup_alter_ne.
Qed.

(** ** What a computation leaves intact *)

(** [m] keeps [R] true of the page, whatever it returns or throws. *)
Definition preserves {A : Type} (R : State → Prop) (m : M A) : Prop :=
  ∀ st, R st → R (fst (m st)).

Section Preserves.
Context (R : State → Prop).

Lemma preserves_ret {A : Type} (a : A) : preserves R (mret a).
Proof. intros st HR. exact HR. Qed.

Lemma preserves_throw {A : Type} (e : exn) : preserves R (throw (A := A) e).
Proof. intros st HR. exact HR. Qed.

Lemma preserves_reading {A : Type} (f : State → res A) :
  preserves R (reading f).
Proof. intros st HR. exact HR. Qed.

Lemma preserves_getProp {A : Type} (k : string) (p : Element → A) :
  preserves R (getProp k p).
Proof. intros st HR. exact HR. Qed.

Lemma preserves_getElementById (id : string) :
  preserves R (getElementById id).
Proof. intros st HR. exact HR. Qed.

Lemma preserves_is_checked (r : option string) : preserves R (is_checked r).
Proof. intros st HR. destruct r; exact HR. Qed.

Lemma preserves_bind {A B : Type} (m : M A) (k : A → M B) :
  preserves R m → (∀ a, preserves R (k a)) → preserves R (m ≫= k).
Proof.
  intros Hm Hk st HR. specialize (Hm st HR).
  unfold mbind, M_bind. destruct (m st) as [st' [a|e]]; simpl in *.
  - by apply Hk.
  - exact Hm.
Qed.

Lemma preserves_dispatch (m : M unit) : preserves R m → preserves R (dispatch m).
Proof. intros Hm st HR. by apply Hm. Qed.

Lemma preserves_forEach {A : Type} (f : A → M unit) (l : list A) :
  (∀ a, preserves R (f a)) → preserves R (forEach f l).
Proof.
  intros Hf. induction l as [|a l IH]; simpl.
  - apply preserves_ret.
  - apply preserves_bind; [apply Hf | intros _; exact IH].
Qed.

Lemma preserves_forEachAcc {A B : Type} (f : A → B → M B) (l : list A)
    (acc : B) :
  (∀ a b, preserves R (f a b)) → preserves R (forEachAcc f l acc).
Proof.
  intros Hf. revert acc. induction l as [|a l IH]; intros acc; simpl.
  - apply preserves_ret.
  - apply preserves_bind; [apply Hf | intros b; apply IH].
Qed.

Lemma preserves_elements_baseline (name : string) :
  preserves R (Baseline.elements name).
Proof.
  unfold Baseline.elements. destruct (assoc_name name element_ids).
  - apply preserves_getElementById.
  - apply preserves_ret.
Qed.

Lemma preserves_elements_enhanced (name : string) :
  preserves R (Enhanced.elements name).
Proof.
  unfold Enhanced.elements. destruct (assoc_name name element_ids).
  - apply preserves_getElementById.
  - apply preserves_ret.
Qed.
End Preserves.

Create HintDb preserve discriminated.

#[local] Hint Resolve preserves_ret preserves_throw preserves_reading
  preserves_getProp preserves_getElementById preserves_is_checked
  preserves_elements_baseline preserves_elements_enhanced : preserve.

(** Syntax-directed decomposition of a [preserves] goal. *)
Ltac preserving_step :=
  match goal with
  | |- preserves _ (mret _) => apply preserves_ret
  | |- preserves _ (throw _) => apply preserves_throw
  | |- preserves _ (reading _) => apply preserves_reading
  | |- preserves _ (getProp _ _) => apply preserves_getProp
  | |- preserves _ (getElementById _) => apply preserves_getElementById
  | |- preserves _ (is_checked _) => apply preserves_is_checked
  | |- preserves _ (Baseline.elements _) => apply preserves_elements_baseline
  | |- preserves _ (Enhanced.elements _) => apply preserves_elements_enhanced
  | |- preserves _ (if ?x then _ else _) => destruct x
  | |- preserves _ (match ?x with _ => _ end) => destruct x
  | |- preserves _ (_ ≫= _) => apply preserves_bind; [|intros ?]
  | |- preserves _ (dispatch _) => apply preserves_dispatch
  | |- preserves _ (forEach _ _) => apply preserves_forEach; intros ?
  | |- preserves _ (forEachAcc _ _ _) =>
      apply preserves_forEachAcc; intros ? ?
  end.

Ltac preserving :=
  repeat first [ preserving_step | solve [eauto with preserve] ].

Ltac run_monad :=
  unfold mbind, M_bind, mret, M_ret, getProp, reading, update, throw; simpl.

(** ** Changes that are validation feedback only *)

Lemma ofc_refl (st : State) : only_feedback_changed st st.
Proof. by repeat split. Qed.

Lemma ofc_trans (st1 st2 st3 : State) :
  only_feedback_changed st1 st2 → only_feedback_changed st2 st3 →
  only_feedback_changed st1 st3.
Proof.
  intros (Ha & ? & ? & ? & ? & ?) (Hb & ? & ? & ? & ? & ?).
  split; [intros k; by rewrite Hb, Ha | repeat split; congruence].
Qed.

Lemma ofc_update (st0 : State) (k : string) (f : Element → Element) :
  (∀ e, feedback_free (f e) = feedback_free e) →
  preserves (only_feedback_changed st0) (update k f).
Proof.
  intros Hf st (Hd & ?). split; [|done].
  intros k'. simpl. rewrite <- Hd, lookup_alter.
  case_decide; [subst|done]. destruct (doc st !! k'); simpl; [|done].
  by rewrite Hf.
Qed.

(** ** Handlers that only give feedback *)

Section Stable.
Context (R : State → Prop) (HR : feedback_stable R).

Lemma stable_update (k : string) (f : Element → Element) :
  (∀ e, feedback_free (f e) = feedback_free e) → preserves R (update k f).
Proof. intros Hf st. by apply HR. Qed.

Lemma stable_setTimeout (cb : Callback) (d : nat) :
  preserves R (setTimeout cb d).
Proof. intros st. apply HR. Qed.

Lemma stable_set_focus (r : string) : preserves R (set_focus r).
Proof. intros st. apply HR. Qed.

(** Lemmas of this section about the functions a handler calls. *)
Ltac stable_calls := fail.

Ltac stabilizing :=
  repeat first
    [ match goal with
      | |- preserves _ (setTimeout _ _) => apply stable_setTimeout
      | |- preserves _ (set_focus _) => apply stable_set_focus
      | |- preserves _ (update _ _) => apply stable_update; reflexivity
      end
    | stable_calls
    | preserving_step ].

Lemma stable_validateField_baseline field errorElement fn msg :
  preserves R (Baseline.validateField field errorElement fn msg).
Proof. unfold Baseline.validateField. stabilizing. Qed.

Lemma stable_validateField_enhanced field errorElement fn msg :
  preserves R (Enhanced.validateField field errorElement fn msg).
Proof. unfold Enhanced.validateField. stabilizing. Qed.

Ltac stable_calls ::=
  match goal with
  | |- preserves _ (Baseline.validateField _ _ _ _) =>
      apply stable_validateField_baseline
  | |- preserves _ (Enhanced.validateField _ _ _ _) =>
      apply stable_validateField_enhanced
  end.

Lemma stable_validateTextField_baseline entry b :
  preserves R (Baseline.validateTextField entry b).
Proof. destruct entry. unfold Baseline.validateTextField. stabilizing. Qed.

Lemma stable_validateTextField_enhanced entry b :
  preserves R (Enhanced.validateTextField entry b).
Proof. destruct entry. unfold Enhanced.validateTextField. stabilizing. Qed.

Lemma stable_validatePhone_baseline `{engine : RegExpEngine} b :
  preserves R (Baseline.validatePhone b).
Proof. unfold Baseline.validatePhone. stabilizing. Qed.

Lemma stable_validatePhone_enhanced `{engine : RegExpEngine} b :
  preserves R (Enhanced.validatePhone b).
Proof. unfold Enhanced.validatePhone. stabilizing. Qed.

Ltac stable_calls ::=
  match goal with
  | |- preserves _ (Baseline.validateField _ _ _ _) =>
      apply stable_validateField_baseline
  | |- preserves _ (Enhanced.validateField _ _ _ _) =>
      apply stable_validateField_enhanced
  | |- preserves _ (Baseline.validateTextField _ _) =>
      apply stable_validateTextField_baseline
  | |- preserves _ (Enhanced.validateTextField _ _) =>
      apply stable_validateTextField_enhanced
  | |- preserves _ (Baseline.validatePhone _) =>
      apply stable_validatePhone_baseline
  | |- preserves _ (Enhanced.validatePhone _) =>
      apply stable_validatePhone_enhanced
  end.

Lemma stable_validateForm_baseline `{engine : RegExpEngine} :
  preserves R Baseline.validateForm.
Proof. unfold Baseline.validateForm. stabilizing. Qed.

Lemma stable_validateForm_enhanced `{engine : RegExpEngine} :
  preserves R Enhanced.validateForm.
Proof. unfold Enhanced.validateForm. stabilizing. Qed.

Lemma stable_field_blur_baseline name config :
  preserves R (Baseline.field_blur name config).
Proof. unfold Baseline.field_blur. stabilizing. Qed.

Lemma stable_field_blur_enhanced name config :
  preserves R (Enhanced.field_blur name config).
Proof. unfold Enhanced.field_blur. stabilizing. Qed.

Lemma stable_phoneInput_blur_baseline `{engine : RegExpEngine} :
  preserves R Baseline.phoneInput_blur.
Proof. unfold Baseline.phoneInput_blur. stabilizing. Qed.

Lemma stable_phoneInput_blur_enhanced `{engine : RegExpEngine} :
  preserves R Enhanced.phoneInput_blur.
Proof. unfold Enhanced.phoneInput_blur. stabilizing. Qed.

Ltac stable_calls ::=
  match goal with
  | |- preserves _ (Baseline.field_blur _ _) =>
      apply stable_field_blur_baseline
  | |- preserves _ (Enhanced.field_blur _ _) =>
      apply stable_field_blur_enhanced
  | |- preserves _ Baseline.phoneInput_blur =>
      apply stable_phoneInput_blur_baseline
  | |- preserves _ Enhanced.phoneInput_blur =>
      apply stable_phoneInput_blur_enhanced
  end.

Lemma stable_blur_listeners_baseline `{engine : RegExpEngine} k :
  preserves R (Baseline.blur_listeners k).
Proof. unfold Baseline.blur_listeners. stabilizing. Qed.

Lemma stable_blur_listeners_enhanced `{engine : RegExpEngine} k :
  preserves R (Enhanced.blur_listeners k).
Proof. unfold Enhanced.blur_listeners. stabilizing. Qed.

Ltac stable_calls ::=
  match goal with
  | |- preserves _ (Enhanced.blur_listeners _) =>
      apply stable_blur_listeners_enhanced
  end.

Lemma stable_focus `{engine : RegExpEngine} r :
  preserves R (Enhanced.focus r).
Proof. unfold Enhanced.focus. stabilizing. Qed.

Lemma stable_announce message :
  preserves R (Enhanced.announceToScreenReader message).
Proof. unfold Enhanced.announceToScreenReader. stabilizing. Qed.

Ltac stable_calls ::=
  match goal with
  | |- preserves _ (Enhanced.focus _) => apply stable_focus
  | |- preserves _ (Enhanced.announceToScreenReader _) => apply stable_announce
  end.

Lemma stable_submit_failure `{engine : RegExpEngine} :
  preserves R Enhanced.submit_failure.
Proof. unfold Enhanced.submit_failure. stabilizing. Qed.
End Stable.

Lemma ofc_stable (st0 : State) : feedback_stable (only_feedback_changed st0).
Proof.
  split; [|split].
  - intros k f Hf. by apply ofc_update.
  - intros cb d st H. exact H.
  - intros r st H. exact H.
Qed.

Lemma log_stable (l : list Effect) : feedback_stable (λ st, log st = l).
Proof. split; [|split]; intros; assumption. Qed.

Lemma ofc_validateField_baseline st0 field errorElement fn msg :
  preserves (only_feedback_changed st0)
    (Baseline.validateField field errorElement fn msg).
Proof. apply stable_validateField_baseline, ofc_stable. Qed.

Lemma ofc_validateField_enhanced st0 field errorElement fn msg :
  preserves (only_feedback_changed st0)
    (Enhanced.validateField field errorElement fn msg).
Proof. apply stable_validateField_enhanced, ofc_stable. Qed.

Lemma ofc_validateTextField_baseline st0 entry b :
  preserves (only_feedback_changed st0) (Baseline.validateTextField entry b).
Proof. apply stable_validateTextField_baseline, ofc_stable. Qed.

Lemma ofc_validateTextField_enhanced st0 entry b :
  preserves (only_feedback_changed st0) (Enhanced.validateTextField entry b).
Proof. apply stable_validateTextField_enhanced, ofc_stable. Qed.

(** ** validateField *)

(** Reading the nodes out of a chain of updates. *)
Ltac read_nodes Hf He :=
  unfold has_class, node; simpl; rewrite ?lookup_alter;
  repeat case_decide; subst; simplify_eq; rewrite ?Hf, ?He; simpl.

Lemma reports_inline_baseline : reports_inline Baseline.validateField.
Proof.
  intros st f e fn msg [fe Hf] [ee He] out. subst out. split; intros Hfn.
  - pose proof (ofc_validateField_baseline st (Some f) (Some e) fn msg st
                  (ofc_refl st)) as Hofc.
    revert Hofc. unfold Baseline.validateField. run_monad. rewrite Hfn. simpl.
    intros Hofc. repeat (split; [|try exact Hofc]); try reflexivity.
    all: destruct (truthy msg) eqn:Hmsg; read_nodes Hf He; set_solver.
  - pose proof (ofc_validateField_baseline st (Some f) (Some e) fn msg st
                  (ofc_refl st)) as Hofc.
    revert Hofc. unfold Baseline.validateField. run_monad. rewrite Hfn. simpl.
    intros Hofc. repeat (split; [|try exact Hofc]); try reflexivity.
    all: read_nodes Hf He; set_solver.
Qed.

Lemma reports_inline_enhanced : reports_inline Enhanced.validateField.
Proof.
  intros st f e fn msg [fe Hf] [ee He] out. subst out. split; intros Hfn.
  - pose proof (ofc_validateField_enhanced st (Some f) (Some e) fn msg st
                  (ofc_refl st)) as Hofc.
    revert Hofc. unfold Enhanced.validateField. run_monad. rewrite Hfn. simpl.
    intros Hofc. repeat (split; [|try exact Hofc]); try reflexivity.
    all: destruct (truthy msg) eqn:Hmsg; read_nodes Hf He; set_solver.
  - pose proof (ofc_validateField_enhanced st (Some f) (Some e) fn msg st
                  (ofc_refl st)) as Hofc.
    revert Hofc. unfold Enhanced.validateField. run_monad. rewrite Hfn. simpl.
    intros Hofc. repeat (split; [|try exact Hofc]); try reflexivity.
    all: read_nodes Hf He; set_solver.
Qed.

(** C4 (as amended).  Called with a field and an error node that exist,
    either variant of [validateField] returns the predicate's verdict without
    throwing and shows it on the page.  On a rejected value the field gets
    [is-invalid] and loses [is-valid], the error node gets [d-block], and
    the error node's text becomes the given message when that message is not
    empty (with an empty or missing message the text stays as it was).  On an
    accepted value the field loses [is-invalid] and gets [is-valid], and the
    error node loses [d-block].  Nothing else happens: the log and the
    timers are as before and no node changes except in its classes,
    attributes and text. *)
Theorem validateField_reports_inline :
  reports_inline Baseline.validateField ∧ reports_inline Enhanced.validateField.
Proof.
  split.
  - exact reports_inline_baseline.
  - exact reports_inline_enhanced.
Qed.

Lemma validateField_reports_inline_witness :
  let st := sample_page [] [] [] [] [] [] false 0 in
  let out :=
    Enhanced.validateField (Some "firstName") (Some "firstNameError")
      always_false (Some (str "Please provide your first name.")) st in
  is_Some (doc st !! "firstName")
  ∧ is_Some (doc st !! "firstNameError")
  ∧ snd out = Ok false
  ∧ has_class (fst out) "firstName" "is-invalid"
  ∧ textContent (node (fst out) "firstNameError")
    = str "Please provide your first name.".
Proof.
  intros st out.
  assert (Hf : is_Some (doc st !! "firstName")) by (by eexists).
  assert (He : is_Some (doc st !! "firstNameError")) by (by eexists).
  destruct validateField_reports_inline as [_ Hv].
  destruct (Hv st "firstName" "firstNameError" always_false
              (Some (str "Please provide your first name.")) Hf He)
    as [Hrej _].
  destruct (Hrej eq_refl) as (Hr & Hi & _ & _ & Ht & _).
  repeat split; assumption.
Defined.

(** C4, the claim as worded fails: given the empty string as message,
    [validateField] rejects the value and leaves the error node's text as
    it was instead of setting it to the message. *)
Lemma validateField_empty_message_keeps_text :
  let st := sample_page [] [] [] [] [] [] false 0 in
  let outB :=
    Baseline.validateField (Some "firstName") (Some "firstNameError")
      always_false (Some []) st in
  let outE :=
    Enhanced.validateField (Some "firstName") (Some "firstNameError")
      always_false (Some []) st in
  (snd outB = Ok false
   ∧ textContent (node (fst outB) "firstNameError") = str "Required."
   ∧ textContent (node (fst outB) "firstNameError") ≠ [])
  ∧ (snd outE = Ok false
     ∧ textContent (node (fst outE) "firstNameError") = str "Required."
     ∧ textContent (node (fst outE) "firstNameError") ≠ []).
Proof. vm_compute. repeat split; discriminate. Qed.

(** The guard of [validateField]: with the field or the error node missing
    it returns [true] and leaves the page as it is; the validation function
    is not even called. *)
Lemma validateField_guard (field errorElement : option string)
    (fn : ValidationFn) (msg : option (list N)) (st : State) :
  field = None ∨ errorElement = None →
  Baseline.validateField field errorElement fn msg st = (st, Ok true)
  ∧ Enhanced.validateField field errorElement fn msg st = (st, Ok true).
Proof.
  intros [-> | ->]; [|destruct field]; split; reflexivity.
Qed.

(** ** Running a computation step by step *)

Lemma bind_ok {A B : Type} (m : M A) (k : A → M B) (st st' : State) (a : A) :
  m st = (st', Ok a) → (m ≫= k) st = k a st'.
Proof. intros E. unfold mbind, M_bind. by rewrite E. Qed.

Lemma bind_throw {A B : Type} (m : M A) (k : A → M B) (st st' : State)
    (e : exn) :
  m st = (st', Throw e) → (m ≫= k) st = (st', Throw e).
Proof. intros E. unfold mbind, M_bind. by rewrite E. Qed.

Lemma elements_baseline_eq (name id : string) (st : State) :
  assoc_name name element_ids = Some id →
  Baseline.elements name st
  = (st, Ok (match doc st !! id with Some _ => Some id | None => None end)).
Proof. intros E. unfold Baseline.elements. by rewrite E. Qed.

Lemma elements_enhanced_eq (name id : string) (st : State) :
  assoc_name name element_ids = Some id →
  Enhanced.elements name st
  = (st, Ok (match doc st !! id with Some _ => Some id | None => None end)).
Proof. intros E. unfold Enhanced.elements. by rewrite E. Qed.

(** ** The verdict of validation *)

Lemma validateField_baseline_result f e fn msg st :
  snd (Baseline.validateField (Some f) (Some e) fn msg st)
  = fn (value (node st f)) st.
Proof.
  unfold Baseline.validateField. run_monad.
  destruct (fn (value (node st f)) st) as [[|]|]; simpl;
    try destruct (truthy msg); reflexivity.
Qed.

Lemma validateField_enhanced_result f e fn msg st :
  snd (Enhanced.validateField (Some f) (Some e) fn msg st)
  = fn (value (node st f)) st.
Proof.
  unfold Enhanced.validateField. run_monad.
  destruct (fn (value (node st f)) st) as [[|]|]; simpl;
    try destruct (truthy msg); reflexivity.
Qed.

(** Under [only_feedback_changed] every node keeps what the validators
    read. *)
Lemma ofc_lookup (st st' : State) (k : string) :
  only_feedback_changed st st' →
  match doc st !! k, doc st' !! k with
  | Some e, Some e' =>
      value e' = value e ∧ checked e' = checked e
      ∧ options e' = options e ∧ selectedIndex e' = selectedIndex e
      ∧ display e' = display e ∧ required e' = required e
  | None, None => True
  | _, _ => False
  end.
Proof.
  intros [Hd _]. specialize (Hd k).
  destruct (doc st !! k) as [e|], (doc st' !! k) as [e'|]; simpl in Hd;
    try discriminate; [|done].
  injection Hd as Hv _ _ Hc _ Hdis Hr _ _ _ Ho Hs _ _ _.
  by repeat split.
Qed.

Lemma ofc_node (st st' : State) (k : string) :
  only_feedback_changed st st' →
  value (node st' k) = value (node st k)
  ∧ checked (node st' k) = checked (node st k)
  ∧ options (node st' k) = options (node st k)
  ∧ selectedIndex (node st' k) = selectedIndex (node st k)
  ∧ display (node st' k) = display (node st k)
  ∧ required (node st' k) = required (node st k).
Proof.
  intros H. pose proof (ofc_lookup st st' k H) as Hk. unfold node.
  destruct (doc st !! k), (doc st' !! k); simpl; try done.
Qed.

Lemma ofc_present (st st' : State) (k : string) :
  only_feedback_changed st st' →
  is_Some (doc st' !! k) ↔ is_Some (doc st !! k).
Proof.
  intros H. pose proof (ofc_lookup st st' k H) as Hk.
  destruct (doc st !! k), (doc st' !! k); try done.
Qed.

Arguments Baseline.validateField : simpl never.
Arguments Enhanced.validateField : simpl never.

Lemma validateTextField_baseline entry b st :
  entry_wf entry →
  snd (Baseline.validateTextField entry b st) = Ok (field_ok entry st && b).
Proof.
  intros [Hid Hemail].
  destruct entry as [name cfg]. cbn [fst snd] in *.
  unfold Baseline.validateTextField, field_ok. cbn [fst snd].
  erewrite bind_ok; [|by apply elements_baseline_eq].
  erewrite bind_ok; [|reflexivity].
  destruct (doc st !! name) as [f|] eqn:Hf; [|reflexivity].
  destruct (doc st !! (name ++ "Error")%string) as [e|] eqn:He; [|reflexivity].
  assert (Hv : ∀ fn msg,
    snd ((Baseline.validateField (Some name) (Some (name ++ "Error")%string)
           fn msg ≫= λ r, mret (r && b)) st)
    = match fn (value f) st with Ok r => Ok (r && b) | Throw x => Throw x end).
  { intros fn msg. unfold mbind, M_bind.
    pose proof (validateField_baseline_result name (name ++ "Error")
                  fn msg st) as Hr.
    destruct (Baseline.validateField _ _ _ _ st) as [st' r].
    cbn [snd] in Hr. subst r. rewrite (node_lookup st name f Hf).
    by destruct (fn (value f) st). }
  destruct (String.eqb name "email") eqn:Hname.
  - apply String.eqb_eq in Hname.
    erewrite bind_ok; [|reflexivity].
    rewrite (node_lookup st name f Hf).
    destruct (is_empty (trim (value f))) eqn:Hblank.
    + rewrite (Hemail Hname _ Hblank). by rewrite Hv.
    + by rewrite Hv.
  - by rewrite Hv.
Qed.

Lemma field_ok_ofc entry st st' :
  only_feedback_changed st st' → field_ok entry st' = field_ok entry st.
Proof.
  intros H. unfold field_ok.
  pose proof (ofc_lookup st st' (fst entry) H) as H1.
  pose proof (ofc_lookup st st' (fst entry ++ "Error")%string H) as H2.
  destruct (doc st !! fst entry), (doc st' !! fst entry); try done.
  destruct (doc st !! (fst entry ++ "Error")%string),
    (doc st' !! (fst entry ++ "Error")%string); try done.
  destruct H1 as [-> _]. reflexivity.
Qed.

Lemma fields_ok_ofc l st st' :
  only_feedback_changed st st' → fields_ok l st' = fields_ok l st.
Proof.
  intros H. unfold fields_ok. induction l as [|a l IH]; [done|].
  simpl. by rewrite IH, (field_ok_ofc a st st' H).
Qed.

Lemma validateTextFields_baseline l b st :
  Forall entry_wf l →
  snd (forEachAcc Baseline.validateTextField l b st) = Ok (fields_ok l st && b)
  ∧ only_feedback_changed st
      (fst (forEachAcc Baseline.validateTextField l b st)).
Proof.
  intros Hwf. revert b st. induction Hwf as [|a l Ha Hl IH]; intros b st.
  - split; [reflexivity | apply ofc_refl].
  - simpl. unfold mbind, M_bind.
    pose proof (validateTextField_baseline a b st Ha) as Hr.
    pose proof (ofc_validateTextField_baseline st a b st (ofc_refl st)) as Ho.
    destruct (Baseline.validateTextField a b st) as [st1 r]. simpl in Hr, Ho.
    subst r. destruct (IH (field_ok a st && b) st1) as [Hr' Ho'].
    split.
    + rewrite Hr', (fields_ok_ofc l st st1 Ho). f_equal.
      destruct (field_ok a st), (fields_ok l st), b; reflexivity.
    + by apply (ofc_trans st st1).
Qed.

Lemma fieldValidators_baseline_wf : Forall entry_wf Baseline.fieldValidators.
Proof.
  unfold Baseline.fieldValidators.
  repeat constructor; try discriminate.
  intros _ v Hv. simpl. by rewrite Hv.
Qed.

Lemma validatePhoneNumber_ofc `{engine : RegExpEngine} v cc st st' :
  only_feedback_changed st st' →
  Baseline.validatePhoneNumber v cc st' = Baseline.validatePhoneNumber v cc st.
Proof.
  intros H. unfold Baseline.validatePhoneNumber. destruct cc as [sel|]; [|done].
  destruct (ofc_node st st' sel H) as (_ & _ & -> & -> & _). reflexivity.
Qed.

Lemma phone_ok_ofc `{engine : RegExpEngine} st st' :
  only_feedback_changed st st' → phone_ok st' = phone_ok st.
Proof.
  intros H. unfold phone_ok, phone_checked, countryCode_ref.
  pose proof (ofc_lookup st st' "contactPhone" H) as H1.
  pose proof (ofc_lookup st st' "phone" H) as H2.
  pose proof (ofc_lookup st st' "phoneError" H) as H3.
  pose proof (ofc_lookup st st' "countryCode" H) as H4.
  destruct (doc st !! "contactPhone"), (doc st' !! "contactPhone"); try done.
  destruct H1 as (_ & -> & _). destruct (checked _); [|done].
  destruct (doc st !! "phone"), (doc st' !! "phone"); try done.
  destruct H2 as (-> & _).
  destruct (doc st !! "phoneError"), (doc st' !! "phoneError"); try done.
  destruct (is_empty _); [done|].
  rewrite (validatePhoneNumber_ofc _ _ st st' H).
  destruct (doc st !! "countryCode"), (doc st' !! "countryCode"); done.
Qed.

Lemma validatePhone_baseline `{engine : RegExpEngine} b st :
  snd (Baseline.validatePhone b st)
  = match phone_ok st with Ok r => Ok (r && b) | Throw e => Throw e end.
Proof.
  unfold Baseline.validatePhone, phone_ok, phone_checked, countryCode_ref.
  erewrite bind_ok; [|by apply elements_baseline_eq].
  destruct (doc st !! "contactPhone") as [c|] eqn:Hc.
  - erewrite bind_ok; [|reflexivity]. rewrite (node_lookup _ _ _ Hc).
    destruct (checked c); [|reflexivity].
    erewrite bind_ok; [|by apply elements_baseline_eq].
    destruct (doc st !! "phone") as [p|] eqn:Hp; [|reflexivity].
    erewrite bind_ok; [|reflexivity]. rewrite (node_lookup _ _ _ Hp).
    erewrite bind_ok; [|by apply elements_baseline_eq].
    erewrite bind_ok; [|by apply elements_baseline_eq].
    destruct (doc st !! "phoneError") as [pe|] eqn:Hpe.
    + destruct (is_empty (trim (value p))).
      * unfold mbind, M_bind.
        pose proof (validateField_baseline_result "phone" "phoneError"
                      always_false
                      (Some (str "Please provide your phone number.")) st) as Hr.
        destruct (Baseline.validateField _ _ _ _ st) as [st' r].
        cbn [snd] in Hr. subst r. reflexivity.
      * unfold mbind, M_bind.
        pose proof (validateField_baseline_result "phone" "phoneError"
          (λ value, Baseline.validatePhoneNumber value
             (match doc st !! "countryCode" with
              | Some _ => Some "countryCode" | None => None end))
          (Some (str "Please provide a valid phone number for the selected country."))
          st) as Hr.
        destruct (Baseline.validateField _ _ _ _ st) as [st' r].
        cbn [snd] in Hr. subst r. rewrite (node_lookup _ _ _ Hp).
        by destruct (Baseline.validatePhoneNumber _ _ st).
    + destruct (is_empty (trim (value p))); reflexivity.
  - reflexivity.
Qed.

(** The baseline handler computes [form_verdict]. *)
Lemma validateForm_baseline `{engine : RegExpEngine} st :
  snd (Baseline.validateForm st) = form_verdict st.
Proof.
  unfold Baseline.validateForm, form_verdict, mbind, M_bind.
  destruct (validateTextFields_baseline Baseline.fieldValidators true st
              fieldValidators_baseline_wf) as [Hr Ho].
  destruct (forEachAcc Baseline.validateTextField _ true st) as [st1 r].
  cbn [fst snd] in Hr, Ho. subst r.
  rewrite validatePhone_baseline, (phone_ok_ofc st st1 Ho).
  destruct (phone_ok st) as [r|]; [|done].
  by rewrite andb_true_r.
Qed.

Lemma validateTextField_enhanced entry b st :
  entry_wf entry →
  snd (Enhanced.validateTextField entry b st) = Ok (field_ok entry st && b).
Proof.
  intros [Hid Hemail].
  destruct entry as [name cfg]. cbn [fst snd] in *.
  unfold Enhanced.validateTextField, field_ok. cbn [fst snd].
  erewrite bind_ok; [|by apply elements_enhanced_eq].
  erewrite bind_ok; [|reflexivity].
  destruct (doc st !! name) as [f|] eqn:Hf; [|reflexivity].
  destruct (doc st !! (name ++ "Error")%string) as [e|] eqn:He; [|reflexivity].
  assert (Hv : ∀ fn msg,
    snd ((Enhanced.validateField (Some name) (Some (name ++ "Error")%string)
           fn msg ≫= λ r, mret (r && b)) st)
    = match fn (value f) st with Ok r => Ok (r && b) | Throw x => Throw x end).
  { intros fn msg. unfold mbind, M_bind.
    pose proof (validateField_enhanced_result name (name ++ "Error")
                  fn msg st) as Hr.
    destruct (Enhanced.validateField _ _ _ _ st) as [st' r].
    cbn [snd] in Hr. subst r. rewrite (node_lookup st name f Hf).
    by destruct (fn (value f) st). }
  destruct (String.eqb name "email") eqn:Hname.
  - apply String.eqb_eq in Hname.
    erewrite bind_ok; [|reflexivity].
    rewrite (node_lookup st name f Hf).
    destruct (is_empty (trim (value f))) eqn:Hblank.
    + rewrite (Hemail Hname _ Hblank). by rewrite Hv.
    + by rewrite Hv.
  - by rewrite Hv.
Qed.

Lemma validateTextFields_enhanced l b st :
  Forall entry_wf l →
  snd (forEachAcc Enhanced.validateTextField l b st) = Ok (fields_ok l st && b)
  ∧ only_feedback_changed st
      (fst (forEachAcc Enhanced.validateTextField l b st)).
Proof.
  intros Hwf. revert b st. induction Hwf as [|a l Ha Hl IH]; intros b st.
  - split; [reflexivity | apply ofc_refl].
  - simpl. unfold mbind, M_bind.
    pose proof (validateTextField_enhanced a b st Ha) as Hr.
    pose proof (ofc_validateTextField_enhanced st a b st (ofc_refl st)) as Ho.
    destruct (Enhanced.validateTextField a b st) as [st1 r]. simpl in Hr, Ho.
    subst r. destruct (IH (field_ok a st && b) st1) as [Hr' Ho'].
    split.
    + rewrite Hr', (fields_ok_ofc l st st1 Ho). f_equal.
      destruct (field_ok a st), (fields_ok l st), b; reflexivity.
    + by apply (ofc_trans st st1).
Qed.

Lemma fieldValidators_enhanced_wf : Forall entry_wf Enhanced.fieldValidators.
Proof.
  unfold Enhanced.fieldValidators.
  repeat constructor; try discriminate.
  intros _ v Hv. simpl. by rewrite Hv.
Qed.

Lemma validatePhone_enhanced `{engine : RegExpEngine} b st :
  snd (Enhanced.validatePhone b st)
  = match phone_ok st with Ok r => Ok (r && b) | Throw e => Throw e end.
Proof.
  unfold Enhanced.validatePhone, phone_ok, phone_checked, countryCode_ref.
  change (@Baseline.validatePhoneNumber engine)
    with (@Enhanced.validatePhoneNumber engine).
  erewrite bind_ok; [|by apply elements_enhanced_eq].
  destruct (doc st !! "contactPhone") as [c|] eqn:Hc.
  - erewrite bind_ok; [|reflexivity]. rewrite (node_lookup _ _ _ Hc).
    destruct (checked c); [|reflexivity].
    erewrite bind_ok; [|by apply elements_enhanced_eq].
    destruct (doc st !! "phone") as [p|] eqn:Hp; [|reflexivity].
    erewrite bind_ok; [|reflexivity]. rewrite (node_lookup _ _ _ Hp).
    erewrite bind_ok; [|by apply elements_enhanced_eq].
    erewrite bind_ok; [|by apply elements_enhanced_eq].
    destruct (doc st !! "phoneError") as [pe|] eqn:Hpe.
    + destruct (is_empty (trim (value p))).
      * unfold mbind, M_bind.
        pose proof (validateField_enhanced_result "phone" "phoneError"
                      always_false
                      (Some (str "Please provide your phone number.")) st) as Hr.
        destruct (Enhanced.validateField _ _ _ _ st) as [st' r].
        cbn [snd] in Hr. subst r. reflexivity.
      * unfold mbind, M_bind.
        pose proof (validateField_enhanced_result "phone" "phoneError"
          (λ value, Enhanced.validatePhoneNumber value
             (match doc st !! "countryCode" with
              | Some _ => Some "countryCode" | None => None end))
          (Some (str "Please provide a valid phone number for the selected country."))
          st) as Hr.
        destruct (Enhanced.validateField _ _ _ _ st) as [st' r].
        cbn [snd] in Hr. subst r. rewrite (node_lookup _ _ _ Hp).
        by destruct (Enhanced.validatePhoneNumber _ _ st).
    + destruct (is_empty (trim (value p))); reflexivity.
  - reflexivity.
Qed.

Lemma validateForm_enhanced `{engine : RegExpEngine} st :
  snd (Enhanced.validateForm st) = form_verdict st.
Proof.
  unfold Enhanced.validateForm, form_verdict, mbind, M_bind.
  change Baseline.fieldValidators with Enhanced.fieldValidators.
  destruct (validateTextFields_enhanced Enhanced.fieldValidators true st
              fieldValidators_enhanced_wf) as [Hr Ho].
  destruct (forEachAcc Enhanced.validateTextField _ true st) as [st1 r].
  cbn [fst snd] in Hr, Ho. subst r.
  rewrite validatePhone_enhanced, (phone_ok_ofc st st1 Ho).
  destruct (phone_ok st) as [r|]; [|done].
  by rewrite andb_true_r.
Qed.

(** ** The two branches of the submit handler *)

Lemma bind_assoc {A B C : Type} (m : M A) (k : A → M B) (k' : B → M C) st :
  ((m ≫= k) ≫= k') st = (m ≫= (λ a, k a ≫= k')) st.
Proof.
  unfold mbind, M_bind. destruct (m st) as [st' [a|e]]; reflexivity.
Qed.

Lemma success_state_update l k f :
  (∀ e, display (f e) = display e) →
  preserves (success_state l) (update k f).
Proof.
  intros Hf st (H1 & H2 & H3). unfold success_state, node in *. simpl.
  rewrite !lookup_alter. repeat case_decide; subst;
    repeat match goal with
    | |- context [f <$> ?x] => destruct x; simpl in *
    end; rewrite ?Hf; done.
Qed.

Lemma success_state_setTimeout l cb d :
  preserves (success_state l) (setTimeout cb d).
Proof. intros st H. exact H. Qed.

Ltac keeping_success :=
  repeat first
    [ match goal with
      | |- preserves _ (setTimeout _ _) => apply success_state_setTimeout
      | |- preserves _ (update _ _) =>
          apply success_state_update; reflexivity
      end
    | preserving_step ].

Lemma submit_success_baseline st :
  is_Some (doc st !! "modalOverlay") → is_Some (doc st !! "successModal") →
  success_state (log st ++ [FormReset]) (fst (Baseline.submit_success st)).
Proof.
  intros [ov Hov] [sm Hsm]. unfold Baseline.submit_success.
  erewrite bind_ok; [|by apply elements_baseline_eq]. rewrite Hov.
  erewrite bind_ok; [|reflexivity].
  erewrite bind_ok; [|by apply elements_baseline_eq].
  cbn [update fst doc set_doc]. rewrite lookup_alter_ne, Hsm by done.
  erewrite bind_ok; [|reflexivity].
  unfold Baseline.form_reset. rewrite bind_assoc.
  erewrite bind_ok; [|reflexivity].
  apply (preserves_bind (success_state (log st ++ [FormReset]))).
  - keeping_success.
  - intros _. keeping_success.
  - unfold success_state, node. simpl. rewrite !lookup_alter.
    repeat case_decide; simplify_eq. rewrite ?Hov, ?Hsm. simpl. done.
Qed.

Ltac step_enhanced :=
  rewrite ?bind_assoc;
  first [ erewrite bind_ok; [|by apply elements_enhanced_eq]
        | erewrite bind_ok; [|reflexivity] ].

Lemma submit_success_enhanced st :
  is_Some (doc st !! "modalOverlay") → is_Some (doc st !! "successModal") →
  success_state (log st ++ [FormReset]) (fst (Enhanced.submit_success st)).
Proof.
  intros [ov Hov] [sm Hsm]. unfold Enhanced.submit_success.
  step_enhanced. rewrite Hov. do 2 step_enhanced.
  step_enhanced. cbn [update fst doc set_doc].
  rewrite !lookup_alter_ne, Hsm by done.
  do 3 step_enhanced.
  assert (Htail : ∀ st1,
    success_state (log st) st1 →
    success_state (log st ++ [FormReset])
      (fst ((Enhanced.announceToScreenReader (str "Message sent successfully!")
             ≫= λ _, Enhanced.form_reset ≫= λ _,
             marked ← reading (λ st, Ok (with_any_class
                          ["is-valid"; "is-invalid"] (formNodes st) st));
             forEach (λ el, update el (classList_remove "is-valid");;
                            update el (classList_remove "is-invalid");;
                            update el (removeAttribute "aria-invalid")) marked
             ≫= λ _,
             feedback ← reading (λ st, Ok (with_any_class
                          ["invalid-feedback"] (formNodes st) st));
             forEach (λ el, update el (classList_remove "d-block");;
                            update el (with_textContent [])) feedback) st1))).
  { intros st1 H1.
    assert (Ha : ∃ st2, Enhanced.announceToScreenReader
                          (str "Message sent successfully!") st1 = (st2, Ok tt)
                        ∧ success_state (log st) st2).
    { unfold Enhanced.announceToScreenReader.
      erewrite bind_ok; [|reflexivity].
      destruct (doc st1 !! "status-announcer"); [|by eexists].
      eexists. split; [reflexivity|].
      apply (success_state_setTimeout (log st)).
      apply (success_state_update (log st)); [reflexivity | exact H1]. }
    destruct Ha as (st2 & Ea & H2).
    erewrite bind_ok; [|exact Ea].
    unfold Enhanced.form_reset. rewrite bind_assoc.
    erewrite bind_ok; [|reflexivity].
    apply (preserves_bind (success_state (log st ++ [FormReset]))).
    - keeping_success.
    - intros _. keeping_success.
    - destruct H2 as (? & ? & Hl). repeat split; try assumption.
      simpl. by rewrite Hl. }
  match goal with
  | |- context [firstButton ?n] => destruct (firstButton n)
  end.
  - do 2 step_enhanced. apply Htail.
    unfold success_state, node. simpl. rewrite !lookup_alter.
    repeat case_decide; simplify_eq. rewrite ?Hov, ?Hsm. simpl. done.
  - step_enhanced. apply Htail.
    unfold success_state, node. simpl. rewrite !lookup_alter.
    repeat case_decide; simplify_eq. rewrite ?Hov, ?Hsm. simpl. done.
Qed.

Lemma ofc_entered st : only_feedback_changed st (entered st).
Proof. by repeat split. Qed.

Lemma form_verdict_entered `{engine : RegExpEngine} st :
  form_verdict (entered st) = form_verdict st.
Proof. reflexivity. Qed.

Lemma prologue_eq {A : Type} (k : M A) (st : State) :
  (emit PreventDefault ≫= λ _, emit StopPropagation ≫= λ _, k) st
  = k (entered st).
Proof.
  unfold mbind, M_bind, emit, entered, set_log. simpl.
  by rewrite <- app_assoc.
Qed.

(** The submit handler, by the verdict it computes. *)
Lemma form_submit_baseline_outcome `{engine : RegExpEngine} st :
  is_Some (doc st !! "contactForm") →
  (form_verdict st = Ok true →
   is_Some (doc st !! "modalOverlay") → is_Some (doc st !! "successModal") →
   shown_and_reset st (fst (Baseline.form_submit st)))
  ∧ (form_verdict st ≠ Ok true → blocked st (fst (Baseline.form_submit st))).
Proof.
  intros [fm Hfm]. unfold Baseline.form_submit.
  erewrite bind_ok; [|by apply elements_baseline_eq]. rewrite Hfm.
  rewrite prologue_eq.
  pose proof (validateForm_baseline (entered st)) as Hr.
  pose proof (stable_validateForm_baseline _ (ofc_stable st) (entered st)
                (ofc_entered st)) as Ho.
  pose proof (stable_validateForm_baseline _
                (log_stable (log st ++ [PreventDefault; StopPropagation]))
                (entered st) eq_refl) as Hl.
  unfold mbind, M_bind.
  destruct (Baseline.validateForm (entered st)) as [st2 r].
  cbn [fst snd] in Hr, Ho, Hl. rewrite form_verdict_entered in Hr. subst r.
  split.
  - intros -> Hov Hsm.
    destruct (submit_success_baseline st2) as (H1 & H2 & H3).
    + by apply (ofc_present st st2).
    + by apply (ofc_present st st2).
    + repeat split; try assumption.
      rewrite H3, Hl, <- app_assoc. reflexivity.
  - intros Hv. destruct (form_verdict st) as [[|]|]; try done.
Qed.

Lemma form_submit_enhanced_outcome `{engine : RegExpEngine} st :
  is_Some (doc st !! "contactForm") →
  (form_verdict st = Ok true →
   is_Some (doc st !! "modalOverlay") → is_Some (doc st !! "successModal") →
   shown_and_reset st (fst (Enhanced.form_submit st)))
  ∧ (form_verdict st ≠ Ok true → blocked st (fst (Enhanced.form_submit st))).
Proof.
  intros [fm Hfm]. unfold Enhanced.form_submit.
  erewrite bind_ok; [|by apply elements_enhanced_eq]. rewrite Hfm.
  rewrite prologue_eq.
  pose proof (validateForm_enhanced (entered st)) as Hr.
  pose proof (stable_validateForm_enhanced _ (ofc_stable st) (entered st)
                (ofc_entered st)) as Ho.
  pose proof (stable_validateForm_enhanced _
                (log_stable (log st ++ [PreventDefault; StopPropagation]))
                (entered st) eq_refl) as Hl.
  unfold mbind, M_bind.
  destruct (Enhanced.validateForm (entered st)) as [st2 r].
  cbn [fst snd] in Hr, Ho, Hl. rewrite form_verdict_entered in Hr. subst r.
  split.
  - intros -> Hov Hsm.
    destruct (submit_success_enhanced st2) as (H1 & H2 & H3).
    + by apply (ofc_present st st2).
    + by apply (ofc_present st st2).
    + repeat split; try assumption.
      rewrite H3, Hl, <- app_assoc. reflexivity.
  - intros Hv. destruct (form_verdict st) as [[|]|]; try done.
    split.
    + by apply (stable_submit_failure _ (log_stable _)).
    + by apply (stable_submit_failure _ (ofc_stable st)).
Qed.

(** ** When a submission succeeds *)

(** Evaluate the ids built as [name + 'Error']. *)
Ltac compute_ids :=
  repeat match goal with
         | |- context [String.append ?a "Error"] =>
             let r := eval vm_compute in (String.append a "Error") in
             change (String.append a "Error") with r
         end.

Lemma accepted_iff_verdict `{engine : RegExpEngine} st :
  page_complete st → (submission_accepted st ↔ form_verdict st = Ok true).
Proof.
  intros Hc. unfold page_complete in Hc. rewrite !Forall_cons in Hc.
  destruct Hc as (_ & [fn Hfn] & [fne Hfne] & [ln Hln] & [lne Hlne]
                  & [em Hem] & [eme Heme] & [su Hsu] & [sue Hsue]
                  & [me Hme] & [mee Hmee] & [ph Hpn] & [phe Hphe] & _).
  unfold submission_accepted, text_fields_filled, form_verdict, phone_ok,
    fields_ok, field_ok, field_value, nonblank, node, selected_option,
    countryCode_ref, Baseline.validatePhoneNumber, node.
  simpl. compute_ids.
  rewrite Hfn, Hfne, Hln, Hlne, Hem, Heme, Hsu, Hsue, Hme, Hmee, Hpn, Hphe.
  simpl.
  match goal with
  | |- ?T0 ∧ _ ↔ match _ with Ok r => Ok (r && ?X0) | Throw _ => _ end = _ =>
      assert (HT : T0 ↔ X0 = true);
      [ destruct (is_empty (trim (value fn))), (is_empty (trim (value ln))),
          (is_empty (trim (value em))), (Baseline.isValidEmail (value em)),
          (is_empty (trim (value su))), (is_empty (trim (value me)));
        simpl; split; try done; intros (? & ? & ? & ? & ? & ?); done
      | revert HT; generalize X0; generalize T0; intros T X HT ]
  end.
  assert (Hyes : T ∧ True ↔ Ok (true && X) = Ok true (A := bool)).
  { simpl. rewrite HT. split; [intros [-> _]; done | intros [= ->]; done]. }
  assert (Hno : ∀ P : Prop, ¬ P → (T ∧ (true = true → P)) ↔ Ok (false && X) = Ok true (A := bool)).
  { intros P HP. split; [intros [_ H]; destruct (HP (H eq_refl)) | intros [=]]. }
  assert (Hthrow : ∀ (P : Prop) e, ¬ P →
            (T ∧ (true = true → P)) ↔ Throw e = Ok true (A := bool)).
  { intros P e HP. split; [intros [_ H]; destruct (HP (H eq_refl)) | intros [=]]. }
  destruct (phone_checked st).
  2:{ rewrite <- Hyes. split; intros [? _]; split; done. }
  destruct (is_empty (trim (value ph))) eqn:Hp.
  { apply Hno. by intros [? _]. }
  destruct (doc st !! "countryCode") as [cc|] eqn:Hcc; simpl.
  2:{ apply Hthrow. intros (_ & ? & ? & ? & _). done. }
  rewrite Hcc. simpl.
  destruct (index (options cc) (selectedIndex cc)) as [opt|] eqn:Hopt.
  2:{ apply Hthrow. intros (_ & ? & ? & ? & _). done. }
  unfold option_getAttribute.
  destruct (o_attrs opt !! "data-pattern") as [[|c p]|] eqn:Hpat; simpl.
  - apply Hno. intros (_ & ? & ? & ? & ? & ? & _). congruence.
  - destruct (RegExp_test (c :: p) _) as [[|]|] eqn:Ht.
    + rewrite <- Hyes. split; intros [? _]; split; try done.
      intros _. split; [done|]. exists opt, (c :: p). by repeat split.
    + apply Hno. intros (_ & ? & ? & ? & ? & ? & ?). congruence.
    + apply Hthrow. intros (_ & ? & ? & ? & ? & ? & ?). congruence.
  - apply Hno. intros (_ & ? & ? & ? & ? & ? & _). congruence.
Qed.

Lemma blocked_not_shown st st' : blocked st st' → ¬ shown_and_reset st st'.
Proof.
  intros [Hl _] (_ & _ & Hl'). rewrite Hl in Hl'.
  apply app_inv_head in Hl'. discriminate.
Qed.

(** C1 (as amended).  On a page that has the form, the modal and its
    overlay, the five text fields, the phone input and all six error
    nodes, a submit event ends with the success modal displayed and the
    form reset exactly when every text field has a value that is not blank,
    the email value matches the email pattern and, if the phone method is
    ticked, the phone value is not blank and, separators removed, is
    matched by the regular expression in the selected option's non-empty
    [data-pattern] attribute.  Otherwise the form is not reset and nothing
    changes but validation feedback.  This holds for both variants. *)
Theorem submit_succeeds_iff_accepted `{engine : RegExpEngine} (st : State) :
  page_complete st →
  (submission_accepted st ↔ shown_and_reset st (fst (Baseline.form_submit st)))
  ∧ (¬ submission_accepted st → blocked st (fst (Baseline.form_submit st)))
  ∧ (submission_accepted st ↔ shown_and_reset st (fst (Enhanced.form_submit st)))
  ∧ (¬ submission_accepted st → blocked st (fst (Enhanced.form_submit st))).
Proof.
  intros Hc. pose proof (accepted_iff_verdict st Hc) as Hv.
  unfold page_complete in Hc. rewrite !Forall_cons in Hc.
  destruct Hc as (Hform & _ & _ & _ & _ & _ & _ & _ & _ & _ & _ & _ & _
                  & Hsm & Hov & _).
  destruct (form_submit_baseline_outcome st Hform) as [Hb1 Hb2].
  destruct (form_submit_enhanced_outcome st Hform) as [He1 He2].
  assert (Hdec : form_verdict st = Ok true ∨ form_verdict st ≠ Ok true).
  { destruct (form_verdict st) as [[|]|]; [by left | by right | by right]. }
  split; [|split; [|split]].
  - split.
    + intros Ha. apply Hb1; [by apply Hv | done | done].
    + intros Hs. destruct Hdec as [Hy|Hn]; [by apply Hv|].
      destruct (blocked_not_shown _ _ (Hb2 Hn) Hs).
  - intros Hn. apply Hb2. by rewrite <- Hv.
  - split.
    + intros Ha. apply He1; [by apply Hv | done | done].
    + intros Hs. destruct Hdec as [Hy|Hn]; [by apply Hv|].
      destruct (blocked_not_shown _ _ (He2 Hn) Hs).
  - intros Hn. apply He2. by rewrite <- Hv.
Qed.

Lemma sample_page_complete fn ln em su me ph byPhone country :
  page_complete (sample_page fn ln em su me ph byPhone country).
Proof. unfold page_complete. repeat constructor; by eexists. Qed.

Lemma submit_succeeds_iff_accepted_witness :
  let st := sample_page (str "Ann") (str "Lee") (str "ann@lee.ch") (str "Hi")
              (str "Hello there") (str "79 123 45 67") true 0 in
  page_complete st
  ∧ shown_and_reset st (fst (Baseline.form_submit (engine := fragment_engine) st))
  ∧ shown_and_reset st (fst (Enhanced.form_submit (engine := fragment_engine) st)).
Proof.
  intros st.
  assert (Hc : page_complete st) by apply sample_page_complete.
  assert (Ha : submission_accepted (engine := fragment_engine) st).
  { split.
    - repeat split; reflexivity.
    - intros _. split; [reflexivity|].
      exists swiss_option, (str "^\d{9}$").
      split; [reflexivity|]. split; [reflexivity|]. split; [discriminate|].
      vm_compute. reflexivity. }
  destruct (submit_succeeds_iff_accepted (engine := fragment_engine) st Hc)
    as (Hb & _ & He & _).
  split; [exact Hc|]. split; [by apply Hb | by apply He].
Defined.

(** C1, the claim as worded fails in two places.  On the first page the
    phone method is ticked, the phone value consists of two spaces (it is
    not the empty string) and the selected option's pattern also matches
    the empty string that is left once separators are removed; on the
    second the phone value is a number and the selected option's
    [data-pattern] attribute is present and empty, which as a regular
    expression matches every string.  Both pages meet the condition as the
    claim words it, and on neither does either variant show the modal and
    reset the form. *)
Lemma submit_blank_phone_or_empty_pattern_blocked :
  let blank_phone :=
    sample_page (str "Ann") (str "Lee") (str "ann@lee.ch") (str "Hi")
      (str "Hello there") (str "  ") true 2 in
  let empty_pattern :=
    sample_page (str "Ann") (str "Lee") (str "ann@lee.ch") (str "Hi")
      (str "Hello there") (str "791234567") true 3 in
  (page_complete blank_phone
   ∧ submission_as_claimed (engine := fragment_engine) blank_phone
   ∧ ¬ shown_and_reset blank_phone
         (fst (Baseline.form_submit (engine := fragment_engine) blank_phone))
   ∧ ¬ shown_and_reset blank_phone
         (fst (Enhanced.form_submit (engine := fragment_engine) blank_phone)))
  ∧ (page_complete empty_pattern
     ∧ submission_as_claimed (engine := fragment_engine) empty_pattern
     ∧ ¬ shown_and_reset empty_pattern
           (fst (Baseline.form_submit (engine := fragment_engine) empty_pattern))
     ∧ ¬ shown_and_reset empty_pattern
           (fst (Enhanced.form_submit (engine := fragment_engine) empty_pattern))).
Proof.
  intros blank_phone empty_pattern. split.
  - split; [apply sample_page_complete|]. split.
    + split; [repeat split; reflexivity|]. intros _. split; [discriminate|].
      exists lax_option, (str "^\d*$").
      split; [reflexivity|]. split; [reflexivity|]. vm_compute. reflexivity.
    + split; intros (_ & _ & Hl); vm_compute in Hl; discriminate.
  - split; [apply sample_page_complete|]. split.
    + split; [repeat split; reflexivity|]. intros _. split; [discriminate|].
      exists empty_pattern_option, [].
      split; [reflexivity|]. split; [reflexivity|]. vm_compute. reflexivity.
    + split; intros (_ & _ & Hl); vm_compute in Hl; discriminate.
Qed.

(** ** Invalid submissions *)

Lemma log_grows_stable (l : list Effect) :
  feedback_stable (λ st, ∃ rest, log st = l ++ rest).
Proof. split; [|split]; intros; assumption. Qed.

Lemma log_grows_update l k f :
  preserves (λ st, ∃ rest, log st = l ++ rest) (update k f).
Proof. intros st H. exact H. Qed.

Lemma log_grows_emit l e :
  preserves (λ st, ∃ rest, log st = l ++ rest) (emit e).
Proof.
  intros st [rest H]. exists (rest ++ [e]). simpl. by rewrite H, app_assoc.
Qed.

Lemma log_grows_setTimeout l cb d :
  preserves (λ st, ∃ rest, log st = l ++ rest) (setTimeout cb d).
Proof. intros st H. exact H. Qed.

Ltac growing :=
  repeat first
    [ match goal with
      | |- preserves _ (update _ _) => apply log_grows_update
      | |- preserves _ (emit _) => apply log_grows_emit
      | |- preserves _ (setTimeout _ _) => apply log_grows_setTimeout
      | |- preserves _ Baseline.validateForm =>
          apply stable_validateForm_baseline, log_grows_stable
      | |- preserves _ Enhanced.validateForm =>
          apply stable_validateForm_enhanced, log_grows_stable
      | |- preserves _ Enhanced.submit_failure =>
          apply stable_submit_failure, log_grows_stable
      | |- preserves _ (Enhanced.announceToScreenReader _) =>
          apply stable_announce, log_grows_stable
      end
    | preserving_step ].

Lemma form_submit_baseline_log `{engine : RegExpEngine} st :
  is_Some (doc st !! "contactForm") →
  ∃ rest, log (fst (Baseline.form_submit st))
          = (log st ++ [PreventDefault; StopPropagation]) ++ rest.
Proof.
  intros [fm Hfm]. unfold Baseline.form_submit.
  erewrite bind_ok; [|by apply elements_baseline_eq]. rewrite Hfm.
  rewrite prologue_eq.
  apply (preserves_bind (λ st', ∃ rest, log st' = _ ++ rest)).
  - growing.
  - intros isValid. unfold Baseline.submit_success, Baseline.form_reset.
    growing.
  - exists []. simpl. by rewrite app_nil_r.
Qed.

Lemma form_submit_enhanced_log `{engine : RegExpEngine} st :
  is_Some (doc st !! "contactForm") →
  ∃ rest, log (fst (Enhanced.form_submit st))
          = (log st ++ [PreventDefault; StopPropagation]) ++ rest.
Proof.
  intros [fm Hfm]. unfold Enhanced.form_submit.
  erewrite bind_ok; [|by apply elements_enhanced_eq]. rewrite Hfm.
  rewrite prologue_eq.
  apply (preserves_bind (λ st', ∃ rest, log st' = _ ++ rest)).
  - growing.
  - intros isValid. unfold Enhanced.submit_success, Enhanced.form_reset.
    growing.
  - exists []. simpl. by rewrite app_nil_r.
Qed.

Lemma ofc_same_field_values st st' :
  only_feedback_changed st st' → same_field_values st st'.
Proof.
  intros H k. destruct (ofc_node st st' k H) as (? & ? & _ & ? & _). done.
Qed.

Lemma failing_validator_verdict `{engine : RegExpEngine} st :
  a_validator_fails st → form_verdict st ≠ Ok true.
Proof.
  unfold form_verdict.
  intros [(entry & Hin & f & Hf & [e He] & Hv) | (Hc & p & Hp & [e He] & Hr)].
  - assert (Hno : fields_ok Baseline.fieldValidators st = false).
    { apply not_true_is_false. intros Hall. unfold fields_ok in Hall.
      rewrite forallb_forall in Hall. specialize (Hall entry Hin).
      unfold field_ok in Hall. rewrite Hf, He, Hv in Hall. discriminate. }
    rewrite Hno. destruct (phone_ok st) as [r|]; [|discriminate].
    rewrite andb_false_r. discriminate.
  - assert (Hno : phone_ok st = Ok false).
    { unfold phone_ok. rewrite Hc, Hp, He.
      destruct (is_empty (trim (value p))); [reflexivity|].
      by destruct Hr. }
    rewrite Hno. discriminate.
Qed.

(** C3.  Every submit event on the form stops the default action and
    the propagation before anything else, in both variants; and when a
    validator fails (a text field that is there with its error node holds a
    value its validator rejects, or the phone method is ticked and the
    phone check fails), the form is not reset and nothing is logged beyond
    those two calls, every value, checked state and selection is as before,
    and nothing on the page has changed except validation feedback.  This
    is so also when the phone check throws after a text validator has
    failed. *)
Theorem invalid_submit_is_noop `{engine : RegExpEngine} (st : State) :
  is_Some (doc st !! "contactForm") →
  ((∃ rest, log (fst (Baseline.form_submit st))
            = log st ++ PreventDefault :: StopPropagation :: rest)
   ∧ (a_validator_fails st →
      log (fst (Baseline.form_submit st))
      = log st ++ [PreventDefault; StopPropagation]
      ∧ same_field_values st (fst (Baseline.form_submit st))
      ∧ only_feedback_changed st (fst (Baseline.form_submit st))))
  ∧ ((∃ rest, log (fst (Enhanced.form_submit st))
              = log st ++ PreventDefault :: StopPropagation :: rest)
     ∧ (a_validator_fails st →
        log (fst (Enhanced.form_submit st))
        = log st ++ [PreventDefault; StopPropagation]
        ∧ same_field_values st (fst (Enhanced.form_submit st))
        ∧ only_feedback_changed st (fst (Enhanced.form_submit st)))).
Proof.
  intros Hform. split; split.
  - destruct (form_submit_baseline_log st Hform) as [rest H].
    exists rest. by rewrite H, <- app_assoc.
  - intros Hv%failing_validator_verdict.
    destruct (form_submit_baseline_outcome st Hform) as [_ Hb].
    destruct (Hb Hv) as [Hl Ho].
    split; [done|]. split; [by apply ofc_same_field_values | done].
  - destruct (form_submit_enhanced_log st Hform) as [rest H].
    exists rest. by rewrite H, <- app_assoc.
  - intros Hv%failing_validator_verdict.
    destruct (form_submit_enhanced_outcome st Hform) as [_ Hb].
    destruct (Hb Hv) as [Hl Ho].
    split; [done|]. split; [by apply ofc_same_field_values | done].
Qed.

Lemma invalid_submit_is_noop_witness :
  let st := sample_page (str "  ") (str "Lee") (str "ann@lee") (str "Hi")
              (str "Hello there") (str "79 123") true 0 in
  let crash := sample_page (str "  ") (str "Lee") (str "ann@lee.ch") (str "Hi")
                 (str "Hello there") (str "79 123") true (-1) in
  a_validator_fails (engine := fragment_engine) st
  ∧ same_field_values st
      (fst (Baseline.form_submit (engine := fragment_engine) st))
  ∧ same_field_values st
      (fst (Enhanced.form_submit (engine := fragment_engine) st))
  ∧ a_validator_fails (engine := fragment_engine) crash
  ∧ snd (Baseline.form_submit (engine := fragment_engine) crash)
    = Throw TypeError
  ∧ log (fst (Baseline.form_submit (engine := fragment_engine) crash))
    = [PreventDefault; StopPropagation]
  ∧ same_field_values crash
      (fst (Enhanced.form_submit (engine := fragment_engine) crash)).
Proof.
  intros st crash.
  assert (Hform : is_Some (doc st !! "contactForm")) by (by eexists).
  assert (Hform' : is_Some (doc crash !! "contactForm")) by (by eexists).
  assert (Hf : a_validator_fails (engine := fragment_engine) st).
  { left. eexists. split; [left; reflexivity|].
    exists (text_input (str "  ")). split; [reflexivity|].
    split; [by eexists | reflexivity]. }
  assert (Hf' : a_validator_fails (engine := fragment_engine) crash).
  { left. eexists. split; [left; reflexivity|].
    exists (text_input (str "  ")). split; [reflexivity|].
    split; [by eexists | reflexivity]. }
  destruct (invalid_submit_is_noop (engine := fragment_engine) st Hform)
    as [[_ H1] [_ H2]].
  destruct (invalid_submit_is_noop (engine := fragment_engine) crash Hform')
    as [[_ H3] [_ H4]].
  destruct (H1 Hf) as (_ & Hv1 & _). destruct (H2 Hf) as (_ & Hv2 & _).
  destruct (H3 Hf') as (Hl3 & _ & _). destruct (H4 Hf') as (_ & Hv4 & _).
  split; [exact Hf|]. split; [exact Hv1|]. split; [exact Hv2|].
  split; [exact Hf'|]. split; [vm_compute; reflexivity|].
  split; [exact Hl3 | exact Hv4].
Defined.

(** ** A selected option without a pattern *)

Lemma validatePhoneNumber_no_pattern `{engine : RegExpEngine} st cc sel opt number :
  doc st !! cc = Some sel →
  index (options sel) (selectedIndex sel) = Some opt →
  option_getAttribute "data-pattern" opt = None →
  Baseline.validatePhoneNumber number (Some cc) st = Ok false
  ∧ Enhanced.validatePhoneNumber number (Some cc) st = Ok false.
Proof.
  intros Hcc Hopt Hpat.
  unfold Baseline.validatePhoneNumber, Enhanced.validatePhoneNumber.
  rewrite (node_lookup st cc sel Hcc), Hopt, Hpat. by split.
Qed.

(** C9 (as amended).  While the selected option of the country selector
    has no [data-pattern] attribute, [validatePhoneNumber] returns false
    for every phone number, in both variants; and if moreover the phone
    method is ticked and the phone error node exists, a submit event does
    not show the modal and does not reset the form: nothing changes but
    validation feedback. *)
Theorem no_pattern_no_phone_submission `{engine : RegExpEngine} (st : State)
    (sel : Element) (opt : OptionEl) :
  doc st !! "countryCode" = Some sel →
  index (options sel) (selectedIndex sel) = Some opt →
  option_getAttribute "data-pattern" opt = None →
  (∀ number,
     Baseline.validatePhoneNumber number (Some "countryCode") st = Ok false
     ∧ Enhanced.validatePhoneNumber number (Some "countryCode") st = Ok false)
  ∧ (is_Some (doc st !! "contactForm") →
     phone_checked st = true →
     is_Some (doc st !! "phoneError") →
     (blocked st (fst (Baseline.form_submit st))
      ∧ ¬ shown_and_reset st (fst (Baseline.form_submit st)))
     ∧ (blocked st (fst (Enhanced.form_submit st))
        ∧ ¬ shown_and_reset st (fst (Enhanced.form_submit st)))).
Proof.
  intros Hcc Hopt Hpat. split.
  - intros number. by apply (validatePhoneNumber_no_pattern st _ sel opt).
  - intros Hform Hchk [pe Hpe].
    assert (Hv : form_verdict st ≠ Ok true).
    { unfold form_verdict, phone_ok, countryCode_ref. rewrite Hchk, Hpe, Hcc.
      destruct (doc st !! "phone") as [p|]; [|done].
      destruct (is_empty (trim (value p))); [done|].
      destruct (validatePhoneNumber_no_pattern st "countryCode" sel opt
                  (value p) Hcc Hopt Hpat) as [-> _]. done. }
    destruct (form_submit_baseline_outcome st Hform) as [_ Hb].
    destruct (form_submit_enhanced_outcome st Hform) as [_ He].
    split; (split; [|apply blocked_not_shown]); auto.
Qed.

Lemma no_pattern_no_phone_submission_witness :
  let st := sample_page (str "Ann") (str "Lee") (str "ann@lee.ch") (str "Hi")
              (str "Hello there") (str "791234567") true 1 in
  doc st !! "countryCode" = Some (country_select 1)
  ∧ Baseline.validatePhoneNumber (engine := fragment_engine)
      (str "791234567") (Some "countryCode") st = Ok false
  ∧ ¬ shown_and_reset st
        (fst (Baseline.form_submit (engine := fragment_engine) st))
  ∧ ¬ shown_and_reset st
        (fst (Enhanced.form_submit (engine := fragment_engine) st)).
Proof.
  intros st.
  assert (Hcc : doc st !! "countryCode" = Some (country_select 1))
    by reflexivity.
  assert (Hopt : index (options (country_select 1))
                   (selectedIndex (country_select 1)) = Some plain_option)
    by reflexivity.
  assert (Hpat : option_getAttribute "data-pattern" plain_option = None)
    by reflexivity.
  assert (Hform : is_Some (doc st !! "contactForm")) by (by eexists).
  assert (Hpe : is_Some (doc st !! "phoneError")) by (by eexists).
  assert (Hchk : phone_checked st = true) by reflexivity.
  destruct (no_pattern_no_phone_submission (engine := fragment_engine)
              st (country_select 1) plain_option Hcc Hopt Hpat) as [Hn Hs].
  destruct (Hs Hform Hchk Hpe) as [[_ Hb] [_ He]].
  split; [exact Hcc|]. split; [apply Hn|]. split; assumption.
Defined.

(** C9, the claim as worded fails: on a page without the phone error
    node, with the phone method ticked and an option without
    [data-pattern] selected, [validatePhoneNumber] returns false for the
    phone value and yet the submission succeeds in both variants, since
    [validateField] returns true when the error node is missing. *)
Lemma no_pattern_submission_succeeds_without_error_node :
  let st := sample_page_without "phoneError" (str "Ann") (str "Lee")
              (str "ann@lee.ch") (str "Hi") (str "Hello there")
              (str "791234567") true 1 in
  phone_checked st = true
  ∧ selected_option st = Some plain_option
  ∧ option_getAttribute "data-pattern" plain_option = None
  ∧ Baseline.validatePhoneNumber (engine := fragment_engine)
      (field_value st "phone") (Some "countryCode") st = Ok false
  ∧ shown_and_reset st
      (fst (Baseline.form_submit (engine := fragment_engine) st))
  ∧ shown_and_reset st
      (fst (Enhanced.form_submit (engine := fragment_engine) st)).
Proof. vm_compute. repeat split; reflexivity. Qed.

(** ** A page without the phone input *)

(** C10, the defect.  On a page that lacks the phone input while the
    phone method is ticked, with every text field valid, the submit handler
    of either variant throws a TypeError when it reads
    [elements.phoneInput.value]: the missing field is not treated as valid,
    the modal stays hidden and the form is not reset.  The same page
    without the phone error node instead submits successfully. *)
Lemma submit_without_phone_input_throws :
  let st := sample_page_without "phone" (str "Ann") (str "Lee")
              (str "ann@lee.ch") (str "Hi") (str "Hello there") [] true 0 in
  doc st !! "phone" = None
  ∧ fields_ok Baseline.fieldValidators st = true
  ∧ snd (Baseline.form_submit (engine := fragment_engine) st) = Throw TypeError
  ∧ snd (Enhanced.form_submit (engine := fragment_engine) st) = Throw TypeError
  ∧ display (node (fst (Baseline.form_submit (engine := fragment_engine) st))
               "successModal") = str "none"
  ∧ display (node (fst (Enhanced.form_submit (engine := fragment_engine) st))
               "successModal") = str "none"
  ∧ log (fst (Baseline.form_submit (engine := fragment_engine) st))
    = [PreventDefault; StopPropagation]
  ∧ log (fst (Enhanced.form_submit (engine := fragment_engine) st))
    = [PreventDefault; StopPropagation].
Proof. vm_compute. repeat split; reflexivity. Qed.

(** ** The two variants side by side *)

Lemma submit_success_baseline_missing st :
  doc st !! "modalOverlay" = None ∨ doc st !! "successModal" = None →
  log (fst (Baseline.submit_success st)) = log st.
Proof.
  intros Hm. unfold Baseline.submit_success.
  erewrite bind_ok; [|by apply elements_baseline_eq].
  destruct (doc st !! "modalOverlay") as [ov|] eqn:Hov; [|reflexivity].
  destruct Hm as [?|Hsm]; [done|].
  erewrite bind_ok; [|reflexivity].
  erewrite bind_ok; [|by apply elements_baseline_eq].
  cbn [update fst doc set_doc]. rewrite lookup_alter_ne, Hsm by done.
  reflexivity.
Qed.

Lemma submit_success_enhanced_missing st :
  doc st !! "modalOverlay" = None ∨ doc st !! "successModal" = None →
  log (fst (Enhanced.submit_success st)) = log st.
Proof.
  intros Hm. unfold Enhanced.submit_success.
  step_enhanced.
  destruct (doc st !! "modalOverlay") as [ov|] eqn:Hov; [|reflexivity].
  destruct Hm as [?|Hsm]; [done|].
  do 3 step_enhanced. cbn [update fst doc set_doc].
  rewrite !lookup_alter_ne, Hsm by done.
  reflexivity.
Qed.

Lemma not_shown_of_log st st' (l : list Effect) :
  log st' = log st ++ l → l ≠ [PreventDefault; StopPropagation; FormReset] →
  ¬ shown_and_reset st st'.
Proof.
  intros Hl Hne (_ & _ & Hl'). rewrite Hl in Hl'.
  by apply app_inv_head in Hl'.
Qed.

Lemma form_submit_baseline_shown_iff `{engine : RegExpEngine} st :
  shown_and_reset st (fst (Baseline.form_submit st)) ↔ succeeds st.
Proof.
  split.
  2:{ intros (Hform & Hv & Hov & Hsm).
      by apply (form_submit_baseline_outcome st Hform). }
  intros Hs. unfold succeeds.
  destruct (doc st !! "contactForm") as [fm|] eqn:Hfm.
  2:{ exfalso. revert Hs. apply (not_shown_of_log _ _ []); [|done].
      unfold Baseline.form_submit.
      erewrite bind_ok; [|by apply elements_baseline_eq]. rewrite Hfm.
      simpl. by rewrite app_nil_r. }
  assert (Hform : is_Some (doc st !! "contactForm")) by (by rewrite Hfm).
  destruct (form_submit_baseline_outcome st Hform) as [_ Hb].
  destruct (form_verdict st) as [[|]|] eqn:Hv;
    try (destruct (blocked_not_shown _ _ (Hb ltac:(done)) Hs)).
  split; [by eexists|]. split; [done|].
  destruct (doc st !! "modalOverlay") as [ov|] eqn:Hov,
    (doc st !! "successModal") as [sm|] eqn:Hsm; [by split; eexists|..].
  all: exfalso; revert Hs;
    apply (not_shown_of_log _ _ [PreventDefault; StopPropagation]); [|done].
  all: unfold Baseline.form_submit;
    (erewrite bind_ok; [|by apply elements_baseline_eq]); rewrite Hfm;
    rewrite prologue_eq;
    pose proof (validateForm_baseline (entered st)) as Hr;
    pose proof (stable_validateForm_baseline _ (ofc_stable st) (entered st)
                  (ofc_entered st)) as Ho;
    pose proof (stable_validateForm_baseline _
                  (log_stable (log st ++ [PreventDefault; StopPropagation]))
                  (entered st) eq_refl) as Hl;
    unfold mbind, M_bind;
    destruct (Baseline.validateForm (entered st)) as [st2 r];
    cbn [fst snd] in Hr, Ho, Hl; rewrite form_verdict_entered, Hv in Hr;
    subst r;
    pose proof (ofc_lookup st st2 "modalOverlay" Ho) as H1;
    pose proof (ofc_lookup st st2 "successModal" Ho) as H2;
    rewrite Hov in H1; rewrite Hsm in H2;
    rewrite submit_success_baseline_missing; [done|];
    destruct (doc st2 !! "modalOverlay"), (doc st2 !! "successModal");
    try done; auto.
Qed.

Lemma form_submit_enhanced_shown_iff `{engine : RegExpEngine} st :
  shown_and_reset st (fst (Enhanced.form_submit st)) ↔ succeeds st.
Proof.
  split.
  2:{ intros (Hform & Hv & Hov & Hsm).
      by apply (form_submit_enhanced_outcome st Hform). }
  intros Hs. unfold succeeds.
  destruct (doc st !! "contactForm") as [fm|] eqn:Hfm.
  2:{ exfalso. revert Hs. apply (not_shown_of_log _ _ []); [|done].
      unfold Enhanced.form_submit.
      erewrite bind_ok; [|by apply elements_enhanced_eq]. rewrite Hfm.
      simpl. by rewrite app_nil_r. }
  assert (Hform : is_Some (doc st !! "contactForm")) by (by rewrite Hfm).
  destruct (form_submit_enhanced_outcome st Hform) as [_ Hb].
  destruct (form_verdict st) as [[|]|] eqn:Hv;
    try (destruct (blocked_not_shown _ _ (Hb ltac:(done)) Hs)).
  split; [by eexists|]. split; [done|].
  destruct (doc st !! "modalOverlay") as [ov|] eqn:Hov,
    (doc st !! "successModal") as [sm|] eqn:Hsm; [by split; eexists|..].
  all: exfalso; revert Hs;
    apply (not_shown_of_log _ _ [PreventDefault; StopPropagation]); [|done].
  all: unfold Enhanced.form_submit;
    (erewrite bind_ok; [|by apply elements_enhanced_eq]); rewrite Hfm;
    rewrite prologue_eq;
    pose proof (validateForm_enhanced (entered st)) as Hr;
    pose proof (stable_validateForm_enhanced _ (ofc_stable st) (entered st)
                  (ofc_entered st)) as Ho;
    pose proof (stable_validateForm_enhanced _
                  (log_stable (log st ++ [PreventDefault; StopPropagation]))
                  (entered st) eq_refl) as Hl;
    unfold mbind, M_bind;
    destruct (Enhanced.validateForm (entered st)) as [st2 r];
    cbn [fst snd] in Hr, Ho, Hl; rewrite form_verdict_entered, Hv in Hr;
    subst r;
    pose proof (ofc_lookup st st2 "modalOverlay" Ho) as H1;
    pose proof (ofc_lookup st st2 "successModal" Ho) as H2;
    rewrite Hov in H1; rewrite Hsm in H2;
    rewrite submit_success_enhanced_missing; [done|];
    destruct (doc st2 !! "modalOverlay"), (doc st2 !! "successModal");
    try done; auto.
Qed.

(** C6.  The two variants validate alike.  For every string they have
    the same [isValidEmail]; for every number, selector and page the same
    [validatePhoneNumber]; the same five entries of [fieldValidators], in
    the same order, with predicates that agree on every value; for every
    call of [validateField] the same verdict; on every page the same value
    of [isValid] when the submit handler has validated the form; and so, on
    every page, a submit event succeeds in one variant exactly when it does
    in the other. *)
Theorem variants_validate_alike `{engine : RegExpEngine} :
  (∀ email, Baseline.isValidEmail email = Enhanced.isValidEmail email)
  ∧ (∀ number countryCodeSelect st,
       Baseline.validatePhoneNumber number countryCodeSelect st
       = Enhanced.validatePhoneNumber number countryCodeSelect st)
  ∧ (map fst Baseline.fieldValidators = map fst Enhanced.fieldValidators
     ∧ map fst Baseline.fieldValidators
       = ["firstName"; "lastName"; "email"; "messageSubject"; "message"]
     ∧ ∀ name v,
         (λ c, validator c v) <$> assoc_name name Baseline.fieldValidators
         = (λ c, validator c v) <$> assoc_name name Enhanced.fieldValidators)
  ∧ (∀ field errorElement validationFn errorMessage st,
       snd (Baseline.validateField field errorElement validationFn
              errorMessage st)
       = snd (Enhanced.validateField field errorElement validationFn
                errorMessage st))
  ∧ (∀ st, snd (Baseline.validateForm st) = snd (Enhanced.validateForm st))
  ∧ (∀ st, shown_and_reset st (fst (Baseline.form_submit st))
           ↔ shown_and_reset st (fst (Enhanced.form_submit st))).
Proof.
  split; [reflexivity|]. split; [reflexivity|].
  split; [split; [reflexivity | split; reflexivity]|].
  split; [|split].
  - intros [f|] [e|] fn msg st; try reflexivity.
    by rewrite validateField_baseline_result, validateField_enhanced_result.
  - intros st. by rewrite validateForm_baseline, validateForm_enhanced.
  - intros st.
    by rewrite form_submit_baseline_shown_iff, form_submit_enhanced_shown_iff.
Qed.

(** ** The contact method *)

Ltac step_baseline :=
  rewrite ?bind_assoc;
  first [ erewrite bind_ok; [|by apply elements_baseline_eq]
        | erewrite bind_ok; [|reflexivity] ].

(** Read nodes out of a chain of updates under concrete keys. *)
Ltac read_doc :=
  unfold has_class, node; simpl;
  repeat (rewrite lookup_alter_eq || rewrite lookup_alter_ne by done).

Ltac to_lookup :=
  cbn [update fst doc set_doc]; rewrite ?lookup_alter_ne by done.








(** ** The phone input *)

Lemma cleaned_digits_and_spaces (v : list N) :
  digits_and_spaces (replace_class_all cls_not_digit_space v).
Proof.
  unfold digits_and_spaces, replace_class_all, cls_not_digit_space.
  apply Forall_forall. intros c Hc. apply list_elem_of_In in Hc.
  apply filter_In in Hc as [_ Hc]. by rewrite negb_involutive in Hc.
Qed.

Lemma assign_cleaned_value (v : list N) (e : Element) :
  digits_and_spaces
    (value (assign_value (replace_class_all cls_not_digit_space v) e)).
Proof.
  unfold assign_value.
  set (v' := if singleLine e then _ else _).
  assert (Hv' : digits_and_spaces v').
  { subst v'. destruct (singleLine e); [|apply cleaned_digits_and_spaces].
    unfold digits_and_spaces. apply Forall_forall. intros c Hc.
    apply list_elem_of_In in Hc. apply filter_In in Hc as [Hc _].
    apply list_elem_of_In in Hc. revert c Hc. apply Forall_forall.
    apply cleaned_digits_and_spaces. }
  case_decide as Heq; [by rewrite <- Heq | exact Hv'].
Qed.

Lemma phoneInput_input_baseline_clean st :
  digits_and_spaces (value (node (fst (Baseline.phoneInput_input st)) "phone")).
Proof.
  unfold Baseline.phoneInput_input. step_baseline.
  destruct (doc st !! "phone") as [p|] eqn:Hp.
  - do 4 step_baseline. read_doc. rewrite Hp. simpl.
    apply assign_cleaned_value.
  - unfold node. simpl. rewrite Hp. constructor.
Qed.

Lemma phoneInput_input_enhanced_clean st :
  digits_and_spaces (value (node (fst (Enhanced.phoneInput_input st)) "phone")).
Proof.
  unfold Enhanced.phoneInput_input. step_enhanced.
  destruct (doc st !! "phone") as [p|] eqn:Hp.
  - do 4 step_enhanced. read_doc. rewrite Hp. simpl.
    apply assign_cleaned_value.
  - unfold node. simpl. rewrite Hp. constructor.
Qed.

Lemma phoneInput_paste_baseline_clean text st :
  digits_and_spaces
    (value (node (fst (Baseline.phoneInput_paste text st)) "phone")).
Proof.
  unfold Baseline.phoneInput_paste. step_baseline.
  destruct (doc st !! "phone") as [p|] eqn:Hp.
  - do 6 step_baseline. apply phoneInput_input_baseline_clean.
  - unfold node. simpl. rewrite Hp. constructor.
Qed.

Lemma phoneInput_paste_enhanced_clean text st :
  digits_and_spaces
    (value (node (fst (Enhanced.phoneInput_paste text st)) "phone")).
Proof.
  unfold Enhanced.phoneInput_paste. step_enhanced.
  destruct (doc st !! "phone") as [p|] eqn:Hp.
  - do 6 step_enhanced. apply phoneInput_input_enhanced_clean.
  - unfold node. simpl. rewrite Hp. constructor.
Qed.

(** ** An empty first name *)

Lemma preserves_bind_getElementById (R : State → Prop) {B : Type} (id : string)
    (k : option string → M B) :
  preserves R (k (Some id)) → preserves R (k None) →
  preserves R (getElementById id ≫= k).
Proof.
  intros HS HN st HR. unfold mbind, M_bind, getElementById.
  destruct (doc st !! id); [by apply HS | by apply HN].
Qed.

Lemma preserves_bind_elements_baseline (R : State → Prop) {B : Type}
    (name id : string) (k : option string → M B) :
  assoc_name name element_ids = Some id →
  preserves R (k (Some id)) → preserves R (k None) →
  preserves R (Baseline.elements name ≫= k).
Proof.
  intros E HS HN. unfold Baseline.elements. rewrite E.
  by apply preserves_bind_getElementById.
Qed.

Lemma preserves_bind_elements_enhanced (R : State → Prop) {B : Type}
    (name id : string) (k : option string → M B) :
  assoc_name name element_ids = Some id →
  preserves R (k (Some id)) → preserves R (k None) →
  preserves R (Enhanced.elements name ≫= k).
Proof.
  intros E HS HN. unfold Enhanced.elements. rewrite E.
  by apply preserves_bind_getElementById.
Qed.

Lemma rejected_update (k : string) (f : Element → Element) :
  k ≠ "firstName" → k ≠ "firstNameError" →
  preserves first_name_rejected (update k f).
Proof.
  intros H1 H2 st. unfold first_name_rejected, first_name_blank,
    first_name_flagged, has_class, node. simpl.
  by rewrite !lookup_alter_ne.
Qed.

Lemma rejected_setTimeout cb d :
  preserves first_name_rejected (setTimeout cb d).
Proof. intros st H. exact H. Qed.

Lemma rejected_set_focus r : preserves first_name_rejected (set_focus r).
Proof. intros st H. exact H. Qed.

Lemma blank_stable : feedback_stable first_name_blank.
Proof.
  split; [|split]; try (intros; assumption).
  intros k f Hf st (fe & Hfe & Hb & [e He]). unfold first_name_blank. simpl.
  rewrite !lookup_alter. repeat case_decide; subst; rewrite ?Hfe, ?He; simpl.
  all: eexists; split; [reflexivity|]; split; try (by eexists).
  all: try done.
  all: specialize (Hf fe); apply (f_equal value) in Hf; simpl in Hf;
    by rewrite Hf.
Qed.

(** Validating the blank first-name field flags it, whatever was flagged
    before. *)
Lemma rejected_validateField_baseline (fn : ValidationFn) :
  (∀ v st, is_empty (trim v) = true → fn v st = Ok false) →
  ∀ st, first_name_blank st →
    first_name_rejected
      (fst (Baseline.validateField (Some "firstName") (Some "firstNameError")
              fn (Some (str "Please provide your first name.")) st)).
Proof.
  intros Hfn st Hb. split.
  - by apply (stable_validateField_baseline _ blank_stable).
  - destruct Hb as (f & Hf & Hblank & He).
    destruct (reports_inline_baseline st "firstName" "firstNameError" fn
                (Some (str "Please provide your first name."))) as [Hr _];
      [by eexists | done |].
    destruct Hr as (_ & ? & _ & ? & ? & _).
    + rewrite (node_lookup _ _ _ Hf). by apply Hfn.
    + by repeat split.
Qed.

Lemma rejected_validateField_enhanced (fn : ValidationFn) :
  (∀ v st, is_empty (trim v) = true → fn v st = Ok false) →
  ∀ st, first_name_blank st →
    first_name_rejected
      (fst (Enhanced.validateField (Some "firstName") (Some "firstNameError")
              fn (Some (str "Please provide your first name.")) st)).
Proof.
  intros Hfn st Hb. split.
  - by apply (stable_validateField_enhanced _ blank_stable).
  - destruct Hb as (f & Hf & Hblank & He).
    destruct (reports_inline_enhanced st "firstName" "firstNameError" fn
                (Some (str "Please provide your first name."))) as [Hr _];
      [by eexists | done |].
    destruct Hr as (_ & ? & _ & ? & ? & _).
    + rewrite (node_lookup _ _ _ Hf). by apply Hfn.
    + by repeat split.
Qed.

Lemma nonblank_rejects v (st : State) :
  is_empty (trim v) = true →
  pure_fn (λ value, negb (is_empty (trim value))) v st = Ok false.
Proof. intros H. unfold pure_fn. by rewrite H. Qed.

Lemma rejected_again_baseline (fn : ValidationFn) :
  (∀ v st, is_empty (trim v) = true → fn v st = Ok false) →
  preserves first_name_rejected
    (Baseline.validateField (Some "firstName") (Some "firstNameError") fn
       (Some (str "Please provide your first name."))).
Proof. intros Hfn st [Hb _]. by apply rejected_validateField_baseline. Qed.

Lemma rejected_again_enhanced (fn : ValidationFn) :
  (∀ v st, is_empty (trim v) = true → fn v st = Ok false) →
  preserves first_name_rejected
    (Enhanced.validateField (Some "firstName") (Some "firstNameError") fn
       (Some (str "Please provide your first name."))).
Proof. intros Hfn st [Hb _]. by apply rejected_validateField_enhanced. Qed.

(** Handlers that leave the flagged first-name field alone or flag it
    again: every node they update is looked up under a fixed id. *)
Ltac framing_step :=
  match goal with
  | |- preserves _ (mret _) => apply preserves_ret
  | |- preserves _ (throw _) => apply preserves_throw
  | |- preserves _ (reading _) => apply preserves_reading
  | |- preserves _ (getProp _ _) => apply preserves_getProp
  | |- preserves _ (is_checked _) => apply preserves_is_checked
  | |- preserves _ (getElementById _) => apply preserves_getElementById
  | |- preserves _ (Baseline.elements _) => apply preserves_elements_baseline
  | |- preserves _ (Enhanced.elements _) => apply preserves_elements_enhanced
  | |- preserves _ (setTimeout _ _) => apply rejected_setTimeout
  | |- preserves _ (set_focus _) => apply rejected_set_focus
  | |- preserves _ (update _ _) => apply rejected_update; discriminate
  | |- preserves _ (Baseline.validateField (Some "firstName")
                      (Some "firstNameError") _ _) =>
      apply rejected_again_baseline; apply nonblank_rejects
  | |- preserves _ (Enhanced.validateField (Some "firstName")
                      (Some "firstNameError") _ _) =>
      apply rejected_again_enhanced; apply nonblank_rejects
  | |- preserves _ (Baseline.validateField _ _ _ _) =>
      unfold Baseline.validateField
  | |- preserves _ (Enhanced.validateField _ _ _ _) =>
      unfold Enhanced.validateField
  | |- preserves _ (Baseline.elements _ ≫= _) =>
      eapply preserves_bind_elements_baseline; [reflexivity | | ]
  | |- preserves _ (Enhanced.elements _ ≫= _) =>
      eapply preserves_bind_elements_enhanced; [reflexivity | | ]
  | |- preserves _ (getElementById (String.append _ _) ≫= _) => compute_ids
  | |- preserves _ (getElementById _ ≫= _) =>
      apply preserves_bind_getElementById
  | |- preserves _ (if String.eqb _ _ then _ else _) =>
      cbn [String.eqb Ascii.eqb Bool.eqb]
  | |- preserves _ (if String.eqb _ _ && _ then _ else _) =>
      cbn [String.eqb Ascii.eqb Bool.eqb andb]
  | |- preserves _ (if ?x then _ else _) => destruct x
  | |- preserves _ (match ?x with _ => _ end) => destruct x
  | |- preserves _ (_ ≫= _) => apply preserves_bind; [|intros ?]
  | |- preserves _ (dispatch _) => apply preserves_dispatch
  end.

Ltac framing := cbn [validator errorMessage emptyMessage]; repeat framing_step.

Lemma rejected_validateTextField_baseline entry b :
  In entry Baseline.fieldValidators →
  preserves first_name_rejected (Baseline.validateTextField entry b).
Proof.
  unfold Baseline.fieldValidators. simpl.
  intros [<-|[<-|[<-|[<-|[<-|[]]]]]]; unfold Baseline.validateTextField.
  all: framing.
Qed.

Lemma rejected_validateTextField_enhanced entry b :
  In entry Enhanced.fieldValidators →
  preserves first_name_rejected (Enhanced.validateTextField entry b).
Proof.
  unfold Enhanced.fieldValidators. simpl.
  intros [<-|[<-|[<-|[<-|[<-|[]]]]]]; unfold Enhanced.validateTextField.
  all: framing.
Qed.

Lemma rejected_validatePhone_baseline `{engine : RegExpEngine} b :
  preserves first_name_rejected (Baseline.validatePhone b).
Proof. unfold Baseline.validatePhone. framing. Qed.

Lemma rejected_validatePhone_enhanced `{engine : RegExpEngine} b :
  preserves first_name_rejected (Enhanced.validatePhone b).
Proof. unfold Enhanced.validatePhone. framing. Qed.

Lemma rejected_blur_listeners `{engine : RegExpEngine} c :
  preserves first_name_rejected (Enhanced.blur_listeners c).
Proof.
  unfold Enhanced.blur_listeners, Enhanced.fieldValidators. cbn [assoc_name].
  repeat match goal with
         | |- context [String.eqb c ?s] =>
             destruct (String.eqb_spec c s) as [->|?]
         end;
    unfold Enhanced.field_blur, Enhanced.phoneInput_blur; framing.
Qed.

Lemma rejected_submit_failure `{engine : RegExpEngine} :
  preserves first_name_rejected Enhanced.submit_failure.
Proof.
  unfold Enhanced.submit_failure, Enhanced.announceToScreenReader,
    Enhanced.focus.
  framing; apply rejected_blur_listeners.
Qed.

Lemma bind_establish {A B : Type} (P Q : State → Prop) (m : M A)
    (k : A → M B) :
  (∀ st, P st → Q (fst (m st))) → (∀ a, preserves Q (k a)) →
  ∀ st, P st → Q (fst ((m ≫= k) st)).
Proof.
  intros Hm Hk st HP. specialize (Hm st HP). unfold mbind, M_bind.
  destruct (m st) as [st' [a|e]]; [by apply Hk | exact Hm].
Qed.

Lemma fst_bind_ret {A B : Type} (m : M A) (g : A → B) (st : State) :
  fst ((m ≫= λ r, mret (g r)) st) = fst (m st).
Proof. unfold mbind, M_bind. by destruct (m st) as [st' [a|e]]. Qed.

Lemma rejected_first_round_baseline b st :
  first_name_blank st →
  first_name_rejected
    (fst (Baseline.validateTextField
            ("firstName",
             mkConfig (λ value, negb (is_empty (trim value)))
               (str "Please provide your first name.") None) b st)).
Proof.
  intros Hb. pose proof Hb as (f & Hf & Hblank & [e He]).
  unfold Baseline.validateTextField.
  erewrite bind_ok; [|by apply elements_baseline_eq]. rewrite Hf.
  erewrite bind_ok; [|reflexivity]. compute_ids. rewrite He.
  cbn [String.eqb Ascii.eqb Bool.eqb validator errorMessage].
  rewrite fst_bind_ret.
  by apply rejected_validateField_baseline; [apply nonblank_rejects|].
Qed.

Lemma rejected_first_round_enhanced b st :
  first_name_blank st →
  first_name_rejected
    (fst (Enhanced.validateTextField
            ("firstName",
             mkConfig (λ value, negb (is_empty (trim value)))
               (str "Please provide your first name.") None) b st)).
Proof.
  intros Hb. pose proof Hb as (f & Hf & Hblank & [e He]).
  unfold Enhanced.validateTextField.
  erewrite bind_ok; [|by apply elements_enhanced_eq]. rewrite Hf.
  erewrite bind_ok; [|reflexivity]. compute_ids. rewrite He.
  cbn [String.eqb Ascii.eqb Bool.eqb validator errorMessage].
  rewrite fst_bind_ret.
  by apply rejected_validateField_enhanced; [apply nonblank_rejects|].
Qed.

(** The loop and the phone block, started on a page whose first-name
    field is blank. *)
Lemma rejected_validateForm_baseline `{engine : RegExpEngine} st :
  first_name_blank st →
  first_name_rejected (fst (Baseline.validateForm st)).
Proof.
  unfold Baseline.validateForm, Baseline.fieldValidators. cbn [forEachAcc].
  revert st. apply bind_establish; [|intros ?; apply rejected_validatePhone_baseline].
  apply bind_establish; [apply rejected_first_round_baseline|].
  intros ?. framing.
  all: apply rejected_validateTextField_baseline;
    unfold Baseline.fieldValidators; simpl; tauto.
Qed.

Lemma rejected_validateForm_enhanced `{engine : RegExpEngine} st :
  first_name_blank st →
  first_name_rejected (fst (Enhanced.validateForm st)).
Proof.
  unfold Enhanced.validateForm, Enhanced.fieldValidators. cbn [forEachAcc].
  revert st. apply bind_establish; [|intros ?; apply rejected_validatePhone_enhanced].
  apply bind_establish; [apply rejected_first_round_enhanced|].
  intros ?. framing.
  all: apply rejected_validateTextField_enhanced;
    unfold Enhanced.fieldValidators; simpl; tauto.
Qed.

Lemma blank_first_name_verdict `{engine : RegExpEngine} st :
  first_name_blank st → form_verdict st ≠ Ok true.
Proof.
  intros (f & Hf & Hblank & [e He]). unfold form_verdict.
  assert (Hno : fields_ok Baseline.fieldValidators st = false).
  { unfold fields_ok, Baseline.fieldValidators, field_ok. cbn [forallb fst snd].
    compute_ids. rewrite Hf, He. cbn [validator]. by rewrite Hblank. }
  rewrite Hno. destruct (phone_ok st) as [r|]; [|done].
  by rewrite andb_false_r.
Qed.

(** C2 (as amended).  A submit event on a page whose first-name field is blank (empty
    or white space only) leaves that field marked [is-invalid], its error
    node visible ([d-block]) with the text asking for the first name, and
    does not bring up the success modal: the display of the modal and of
    its overlay is what it was, the form is not reset and nothing changes
    but validation feedback.  In both variants. *)
Theorem empty_first_name_blocks `{engine : RegExpEngine} (st : State) :
  is_Some (doc st !! "contactForm") →
  first_name_blank st →
  (first_name_flagged (fst (Baseline.form_submit st))
   ∧ display (node (fst (Baseline.form_submit st)) "successModal")
     = display (node st "successModal")
   ∧ display (node (fst (Baseline.form_submit st)) "modalOverlay")
     = display (node st "modalOverlay")
   ∧ blocked st (fst (Baseline.form_submit st)))
  ∧ (first_name_flagged (fst (Enhanced.form_submit st))
     ∧ display (node (fst (Enhanced.form_submit st)) "successModal")
       = display (node st "successModal")
     ∧ display (node (fst (Enhanced.form_submit st)) "modalOverlay")
       = display (node st "modalOverlay")
     ∧ blocked st (fst (Enhanced.form_submit st))).
Proof.
  intros Hform Hb. pose proof (blank_first_name_verdict st Hb) as Hv.
  destruct (form_submit_baseline_outcome st Hform) as [_ HB].
  destruct (form_submit_enhanced_outcome st Hform) as [_ HE].
  specialize (HB Hv). specialize (HE Hv).
  destruct Hform as [fm Hfm].
  split; (split; [|split; [|split]]);
    try (by apply ofc_node, HB); try (by apply ofc_node, HE); try done.
  - unfold Baseline.form_submit.
    erewrite bind_ok; [|by apply elements_baseline_eq]. rewrite Hfm.
    rewrite prologue_eq.
    pose proof (rejected_validateForm_baseline (entered st) Hb) as Hr.
    pose proof (validateForm_baseline (entered st)) as Hres.
    unfold mbind, M_bind.
    destruct (Baseline.validateForm (entered st)) as [st2 r].
    cbn [fst snd] in Hr, Hres. rewrite form_verdict_entered in Hres. subst r.
    destruct (form_verdict st) as [[|]|]; [done | apply Hr | apply Hr].
  - unfold Enhanced.form_submit.
    erewrite bind_ok; [|by apply elements_enhanced_eq]. rewrite Hfm.
    rewrite prologue_eq.
    pose proof (rejected_validateForm_enhanced (entered st) Hb) as Hr.
    pose proof (validateForm_enhanced (entered st)) as Hres.
    unfold mbind, M_bind.
    destruct (Enhanced.validateForm (entered st)) as [st2 r].
    cbn [fst snd] in Hr, Hres. rewrite form_verdict_entered in Hres. subst r.
    destruct (form_verdict st) as [[|]|]; [done | | apply Hr].
    by apply rejected_submit_failure.
Qed.

Lemma empty_first_name_blocks_witness :
  let st := sample_page (str "  ") (str "Lee") (str "ann@lee.ch") (str "Hi")
              (str "Hello there") [] false 0 in
  first_name_blank st
  ∧ first_name_flagged
      (fst (Baseline.form_submit (engine := fragment_engine) st))
  ∧ first_name_flagged
      (fst (Enhanced.form_submit (engine := fragment_engine) st)).
Proof.
  intros st.
  assert (Hform : is_Some (doc st !! "contactForm")) by (by eexists).
  assert (Hb : first_name_blank st).
  { exists (text_input (str "  ")). split; [reflexivity|].
    split; [reflexivity | by eexists]. }
  destruct (empty_first_name_blocks (engine := fragment_engine) st Hform Hb)
    as [(H1 & _) (H2 & _)].
  split; [exact Hb|]. split; assumption.
Defined.

(** C2, the claim as worded fails on a page without the error node of the
    first-name field: the loop over the validators skips a field whose
    error node is missing, so with a blank first name and every other field
    valid the field is not marked and the success modal is displayed, in
    both variants. *)
Lemma blank_first_name_submits_without_error_node :
  let st := sample_page_without "firstNameError" (str "  ") (str "Lee")
              (str "ann@lee.ch") (str "Hi") (str "Hello there") [] false 0 in
  let baseline := fst (Baseline.form_submit (engine := fragment_engine) st) in
  let enhanced := fst (Enhanced.form_submit (engine := fragment_engine) st) in
  is_empty (trim (field_value st "firstName")) = true
  ∧ (bool_decide ("is-invalid" ∈ classList (node baseline "firstName")) = false
     ∧ shown_and_reset st baseline)
  ∧ (bool_decide ("is-invalid" ∈ classList (node enhanced "firstName")) = false
     ∧ shown_and_reset st enhanced).
Proof. vm_compute. repeat split; reflexivity. Qed.

(** ** Walking through a handler

    A [preserves] goal about a handler is taken apart along the handler's
    code: the functions it calls are unfolded, and what is left are the
    primitive operations, each closed by [leaf]. *)

Ltac unfold_call :=
  match goal with
  | |- preserves _ (Baseline.validateField _ _ _ _) =>
      unfold Baseline.validateField
  | |- preserves _ (Enhanced.validateField _ _ _ _) =>
      unfold Enhanced.validateField
  | |- preserves _ (Baseline.clearValidation _ _) =>
      unfold Baseline.clearValidation
  | |- preserves _ (Enhanced.clearValidation _ _) =>
      unfold Enhanced.clearValidation
  | |- preserves _ (Enhanced.announceToScreenReader _) =>
      unfold Enhanced.announceToScreenReader
  | |- preserves _ (Baseline.validateTextField ?e _) =>
      unfold Baseline.validateTextField
  | |- preserves _ (Enhanced.validateTextField ?e _) =>
      unfold Enhanced.validateTextField
  | |- preserves _ (Baseline.validatePhone _) => unfold Baseline.validatePhone
  | |- preserves _ (Enhanced.validatePhone _) => unfold Enhanced.validatePhone
  | |- preserves _ Baseline.validateForm => unfold Baseline.validateForm
  | |- preserves _ Enhanced.validateForm => unfold Enhanced.validateForm
  | |- preserves _ (Baseline.field_blur _ _) => unfold Baseline.field_blur
  | |- preserves _ (Enhanced.field_blur _ _) => unfold Enhanced.field_blur
  | |- preserves _ Baseline.phoneInput_blur => unfold Baseline.phoneInput_blur
  | |- preserves _ Enhanced.phoneInput_blur => unfold Enhanced.phoneInput_blur
  | |- preserves _ (Baseline.blur_listeners _) =>
      unfold Baseline.blur_listeners
  | |- preserves _ (Enhanced.blur_listeners _) =>
      unfold Enhanced.blur_listeners
  | |- preserves _ (Enhanced.focus _) => unfold Enhanced.focus
  | |- preserves _ Baseline.form_reset => unfold Baseline.form_reset
  | |- preserves _ Enhanced.form_reset => unfold Enhanced.form_reset
  | |- preserves _ Baseline.submit_success => unfold Baseline.submit_success
  | |- preserves _ Enhanced.submit_success => unfold Enhanced.submit_success
  | |- preserves _ Enhanced.submit_failure => unfold Enhanced.submit_failure
  | |- preserves _ Baseline.form_submit => unfold Baseline.form_submit
  | |- preserves _ Enhanced.form_submit => unfold Enhanced.form_submit
  | |- preserves _ Baseline.closeModal => unfold Baseline.closeModal
  | |- preserves _ Enhanced.closeModal => unfold Enhanced.closeModal
  | |- preserves _ Baseline.modalOverlay_click =>
      unfold Baseline.modalOverlay_click
  | |- preserves _ Enhanced.modalOverlay_click =>
      unfold Enhanced.modalOverlay_click
  | |- preserves _ (Enhanced.document_keydown _) =>
      unfold Enhanced.document_keydown
  | |- preserves _ Baseline.contactPhone_change =>
      unfold Baseline.contactPhone_change
  | |- preserves _ Enhanced.contactPhone_change =>
      unfold Enhanced.contactPhone_change
  | |- preserves _ Baseline.contactEmail_change =>
      unfold Baseline.contactEmail_change
  | |- preserves _ Enhanced.contactEmail_change =>
      unfold Enhanced.contactEmail_change
  | |- preserves _ Baseline.countryCode_change =>
      unfold Baseline.countryCode_change
  | |- preserves _ Enhanced.countryCode_change =>
      unfold Enhanced.countryCode_change
  | |- preserves _ Baseline.phoneInput_input =>
      unfold Baseline.phoneInput_input
  | |- preserves _ Enhanced.phoneInput_input =>
      unfold Enhanced.phoneInput_input
  | |- preserves _ (Baseline.phoneInput_paste _) =>
      unfold Baseline.phoneInput_paste
  | |- preserves _ (Enhanced.phoneInput_paste _) =>
      unfold Enhanced.phoneInput_paste
  | |- preserves _ Baseline.updateNavLinks => unfold Baseline.updateNavLinks
  | |- preserves _ Enhanced.updateNavLinks => unfold Enhanced.updateNavLinks
  | |- preserves _ Baseline.window_scroll => unfold Baseline.window_scroll
  | |- preserves _ (Enhanced.run_callback _) => unfold Enhanced.run_callback
  end.

Ltac walking leaf := repeat first [ leaf | unfold_call | preserving_step ].

(** ** The timers *)

Lemma timers_ok_same (st st' : State) :
  timers st' = timers st → nextTimer st' = nextTimer st →
  scrollTimeout st' = scrollTimeout st → timers_ok st → timers_ok st'.
Proof. unfold timers_ok. by intros -> -> ->. Qed.

Lemma timers_ok_update k f : preserves timers_ok (update k f).
Proof. intros st. by apply timers_ok_same. Qed.

Lemma timers_ok_emit e : preserves timers_ok (emit e).
Proof. intros st. by apply timers_ok_same. Qed.

Lemma timers_ok_set_focus r : preserves timers_ok (set_focus r).
Proof. intros st. by apply timers_ok_same. Qed.

Lemma timers_ok_scroll_to y : preserves timers_ok (scroll_to y).
Proof. intros st. by apply timers_ok_same. Qed.

Lemma fresh_id_not_pending (st : State) (t : N * (nat * Callback)) :
  timers_ok st → In t (timers st) → fst t ≠ nextTimer st.
Proof.
  intros (Hfresh & _) Hin. rewrite Forall_forall in Hfresh.
  apply list_elem_of_In, Hfresh in Hin. lia.
Qed.

Lemma timers_ok_setTimeout cb d :
  cb ≠ CbNavUpdate → preserves timers_ok (setTimeout cb d).
Proof.
  intros Hcb st Hok. pose proof (fresh_id_not_pending st) as Hne.
  specialize (Hne) with (1 := Hok).
  destruct Hok as (Hfresh & Hnd & Hst & Hnav). unfold timers_ok. simpl.
  rewrite map_app, !Forall_app. simpl. repeat split.
  - eapply Forall_impl; [exact Hfresh|]. simpl. intros t Ht. lia.
  - constructor; [|constructor]. simpl. lia.
  - apply NoDup_app. split; [exact Hnd|]. split; [|apply NoDup_singleton].
    intros id Hid [<-|[]]%list_elem_of_In.
    apply list_elem_of_In, in_map_iff in Hid as (t & Ht & Hin).
    by apply (Hne t).
  - intros i Hi. apply Hst in Hi. lia.
  - exact Hnav.
  - constructor; [|constructor]. unfold is_nav_update. simpl. split.
    + by destruct cb.
    + intros Hi. apply Hst in Hi. lia.
Qed.

Lemma NoDup_map_filter {A B : Type} (g : A → B) (p : A → bool) (l : list A) :
  NoDup (map g l) → NoDup (map g (List.filter p l)).
Proof.
  induction l as [|a l IH]; [done|]. simpl. intros [Ha Hl]%NoDup_cons.
  destruct (p a); [|by apply IH]. simpl. apply NoDup_cons.
  split; [|by apply IH]. intros Hin. apply Ha.
  apply list_elem_of_In in Hin. apply in_map_iff in Hin as (a' & Ea & Hin').
  apply filter_In in Hin' as [Hin' _]. apply list_elem_of_In.
  apply in_map_iff. by exists a'.
Qed.

Lemma timers_ok_drop_timer i st : timers_ok st → timers_ok (drop_timer i st).
Proof.
  intros (Hfresh & Hnd & Hst & Hnav). unfold timers_ok, drop_timer. simpl.
  repeat split.
  - rewrite Forall_forall in *. intros t Ht. apply Hfresh.
    apply list_elem_of_In. apply list_elem_of_In, filter_In in Ht. tauto.
  - by apply NoDup_map_filter.
  - exact Hst.
  - rewrite Forall_forall in *. intros t Ht. apply Hnav.
    apply list_elem_of_In. apply list_elem_of_In, filter_In in Ht. tauto.
Qed.

Lemma timers_ok_clearTimeout id : preserves timers_ok (clearTimeout id).
Proof.
  intros st Hok. destruct id as [i|]; [|done].
  by apply (timers_ok_drop_timer i).
Qed.

Ltac timers_leaf :=
  idtac;
  match goal with
  | |- preserves _ (update _ _) => apply timers_ok_update
  | |- preserves _ (emit _) => apply timers_ok_emit
  | |- preserves _ (set_focus _) => apply timers_ok_set_focus
  | |- preserves _ (scroll_to _) => apply timers_ok_scroll_to
  | |- preserves _ (clearTimeout _) => apply timers_ok_clearTimeout
  | |- preserves _ (setTimeout _ _) => apply timers_ok_setTimeout; discriminate
  end.

Lemma clearTimeout_eq id st : clearTimeout id st = (cleared id st, Ok tt).
Proof. by destruct id. Qed.

Lemma cleared_no_nav_update st t :
  timers_ok st → In t (timers (cleared (scrollTimeout st) st)) →
  is_nav_update t = false.
Proof.
  intros (_ & _ & _ & Hnav) Ht. rewrite Forall_forall in Hnav.
  destruct (scrollTimeout st) as [i|] eqn:Ei; simpl in Ht.
  - apply filter_In in Ht as [Hin Hne].
    apply list_elem_of_In, Hnav in Hin.
    destruct (is_nav_update t); [|done].
    assert (Some i = Some (fst t)) as [= ->] by by apply Hin.
    by rewrite N.eqb_refl in Hne.
  - apply list_elem_of_In, Hnav in Ht.
    destruct (is_nav_update t); [|done].
    assert (None = Some (fst t)) as [=] by by apply Ht.
Qed.

Lemma window_scroll_eq st :
  Enhanced.window_scroll st
  = (set_scrollTimeout (Some (nextTimer st))
       (set_timers
          (timers (cleared (scrollTimeout st) st)
           ++ [(nextTimer st, (100%nat, CbNavUpdate))])
          (N.succ (nextTimer st)) (cleared (scrollTimeout st) st)),
     Ok tt).
Proof.
  unfold Enhanced.window_scroll.
  erewrite bind_ok; [|reflexivity].
  erewrite bind_ok; [|apply clearTimeout_eq].
  erewrite bind_ok; [|reflexivity].
  by destruct (scrollTimeout st).
Qed.

Lemma timers_ok_window_scroll : preserves timers_ok Enhanced.window_scroll.
Proof.
  intros st Hok. rewrite window_scroll_eq. cbn [fst].
  pose proof (cleared_no_nav_update st) as Hgone.
  specialize (Hgone) with (1 := Hok).
  pose proof (timers_ok_clearTimeout (scrollTimeout st) st Hok) as Hc.
  rewrite clearTimeout_eq in Hc. cbn [fst] in Hc.
  assert (Hn : nextTimer (cleared (scrollTimeout st) st) = nextTimer st)
    by by destruct (scrollTimeout st).
  pose proof (fresh_id_not_pending (cleared (scrollTimeout st) st)) as Hne.
  specialize (Hne) with (1 := Hc). rewrite Hn in Hne.
  destruct Hc as (Hfresh & Hnd & Hst & Hnav). rewrite Hn in Hfresh.
  unfold timers_ok. simpl. rewrite map_app, !Forall_app. simpl. repeat split.
  - eapply Forall_impl; [exact Hfresh|]. simpl. intros t Ht. lia.
  - constructor; [|constructor]. simpl. lia.
  - apply NoDup_app. split; [exact Hnd|]. split; [|apply NoDup_singleton].
    intros id Hid [<-|[]]%list_elem_of_In.
    apply list_elem_of_In, in_map_iff in Hid as (t & Ht & Hin).
    by apply (Hne t).
  - intros i [= <-]. lia.
  - rewrite Forall_forall. intros t Ht. apply list_elem_of_In in Ht.
    rewrite (Hgone t Ht). split; [done|]. intros [= E].
    by destruct (Hne t Ht).
  - constructor; [|constructor]. done.
Qed.

Lemma timers_ok_run_callback `{engine : RegExpEngine} cb :
  preserves timers_ok (Enhanced.run_callback cb).
Proof. destruct cb; walking timers_leaf. Qed.

Lemma timer_fire_eq `{engine : RegExpEngine} id st :
  Enhanced.timer_fire id st
  = match List.find (fun t => (fst t =? id)%N) (timers st) with
    | Some t => Enhanced.run_callback (snd (snd t)) (drop_timer id st)
    | None => (st, Ok tt)
    end.
Proof.
  unfold Enhanced.timer_fire. by destruct (find _ _) as [[? [? ?]]|].
Qed.

Lemma timers_ok_timer_fire `{engine : RegExpEngine} id :
  preserves timers_ok (Enhanced.timer_fire id).
Proof.
  intros st Hok. rewrite timer_fire_eq.
  destruct (find _ (timers st)) as [t|]; [|exact Hok].
  apply timers_ok_run_callback. by apply timers_ok_drop_timer.
Qed.

Lemma timers_ok_handle `{engine : RegExpEngine} ev :
  preserves timers_ok (Enhanced.handle ev).
Proof.
  destruct ev; unfold Enhanced.handle.
  - walking timers_leaf.
  - walking timers_leaf.
  - walking timers_leaf.
  - walking timers_leaf.
  - walking timers_leaf.
  - walking timers_leaf.
  - walking timers_leaf.
  - walking timers_leaf.
  - walking timers_leaf.
  - walking timers_leaf.
  - apply preserves_bind; [apply timers_ok_scroll_to|].
    intros _. apply timers_ok_window_scroll.
  - apply timers_ok_timer_fire.
Qed.

Lemma timers_ok_run `{engine : RegExpEngine} evs st :
  timers_ok st → timers_ok (Enhanced.run evs st).
Proof.
  revert st. induction evs as [|ev evs IH]; intros st Hok; [exact Hok|].
  simpl. apply IH. by apply timers_ok_handle.
Qed.

Lemma NoDup_all_same {A : Type} (l : list A) (x : A) :
  NoDup l → (∀ y, In y l → y = x) → (length l ≤ 1)%nat.
Proof.
  destruct l as [|a [|b l]]; simpl; intros Hnd Hall; [lia..|].
  apply NoDup_cons in Hnd as [Ha _]. destruct Ha.
  rewrite (Hall a), (Hall b) by auto. by left.
Qed.

Lemma timers_ok_one_pending st :
  timers_ok st → (length (pending_nav_updates st) ≤ 1)%nat.
Proof.
  intros (_ & Hnd & _ & Hnav). unfold pending_nav_updates.
  rewrite <- (length_map fst).
  destruct (scrollTimeout st) as [i|] eqn:Ei.
  - apply (NoDup_all_same _ i); [by apply NoDup_map_filter|].
    intros j (t & <- & Ht)%in_map_iff. apply filter_In in Ht as [Hin Hn].
    rewrite Forall_forall in Hnav. apply list_elem_of_In, Hnav in Hin.
    apply Hin in Hn. by injection Hn.
  - rewrite Forall_forall in Hnav.
    destruct (List.filter is_nav_update (timers st)) as [|t l] eqn:El;
      [simpl; lia|].
    assert (Ht : In t (List.filter is_nav_update (timers st)))
      by (rewrite El; by left).
    apply filter_In in Ht as [Hin Hn]. apply list_elem_of_In, Hnav in Hin.
    apply Hin in Hn. discriminate.
Qed.

Lemma sample_page_timers_ok fn ln em su me ph byPhone country :
  timers_ok (sample_page fn ln em su me ph byPhone country).
Proof.
  unfold timers_ok. simpl. repeat split; try constructor; discriminate.
Qed.

Lemma filter_nav_app (l l' : list (N * (nat * Callback))) :
  (∀ t, In t l → is_nav_update t = false) →
  List.filter is_nav_update (l ++ l') = List.filter is_nav_update l'.
Proof.
  intros Hl. rewrite List.filter_app.
  replace (List.filter is_nav_update l) with (@nil (N * (nat * Callback)));
    [done|].
  symmetry. induction l as [|t l IH]; [done|]. simpl.
  rewrite (Hl t) by by left. apply IH. intros t' Ht'. apply Hl. by right.
Qed.

Lemma other_timers_cleared st :
  timers_ok st →
  List.filter (λ t, negb (is_nav_update t))
    (timers (cleared (scrollTimeout st) st))
  = other_timers st.
Proof.
  intros (_ & _ & _ & Hnav). unfold other_timers.
  destruct (scrollTimeout st) as [i|]; [|done]. simpl.
  induction (timers st) as [|t l IH]; [done|].
  apply Forall_cons in Hnav as [Ht Hl]. simpl.
  destruct (fst t =? i)%N eqn:Ei; simpl.
  - apply N.eqb_eq in Ei. subst i.
    destruct (is_nav_update t); simpl; [by apply IH|].
    assert (false = true) as [=] by by apply Ht.
  - destruct (is_nav_update t); simpl; [|f_equal]; by apply IH.
Qed.

(** X2.  One scroll event in the enhanced variant, on a page whose timers
    are in order: the viewport has moved and the document is untouched (no
    nav link changes yet); the nav-link update that was pending, if any, is
    cancelled, and exactly one is pending now, new, due in 100 ms and named
    by [scrollTimeout]; every other pending timer is still pending. *)
Theorem scroll_rearms_the_debounce `{engine : RegExpEngine}
    (st : State) (y : Q) :
  timers_ok st →
  let st' := Enhanced.step st (Scroll y) in
  doc st' = doc st
  ∧ scrollY st' = y
  ∧ log st' = log st
  ∧ activeElement st' = activeElement st
  ∧ pending_nav_updates st' = [(nextTimer st, (100%nat, CbNavUpdate))]
  ∧ scrollTimeout st' = Some (nextTimer st)
  ∧ nextTimer st' = N.succ (nextTimer st)
  ∧ other_timers st' = other_timers st.
Proof.
  intros Hok st'. subst st'. unfold Enhanced.step, Enhanced.handle.
  erewrite bind_ok; [|reflexivity]. rewrite window_scroll_eq. cbn [fst].
  assert (Hok' : timers_ok (set_scrollY y st)) by exact Hok.
  pose proof (λ t, cleared_no_nav_update _ t Hok') as Hgone.
  pose proof (other_timers_cleared _ Hok') as Hother.
  change (scrollTimeout (set_scrollY y st)) with (scrollTimeout st) in *.
  change (nextTimer (set_scrollY y st)) with (nextTimer st).
  split_and!.
  - by destruct (scrollTimeout st).
  - by destruct (scrollTimeout st).
  - by destruct (scrollTimeout st).
  - by destruct (scrollTimeout st).
  - unfold pending_nav_updates. cbn [timers set_scrollTimeout set_timers].
    rewrite filter_nav_app; [reflexivity|].
    intros t Ht. by apply Hgone.
  - reflexivity.
  - reflexivity.
  - unfold other_timers at 1. cbn [timers set_scrollTimeout set_timers].
    rewrite List.filter_app. simpl. rewrite app_nil_r. exact Hother.
Qed.

Lemma scroll_rearms_the_debounce_witness :
  let st := Enhanced.run (engine := fragment_engine)
              [ContactPhoneChange; Scroll 10]
              (sample_page [] [] [] [] [] [] true 0) in
  let st' := Enhanced.step (engine := fragment_engine) st (Scroll 950) in
  timers_ok st
  ∧ map fst (timers st) = [1%N; 2%N]
  ∧ map fst (timers st') = [1%N; 3%N]
  ∧ pending_nav_updates st' = [(nextTimer st, (100%nat, CbNavUpdate))]
  ∧ other_timers st' = other_timers st.
Proof.
  intros st st'.
  assert (Hok : timers_ok st).
  { apply timers_ok_run, sample_page_timers_ok. }
  split; [exact Hok|]. split; [vm_compute; reflexivity|].
  split; [vm_compute; reflexivity|].
  destruct (scroll_rearms_the_debounce (engine := fragment_engine) st 950 Hok)
    as (_ & _ & _ & _ & Hp & _ & _ & Ho).
  split; [exact Hp | exact Ho].
Defined.

(** *** What cancels a timer *)

Lemma pending_same t (st st' : State) :
  timers st' = timers st → pending t st → pending t st'.
Proof. unfold pending. by intros ->. Qed.

Lemma pending_setTimeout t cb d : preserves (pending t) (setTimeout cb d).
Proof. intros st Ht. unfold pending. simpl. apply in_or_app. by left. Qed.

Ltac pending_leaf :=
  idtac;
  match goal with
  | |- preserves _ (update _ _) => intros ?; by apply pending_same
  | |- preserves _ (emit _) => intros ?; by apply pending_same
  | |- preserves _ (set_focus _) => intros ?; by apply pending_same
  | |- preserves _ (scroll_to _) => intros ?; by apply pending_same
  | |- preserves _ (setTimeout _ _) => apply pending_setTimeout
  end.

Lemma pending_drop_timer t i st :
  pending t st → fst t ≠ i → pending t (drop_timer i st).
Proof.
  unfold pending, drop_timer. simpl. intros Ht Hne. apply filter_In.
  split; [exact Ht|]. by apply negb_true_iff, N.eqb_neq.
Qed.

Lemma pending_run_callback `{engine : RegExpEngine} t cb :
  preserves (pending t) (Enhanced.run_callback cb).
Proof. destruct cb; walking pending_leaf. Qed.

Lemma listener_keeps_pending `{engine : RegExpEngine}
    (st : State) (ev : Event) (t : N * (nat * Callback)) :
  In t (timers st) →
  In t (timers (Enhanced.step st ev))
  ∨ ev = TimerFire (fst t)
  ∨ (∃ y, ev = Scroll y) ∧ scrollTimeout st = Some (fst t).
Proof.
  intros Ht. change (pending t st) in Ht.
  change (pending t (fst (Enhanced.handle ev st))
          ∨ ev = TimerFire (fst t)
          ∨ (∃ y, ev = Scroll y) ∧ scrollTimeout st = Some (fst t)).
  destruct ev as [k f| | | | |text|k| | |key|y|id];
    try solve
      [ left; revert st Ht;
        match goal with
        | |- ∀ st, pending t st → pending t (fst (?m st)) =>
            change (preserves (pending t) m)
        end;
        unfold Enhanced.handle; walking pending_leaf ].
  - destruct (decide (scrollTimeout st = Some (fst t))) as [E|Hne];
      [right; right; split; [by exists y | exact E]|].
    left. unfold Enhanced.handle. erewrite bind_ok; [|reflexivity].
    rewrite window_scroll_eq. unfold pending. simpl.
    apply in_or_app. left.
    change (scrollTimeout (set_scrollY y st)) with (scrollTimeout st).
    destruct (scrollTimeout st) as [i|]; [|exact Ht].
    apply (pending_drop_timer t i (set_scrollY y st)); [exact Ht|].
    intros E. apply Hne. by rewrite E.
  - destruct (decide (fst t = id)) as [<-|Hne]; [right; by left|].
    left. unfold Enhanced.handle. rewrite timer_fire_eq.
    destruct (find _ (timers st)) as [t'|]; [|exact Ht].
    apply pending_run_callback. by apply pending_drop_timer.
Qed.

(** *** The baseline variant has no timers *)

Ltac untimed_leaf :=
  idtac;
  match goal with
  | |- preserves _ (update _ _) => intros ? ?; assumption
  | |- preserves _ (emit _) => intros ? ?; assumption
  | |- preserves _ (scroll_to _) => intros ? ?; assumption
  end.

Lemma baseline_listeners_untimed `{engine : RegExpEngine}
    (st : State) (ev : Event) :
  same_timers_and_focus st (Baseline.step st ev).
Proof.
  assert (H : preserves (same_timers_and_focus st) (Baseline.handle ev)).
  { destruct ev; unfold Baseline.handle; walking untimed_leaf. }
  apply H. by repeat split.
Qed.

Lemma fold_last_passed (y : Q) (secs : list (list N * Z)) (acc : list N) :
  fold_left (λ current section,
               if scrolled_past y section then fst section else current)
    secs acc
  = default acc (last (map fst (List.filter (scrolled_past y) secs))).
Proof.
  revert acc. induction secs as [|s secs IH]; intros acc; [done|].
  simpl. rewrite IH. destruct (scrolled_past y s); [|done]. simpl.
  rewrite last_cons. by destruct (last _).
Qed.

Lemma currentSection_baseline st :
  Baseline.currentSection st = section_at (sections st) (scrollY st).
Proof. apply (fold_last_passed (scrollY st) (sections st) []). Qed.

Lemma currentSection_enhanced st :
  Enhanced.currentSection st = section_at (sections st) (scrollY st).
Proof. apply (fold_last_passed (scrollY st) (sections st) []). Qed.

(** X5.  The section the nav links point out: in both variants it is the
    last section, in document order, whose top less 200 pixels the page has
    scrolled to or past, and the empty id when there is no such section. *)
Theorem current_section_is_last_passed (st : State) :
  Baseline.currentSection st = section_at (sections st) (scrollY st)
  ∧ Enhanced.currentSection st = section_at (sections st) (scrollY st).
Proof.
  split; [apply currentSection_baseline | apply currentSection_enhanced].
Qed.

Section MarkLinks.
Context (mark : Element → Element) (marked : Element → Element → Prop).
Context (Hmark : ∀ e, marked e (mark e)).
Context (Hagain : ∀ e e', marked (mark e) e' → marked e e').

Lemma mark_all_lookup (links : list string) (d : gmap string Element)
    (k : string) :
  match d !! k with
  | None => mark_all mark links d !! k = None
  | Some e =>
      ∃ e', mark_all mark links d !! k = Some e'
            ∧ (k ∈ links → marked e e')
            ∧ (k ∉ links → e' = e)
  end.
Proof.
  revert d. induction links as [|x links IH]; intros d.
  - simpl. destruct (d !! k) as [e|]; [|done].
    exists e. split; [done|]. split; [|done]. by intros ?%elem_of_nil.
  - simpl. specialize (IH (alter mark x d)). rewrite lookup_alter in IH.
    case_decide as Hx.
    + subst x. destruct (d !! k) as [e|]; simpl in IH; [|exact IH].
      destruct IH as (e' & He' & Hin & Hout). exists e'.
      split; [exact He'|]. split; [|by intros []; left].
      intros _. destruct (decide (k ∈ links)) as [Hk|Hk].
      * by apply Hagain, Hin.
      * rewrite (Hout Hk). apply Hmark.
    + destruct (d !! k) as [e|]; [|exact IH].
      destruct IH as (e' & He' & Hin & Hout). exists e'.
      split; [exact He'|]. split.
      * intros [?|?]%elem_of_cons; [by subst|by apply Hin].
      * intros Hk. apply Hout. intros ?. apply Hk. by right.
Qed.

Lemma forEach_alter (f : string → M unit) (links : list string) (st : State) :
  (∀ k st, f k st = (set_doc (alter mark k (doc st)) st, Ok tt)) →
  forEach f links st = (set_doc (mark_all mark links (doc st)) st, Ok tt).
Proof.
  intros Hf. revert st. induction links as [|x links IH]; intros st.
  - simpl. by rewrite node_set_doc.
  - simpl. erewrite bind_ok; [|apply Hf]. by rewrite IH.
Qed.
End MarkLinks.

Lemma baseline_marked_mark current e :
  baseline_marked current e (mark_baseline current e).
Proof.
  unfold baseline_marked, mark_baseline, points_to. cbn zeta.
  case_bool_decide as Hh; simpl in *.
  - split_and!; try done; [|set_solver]. intros c Hc. set_solver.
  - split_and!; try done; [|set_solver]. intros c Hc. set_solver.
Qed.

Lemma attrs_mark_baseline current e :
  attrs (mark_baseline current e) = attrs e.
Proof. unfold mark_baseline. cbn zeta. by case_bool_decide. Qed.

Lemma baseline_marked_again current e e' :
  baseline_marked current (mark_baseline current e) e' →
  baseline_marked current e e'.
Proof.
  pose proof (baseline_marked_mark current e) as (F & T & A & C & Act).
  intros (F' & T' & A' & C' & Act'). unfold points_to, getAttribute in *.
  split_and!.
  - by rewrite F'.
  - by rewrite T'.
  - by rewrite A'.
  - intros c Hc. by rewrite C', C.
  - by rewrite Act', A.
Qed.

Lemma alter_twice (f g : Element → Element) (k : string)
    (d : gmap string Element) :
  alter f k (alter g k d) = alter (λ e, f (g e)) k d.
Proof.
  apply map_eq. intros j. rewrite !lookup_alter.
  repeat case_decide; simplify_eq; try done. by destruct (d !! j).
Qed.

Lemma alter_ext_at (f g : Element → Element) (k : string)
    (d : gmap string Element) :
  (∀ e, d !! k = Some e → f e = g e) → alter f k d = alter g k d.
Proof.
  intros Hfg. apply map_eq. intros j. rewrite !lookup_alter.
  case_decide; [subst|done]. destruct (d !! j) as [e|] eqn:E; [|done].
  simpl. by rewrite (Hfg e).
Qed.

Lemma node_after_alter (st : State) (k : string) (f : Element → Element)
    (e : Element) :
  doc st !! k = Some e → node (set_doc (alter f k (doc st)) st) k = f e.
Proof. intros E. unfold node. simpl. by rewrite lookup_alter_eq, E. Qed.

Lemma node_after_alter_absent (st : State) (k : string)
    (f : Element → Element) :
  doc st !! k = None → node (set_doc (alter f k (doc st)) st) k = blank.
Proof. intros E. unfold node. simpl. by rewrite lookup_alter_eq, E. Qed.

Lemma mark_link_baseline current link st :
  (update link (classList_remove "active");;
   href ← getProp link (getAttribute "href");
   if bool_decide (href = Some (ch "#" :: current))
   then update link (classList_add "active")
   else mret tt) st
  = (set_doc (alter (mark_baseline current) link (doc st)) st, Ok tt).
Proof.
  erewrite bind_ok; [|reflexivity]. erewrite bind_ok; [|reflexivity].
  cbn [fst update]. destruct (doc st !! link) as [e|] eqn:E.
  - rewrite (node_after_alter st link _ e E).
    assert (Hm : ∀ e', doc st !! link = Some e' →
                       mark_baseline current e'
                       = if bool_decide (getAttribute "href"
                                           (classList_remove "active" e)
                                         = Some (ch "#" :: current))
                         then classList_add "active"
                                (classList_remove "active" e')
                         else classList_remove "active" e').
    { intros e' E'. rewrite E in E'. by injection E' as <-. }
    rewrite (alter_ext_at _ _ _ _ Hm).
    destruct (bool_decide _); [|reflexivity].
    unfold update. cbn [doc set_doc]. by rewrite alter_twice.
  - rewrite (node_after_alter_absent st link _ E).
    rewrite bool_decide_eq_false_2 by done.
    unfold mret, M_ret. f_equal. f_equal.
    apply alter_ext_at. intros e E'. by rewrite E in E'.
Qed.

Lemma updateNavLinks_baseline_eq st :
  Baseline.updateNavLinks st
  = (set_doc (mark_all (mark_baseline (Baseline.currentSection st))
                (navLinks st) (doc st)) st, Ok tt).
Proof.
  unfold Baseline.updateNavLinks.
  erewrite bind_ok; [|reflexivity]. erewrite bind_ok; [|reflexivity].
  apply forEach_alter. intros k st'. apply mark_link_baseline.
Qed.

Lemma updateNavLinks_baseline_marks st :
  links_marked (baseline_marked (Baseline.currentSection st)) st
    (fst (Baseline.updateNavLinks st)).
Proof.
  rewrite updateNavLinks_baseline_eq. intros k. simpl.
  apply (mark_all_lookup (mark_baseline (Baseline.currentSection st))).
  - apply baseline_marked_mark.
  - apply baseline_marked_again.
Qed.

Lemma points_to_mark current e e' :
  (∀ a, a ≠ "aria-current" → attrs e' !! a = attrs e !! a) →
  points_to current e' ↔ points_to current e.
Proof. intros Ha. unfold points_to, getAttribute. by rewrite Ha. Qed.

Lemma enhanced_marked_mark current e :
  enhanced_marked current e (mark_enhanced current e).
Proof.
  assert (Hhref : getAttribute "href"
                    (removeAttribute "aria-current"
                       (classList_remove "active" e))
                  = getAttribute "href" e).
  { unfold getAttribute. simpl. by rewrite lookup_delete_ne. }
  unfold enhanced_marked, mark_enhanced, points_to. cbn zeta.
  rewrite Hhref. case_bool_decide as Hh.
  - split_and!; try done.
    + intros a Ha. simpl. by rewrite lookup_insert_ne, lookup_delete_ne.
    + intros c Hc. simpl. set_solver.
    + simpl. set_solver.
    + unfold getAttribute. simpl. by rewrite lookup_insert_eq.
    + unfold getAttribute. simpl. by rewrite lookup_insert_eq.
  - split_and!; try done.
    + intros a Ha. simpl. by rewrite lookup_delete_ne.
    + intros c Hc. simpl. set_solver.
    + simpl. set_solver.
    + unfold getAttribute. simpl. by rewrite lookup_delete_eq.
    + unfold getAttribute. simpl. by rewrite lookup_delete_eq.
Qed.

Lemma enhanced_marked_again current e e' :
  enhanced_marked current (mark_enhanced current e) e' →
  enhanced_marked current e e'.
Proof.
  pose proof (enhanced_marked_mark current e)
    as (F & T & A & C & Act & Pg & No).
  intros (F' & T' & A' & C' & Act' & Pg' & No').
  pose proof (points_to_mark current e _ A) as Hp.
  split_and!.
  - by rewrite F'.
  - by rewrite T'.
  - intros a Ha. by rewrite A', A.
  - intros c Hc. by rewrite C', C.
  - by rewrite Act', Hp.
  - by rewrite Pg', Hp.
  - by rewrite No', Hp.
Qed.

Lemma mark_link_enhanced current link st :
  (update link (classList_remove "active");;
   update link (removeAttribute "aria-current");;
   href ← getProp link (getAttribute "href");
   if bool_decide (href = Some (ch "#" :: current))
   then update link (classList_add "active");;
        update link (setAttribute "aria-current" (str "page"))
   else mret tt) st
  = (set_doc (alter (mark_enhanced current) link (doc st)) st, Ok tt).
Proof.
  do 3 (erewrite bind_ok; [|reflexivity]).
  cbn [fst update doc set_doc]. rewrite alter_twice.
  change (set_doc ?d (set_doc _ st)) with (set_doc d st).
  destruct (doc st !! link) as [e|] eqn:E.
  - rewrite (node_after_alter st link _ e E).
    assert (Hm : ∀ e', doc st !! link = Some e' →
                       mark_enhanced current e'
                       = if bool_decide
                              (getAttribute "href"
                                 (removeAttribute "aria-current"
                                    (classList_remove "active" e))
                               = Some (ch "#" :: current))
                         then setAttribute "aria-current" (str "page")
                                (classList_add "active"
                                   (removeAttribute "aria-current"
                                      (classList_remove "active" e')))
                         else removeAttribute "aria-current"
                                (classList_remove "active" e')).
    { intros e' E'. rewrite E in E'. by injection E' as <-. }
    rewrite (alter_ext_at _ _ _ _ Hm).
    destruct (bool_decide _); [|reflexivity].
    erewrite bind_ok; [|reflexivity].
    unfold update. cbn [fst doc set_doc]. by rewrite !alter_twice.
  - rewrite (node_after_alter_absent st link _ E).
    rewrite bool_decide_eq_false_2 by done.
    unfold mret, M_ret. f_equal. f_equal.
    apply alter_ext_at. intros e E'. by rewrite E in E'.
Qed.

Lemma updateNavLinks_enhanced_eq st :
  Enhanced.updateNavLinks st
  = (set_doc (mark_all (mark_enhanced (Enhanced.currentSection st))
                (navLinks st) (doc st)) st, Ok tt).
Proof.
  unfold Enhanced.updateNavLinks.
  erewrite bind_ok; [|reflexivity]. erewrite bind_ok; [|reflexivity].
  apply forEach_alter. intros k st'. apply mark_link_enhanced.
Qed.

(** X6.  The baseline scroll handler updates the nav links at once: when
    the event is over, every nav link carries [active] exactly if its
    [href] is [#] followed by the id of the current section for the new
    scroll position, its other classes, its attributes and its text being
    as before; a node that is not a nav link is unchanged, and so is
    everything else on the page. *)
Theorem baseline_scroll_marks_links `{engine : RegExpEngine}
    (st : State) (y : Q) :
  let st' := Baseline.step st (Scroll y) in
  links_marked (baseline_marked (section_at (sections st) y)) st st'
  ∧ set_doc (doc st) st' = set_scrollY y st.
Proof.
  intros st'. subst st'. unfold Baseline.step, Baseline.handle.
  erewrite bind_ok; [|reflexivity]. unfold Baseline.window_scroll.
  split.
  - pose proof (updateNavLinks_baseline_marks (set_scrollY y st)) as H.
    rewrite currentSection_baseline in H. exact H.
  - by rewrite updateNavLinks_baseline_eq.
Qed.

Lemma find_app_fresh (i : N) (l : list (N * (nat * Callback)))
    (t : N * (nat * Callback)) :
  (∀ t', In t' l → fst t' ≠ i) → fst t = i →
  List.find (λ t, (fst t =? i)%N) (l ++ [t]) = Some t
  ∧ List.filter (λ t, negb (fst t =? i)%N) (l ++ [t]) = l.
Proof.
  intros Hl Ht. induction l as [|a l IH]; simpl.
  - apply N.eqb_eq in Ht. by rewrite Ht.
  - assert (Ha : (fst a =? i)%N = false)
      by (apply N.eqb_neq, Hl; by left).
    rewrite Ha. simpl. destruct IH as [IH1 IH2].
    + intros t' Ht'. apply Hl. by right.
    + by rewrite IH1, IH2.
Qed.

(** X7.  The enhanced scroll handler updates the nav links when its timer
    expires, not before: after a scroll event the document is as it was;
    once the timer set by that event has fired, every nav link carries
    [active], and [aria-current="page"], exactly if its [href] is [#]
    followed by the id of the current section for the new scroll position
    (and has no [aria-current] otherwise), nothing else of the document has
    changed, no nav-link update is pending, and the other timers are
    untouched. *)
Theorem enhanced_scroll_marks_links_after_delay `{engine : RegExpEngine}
    (st : State) (y : Q) :
  timers_ok st →
  let st1 := Enhanced.step st (Scroll y) in
  let st2 := Enhanced.step st1 (TimerFire (nextTimer st)) in
  doc st1 = doc st
  ∧ links_marked (enhanced_marked (section_at (sections st) y)) st st2
  ∧ pending_nav_updates st2 = []
  ∧ other_timers st2 = other_timers st
  ∧ log st2 = log st.
Proof.
  intros Hok st1 st2.
  assert (Hok' : timers_ok (set_scrollY y st)) by exact Hok.
  pose proof (λ t, cleared_no_nav_update _ t Hok') as Hgone.
  pose proof (other_timers_cleared _ Hok') as Hother.
  pose proof (timers_ok_clearTimeout (scrollTimeout st) _ Hok') as Hc.
  rewrite clearTimeout_eq in Hc. cbn [fst] in Hc.
  pose proof (λ t, fresh_id_not_pending _ t Hc) as Hne.
  change (scrollTimeout (set_scrollY y st)) with (scrollTimeout st) in *.
  assert (E1 : st1
               = set_scrollTimeout (Some (nextTimer st))
                   (set_timers
                      (timers (cleared (scrollTimeout st) (set_scrollY y st))
                       ++ [(nextTimer st, (100%nat, CbNavUpdate))])
                      (N.succ (nextTimer st))
                      (cleared (scrollTimeout st) (set_scrollY y st)))).
  { subst st1. unfold Enhanced.step, Enhanced.handle.
    erewrite bind_ok; [|reflexivity]. by rewrite window_scroll_eq. }
  assert (Hn : nextTimer (cleared (scrollTimeout st) (set_scrollY y st))
               = nextTimer st) by by destruct (scrollTimeout st).
  rewrite Hn in Hne.
  destruct (find_app_fresh (nextTimer st)
              (timers (cleared (scrollTimeout st) (set_scrollY y st)))
              (nextTimer st, (100%nat, CbNavUpdate)) Hne eq_refl)
    as [Hfind Hfilter].
  assert (Hd1 : doc st1 = doc st)
    by (rewrite E1; by destruct (scrollTimeout st)).
  assert (E2 : st2
               = set_doc (mark_all (mark_enhanced (section_at (sections st) y))
                            (navLinks st) (doc st))
                   (drop_timer (nextTimer st) st1)).
  { subst st2. unfold Enhanced.step, Enhanced.handle.
    rewrite timer_fire_eq.
    replace (find _ (timers st1))
      with (Some (nextTimer st, (100%nat, CbNavUpdate)))
      by (rewrite E1; symmetry; exact Hfind).
    cbn [snd Enhanced.run_callback]. rewrite updateNavLinks_enhanced_eq.
    cbn [fst]. f_equal. f_equal.
    - rewrite currentSection_enhanced.
      f_equal; rewrite E1; by destruct (scrollTimeout st).
    - rewrite E1; by destruct (scrollTimeout st).
    - exact Hd1. }
  split; [exact Hd1|]. split; [|split_and!].
  - intros k. rewrite E2. cbn [doc set_doc].
    pose proof (mark_all_lookup
                  (mark_enhanced (section_at (sections st) y))
                  (enhanced_marked (section_at (sections st) y))
                  (enhanced_marked_mark _) (enhanced_marked_again _)
                  (navLinks st) (doc st) k) as H.
    exact H.
  - rewrite E2. unfold pending_nav_updates. cbn [timers set_doc drop_timer set_timers].
    rewrite E1. cbn [timers set_scrollTimeout set_timers]. rewrite Hfilter.
    clear -Hgone. induction (timers _) as [|t l IH]; [done|]. simpl.
    rewrite (Hgone t) by by left. apply IH. intros t' Ht'. apply Hgone.
    by right.
  - rewrite E2. unfold other_timers at 1.
    cbn [timers set_doc drop_timer set_timers].
    rewrite E1. cbn [timers set_scrollTimeout set_timers]. rewrite Hfilter.
    exact Hother.
  - rewrite E2, E1. by destruct (scrollTimeout st).
Qed.

Lemma enhanced_scroll_marks_links_after_delay_witness :
  let st := sample_page [] [] [] [] [] [] false 0 in
  let st2 := Enhanced.run (engine := fragment_engine)
               [Scroll 950; TimerFire 1] st in
  timers_ok st
  ∧ section_at (sections st) 950 = str "contact"
  ∧ getAttribute "aria-current" (node st2 "navContact") = Some (str "page")
  ∧ getAttribute "aria-current" (node st2 "navHome") = None
  ∧ links_marked (enhanced_marked (section_at (sections st) 950)) st st2.
Proof.
  intros st st2.
  assert (Hok : timers_ok st) by apply sample_page_timers_ok.
  split; [exact Hok|]. do 3 (split; [vm_compute; reflexivity|]).
  exact (proj1 (proj2 (enhanced_scroll_marks_links_after_delay
                         (engine := fragment_engine) st 950 Hok))).
Defined.

Lemma alter_absent (f : Element → Element) (k : string)
    (d : gmap string Element) :
  d !! k = None → alter f k d = d.
Proof.
  intros E. apply map_eq. intros j. rewrite lookup_alter.
  case_decide; [subst|done]. by rewrite E.
Qed.

Lemma closeModal_baseline_eq st :
  Baseline.closeModal st
  = (set_doc (alter hide "successModal" (alter hide "modalOverlay" (doc st)))
       st, Ok tt).
Proof.
  unfold Baseline.closeModal. step_baseline.
  destruct (doc st !! "modalOverlay") eqn:Eo.
  - do 2 step_baseline. cbn [update fst doc set_doc].
    rewrite lookup_alter_ne by done.
    destruct (doc st !! "successModal") eqn:Es; [reflexivity|].
    unfold mret, M_ret. f_equal. f_equal. symmetry. apply alter_absent.
    by rewrite lookup_alter_ne.
  - do 2 step_baseline.
    rewrite (alter_absent hide "modalOverlay") by done.
    destruct (doc st !! "successModal") eqn:Es; [reflexivity|].
    rewrite (alter_absent hide "successModal") by done.
    by rewrite node_set_doc.
Qed.

Lemma modal_closed_eq st :
  modal_closed st
  = let st1 := match doc st !! "modalOverlay" with
               | Some _ => set_doc (alter hide_aria "modalOverlay" (doc st)) st
               | None => st
               end in
    match doc st !! "successModal" with
    | Some _ => set_doc (alter hide_aria "successModal" (doc st1)) st1
    | None => st1
    end.
Proof.
  unfold modal_closed. cbn zeta.
  destruct (doc st !! "modalOverlay") eqn:Eo,
           (doc st !! "successModal") eqn:Es.
  - reflexivity.
  - f_equal. apply alter_absent. by rewrite lookup_alter_ne.
  - by rewrite (alter_absent hide_aria "modalOverlay").
  - rewrite (alter_absent hide_aria "modalOverlay") by done.
    rewrite (alter_absent hide_aria "successModal") by done.
    by rewrite node_set_doc.
Qed.

Lemma closeModal_enhanced_eq `{engine : RegExpEngine} st :
  Enhanced.closeModal st
  = match doc st !! "contactForm" with
    | Some f =>
        match submitButton f with
        | Some b => Enhanced.focus b (modal_closed st)
        | None => (modal_closed st, Ok tt)
        end
    | None => (modal_closed st, Ok tt)
    end.
Proof.
  assert (Hf : doc (modal_closed st) !! "contactForm"
               = doc st !! "contactForm").
  { unfold modal_closed. simpl. by rewrite !lookup_alter_ne. }
  assert (Htail : ∀ st1, st1 = modal_closed st →
    (form ← Enhanced.elements "form";
     submitButton ← match form with
                    | Some f => getProp f submitButton
                    | None => mret None
                    end;
     match submitButton with
     | Some b => Enhanced.focus b
     | None => mret tt
     end) st1
    = match doc st !! "contactForm" with
      | Some f =>
          match submitButton f with
          | Some b => Enhanced.focus b (modal_closed st)
          | None => (modal_closed st, Ok tt)
          end
      | None => (modal_closed st, Ok tt)
      end).
  { intros st1 ->. step_enhanced. rewrite Hf.
    destruct (doc st !! "contactForm") as [f|] eqn:Ef.
    - step_enhanced. rewrite (node_lookup _ _ f) by by rewrite Hf.
      by destruct (submitButton f).
    - by step_enhanced. }
  unfold Enhanced.closeModal. step_enhanced.
  destruct (doc st !! "modalOverlay") eqn:Eo.
  - do 3 step_enhanced. cbn [update fst doc set_doc].
    rewrite !lookup_alter_ne by done.
    destruct (doc st !! "successModal") eqn:Es.
    + do 2 step_enhanced. apply Htail.
      rewrite modal_closed_eq, Eo, Es. cbn zeta.
      cbn [update fst doc set_doc]. unfold hide_aria. rewrite !alter_twice.
      reflexivity.
    + step_enhanced. apply Htail.
      rewrite modal_closed_eq, Eo, Es. cbn zeta.
      unfold hide_aria. rewrite alter_twice. reflexivity.
  - do 2 step_enhanced.
    destruct (doc st !! "successModal") eqn:Es.
    + do 2 step_enhanced. apply Htail.
      rewrite modal_closed_eq, Eo, Es. cbn zeta.
      cbn [update fst doc set_doc]. unfold hide_aria. rewrite !alter_twice.
      reflexivity.
    + step_enhanced. apply Htail. by rewrite modal_closed_eq, Eo, Es.
Qed.

Lemma focus_result `{engine : RegExpEngine} r st :
  snd (Enhanced.focus r st) = Ok tt
  ∧ activeElement (fst (Enhanced.focus r st)) = Some r.
Proof.
  unfold Enhanced.focus. erewrite bind_ok; [|reflexivity].
  case_bool_decide as Hc; [done|].
  destruct (activeElement st); by unfold mbind, M_bind, dispatch.
Qed.

Lemma hidden_aria_update k k' f :
  (∀ e, display (f e) = display e
        ∧ attrs (f e) !! "aria-hidden" = attrs e !! "aria-hidden") →
  preserves (hidden_aria k) (update k' f).
Proof.
  intros Hf st. unfold hidden_aria, node, getAttribute. simpl.
  rewrite lookup_alter. case_decide; [subst|done].
  destruct (doc st !! k) as [e|]; [|done]. simpl.
  destruct (Hf e) as [-> ->]. done.
Qed.

Ltac hidden_leaf :=
  idtac;
  match goal with
  | |- preserves _ (update _ _) =>
      apply hidden_aria_update; intros ?; split;
      [ reflexivity
      | first [ reflexivity
              | simpl; by rewrite lookup_insert_ne
              | simpl; by rewrite lookup_delete_ne ] ]
  | |- preserves _ (set_focus _) => intros ? ?; assumption
  end.

Lemma hidden_aria_focus `{engine : RegExpEngine} k r :
  preserves (hidden_aria k) (Enhanced.focus r).
Proof. walking hidden_leaf. Qed.

Lemma modal_closed_hidden st k :
  k ∈ modal_nodes → is_Some (doc st !! k) → hidden_aria k (modal_closed st).
Proof.
  intros Hk [e E]. unfold hidden_aria, modal_closed, node, getAttribute.
  simpl. unfold modal_nodes in Hk. rewrite !lookup_alter.
  apply elem_of_cons in Hk as [->|Hk];
    [|apply elem_of_cons in Hk as [->|Hk]; [|by apply elem_of_nil in Hk]].
  - rewrite decide_False, decide_True by done. rewrite E. simpl.
    by rewrite lookup_insert_eq.
  - rewrite decide_True by done. rewrite decide_False by done. rewrite E.
    simpl. by rewrite lookup_insert_eq.
Qed.

Lemma closeModal_enhanced_hides `{engine : RegExpEngine} st k :
  k ∈ modal_nodes → is_Some (doc st !! k) →
  hidden_aria k (fst (Enhanced.closeModal st)).
Proof.
  intros Hk Hp. pose proof (modal_closed_hidden st k Hk Hp) as H.
  rewrite closeModal_enhanced_eq.
  destruct (doc st !! "contactForm") as [f|]; [|exact H].
  destruct (submitButton f) as [b|]; [|exact H].
  by apply hidden_aria_focus.
Qed.

Lemma closeModal_baseline_hides st k :
  k ∈ modal_nodes → is_Some (doc st !! k) →
  hidden k (fst (Baseline.closeModal st)).
Proof.
  intros Hk [e E]. rewrite closeModal_baseline_eq.
  unfold hidden, node. simpl. unfold modal_nodes in Hk. rewrite !lookup_alter.
  apply elem_of_cons in Hk as [->|Hk];
    [|apply elem_of_cons in Hk as [->|Hk]; [|by apply elem_of_nil in Hk]].
  - rewrite decide_False, decide_True by done. by rewrite E.
  - rewrite decide_True by done. rewrite decide_False by done. by rewrite E.
Qed.

Lemma closeModal_baseline_only_display st :
  only_display_changed st (fst (Baseline.closeModal st)).
Proof.
  rewrite closeModal_baseline_eq. split; [|exact (node_set_doc st)].
  intros k. simpl. rewrite !lookup_alter.
  repeat case_decide; subst; by destruct (doc st !! _).
Qed.

(** X8.  [closeModal] never throws and hides what there is of the modal:
    after it the overlay and the modal, each if it is in the document, have
    [display: none].  In the baseline variant nothing else changes at all;
    the enhanced variant also sets [aria-hidden="true"] on both and moves
    the focus to the form's submit button when the form has one. *)
Theorem closeModal_hides_the_modal `{engine : RegExpEngine} (st : State) :
  (snd (Baseline.closeModal st) = Ok tt
   ∧ (∀ k, k ∈ modal_nodes → is_Some (doc st !! k) →
           hidden k (fst (Baseline.closeModal st)))
   ∧ only_display_changed st (fst (Baseline.closeModal st)))
  ∧ (snd (Enhanced.closeModal st) = Ok tt
     ∧ (∀ k, k ∈ modal_nodes → is_Some (doc st !! k) →
             hidden_aria k (fst (Enhanced.closeModal st)))
     ∧ (∀ f b, doc st !! "contactForm" = Some f → submitButton f = Some b →
               activeElement (fst (Enhanced.closeModal st)) = Some b)).
Proof.
  split; split_and!.
  - by rewrite closeModal_baseline_eq.
  - apply closeModal_baseline_hides.
  - apply closeModal_baseline_only_display.
  - rewrite closeModal_enhanced_eq.
    destruct (doc st !! "contactForm") as [f|]; [|done].
    destruct (submitButton f) as [b|]; [|done]. apply focus_result.
  - apply closeModal_enhanced_hides.
  - intros f b Ef Eb. rewrite closeModal_enhanced_eq, Ef, Eb.
    apply focus_result.
Qed.

Lemma closeModal_hides_the_modal_witness :
  let st := fst (Enhanced.submit_success
                   (sample_page [] [] [] [] [] [] false 0)) in
  display (node st "successModal") = str "block"
  ∧ is_Some (doc st !! "successModal")
  ∧ hidden_aria "successModal"
      (fst (Enhanced.closeModal (engine := fragment_engine) st)).
Proof.
  intros st. split; [vm_compute; reflexivity|].
  assert (Hp : is_Some (doc st !! "successModal")) by (vm_compute; by eexists).
  split; [exact Hp|].
  destruct (closeModal_hides_the_modal (engine := fragment_engine) st)
    as [_ (_ & H & _)].
  apply H; [|exact Hp]. unfold modal_nodes. right. left.
Defined.

Lemma displayed_present st k :
  display (node st k) = str "block" → is_Some (doc st !! k).
Proof.
  unfold node. destruct (doc st !! k); [by eexists|]. simpl. discriminate.
Qed.

Lemma document_keydown_eq `{engine : RegExpEngine} key st :
  Enhanced.document_keydown key st
  = if bool_decide (key = str "Escape")
       && bool_decide (display (node st "successModal") = str "block")
    then Enhanced.closeModal st else (st, Ok tt).
Proof.
  unfold Enhanced.document_keydown. step_enhanced.
  destruct (doc st !! "successModal") as [m|] eqn:Em.
  - step_enhanced. by destruct (_ && _).
  - unfold node. rewrite Em. simpl. by rewrite andb_false_r.
Qed.

Lemma modalOverlay_click_baseline_eq st :
  is_Some (doc st !! "modalOverlay") →
  Baseline.modalOverlay_click st = Baseline.closeModal st.
Proof.
  intros [m Em]. unfold Baseline.modalOverlay_click. step_baseline.
  by rewrite Em.
Qed.

Lemma modalOverlay_click_enhanced_eq `{engine : RegExpEngine} st :
  is_Some (doc st !! "modalOverlay") →
  Enhanced.modalOverlay_click st = Enhanced.closeModal st.
Proof.
  intros [m Em]. unfold Enhanced.modalOverlay_click. step_enhanced.
  by rewrite Em.
Qed.

(** X9.  The Escape key of the enhanced variant: while the success modal
    is displayed, pressing Escape hides the modal, and the overlay if there
    is one, and sets [aria-hidden="true"] on them; any other key, and any key
    while the modal is not displayed, leaves the page exactly as it is.  The
    baseline variant does not listen to the keyboard: no key changes its
    page. *)
Theorem escape_closes_the_open_modal `{engine : RegExpEngine}
    (st : State) (key : list N) :
  (display (node st "successModal") = str "block" →
   let st' := Enhanced.step st (Keydown (str "Escape")) in
   hidden_aria "successModal" st'
   ∧ (is_Some (doc st !! "modalOverlay") → hidden_aria "modalOverlay" st'))
  ∧ (key ≠ str "Escape" ∨ display (node st "successModal") ≠ str "block" →
     Enhanced.step st (Keydown key) = st)
  ∧ Baseline.step st (Keydown key) = st.
Proof.
  split_and!.
  - intros Hd st'. subst st'. unfold Enhanced.step, Enhanced.handle.
    rewrite document_keydown_eq, Hd.
    rewrite !bool_decide_eq_true_2 by done. cbn [andb]. split.
    + apply closeModal_enhanced_hides; [right; left|].
      by apply displayed_present.
    + apply closeModal_enhanced_hides. left.
  - intros Hk. unfold Enhanced.step, Enhanced.handle.
    rewrite document_keydown_eq. destruct Hk as [Hk|Hk].
    + by rewrite (bool_decide_eq_false_2 _ Hk).
    + rewrite (bool_decide_eq_false_2 _ Hk). by rewrite andb_false_r.
  - reflexivity.
Qed.

Lemma escape_closes_the_open_modal_witness :
  let st := fst (Enhanced.submit_success
                   (sample_page [] [] [] [] [] [] false 0)) in
  display (node st "successModal") = str "block"
  ∧ hidden_aria "successModal"
      (Enhanced.step (engine := fragment_engine) st (Keydown (str "Escape")))
  ∧ (str "Enter" ≠ str "Escape"
     ∨ display (node st "successModal") ≠ str "block")
  ∧ Enhanced.step (engine := fragment_engine) st (Keydown (str "Enter")) = st.
Proof.
  intros st.
  assert (Hd : display (node st "successModal") = str "block")
    by (vm_compute; reflexivity).
  assert (Hk : str "Enter" ≠ str "Escape"
               ∨ display (node st "successModal") ≠ str "block")
    by (left; vm_compute; discriminate).
  destruct (escape_closes_the_open_modal (engine := fragment_engine) st
              (str "Enter")) as (Ha & Hb & _).
  split; [exact Hd|]. split; [exact (proj1 (Ha Hd))|].
  split; [exact Hk | exact (Hb Hk)].
Defined.

(** X10.  Closing the modal after a successful submission.  When a submit
    event succeeds, the modal and its overlay are displayed; a click on the
    overlay then hides both again, in either variant, and so does the
    Escape key in the enhanced variant.  In the baseline variant the click
    changes nothing else. *)
Theorem modal_closes_after_success `{engine : RegExpEngine} (st : State) :
  succeeds st →
  (let st1 := Baseline.step st Submit in
   let st2 := Baseline.step st1 OverlayClick in
   shown_and_reset st st1
   ∧ hidden "successModal" st2 ∧ hidden "modalOverlay" st2
   ∧ only_display_changed st1 st2)
  ∧ (let st1 := Enhanced.step st Submit in
     shown_and_reset st st1
     ∧ ∀ ev, ev = OverlayClick ∨ ev = Keydown (str "Escape") →
             hidden_aria "successModal" (Enhanced.step st1 ev)
             ∧ hidden_aria "modalOverlay" (Enhanced.step st1 ev)).
Proof.
  intros (Hform & Hv & Hov & Hsm). split.
  - intros st1 st2.
    destruct (form_submit_baseline_outcome st Hform) as [Hyes _].
    pose proof (Hyes Hv Hov Hsm) as Hshown.
    change (shown_and_reset st st1) in Hshown.
    destruct Hshown as (Hd1 & Hd2 & Hl).
    pose proof (displayed_present _ _ Hd1) as Hp1.
    pose proof (displayed_present _ _ Hd2) as Hp2.
    assert (E2 : st2 = fst (Baseline.closeModal st1)).
    { subst st2. unfold Baseline.step at 1. unfold Baseline.handle.
      by rewrite modalOverlay_click_baseline_eq. }
    rewrite E2. split_and!; [done| | |].
    + apply closeModal_baseline_hides; [right; left | exact Hp1].
    + apply closeModal_baseline_hides; [left | exact Hp2].
    + apply closeModal_baseline_only_display.
  - intros st1.
    destruct (form_submit_enhanced_outcome st Hform) as [Hyes _].
    pose proof (Hyes Hv Hov Hsm) as Hshown.
    change (shown_and_reset st st1) in Hshown.
    split; [exact Hshown|]. destruct Hshown as (Hd1 & Hd2 & Hl).
    pose proof (displayed_present _ _ Hd1) as Hp1.
    pose proof (displayed_present _ _ Hd2) as Hp2.
    intros ev Hev.
    assert (E2 : Enhanced.step st1 ev = fst (Enhanced.closeModal st1)).
    { destruct Hev as [-> | ->]; unfold Enhanced.step at 1;
        unfold Enhanced.handle.
      - by rewrite modalOverlay_click_enhanced_eq.
      - rewrite document_keydown_eq, Hd1.
        by rewrite !bool_decide_eq_true_2. }
    rewrite E2. split.
    + apply closeModal_enhanced_hides; [right; left | exact Hp1].
    + apply closeModal_enhanced_hides; [left | exact Hp2].
Qed.

Lemma modal_closes_after_success_witness :
  let st := sample_page (str "Ada") (str "Lovelace") (str "ada@example.org")
              (str "Hello") (str "A message.") [] false 0 in
  succeeds (engine := fragment_engine) st
  ∧ hidden "successModal"
      (Baseline.run (engine := fragment_engine) [Submit; OverlayClick] st)
  ∧ hidden_aria "successModal"
      (Enhanced.run (engine := fragment_engine)
         [Submit; Keydown (str "Escape")] st).
Proof.
  intros st.
  assert (Hs : succeeds (engine := fragment_engine) st).
  { unfold succeeds. split_and!; vm_compute; by eexists. }
  split; [exact Hs|].
  destruct (modal_closes_after_success (engine := fragment_engine) st Hs)
    as [(_ & Hb & _) (_ & He)].
  split; [exact Hb|]. apply (He (Keydown (str "Escape"))). by right.
Defined.

Lemma selected_option_index st cc :
  doc st !! "countryCode" = Some cc →
  index (options (node st "countryCode")) (selectedIndex (node st "countryCode"))
  = selected_option st.
Proof. intros E. unfold selected_option, node. by rewrite E. Qed.

Lemma countryCode_change_baseline_set st cc p opt ph :
  doc st !! "countryCode" = Some cc → doc st !! "phone" = Some p →
  selected_option st = Some opt →
  option_getAttribute "data-placeholder" opt = Some ph → ph ≠ [] →
  let st' := fst (Baseline.countryCode_change st) in
  snd (Baseline.countryCode_change st) = Ok tt
  ∧ placeholder (node st' "phone") = ph
  ∧ phone_unmarked st'.
Proof.
  intros Hcc Hp Ho Hph Hne. cbv zeta. unfold Baseline.countryCode_change.
  step_baseline. rewrite Hcc. step_baseline. rewrite Hp.
  do 2 step_baseline. rewrite (selected_option_index st cc Hcc), Ho, Hph.
  destruct ph as [|c ph]; [done|]. cbn [truthy default].
  do 2 step_baseline. to_lookup. unfold Baseline.clearValidation.
  unfold phone_unmarked.
  destruct (doc st !! "phoneError") as [pe|] eqn:He.
  - do 2 step_baseline. split; [reflexivity|]. read_doc.
    rewrite ?Hp, ?He. simpl. repeat split; try done; set_solver.
  - do 2 step_baseline. split; [reflexivity|]. read_doc.
    rewrite ?Hp, ?He. simpl. repeat split; try done; set_solver.
Qed.

Lemma countryCode_change_enhanced_set st cc p opt ph :
  doc st !! "countryCode" = Some cc → doc st !! "phone" = Some p →
  selected_option st = Some opt →
  option_getAttribute "data-placeholder" opt = Some ph → ph ≠ [] →
  let st' := fst (Enhanced.countryCode_change st) in
  snd (Enhanced.countryCode_change st) = Ok tt
  ∧ placeholder (node st' "phone") = ph
  ∧ phone_unmarked st'
  ∧ getAttribute "aria-invalid" (node st' "phone") = None
  ∧ (is_Some (doc st !! "status-announcer") →
     textContent (node st' "status-announcer")
     = str "Country code changed to " ++ country_name opt).
Proof.
  intros Hcc Hp Ho Hph Hne. cbv zeta. unfold Enhanced.countryCode_change.
  step_enhanced. rewrite Hcc. step_enhanced. rewrite Hp.
  do 2 step_enhanced. rewrite (selected_option_index st cc Hcc), Ho, Hph.
  destruct ph as [|c ph]; [done|]. cbn [truthy default].
  do 2 step_enhanced. to_lookup.
  unfold Enhanced.clearValidation, Enhanced.announceToScreenReader.
  unfold phone_unmarked. fold (country_name opt).
  destruct (doc st !! "phoneError") as [pe|] eqn:He.
  - do 6 step_enhanced. to_lookup.
    destruct (doc st !! "status-announcer") as [a|] eqn:Ha.
    + do 2 step_enhanced. split; [reflexivity|]. read_doc.
      rewrite ?Hp, ?He, ?Ha. simpl. unfold getAttribute. simpl.
      rewrite lookup_delete_eq.
      repeat split; try done; set_solver.
    + split; [reflexivity|]. read_doc.
      rewrite ?Hp, ?He, ?Ha. simpl. unfold getAttribute. simpl.
      rewrite lookup_delete_eq.
      repeat split; try done; set_solver.
  - do 5 step_enhanced. to_lookup.
    destruct (doc st !! "status-announcer") as [a|] eqn:Ha.
    + do 2 step_enhanced. split; [reflexivity|]. read_doc.
      rewrite ?Hp, ?He, ?Ha. simpl. unfold getAttribute. simpl.
      rewrite lookup_delete_eq.
      repeat split; try done; set_solver.
    + split; [reflexivity|]. read_doc.
      rewrite ?Hp, ?He, ?Ha. simpl. unfold getAttribute. simpl.
      rewrite lookup_delete_eq.
      repeat split; try done; set_solver.
Qed.

(** X11.  A [change] event on the country selector, on a page that has
    the selector and the phone input, when the selected option carries a
    [data-placeholder] that is not empty: the handler does not throw, the
    phone input's placeholder becomes that text, and the phone field's
    validation state is cleared ([is-valid] and [is-invalid] off the input,
    [d-block] off its error node).  The enhanced variant also removes
    [aria-invalid] from the input and announces the second word of the
    option's text. *)
Theorem country_change_sets_placeholder (st : State) (cc p : Element)
    (opt : OptionEl) (ph : list N) :
  doc st !! "countryCode" = Some cc → doc st !! "phone" = Some p →
  selected_option st = Some opt →
  option_getAttribute "data-placeholder" opt = Some ph → ph ≠ [] →
  (let st' := fst (Baseline.countryCode_change st) in
   snd (Baseline.countryCode_change st) = Ok tt
   ∧ placeholder (node st' "phone") = ph
   ∧ phone_unmarked st')
  ∧ (let st' := fst (Enhanced.countryCode_change st) in
     snd (Enhanced.countryCode_change st) = Ok tt
     ∧ placeholder (node st' "phone") = ph
     ∧ phone_unmarked st'
     ∧ getAttribute "aria-invalid" (node st' "phone") = None
     ∧ (is_Some (doc st !! "status-announcer") →
        textContent (node st' "status-announcer")
        = str "Country code changed to " ++ country_name opt)).
Proof.
  intros Hcc Hp Ho Hph Hne. split.
  - by apply (countryCode_change_baseline_set st cc p opt ph).
  - by apply (countryCode_change_enhanced_set st cc p opt ph).
Qed.

Lemma country_change_sets_placeholder_witness :
  let st := sample_page [] [] [] [] [] [] true 0 in
  let st' := fst (Enhanced.countryCode_change st) in
  selected_option st = Some swiss_option
  ∧ placeholder (node st' "phone") = str "79 123 45 67"
  ∧ textContent (node st' "status-announcer")
    = str "Country code changed to Switzerland".
Proof.
  intros st st'.
  assert (Ho : selected_option st = Some swiss_option) by reflexivity.
  assert (Hph : option_getAttribute "data-placeholder" swiss_option
                = Some (str "79 123 45 67")) by reflexivity.
  assert (Hne : str "79 123 45 67" ≠ []) by discriminate.
  destruct (country_change_sets_placeholder st (country_select 0)
              (text_input []) swiss_option (str "79 123 45 67")
              eq_refl eq_refl Ho Hph Hne) as [_ (_ & Hpl & _ & _ & Ha)].
  split; [exact Ho|]. split; [exact Hpl|].
  unfold st'. rewrite Ha by (by eexists). vm_compute. reflexivity.
Defined.

(** X12.  The other outcomes of a [change] event on the country selector,
    in both variants.  Without the selector or without the phone input the
    handler does nothing.  With both, and no option selected, it throws a
    [TypeError] (it reads an attribute of [undefined]) and leaves the page
    as it was; with a selected option that has no [data-placeholder], or an
    empty one, it does nothing: the placeholder stays and the validation
    state is not cleared. *)
Theorem country_change_without_placeholder (st : State) :
  (doc st !! "countryCode" = None ∨ doc st !! "phone" = None →
   Baseline.countryCode_change st = (st, Ok tt)
   ∧ Enhanced.countryCode_change st = (st, Ok tt))
  ∧ (is_Some (doc st !! "countryCode") → is_Some (doc st !! "phone") →
     (selected_option st = None →
      Baseline.countryCode_change st = (st, Throw TypeError)
      ∧ Enhanced.countryCode_change st = (st, Throw TypeError))
     ∧ (∀ opt, selected_option st = Some opt →
               truthy (option_getAttribute "data-placeholder" opt) = false →
               Baseline.countryCode_change st = (st, Ok tt)
               ∧ Enhanced.countryCode_change st = (st, Ok tt))).
Proof.
  split.
  - intros Hmiss. unfold Baseline.countryCode_change,
      Enhanced.countryCode_change.
    step_baseline. step_baseline. step_enhanced. step_enhanced.
    destruct Hmiss as [-> | ->]; [split; reflexivity|].
    destruct (doc st !! "countryCode"); split; reflexivity.
  - intros [cc Hcc] [p Hp]. split.
    + intros Ho. unfold Baseline.countryCode_change,
        Enhanced.countryCode_change.
      do 2 step_baseline. do 2 step_enhanced. rewrite Hcc, Hp.
      do 2 step_baseline. do 2 step_enhanced.
      rewrite (selected_option_index st cc Hcc), Ho. split; reflexivity.
    + intros opt Ho Hph. unfold Baseline.countryCode_change,
        Enhanced.countryCode_change.
      do 2 step_baseline. do 2 step_enhanced. rewrite Hcc, Hp.
      do 2 step_baseline. do 2 step_enhanced.
      rewrite (selected_option_index st cc Hcc), Ho, Hph. split; reflexivity.
Qed.

Lemma country_change_without_placeholder_witness :
  let none := sample_page [] [] [] [] [] [] true (-1) in
  let lax := sample_page [] [] [] [] [] [] true 2 in
  selected_option none = None
  ∧ Enhanced.countryCode_change none = (none, Throw TypeError)
  ∧ selected_option lax = Some lax_option
  ∧ Baseline.countryCode_change lax = (lax, Ok tt).
Proof.
  intros none lax.
  assert (Hc1 : is_Some (doc none !! "countryCode")) by (by eexists).
  assert (Hp1 : is_Some (doc none !! "phone")) by (by eexists).
  assert (Hc2 : is_Some (doc lax !! "countryCode")) by (by eexists).
  assert (Hp2 : is_Some (doc lax !! "phone")) by (by eexists).
  destruct (country_change_without_placeholder none) as [_ H1].
  destruct (country_change_without_placeholder lax) as [_ H2].
  destruct (H1 Hc1 Hp1) as [Hthrow _]. destruct (H2 Hc2 Hp2) as [_ Hnone].
  split; [reflexivity|]. split; [exact (proj2 (Hthrow eq_refl))|].
  split; [reflexivity|].
  exact (proj1 (Hnone lax_option eq_refl eq_refl)).
Defined.

Lemma elements_baseline_pure name st :
  ∃ r, Baseline.elements name st = (st, Ok r).
Proof.
  unfold Baseline.elements. destruct (assoc_name name element_ids);
    by eexists.
Qed.

Lemma elements_enhanced_pure name st :
  ∃ r, Enhanced.elements name st = (st, Ok r).
Proof.
  unfold Enhanced.elements. destruct (assoc_name name element_ids);
    by eexists.
Qed.

Lemma round_is_blur_baseline name cfg b st :
  fst (Baseline.validateTextField (name, cfg) b st)
  = fst (Baseline.field_blur name cfg st).
Proof.
  unfold Baseline.validateTextField, Baseline.field_blur.
  destruct (elements_baseline_pure name st) as [r Hr].
  do 2 rewrite (bind_ok (Baseline.elements name) _ st st r Hr).
  erewrite bind_ok; [|reflexivity]. destruct r as [f|].
  - erewrite (bind_ok (getElementById _)); [|reflexivity].
    erewrite (bind_ok (getProp f value)); [|reflexivity].
    destruct (doc st !! (name ++ "Error")%string) as [e|].
    + destruct (String.eqb name "email").
      * erewrite bind_ok; [|reflexivity]. cbn [andb].
        destruct (is_empty (trim (value (node st f))));
          by rewrite !fst_bind_ret.
      * cbn [andb]. by rewrite !fst_bind_ret.
    + destruct (_ && _); by rewrite fst_bind_ret.
  - by destruct (doc st !! (name ++ "Error")%string).
Qed.

Lemma round_is_blur_enhanced name cfg b st :
  fst (Enhanced.validateTextField (name, cfg) b st)
  = fst (Enhanced.field_blur name cfg st).
Proof.
  unfold Enhanced.validateTextField, Enhanced.field_blur.
  destruct (elements_enhanced_pure name st) as [r Hr].
  do 2 rewrite (bind_ok (Enhanced.elements name) _ st st r Hr).
  erewrite bind_ok; [|reflexivity]. destruct r as [f|].
  - erewrite (bind_ok (getElementById _)); [|reflexivity].
    erewrite (bind_ok (getProp f value)); [|reflexivity].
    destruct (doc st !! (name ++ "Error")%string) as [e|].
    + destruct (String.eqb name "email").
      * erewrite bind_ok; [|reflexivity]. cbn [andb].
        destruct (is_empty (trim (value (node st f))));
          by rewrite !fst_bind_ret.
      * cbn [andb]. by rewrite !fst_bind_ret.
    + destruct (_ && _); by rewrite fst_bind_ret.
  - by destruct (doc st !! (name ++ "Error")%string).
Qed.

Lemma phone_round_is_blur_baseline `{engine : RegExpEngine} b st :
  fst (Baseline.validatePhone b st) = fst (Baseline.phoneInput_blur st).
Proof.
  unfold Baseline.validatePhone, Baseline.phoneInput_blur.
  pose proof (elements_baseline_eq "contactPhone" "contactPhone" st eq_refl) as Hcp.
  pose proof (elements_baseline_eq "phoneInput" "phone" st eq_refl) as Hph.
  pose proof (elements_baseline_eq "phoneError" "phoneError" st eq_refl) as Hpe.
  pose proof (elements_baseline_eq "countryCode" "countryCode" st eq_refl) as Hcc.
  repeat first
    [ erewrite (bind_ok _ _ _ _ _ Hcp) | erewrite (bind_ok _ _ _ _ _ Hph) ].
  destruct (doc st !! "phone") as [p|] eqn:Hp;
    destruct (doc st !! "contactPhone") as [c|] eqn:Hc;
    repeat first
      [ erewrite (bind_ok _ _ _ _ _ Hcp)
      | erewrite (bind_ok (is_checked _)); [|reflexivity] ];
    try reflexivity;
    (destruct (checked (node st "contactPhone")); [|reflexivity]);
    repeat first
      [ erewrite (bind_ok _ _ _ _ _ Hph)
      | erewrite (bind_ok _ _ _ _ _ Hpe)
      | erewrite (bind_ok _ _ _ _ _ Hcc)
      | erewrite (bind_ok (getProp _ _)); [|reflexivity] ];
    try reflexivity.
  destruct (is_empty (trim (value (node st "phone"))));
    by rewrite !fst_bind_ret.
Qed.

Lemma phone_round_is_blur_enhanced `{engine : RegExpEngine} b st :
  fst (Enhanced.validatePhone b st) = fst (Enhanced.phoneInput_blur st).
Proof.
  unfold Enhanced.validatePhone, Enhanced.phoneInput_blur.
  pose proof (elements_enhanced_eq "contactPhone" "contactPhone" st eq_refl) as Hcp.
  pose proof (elements_enhanced_eq "phoneInput" "phone" st eq_refl) as Hph.
  pose proof (elements_enhanced_eq "phoneError" "phoneError" st eq_refl) as Hpe.
  pose proof (elements_enhanced_eq "countryCode" "countryCode" st eq_refl) as Hcc.
  repeat first
    [ erewrite (bind_ok _ _ _ _ _ Hcp) | erewrite (bind_ok _ _ _ _ _ Hph) ].
  destruct (doc st !! "phone") as [p|] eqn:Hp;
    destruct (doc st !! "contactPhone") as [c|] eqn:Hc;
    repeat first
      [ erewrite (bind_ok _ _ _ _ _ Hcp)
      | erewrite (bind_ok (is_checked _)); [|reflexivity] ];
    try reflexivity;
    (destruct (checked (node st "contactPhone")); [|reflexivity]);
    repeat first
      [ erewrite (bind_ok _ _ _ _ _ Hph)
      | erewrite (bind_ok _ _ _ _ _ Hpe)
      | erewrite (bind_ok _ _ _ _ _ Hcc)
      | erewrite (bind_ok (getProp _ _)); [|reflexivity] ];
    try reflexivity.
  destruct (is_empty (trim (value (node st "phone"))));
    by rewrite !fst_bind_ret.
Qed.

Lemma rounds_are_blurs_baseline l b st :
  Forall entry_wf l →
  ∃ r, forEachAcc Baseline.validateTextField l b st
       = (fold_left (λ st e, fst (Baseline.field_blur (fst e) (snd e) st)) l st,
          Ok r).
Proof.
  intros Hwf. revert b st. induction Hwf as [|[name cfg] l Ha Hl IH];
    intros b st; [by eexists|].
  simpl. pose proof (validateTextField_baseline (name, cfg) b st Ha) as Hr.
  pose proof (round_is_blur_baseline name cfg b st) as Hs.
  destruct (Baseline.validateTextField (name, cfg) b st) as [st1 r] eqn:E.
  cbn [fst snd] in Hr, Hs. subst r st1.
  erewrite bind_ok; [|exact E]. apply IH.
Qed.

Lemma rounds_are_blurs_enhanced l b st :
  Forall entry_wf l →
  ∃ r, forEachAcc Enhanced.validateTextField l b st
       = (fold_left (λ st e, fst (Enhanced.field_blur (fst e) (snd e) st)) l st,
          Ok r).
Proof.
  intros Hwf. revert b st. induction Hwf as [|[name cfg] l Ha Hl IH];
    intros b st; [by eexists|].
  simpl. pose proof (validateTextField_enhanced (name, cfg) b st Ha) as Hr.
  pose proof (round_is_blur_enhanced name cfg b st) as Hs.
  destruct (Enhanced.validateTextField (name, cfg) b st) as [st1 r] eqn:E.
  cbn [fst snd] in Hr, Hs. subst r st1.
  erewrite bind_ok; [|exact E]. apply IH.
Qed.

(** X13.  Validation on submit is validation on blur, field by field: the
    marks the submit handler has put on the page when it reaches its
    verdict are exactly those that blur events on the five text fields and
    on the phone input, in that order, put on it; the whole page is the
    same.  In both variants. *)
Theorem submit_validates_like_blur `{engine : RegExpEngine} (st : State) :
  fst (Baseline.validateForm st) = Baseline.run (map Blur validated_ids) st
  ∧ fst (Enhanced.validateForm st) = Enhanced.run (map Blur validated_ids) st.
Proof.
  split.
  - unfold Baseline.validateForm.
    destruct (rounds_are_blurs_baseline Baseline.fieldValidators true st
                fieldValidators_baseline_wf) as [r Hr].
    erewrite bind_ok; [|exact Hr]. rewrite phone_round_is_blur_baseline.
    reflexivity.
  - unfold Enhanced.validateForm.
    destruct (rounds_are_blurs_enhanced Enhanced.fieldValidators true st
                fieldValidators_enhanced_wf) as [r Hr].
    erewrite bind_ok; [|exact Hr]. rewrite phone_round_is_blur_enhanced.
    reflexivity.
Qed.

Lemma matches_nil_nullable r s : matches r s → s = [] → nullable r = true.
Proof.
  induction 1 as [|p c Hp|a b s t _ IHa _ IHb|a b s _ IH|a b s _ IH|a
                  |a s t _ _ _ _]; intros Hs; simpl; try done.
  - apply app_eq_nil in Hs as [-> ->]. by rewrite IHa, IHb.
  - by rewrite IH.
  - rewrite IH by done. apply orb_true_r.
Qed.

Lemma nullable_matches r : nullable r = true ↔ matches r [].
Proof.
  split; [|intros H; by apply (matches_nil_nullable r [])].
  induction r as [| |p|a IHa b IHb|a IHa b IHb|a IHa]; simpl; try done.
  - intros _. constructor.
  - intros [Ha Hb]%andb_true_iff. apply (MSeq a b [] []); auto.
  - intros [Ha|Hb]%orb_true_iff; [apply MAltL|apply MAltR]; auto.
  - intros _. constructor.
Qed.

Lemma deriv_sound c r s : matches (deriv c r) s → matches r (c :: s).
Proof.
  revert s. induction r as [| |p|a IHa b IHb|a IHa b IHb|a IHa];
    intros s; simpl.
  - inversion 1.
  - inversion 1.
  - destruct (p c) eqn:Hp; inversion 1; subst.
    by apply MClass.
  - destruct (nullable a) eqn:Ha.
    + inversion 1 as [| | | ? ? ? H1 | ? ? ? H1 | |]; subst.
      * inversion H1 as [| | ? ? s1 s2 Hs1 Hs2 | | | |]; subst.
        apply (MSeq a b (c :: s1) s2); auto.
      * apply (MSeq a b [] (c :: s)); [by apply nullable_matches | auto].
    + inversion 1 as [| | ? ? s1 s2 Hs1 Hs2 | | | |]; subst.
      apply (MSeq a b (c :: s1) s2); auto.
  - inversion 1; subst; [apply MAltL | apply MAltR]; auto.
  - inversion 1 as [| | ? ? s1 s2 Hs1 Hs2 | | | |]; subst.
    apply (MStarCons a (c :: s1) s2); auto.
Qed.

Lemma deriv_complete c r s' :
  matches r s' → ∀ s, s' = c :: s → matches (deriv c r) s.
Proof.
  induction 1 as [|p c' Hp|a b s1 s2 Ha IHa Hb IHb|a b s1 Ha IH
                  |a b s1 Hb IH|a|a s1 s2 Ha IHa Hs IHs]; intros s Hs'; simpl.
  - discriminate.
  - injection Hs' as -> <-. rewrite Hp. constructor.
  - destruct s1 as [|c1 s1]; simpl in Hs'.
    + subst s2. apply nullable_matches in Ha. rewrite Ha.
      apply MAltR. by apply IHb.
    + injection Hs' as -> <-.
      destruct (nullable a); [apply MAltL|]; apply MSeq; auto.
  - apply MAltL. by apply IH.
  - apply MAltR. by apply IH.
  - discriminate.
  - destruct s1 as [|c1 s1]; simpl in Hs'.
    + by apply IHs.
    + injection Hs' as -> <-. apply MSeq; auto.
Qed.

Lemma re_match_matches r s : re_match r s = true ↔ matches r s.
Proof.
  revert r. induction s as [|c s IH]; intros r; simpl.
  - apply nullable_matches.
  - rewrite IH. split; [apply deriv_sound|].
    intros H. by apply (deriv_complete c r (c :: s)).
Qed.

Lemma matches_star_class p s :
  matches (ReStar (ReClass p)) s ↔ Forall (λ c, p c = true) s.
Proof.
  split.
  - remember (ReStar (ReClass p)) as r eqn:Er. intros H.
    induction H as [| | | | | |a s t Ha _ Hs IH]; try discriminate.
    + constructor.
    + injection Er as ->. inversion Ha; subst. simpl.
      constructor; [done|]. by apply IH.
  - induction 1 as [|c s Hc _ IH]; [constructor|].
    apply (MStarCons _ [c] s); [by constructor | exact IH].
Qed.

Lemma matches_plus_class p s :
  matches (RePlus (ReClass p)) s ↔ s ≠ [] ∧ Forall (λ c, p c = true) s.
Proof.
  unfold RePlus. split.
  - inversion 1 as [| | ? ? s1 s2 H1 H2 | | | |]; subst.
    inversion H1; subst. apply matches_star_class in H2. simpl.
    split; [done | by constructor].
  - intros [Hne Hall]. destruct Hall as [|c s Hc Hs]; [done|].
    apply (MSeq _ _ [c] s); [by constructor | by apply matches_star_class].
Qed.

Lemma matches_char c s : matches (ReChar c) s ↔ s = [c].
Proof.
  unfold ReChar. split.
  - inversion 1 as [|? c' Hc| | | | |]; subst.
    by apply N.eqb_eq in Hc as ->.
  - intros ->. constructor. apply N.eqb_refl.
Qed.

Lemma matches_seq a b s :
  matches (ReSeq a b) s ↔ ∃ s1 s2, s = s1 ++ s2 ∧ matches a s1 ∧ matches b s2.
Proof.
  split.
  - inversion 1; subst. by eexists _, _.
  - intros (s1 & s2 & -> & H1 & H2). by constructor.
Qed.

Lemma matches_eps s : matches ReEps s ↔ s = [].
Proof. split; [by inversion 1 | intros ->; constructor]. Qed.

Lemma emailPattern_shape s :
  regexp_test Baseline.emailPattern s = true ↔ email_shaped s.
Proof.
  unfold regexp_test, Baseline.emailPattern. cbn [re_anchor_start re_body
    re_anchor_end]. rewrite re_match_matches. unfold email_shaped, plain.
  rewrite matches_seq. setoid_rewrite matches_eps.
  split.
  - intros (s1 & s2 & -> & -> & H). simpl.
    apply matches_seq in H as (b & e & -> & H & ->%matches_eps).
    rewrite app_nil_r.
    apply matches_seq in H as (l & r1 & -> & Hl & H).
    apply matches_seq in H as (a & r2 & -> & ->%matches_char & H).
    apply matches_seq in H as (d & r3 & -> & Hd & H).
    apply matches_seq in H as (dot & t & -> & ->%matches_char & Ht).
    apply matches_plus_class in Hl, Hd, Ht.
    exists l, d, t. done.
  - intros (l & d & t & -> & Hl & Hd & Ht).
    exists [], (l ++ ch "@" :: d ++ ch "." :: t). split; [done|].
    split; [done|].
    apply matches_seq. eexists _, []. rewrite app_nil_r.
    split; [done|]. split; [|by apply matches_eps].
    apply MSeq; [by apply matches_plus_class|].
    apply (MSeq _ _ [ch "@"]); [by apply matches_char|].
    apply MSeq; [by apply matches_plus_class|].
    apply (MSeq _ _ [ch "."]); [by apply matches_char|].
    by apply matches_plus_class.
Qed.

(** X14.  What [isValidEmail] accepts, in both variants: exactly the
    strings of the shape [local@domain.tld], each of the three parts being
    one or more characters that are neither white space nor [@]. *)
Theorem isValidEmail_accepts_local_at_domain (s : list N) :
  (Baseline.isValidEmail s = true ↔ email_shaped s)
  ∧ (Enhanced.isValidEmail s = true ↔ email_shaped s).
Proof. split; apply emailPattern_shape. Qed.

Lemma trimStart_nil (s : list N) :
  trimStart s = [] ↔ Forall (λ c, is_space c = true) s.
Proof.
  induction s as [|c s IH]; simpl; [by split; [constructor|]|].
  destruct (is_space c) eqn:Hc.
  - rewrite IH. split; [by constructor|]. by intros [_ ?]%Forall_cons.
  - split; [done|]. intros [H _]%Forall_cons. congruence.
Qed.

Lemma trimStart_head (s : list N) (c : N) (r : list N) :
  trimStart s = c :: r → is_space c = false.
Proof.
  induction s as [|c' s IH]; simpl; [done|].
  destruct (is_space c') eqn:Hc; [exact IH|]. by intros [= <- _].
Qed.

Lemma trim_empty (v : list N) :
  is_empty (trim v) = true ↔ Forall (λ c, is_space c = true) v.
Proof.
  unfold trim. split.
  - intros H. apply trimStart_nil.
    destruct (trimStart v) as [|c r] eqn:E; [done|].
    apply trimStart_head in E as Hc.
    destruct (rev (trimStart (rev (c :: r)))) as [|? ?] eqn:E2; [|done].
    apply (f_equal (@rev N)) in E2. rewrite rev_involutive in E2. simpl in E2.
    apply trimStart_nil in E2. rewrite Forall_app in E2.
    destruct E2 as [_ [Hc' _]%Forall_cons]. congruence.
  - intros H. apply trimStart_nil in H. by rewrite H.
Qed.

Lemma visible_not_all_space (v : list N) :
  visible v ↔ ¬ Forall (λ c, is_space c = true) v.
Proof.
  unfold visible. induction v as [|c v IH].
  - split; [by intros ?%Exists_nil | intros H; destruct H; constructor].
  - rewrite Exists_cons, Forall_cons, IH. destruct (is_space c); split.
    + intros [?|H]; [done|]. by intros [_ ?].
    + intros H. right. intros ?. by apply H.
    + intros _ [? _]. done.
    + intros _. by left.
Qed.

Lemma nonblank_visible (v : list N) :
  negb (is_empty (trim v)) = true ↔ visible v.
Proof.
  rewrite visible_not_all_space, <- trim_empty.
  by destruct (is_empty (trim v)).
Qed.

Lemma email_shaped_visible (s : list N) : email_shaped s → visible s.
Proof.
  intros (l & d & t & -> & [Hne Hl] & _). destruct Hl as [|c l Hc _]; [done|].
  apply Exists_cons. left. unfold cls_not_space_at in Hc.
  apply negb_true_iff, orb_false_iff in Hc. tauto.
Qed.

Lemma email_validator_is_isValidEmail (v : list N) :
  negb (is_empty (trim v)) && Baseline.isValidEmail v = Baseline.isValidEmail v.
Proof.
  destruct (Baseline.isValidEmail v) eqn:E; [|apply andb_false_r].
  rewrite andb_true_r. apply nonblank_visible, email_shaped_visible.
  by apply emailPattern_shape.
Qed.

(** X15.  What the entries of [fieldValidators] accept, in both
    variants.  The validators of the first name, the last name, the subject
    and the message accept exactly the values that have a character which
    is not white space.  The email validator accepts exactly what
    [isValidEmail] accepts: its own test for a blank value never decides,
    because an address of the accepted shape is not blank. *)
Theorem validators_accept (name : string) (cfg : FieldConfig) (v : list N) :
  In (name, cfg) Baseline.fieldValidators ∨ In (name, cfg) Enhanced.fieldValidators →
  (name ≠ "email" → validator cfg v = true ↔ visible v)
  ∧ (name = "email" → validator cfg v = Baseline.isValidEmail v
                      ∧ validator cfg v = Enhanced.isValidEmail v).
Proof.
  assert (He : ∀ cfg', In (name, cfg') Baseline.fieldValidators
                       ∨ In (name, cfg') Enhanced.fieldValidators →
                       In (name, cfg') Baseline.fieldValidators)
    by (by intros ? [?|?]).
  intros Hin%He. clear He. unfold Baseline.fieldValidators in Hin.
  simpl in Hin.
  destruct Hin as [[= <- <-]|[[= <- <-]|[[= <- <-]|[[= <- <-]|[[= <- <-]|[]]]]]];
    (split; [intros Hne; try done; apply nonblank_visible|]);
    intros Hn; try discriminate.
  cbn [validator]. split; apply email_validator_is_isValidEmail.
Qed.

Lemma validators_accept_witness :
  let cfg := mkConfig (λ value, negb (is_empty (trim value)))
               (str "Please provide a subject.") None in
  In ("messageSubject", cfg) Baseline.fieldValidators
  ∧ (validator cfg (str "  hi ") = true ↔ visible (str "  hi "))
  ∧ visible (str "  hi ").
Proof.
  intros cfg.
  assert (Hin : In ("messageSubject", cfg) Baseline.fieldValidators)
    by (do 3 right; by left).
  destruct (validators_accept "messageSubject" cfg (str "  hi ") (or_introl Hin))
    as [H _].
  assert (Hne : "messageSubject" ≠ "email") by discriminate.
  split; [exact Hin|]. split; [exact (H Hne)|].
  apply (H Hne). vm_compute. reflexivity.
Defined.

Lemma value_assign_value (v : list N) (e : Element) :
  value (assign_value v e) = kept_text e v
  ∧ singleLine (assign_value v e) = singleLine e.
Proof.
  unfold assign_value, kept_text. case_decide as Heq; [|done].
  by rewrite <- Heq.
Qed.

Lemma filter_filter_swap {A : Type} (f g : A → bool) (l : list A) :
  List.filter f (List.filter g l) = List.filter g (List.filter f l).
Proof.
  induction l as [|a l IH]; [done|]. simpl.
  destruct (f a) eqn:Hf, (g a) eqn:Hg; simpl; rewrite ?Hf, ?Hg, IH; done.
Qed.

Lemma filter_idem {A : Type} (f : A → bool) (l : list A) :
  List.filter f (List.filter f l) = List.filter f l.
Proof.
  induction l as [|a l IH]; [done|]. simpl.
  destruct (f a) eqn:Hf; simpl; rewrite ?Hf, IH; done.
Qed.

Lemma kept_cleaned_kept (e : Element) (v : list N) :
  kept_text e (digits_and_spaces_of (kept_text e v))
  = kept_text e (digits_and_spaces_of v).
Proof.
  unfold kept_text, digits_and_spaces_of, replace_class_all.
  destruct (singleLine e); [|done].
  by rewrite (filter_filter_swap _ (λ c, negb (is_newline c))), filter_idem.
Qed.

Lemma phoneInput_input_baseline_value st p :
  doc st !! "phone" = Some p →
  value (node (fst (Baseline.phoneInput_input st)) "phone")
  = kept_text p (digits_and_spaces_of (value p)).
Proof.
  intros Hp. unfold Baseline.phoneInput_input. step_baseline. rewrite Hp.
  do 4 step_baseline. read_doc. rewrite Hp. simpl.
  apply value_assign_value.
Qed.

Lemma phoneInput_input_enhanced_value st p :
  doc st !! "phone" = Some p →
  value (node (fst (Enhanced.phoneInput_input st)) "phone")
  = kept_text p (digits_and_spaces_of (value p)).
Proof.
  intros Hp. unfold Enhanced.phoneInput_input. step_enhanced. rewrite Hp.
  do 4 step_enhanced. read_doc. rewrite Hp. simpl.
  apply value_assign_value.
Qed.

(** X16.  The [input] handler of the phone field keeps every digit and
    every white-space character of the value, in their order, and nothing
    else: the new value is the old one with the other characters deleted
    (less the line breaks a single-line control does not hold).  In both
    variants. *)
Theorem phone_input_keeps_digits_and_spaces `{engine : RegExpEngine}
    (st : State) (p : Element) :
  doc st !! "phone" = Some p →
  value (node (Baseline.step st PhoneInput) "phone")
  = kept_text p (digits_and_spaces_of (value p))
  ∧ value (node (Enhanced.step st PhoneInput) "phone")
    = kept_text p (digits_and_spaces_of (value p)).
Proof.
  intros Hp. split.
  - by apply phoneInput_input_baseline_value.
  - by apply phoneInput_input_enhanced_value.
Qed.

Lemma cleaned_app_cleaned (a b c : list N) :
  digits_and_spaces_of (a ++ digits_and_spaces_of b ++ c)
  = digits_and_spaces_of (a ++ b ++ c).
Proof.
  unfold digits_and_spaces_of, replace_class_all.
  by rewrite !List.filter_app, filter_idem.
Qed.

Lemma paste_value (p : Element) (text : list N) :
  let p2 := setSelectionRange
              (Z.of_N (selectionStart p)
               + Z.of_nat (length (replace_class_all cls_not_digit_space text)))
              (Z.of_N (selectionStart p)
               + Z.of_nat (length (replace_class_all cls_not_digit_space text)))
              (assign_value
                 (substring (value p) 0 (N.to_nat (selectionStart p))
                  ++ replace_class_all cls_not_digit_space text
                  ++ substring_from (value p) (N.to_nat (selectionEnd p))) p) in
  kept_text p2 (digits_and_spaces_of (value p2))
  = kept_text p (digits_and_spaces_of (with_pasted p text)).
Proof.
  intros p2. subst p2. unfold setSelectionRange.
  cbn [value with_selection].
  set (x := substring _ _ _ ++ _).
  assert (Hk : ∀ e v, singleLine e = singleLine p →
                      kept_text e v = kept_text p v)
    by (unfold kept_text; by intros ? ? ->).
  rewrite Hk by apply value_assign_value.
  rewrite (proj1 (value_assign_value x p)).
  rewrite kept_cleaned_kept. subst x.
  fold (digits_and_spaces_of text). by rewrite cleaned_app_cleaned.
Qed.

Lemma phoneInput_paste_baseline_value text st p :
  doc st !! "phone" = Some p →
  let st' := fst (Baseline.phoneInput_paste text st) in
  value (node st' "phone")
  = kept_text p (digits_and_spaces_of (with_pasted p text))
  ∧ log st' = log st ++ [PreventDefault].
Proof.
  intros Hp st'. subst st'. unfold Baseline.phoneInput_paste.
  step_baseline. rewrite Hp. do 6 step_baseline.
  unfold dispatch. cbn [fst update emit doc set_doc set_log].
  rewrite (node_lookup (set_log (log st ++ [PreventDefault]) st) "phone" p Hp).
  split.
  - erewrite phoneInput_input_baseline_value;
      [|cbn [doc set_doc]; rewrite !lookup_alter_eq, Hp; reflexivity].
    apply paste_value.
  - unfold Baseline.phoneInput_input. step_baseline.
    cbn [doc set_doc]. rewrite !lookup_alter_eq, Hp. cbn [fmap option_fmap option_map].
    by do 4 step_baseline.
Qed.

Lemma phoneInput_paste_enhanced_value text st p :
  doc st !! "phone" = Some p →
  let st' := fst (Enhanced.phoneInput_paste text st) in
  value (node st' "phone")
  = kept_text p (digits_and_spaces_of (with_pasted p text))
  ∧ log st' = log st ++ [PreventDefault].
Proof.
  intros Hp st'. subst st'. unfold Enhanced.phoneInput_paste.
  step_enhanced. rewrite Hp. do 6 step_enhanced.
  unfold dispatch. cbn [fst update emit doc set_doc set_log].
  rewrite (node_lookup (set_log (log st ++ [PreventDefault]) st) "phone" p Hp).
  split.
  - erewrite phoneInput_input_enhanced_value;
      [|cbn [doc set_doc]; rewrite !lookup_alter_eq, Hp; reflexivity].
    apply paste_value.
  - unfold Enhanced.phoneInput_input. step_enhanced.
    cbn [doc set_doc]. rewrite !lookup_alter_eq, Hp. cbn [fmap option_fmap option_map].
    by do 4 step_enhanced.
Qed.

(** X17.  The [paste] handler of the phone field, in both variants: the
    default paste is prevented (once), and the new value is the old one with
    the clipboard's text in place of the selection, reduced to its digits
    and white space (less the line breaks a single-line control does not
    hold): what the clipboard and the old value had of other characters is
    gone, and every digit and space of both is there, in order. *)
Theorem paste_inserts_digits_and_spaces `{engine : RegExpEngine}
    (st : State) (p : Element) (text : list N) :
  doc st !! "phone" = Some p →
  (let st' := Baseline.step st (PhonePaste text) in
   value (node st' "phone")
   = kept_text p (digits_and_spaces_of (with_pasted p text))
   ∧ log st' = log st ++ [PreventDefault])
  ∧ (let st' := Enhanced.step st (PhonePaste text) in
     value (node st' "phone")
     = kept_text p (digits_and_spaces_of (with_pasted p text))
     ∧ log st' = log st ++ [PreventDefault]).
Proof.
  intros Hp. split.
  - by apply phoneInput_paste_baseline_value.
  - by apply phoneInput_paste_enhanced_value.
Qed.

Lemma paste_inserts_digits_and_spaces_witness :
  let p := with_selection 3 6 (text_input (str "079 123")) in
  let st := fst (update "phone" (λ _, p)
                   (sample_page [] [] [] [] [] [] true 0)) in
  doc st !! "phone" = Some p
  ∧ with_pasted p (str "+41 (0)44-5") = str "079+41 (0)44-53"
  ∧ value (node (Enhanced.step (engine := fragment_engine) st
                   (PhonePaste (str "+41 (0)44-5"))) "phone")
    = str "07941 04453".
Proof.
  intros p st.
  assert (Hp : doc st !! "phone" = Some p) by reflexivity.
  split; [exact Hp|]. split; [vm_compute; reflexivity|].
  destruct (paste_inserts_digits_and_spaces (engine := fragment_engine)
              st p (str "+41 (0)44-5") Hp) as [_ [-> _]].
  vm_compute. reflexivity.
Defined.

Lemma phone_input_keeps_digits_and_spaces_witness :
  let st := sample_page [] [] [] [] [] (str "+41 (79) 12a") true 0 in
  doc st !! "phone" = Some (text_input (str "+41 (79) 12a"))
  ∧ value (node (Baseline.step (engine := fragment_engine) st PhoneInput)
             "phone")
    = str "41 79 12".
Proof.
  intros st.
  assert (Hp : doc st !! "phone" = Some (text_input (str "+41 (79) 12a")))
    by reflexivity.
  split; [exact Hp|].
  destruct (phone_input_keeps_digits_and_spaces (engine := fragment_engine)
              st _ Hp) as [-> _].
  vm_compute. reflexivity.
Defined.

Lemma values_update st0 k f :
  (∀ e, value (f e) = value e ∧ checked (f e) = checked e
        ∧ selectedIndex (f e) = selectedIndex e) →
  preserves (values_and_log_of st0) (update k f).
Proof.
  intros Hf st [Hv Hl]. split; [|exact Hl]. intros k'.
  specialize (Hv k'). unfold node in *. simpl. rewrite lookup_alter.
  case_decide; [subst|exact Hv].
  destruct (doc st !! k') as [e|]; [|exact Hv]. simpl in *.
  destruct (Hf e) as (-> & -> & ->). exact Hv.
Qed.

Ltac values_leaf :=
  idtac;
  match goal with
  | |- preserves _ (update _ _) =>
      apply values_update; intros ?; split_and!; reflexivity
  | |- preserves _ (set_focus _) => intros ? ?; assumption
  | |- preserves _ (scroll_to _) => intros ? ?; assumption
  | |- preserves _ (setTimeout _ _) => intros ? ?; assumption
  | |- preserves _ (clearTimeout ?i) => intros ? ?; destruct i; assumption
  end.

Lemma values_window_scroll st0 :
  preserves (values_and_log_of st0) Enhanced.window_scroll.
Proof.
  intros st H. rewrite window_scroll_eq. by destruct (scrollTimeout st).
Qed.

Lemma values_timer_fire `{engine : RegExpEngine} st0 id :
  preserves (values_and_log_of st0) (Enhanced.timer_fire id).
Proof.
  intros st H. rewrite timer_fire_eq.
  destruct (find _ (timers st)) as [t|]; [|exact H].
  assert (Hc : preserves (values_and_log_of st0)
                 (Enhanced.run_callback (snd (snd t))))
    by (destruct (snd (snd t)); walking values_leaf).
  by apply Hc.
Qed.

Lemma listeners_keep_the_values `{engine : RegExpEngine}
    (st0 : State) (ev : Event) :
  writes_values ev = false →
  preserves (values_and_log_of st0) (Baseline.handle ev)
  ∧ preserves (values_and_log_of st0) (Enhanced.handle ev).
Proof.
  intros Hev. split.
  - destruct ev; try discriminate; unfold Baseline.handle;
      walking values_leaf.
  - destruct ev; try discriminate; unfold Enhanced.handle;
      try solve [walking values_leaf].
    + apply preserves_bind; [by intros ? ?|].
      intros _. apply values_window_scroll.
    + apply values_timer_fire.
Qed.

Lemma in_with_any_class (k : string) (cs nodes : list string) (st : State) :
  In k (with_any_class cs nodes st)
  ↔ In k nodes ∧ ∃ c, In c cs ∧ c ∈ classList (node st k).
Proof.
  unfold with_any_class. rewrite filter_In, existsb_exists.
  split; intros [Hk (c & Hc & Hin)]; (split; [exact Hk|]); exists c;
    (split; [exact Hc|]).
  - by apply bool_decide_eq_true in Hin.
  - by apply bool_decide_eq_true.
Qed.

Section Unmark.
Context (g : Element → Element) (rel : Element → Element → Prop).
Context (Hmark : ∀ e, rel e (g e)).
Context (Hagain : ∀ e e', rel (g e) e' → rel e e').

Lemma node_mark_all (l : list string) (st : State) (k : string) :
  let st' := set_doc (mark_all g l (doc st)) st in
  (k ∈ l → is_Some (doc st !! k) → rel (node st k) (node st' k))
  ∧ (k ∉ l ∨ doc st !! k = None → node st' k = node st k).
Proof.
  intros st'. subst st'. unfold node. cbn [doc set_doc].
  pose proof (mark_all_lookup g rel Hmark Hagain l (doc st) k) as H.
  destruct (doc st !! k) as [e|].
  - destruct H as (e' & -> & Hin & Hout). simpl. split; [by intros ? _; auto|].
    intros [Hk|?]; [by rewrite (Hout Hk) | done].
  - rewrite H. split; [by intros _ [? ?]|done].
Qed.
End Unmark.

Lemma node_mark_all_keeps (g : Element → Element)
    (P : Element → Element → Prop) (l : list string) (st : State)
    (k : string) :
  (∀ e, P e e) → (∀ a b c, P a b → P b c → P a c) → (∀ e, P e (g e)) →
  P (node st k) (node (set_doc (mark_all g l (doc st)) st) k).
Proof.
  intros Hrefl Htrans Hg.
  destruct (node_mark_all g P Hg (λ e e' H, Htrans _ _ _ (Hg e) H) l st k)
    as [Hin Hout].
  destruct (decide (k ∈ l)) as [Hk|Hk]; [|rewrite Hout; auto].
  destruct (doc st !! k) as [e|] eqn:E; [|rewrite Hout; auto].
  apply Hin; [exact Hk | by eexists].
Qed.

Lemma same_values_refl e : same_values e e.
Proof. by repeat split. Qed.

Lemma same_values_trans a b c :
  same_values a b → same_values b c → same_values a c.
Proof. intros (?&?&?) (?&?&?). repeat split; congruence. Qed.

Lemma fewer_classes_refl e : fewer_classes e e.
Proof. unfold fewer_classes. set_solver. Qed.

Lemma fewer_classes_trans a b c :
  fewer_classes a b → fewer_classes b c → fewer_classes a c.
Proof. unfold fewer_classes. set_solver. Qed.

Lemma reset_form_resets st k :
  k ∈ formControls st →
  value (node (reset_form st) k) = defaultValue (node st k)
  ∧ checked (node (reset_form st) k) = defaultChecked (node st k)
  ∧ selectedIndex (node (reset_form st) k) = defaultSelectedIndex (node st k).
Proof.
  intros Hk.
  assert (Hmark : ∀ e, is_reset e (reset_control e)) by (by repeat split).
  assert (Hagain : ∀ e e', is_reset (reset_control e) e' → is_reset e e').
  { intros e e' (?&?&?&?&?&?). repeat split; assumption. }
  destruct (node_mark_all reset_control is_reset Hmark Hagain
              (formControls st) (set_log (log st ++ [FormReset]) st) k)
    as [Hin Hout].
  change (node (set_doc _ _) k) with (node (reset_form st) k) in Hin, Hout.
  change (node (set_log _ st) k) with (node st k) in Hin, Hout.
  change (doc (set_log _ st)) with (doc st) in Hin, Hout.
  destruct (doc st !! k) as [e|] eqn:E.
  - destruct (Hin Hk) as (?&?&?&_); [by eexists|]. done.
  - rewrite Hout by by right. unfold node. by rewrite E.
Qed.

Lemma reset_form_same_form st0 st :
  same_form st0 st → same_form st0 (reset_form st).
Proof.
  intros (Hn & Hc & Hd). split; [exact Hn|]. split; [exact Hc|].
  intros k. specialize (Hd k).
  pose proof (node_mark_all_keeps reset_control
                (λ e e', defaultValue e' = defaultValue e
                         ∧ defaultChecked e' = defaultChecked e
                         ∧ defaultSelectedIndex e' = defaultSelectedIndex e)
                (formControls st) (set_log (log st ++ [FormReset]) st) k)
    as H.
  change (node (set_doc _ _) k) with (node (reset_form st) k) in H.
  change (node (set_log _ st) k) with (node st k) in H.
  destruct H as (-> & -> & ->); [done| |done|exact Hd].
  intros a b c (?&?&?) (?&?&?). repeat split; congruence.
Qed.

Section UnmarkAll.
Context (g : Element → Element) (cs : list string) (st : State).

Lemma unmark_all_keeps (P : Element → Element → Prop) (k : string) :
  (∀ e, P e e) → (∀ a b c, P a b → P b c → P a c) → (∀ e, P e (g e)) →
  P (node st k) (node (unmark_all g cs st) k).
Proof. apply node_mark_all_keeps. Qed.

(** A loop whose callback removes the classes it selects by leaves none
    of them on a node of the form. *)
Lemma unmark_all_removes (k c : string) :
  (∀ e c, In c cs → c ∉ classList (g e)) →
  In k (formNodes st) → In c cs → ¬ has_class (unmark_all g cs st) k c.
Proof.
  intros Hg Hk Hc. unfold has_class.
  destruct (node_mark_all g (λ _ e', ∀ c, In c cs → c ∉ classList e')
              (λ e, Hg e) (λ _ _ H, H)
              (with_any_class cs (formNodes st) st) st k) as [Hin Hout].
  fold (unmark_all g cs st) in Hin, Hout.
  destruct (decide (k ∈ with_any_class cs (formNodes st) st)) as [Hm|Hm].
  - destruct (doc st !! k) as [e|] eqn:E.
    + apply Hin; [exact Hm | by eexists | exact Hc].
    + rewrite Hout by by right. unfold node. rewrite E. set_solver.
  - rewrite Hout by by left. intros Hcl. apply Hm.
    apply list_elem_of_In, in_with_any_class. split; [exact Hk|]. by exists c.
Qed.
End UnmarkAll.

Lemma unmark_all_unblocks (g : Element → Element) (c1 c0 : string)
    (st : State) (k : string) :
  (∀ e, c0 ∉ classList (g e)) → In k (formNodes st) →
  has_class (unmark_all g [c1] st) k c1 →
  ¬ has_class (unmark_all g [c1] st) k c0.
Proof.
  intros Hg Hk. unfold has_class.
  destruct (node_mark_all g (λ _ e', c0 ∉ classList e')
              (λ e, Hg e) (λ _ _ H, H)
              (with_any_class [c1] (formNodes st) st) st k) as [Hin Hout].
  fold (unmark_all g [c1] st) in Hin, Hout.
  destruct (decide (k ∈ with_any_class [c1] (formNodes st) st)) as [Hm|Hm].
  - destruct (doc st !! k) as [e|] eqn:E.
    + intros _. apply Hin; [exact Hm | by eexists].
    + rewrite Hout by by right. unfold node. rewrite E. set_solver.
  - rewrite Hout by by left. intros Hcl. destruct Hm.
    apply list_elem_of_In, in_with_any_class. split; [exact Hk|].
    exists c1. split; [by left | exact Hcl].
Qed.

Lemma ofc_same_form st st' : only_feedback_changed st st' → same_form st st'.
Proof.
  intros (Hd & Hc & Hn & _). split; [exact Hn|]. split; [exact Hc|].
  intros k. specialize (Hd k). unfold node.
  destruct (doc st !! k) as [e|], (doc st' !! k) as [e'|]; simpl in Hd;
    try discriminate; [|done].
  injection Hd as _ Hdv _ _ Hdc _ _ _ _ _ _ _ Hds _ _. done.
Qed.

Lemma same_form_update st0 k f :
  (∀ e, defaultValue (f e) = defaultValue e
        ∧ defaultChecked (f e) = defaultChecked e
        ∧ defaultSelectedIndex (f e) = defaultSelectedIndex e) →
  preserves (same_form st0) (update k f).
Proof.
  intros Hf st (Hn & Hc & Hd). split; [exact Hn|]. split; [exact Hc|].
  intros k'. specialize (Hd k'). unfold node in *. simpl. rewrite lookup_alter.
  case_decide; [subst|exact Hd].
  destruct (doc st !! k') as [e|]; [|exact Hd]. simpl in *.
  destruct (Hf e) as (-> & -> & ->). exact Hd.
Qed.

Section Cleaned.
Context (g1 g2 : Element → Element).
Context (Hv1 : ∀ e, same_values e (g1 e)) (Hv2 : ∀ e, same_values e (g2 e)).
Context (Hc2 : ∀ e, fewer_classes e (g2 e)).
Context (Hmarks : ∀ e c, In c ["is-valid"; "is-invalid"] →
                         c ∉ classList (g1 e)).
Context (Hblock : ∀ e, "d-block" ∉ classList (g2 e)).

Lemma cleaned_clean (st0 st : State) :
  same_form st0 st →
  form_clean st0
    (unmark_all g2 ["invalid-feedback"]
       (unmark_all g1 ["is-valid"; "is-invalid"] (reset_form st))).
Proof.
  intros (Hn & Hc & Hd).
  set (st4 := reset_form st).
  set (st5 := unmark_all g1 ["is-valid"; "is-invalid"] st4).
  set (st6 := unmark_all g2 ["invalid-feedback"] st5).
  split.
  - intros k Hk. rewrite <- Hn in Hk. apply list_elem_of_In in Hk.
    assert (H5 : ∀ c, In c ["is-valid"; "is-invalid"] → ¬ has_class st5 k c).
    { intros c Hcl.
      by apply (unmark_all_removes g1 ["is-valid"; "is-invalid"] st4). }
    pose proof (unmark_all_keeps g2 ["invalid-feedback"] st5 fewer_classes k
                  fewer_classes_refl fewer_classes_trans Hc2) as H6.
    fold st6 in H6. unfold fewer_classes in H6. split_and!.
    + intros H. apply (H5 "is-valid"); [by left|]. unfold has_class in *.
      set_solver.
    + intros H. apply (H5 "is-invalid"); [right; by left|].
      unfold has_class in *. set_solver.
    + by apply unmark_all_unblocks.
  - intros k Hk. rewrite <- Hc in Hk. unfold st6.
    destruct (unmark_all_keeps g2 ["invalid-feedback"] st5 same_values k
                same_values_refl same_values_trans Hv2) as (-> & -> & ->).
    unfold st5.
    destruct (unmark_all_keeps g1 ["is-valid"; "is-invalid"] st4 same_values k
                same_values_refl same_values_trans Hv1) as (-> & -> & ->).
    unfold st4.
    destruct (reset_form_resets st k Hk) as (-> & -> & ->).
    apply Hd.
Qed.
End Cleaned.

Lemma cleaned_baseline_clean st0 st :
  same_form st0 st → form_clean st0 (cleaned_baseline st).
Proof.
  apply cleaned_clean; try (intros e; by repeat split).
  - intros e. unfold fewer_classes. simpl. set_solver.
  - intros e c [<-|[<-|[]]]; simpl; set_solver.
  - intros e. simpl. set_solver.
Qed.

Lemma cleaned_enhanced_clean st0 st :
  same_form st0 st → form_clean st0 (cleaned_enhanced st).
Proof.
  apply cleaned_clean; try (intros e; by repeat split).
  - intros e. unfold fewer_classes. simpl. set_solver.
  - intros e c [<-|[<-|[]]]; simpl; set_solver.
  - intros e. simpl. set_solver.
Qed.

Lemma form_reset_baseline_eq st :
  Baseline.form_reset st = (reset_form st, Ok tt).
Proof.
  unfold Baseline.form_reset. do 2 (erewrite bind_ok; [|reflexivity]).
  by erewrite (forEach_alter reset_control).
Qed.

Lemma form_reset_enhanced_eq st :
  Enhanced.form_reset st = (reset_form st, Ok tt).
Proof.
  unfold Enhanced.form_reset. do 2 (erewrite bind_ok; [|reflexivity]).
  by erewrite (forEach_alter reset_control).
Qed.

Lemma loop_eq (f : string → M unit) (g : Element → Element)
    (cs : list string) (st : State) :
  (∀ k st, f k st = (set_doc (alter g k (doc st)) st, Ok tt)) →
  (marked ← reading (fun st => Ok (with_any_class cs (formNodes st) st));
   forEach f marked) st
  = (unmark_all g cs st, Ok tt).
Proof.
  intros Hf. erewrite bind_ok; [|reflexivity]. by apply forEach_alter.
Qed.

Lemma update2_eq (k : string) (g1 g2 : Element → Element) (st : State) :
  (update k g1;; update k g2) st
  = (set_doc (alter (λ e, g2 (g1 e)) k (doc st)) st, Ok tt).
Proof.
  erewrite bind_ok; [|reflexivity]. unfold update. cbn [doc set_doc].
  rewrite alter_twice. reflexivity.
Qed.

Lemma update3_eq (k : string) (g1 g2 g3 : Element → Element) (st : State) :
  (update k g1;; update k g2;; update k g3) st
  = (set_doc (alter (λ e, g3 (g2 (g1 e))) k (doc st)) st, Ok tt).
Proof.
  erewrite bind_ok; [|reflexivity]. rewrite update2_eq. cbn [doc set_doc].
  rewrite alter_twice. reflexivity.
Qed.

Lemma success_tail_baseline st :
  (Baseline.form_reset;;
   marked ← reading (fun st =>
              Ok (with_any_class ["is-valid"; "is-invalid"] (formNodes st) st));
   forEach (fun el => update el (classList_remove "is-valid");;
                      update el (classList_remove "is-invalid")) marked;;
   feedback ← reading (fun st =>
                Ok (with_any_class ["invalid-feedback"] (formNodes st) st));
   forEach (fun el => update el (classList_remove "d-block")) feedback) st
  = (cleaned_baseline st, Ok tt).
Proof.
  erewrite bind_ok; [|apply form_reset_baseline_eq].
  rewrite <- bind_assoc.
  erewrite bind_ok;
    [|apply (loop_eq _ unmark_baseline); intros k st0;
      exact (update2_eq k (classList_remove "is-valid")
               (classList_remove "is-invalid") st0)].
  by apply (loop_eq _ unblock_baseline).
Qed.

Lemma success_tail_enhanced st :
  (Enhanced.form_reset;;
   marked ← reading (fun st =>
              Ok (with_any_class ["is-valid"; "is-invalid"] (formNodes st) st));
   forEach (fun el => update el (classList_remove "is-valid");;
                      update el (classList_remove "is-invalid");;
                      update el (removeAttribute "aria-invalid")) marked;;
   feedback ← reading (fun st =>
                Ok (with_any_class ["invalid-feedback"] (formNodes st) st));
   forEach (fun el => update el (classList_remove "d-block");;
                      update el (with_textContent [])) feedback) st
  = (cleaned_enhanced st, Ok tt).
Proof.
  erewrite bind_ok; [|apply form_reset_enhanced_eq].
  rewrite <- bind_assoc.
  erewrite bind_ok;
    [|apply (loop_eq _ unmark_enhanced); intros k st0;
      exact (update3_eq k (classList_remove "is-valid")
               (classList_remove "is-invalid")
               (removeAttribute "aria-invalid") st0)].
  apply (loop_eq _ unblock_enhanced). intros k st0.
  exact (update2_eq k (classList_remove "d-block") (with_textContent []) st0).
Qed.

Lemma same_defaults_refl d : same_defaults d d.
Proof. intros k. by destruct (d !! k). Qed.

Lemma same_defaults_alter d d' k f :
  (∀ e, defaultValue (f e) = defaultValue e
        ∧ defaultChecked (f e) = defaultChecked e
        ∧ defaultSelectedIndex (f e) = defaultSelectedIndex e) →
  same_defaults d d' → same_defaults d (alter f k d').
Proof.
  intros Hf H k'. specialize (H k'). rewrite lookup_alter.
  case_decide; [subst|exact H].
  destruct (d !! k'), (d' !! k') as [e'|]; simpl; try done.
  destruct (Hf e') as (-> & -> & ->). exact H.
Qed.

Lemma same_form_of_docs st0 st st' :
  same_form st0 st → formNodes st' = formNodes st →
  formControls st' = formControls st → same_defaults (doc st) (doc st') →
  same_form st0 st'.
Proof.
  intros (Hn & Hc & Hd) Hn' Hc' Hdoc. split; [congruence|].
  split; [congruence|]. intros k. specialize (Hd k). specialize (Hdoc k).
  unfold node in *.
  destruct (doc st !! k), (doc st' !! k); simpl in *; try done.
  destruct Hdoc as (-> & -> & ->). exact Hd.
Qed.

Ltac defaults_kept :=
  cbn [doc set_doc set_timers set_log set_scrollTimeout set_activeElement
       fst update setTimeout];
  repeat (apply same_defaults_alter; [intros ?; by repeat split|]);
  apply same_defaults_refl.

Lemma submit_success_baseline_clean st0 st :
  is_Some (doc st !! "modalOverlay") → is_Some (doc st !! "successModal") →
  same_form st0 st →
  form_clean st0 (fst (Baseline.submit_success st)).
Proof.
  intros [ov Hov] [sm Hsm] Hform. unfold Baseline.submit_success.
  step_baseline. rewrite Hov. step_baseline. step_baseline.
  cbn [update fst doc set_doc]. rewrite lookup_alter_ne, Hsm by done.
  step_baseline. rewrite success_tail_baseline. cbn [fst].
  apply cleaned_baseline_clean.
  apply (same_form_of_docs st0 st); [exact Hform|reflexivity..|].
  defaults_kept.
Qed.

Lemma announce_eq message st :
  Enhanced.announceToScreenReader message st
  = (match doc st !! "status-announcer" with
     | Some _ =>
         fst (setTimeout (CbClearAnnouncer "status-announcer") 1000
                (fst (update "status-announcer" (with_textContent message) st)))
     | None => st
     end, Ok tt).
Proof.
  unfold Enhanced.announceToScreenReader. erewrite bind_ok; [|reflexivity].
  destruct (doc st !! "status-announcer"); [|reflexivity].
  by do 2 (erewrite bind_ok; [|reflexivity]).
Qed.

Lemma submit_success_enhanced_clean st0 st :
  is_Some (doc st !! "modalOverlay") → is_Some (doc st !! "successModal") →
  same_form st0 st →
  form_clean st0 (fst (Enhanced.submit_success st)).
Proof.
  intros [ov Hov] [sm Hsm] Hform. unfold Enhanced.submit_success.
  step_enhanced. rewrite Hov. do 2 step_enhanced.
  step_enhanced. cbn [update fst doc set_doc].
  rewrite !lookup_alter_ne, Hsm by done.
  do 3 step_enhanced.
  match goal with
  | |- context [firstButton ?n] => destruct (firstButton n)
  end.
  - do 2 step_enhanced. erewrite bind_ok; [|apply announce_eq].
    rewrite success_tail_enhanced. cbn [fst].
    apply cleaned_enhanced_clean.
    apply (same_form_of_docs st0 st); [exact Hform| | |].
    + by destruct (doc _ !! "status-announcer").
    + by destruct (doc _ !! "status-announcer").
    + destruct (doc _ !! "status-announcer"); defaults_kept.
  - step_enhanced. erewrite bind_ok; [|apply announce_eq].
    rewrite success_tail_enhanced. cbn [fst].
    apply cleaned_enhanced_clean.
    apply (same_form_of_docs st0 st); [exact Hform| | |].
    + by destruct (doc _ !! "status-announcer").
    + by destruct (doc _ !! "status-announcer").
    + destruct (doc _ !! "status-announcer"); defaults_kept.
Qed.

(** X19.  The form after a successful submission, in both variants: no
    node of the form carries [is-valid] or [is-invalid], no node of class
    [invalid-feedback] in the form carries [d-block], and every control of
    the form has its default value, its default checked state and its
    default selection again. *)
Theorem success_leaves_the_form_clean `{engine : RegExpEngine} (st : State) :
  succeeds st →
  form_clean st (Baseline.step st Submit)
  ∧ form_clean st (Enhanced.step st Submit).
Proof.
  intros ([fm Hfm] & Hv & Hov & Hsm). split.
  - unfold Baseline.step, Baseline.handle, Baseline.form_submit.
    erewrite bind_ok; [|by apply elements_baseline_eq]. rewrite Hfm.
    rewrite prologue_eq.
    pose proof (validateForm_baseline (entered st)) as Hr.
    pose proof (stable_validateForm_baseline _ (ofc_stable st) (entered st)
                  (ofc_entered st)) as Ho.
    unfold mbind, M_bind.
    destruct (Baseline.validateForm (entered st)) as [st1 r].
    cbn [fst snd] in Hr, Ho. rewrite form_verdict_entered, Hv in Hr. subst r.
    apply submit_success_baseline_clean.
    + by apply (ofc_present st st1).
    + by apply (ofc_present st st1).
    + by apply ofc_same_form.
  - unfold Enhanced.step, Enhanced.handle, Enhanced.form_submit.
    erewrite bind_ok; [|by apply elements_enhanced_eq]. rewrite Hfm.
    rewrite prologue_eq.
    pose proof (validateForm_enhanced (entered st)) as Hr.
    pose proof (stable_validateForm_enhanced _ (ofc_stable st) (entered st)
                  (ofc_entered st)) as Ho.
    unfold mbind, M_bind.
    destruct (Enhanced.validateForm (entered st)) as [st1 r].
    cbn [fst snd] in Hr, Ho. rewrite form_verdict_entered, Hv in Hr. subst r.
    apply submit_success_enhanced_clean.
    + by apply (ofc_present st st1).
    + by apply (ofc_present st st1).
    + by apply ofc_same_form.
Qed.

Lemma success_leaves_the_form_clean_witness :
  let st := fst (update "email" (classList_add "is-invalid")
                   (sample_page (str "Ada") (str "Lovelace")
                      (str "ada@example.org") (str "Hello")
                      (str "A message.") [] false 0)) in
  succeeds (engine := fragment_engine) st
  ∧ value (node (Enhanced.step (engine := fragment_engine) st Submit)
             "firstName") = []
  ∧ form_clean st (Enhanced.step (engine := fragment_engine) st Submit).
Proof.
  intros st.
  assert (Hs : succeeds (engine := fragment_engine) st).
  { unfold succeeds. split_and!; vm_compute; by eexists. }
  split; [exact Hs|]. split; [vm_compute; reflexivity|].
  exact (proj2 (success_leaves_the_form_clean (engine := fragment_engine)
                  st Hs)).
Defined.

Lemma announce_present message st :
  is_Some (doc st !! "status-announcer") →
  Enhanced.announceToScreenReader message st = (announced message st, Ok tt).
Proof. intros [a Ha]. by rewrite announce_eq, Ha. Qed.

Lemma announce_absent message st :
  doc st !! "status-announcer" = None →
  Enhanced.announceToScreenReader message st = (st, Ok tt).
Proof. intros Ha. by rewrite announce_eq, Ha. Qed.

(** X20.  An announcement and its end.  Without the announcer node,
    [announceToScreenReader] does nothing.  With it, the announcer's text
    becomes the message and one timer is added, due in 1000 ms; nothing
    else changes.  When that timer fires (the timers being in order) the
    announcer's text is emptied, the timer is gone and the other timers
    are as they were before the announcement. *)
Theorem announcement_is_cleared_by_its_timer `{engine : RegExpEngine}
    (st : State) (message : list N) :
  (doc st !! "status-announcer" = None →
   Enhanced.announceToScreenReader message st = (st, Ok tt))
  ∧ (is_Some (doc st !! "status-announcer") → timers_ok st →
     let st1 := fst (Enhanced.announceToScreenReader message st) in
     let st2 := Enhanced.step st1 (TimerFire (nextTimer st)) in
     st1 = announced message st
     ∧ textContent (node st1 "status-announcer") = message
     ∧ textContent (node st2 "status-announcer") = []
     ∧ timers st2 = timers st
     ∧ (∀ k, k ≠ "status-announcer" → doc st2 !! k = doc st !! k)).
Proof.
  split; [apply announce_absent|].
  intros Ha Hok st1 st2.
  assert (E1 : st1 = announced message st)
    by (subst st1; by rewrite announce_present).
  pose proof (λ t, fresh_id_not_pending st t Hok) as Hne.
  destruct (find_app_fresh (nextTimer st) (timers st)
              (nextTimer st, (1000%nat, CbClearAnnouncer "status-announcer"))
              Hne eq_refl) as [Hfind Hfilter].
  assert (E2 : st2
               = set_doc (alter (with_textContent []) "status-announcer"
                            (doc st1)) (drop_timer (nextTimer st) st1)).
  { subst st2. unfold Enhanced.step, Enhanced.handle. rewrite timer_fire_eq.
    replace (find _ (timers st1))
      with (Some (nextTimer st,
                  (1000%nat, CbClearAnnouncer "status-announcer")))
      by (rewrite E1; symmetry; exact Hfind).
    reflexivity. }
  destruct Ha as [a Ha]. split; [exact E1|]. split_and!.
  - rewrite E1. unfold node, announced. simpl.
    by rewrite lookup_alter_eq, Ha.
  - rewrite E2, E1. unfold node, announced. simpl.
    by rewrite !lookup_alter_eq, Ha.
  - rewrite E2, E1. unfold announced. simpl. exact Hfilter.
  - intros k Hk. rewrite E2, E1. unfold announced. simpl.
    by rewrite !lookup_alter_ne.
Qed.

Lemma announcement_is_cleared_by_its_timer_witness :
  let st := sample_page [] [] [] [] [] [] false 0 in
  let st1 := fst (Enhanced.announceToScreenReader (str "Hello") st) in
  is_Some (doc st !! "status-announcer") ∧ timers_ok st
  ∧ textContent (node st1 "status-announcer") = str "Hello"
  ∧ textContent
      (node (Enhanced.step (engine := fragment_engine) st1 (TimerFire 1))
         "status-announcer") = [].
Proof.
  intros st st1.
  assert (Ha : is_Some (doc st !! "status-announcer")) by (by eexists).
  assert (Hok : timers_ok st) by apply sample_page_timers_ok.
  destruct (announcement_is_cleared_by_its_timer (engine := fragment_engine)
              st (str "Hello")) as [_ H].
  destruct (H Ha Hok) as (_ & H1 & H2 & _).
  split; [exact Ha|]. split; [exact Hok|]. split; [exact H1 | exact H2].
Defined.

Lemma contactPhone_change_enhanced_aria st c :
  is_Some (doc st !! "phone-group") → is_Some (doc st !! "phone") →
  is_Some (doc st !! "status-announcer") →
  checked c = true → doc st !! "contactPhone" = Some c →
  let st' := fst (Enhanced.contactPhone_change st) in
  getAttribute "aria-required" (node st' "phone") = Some (str "true")
  ∧ textContent (node st' "status-announcer")
    = str "Phone number field is now required"
  ∧ timers st'
    = timers st
      ++ [(nextTimer st, (1000%nat, CbClearAnnouncer "status-announcer"))].
Proof.
  intros [g Hg] [p Hp] [a Ha] Hc Hr. cbv zeta.
  unfold Enhanced.contactPhone_change.
  step_enhanced. rewrite Hr. step_enhanced. rewrite (node_lookup _ _ _ Hr), Hc.
  step_enhanced. rewrite Hg. step_enhanced. rewrite Hp.
  do 3 step_enhanced. rewrite announce_present
    by (cbn [update fst doc set_doc]; rewrite !lookup_alter_ne, Ha by done;
        by eexists).
  unfold announced. cbn [fst]. split_and!; [| |reflexivity].
  - read_doc. rewrite Hp. unfold getAttribute. simpl.
    by rewrite lookup_insert_eq.
  - read_doc. by rewrite Ha.
Qed.

Lemma contactEmail_change_enhanced_aria st c :
  is_Some (doc st !! "phone-group") → is_Some (doc st !! "phone") →
  is_Some (doc st !! "status-announcer") →
  checked c = true → doc st !! "contactEmail" = Some c →
  let st' := fst (Enhanced.contactEmail_change st) in
  getAttribute "aria-required" (node st' "phone") = Some (str "false")
  ∧ getAttribute "aria-invalid" (node st' "phone") = None
  ∧ (is_Some (doc st !! "phoneError") →
     textContent (node st' "phoneError") = [])
  ∧ textContent (node st' "status-announcer")
    = str "Phone number field is no longer required"
  ∧ timers st'
    = timers st
      ++ [(nextTimer st, (1000%nat, CbClearAnnouncer "status-announcer"))].
Proof.
  intros [g Hg] [p Hp] [a Ha] Hc Hr. cbv zeta.
  unfold Enhanced.contactEmail_change.
  step_enhanced. rewrite Hr. step_enhanced. rewrite (node_lookup _ _ _ Hr), Hc.
  step_enhanced. rewrite Hg. step_enhanced. rewrite Hp.
  do 4 step_enhanced. to_lookup. unfold Enhanced.clearValidation.
  destruct (doc st !! "phoneError") as [pe|] eqn:He.
  - do 5 step_enhanced. rewrite announce_present
      by (cbn [update fst doc set_doc]; rewrite !lookup_alter_ne, Ha by done;
          by eexists).
    unfold announced. cbn [fst]. split_and!; [| | | |reflexivity].
    + read_doc. rewrite Hp. unfold getAttribute. simpl.
      by rewrite lookup_delete_ne, lookup_insert_eq.
    + read_doc. rewrite Hp. unfold getAttribute. simpl.
      by rewrite lookup_delete_eq.
    + intros _. read_doc. by rewrite He.
    + read_doc. by rewrite Ha.
  - do 4 step_enhanced. rewrite announce_present
      by (cbn [update fst doc set_doc]; rewrite !lookup_alter_ne, Ha by done;
          by eexists).
    unfold announced. cbn [fst]. split_and!; [| | | |reflexivity].
    + read_doc. rewrite Hp. unfold getAttribute. simpl.
      by rewrite lookup_delete_ne, lookup_insert_eq.
    + read_doc. rewrite Hp. unfold getAttribute. simpl.
      by rewrite lookup_delete_eq.
    + by intros [? ?].
    + read_doc. by rewrite Ha.
Qed.

(** X21.  What the enhanced variant adds to a change of the contact
    method, on a page with the phone group, the phone input and the
    announcer.  Ticking the phone button sets [aria-required="true"] on the
    phone input and announces that the field is now required; ticking the
    email button sets [aria-required="false"], removes [aria-invalid] from
    the input, empties the text of the phone error node and announces that
    the field is no longer required.  Each announcement adds one timer,
    due in 1000 ms, that will clear it. *)
Theorem contact_method_change_is_announced (st : State) (c : Element) :
  is_Some (doc st !! "phone-group") → is_Some (doc st !! "phone") →
  is_Some (doc st !! "status-announcer") → checked c = true →
  (doc st !! "contactPhone" = Some c →
   let st' := fst (Enhanced.contactPhone_change st) in
   getAttribute "aria-required" (node st' "phone") = Some (str "true")
   ∧ textContent (node st' "status-announcer")
     = str "Phone number field is now required"
   ∧ timers st'
     = timers st
       ++ [(nextTimer st, (1000%nat, CbClearAnnouncer "status-announcer"))])
  ∧ (doc st !! "contactEmail" = Some c →
     let st' := fst (Enhanced.contactEmail_change st) in
     getAttribute "aria-required" (node st' "phone") = Some (str "false")
     ∧ getAttribute "aria-invalid" (node st' "phone") = None
     ∧ (is_Some (doc st !! "phoneError") →
        textContent (node st' "phoneError") = [])
     ∧ textContent (node st' "status-announcer")
       = str "Phone number field is no longer required"
     ∧ timers st'
       = timers st
         ++ [(nextTimer st, (1000%nat, CbClearAnnouncer "status-announcer"))]).
Proof.
  intros Hg Hp Ha Hc. split; intros Hr.
  - by apply (contactPhone_change_enhanced_aria st c).
  - by apply (contactEmail_change_enhanced_aria st c).
Qed.

Lemma contact_method_change_is_announced_witness :
  let st := sample_page [] [] [] [] [] [] true 0 in
  let st' := fst (Enhanced.contactPhone_change st) in
  doc st !! "contactPhone" = Some (radio true)
  ∧ getAttribute "aria-required" (node st' "phone") = Some (str "true")
  ∧ timers st' = [(1%N, (1000%nat, CbClearAnnouncer "status-announcer"))].
Proof.
  intros st st'.
  assert (Hg : is_Some (doc st !! "phone-group")) by (by eexists).
  assert (Hp : is_Some (doc st !! "phone")) by (by eexists).
  assert (Ha : is_Some (doc st !! "status-announcer")) by (by eexists).
  destruct (contact_method_change_is_announced st (radio true) Hg Hp Ha
              eq_refl) as [H _].
  destruct (H eq_refl) as (H1 & _ & H3).
  split; [reflexivity|]. split; [exact H1 | exact H3].
Defined.

Lemma marked_doc_idem (F E : Element → Element) (f e : string)
    (d : gmap string Element) :
  (∀ x, F (F x) = F x) → (∀ x, E (E x) = E x) → (∀ x, E (F x) = F (E x)) →
  marked_doc F E f e (marked_doc F E f e d) = marked_doc F E f e d.
Proof.
  intros HF HE HEF. unfold marked_doc. apply map_eq. intros j.
  rewrite !lookup_alter.
  repeat case_decide; simplify_eq; destruct (d !! j) as [x|]; simpl;
    try done.
  - by rewrite <- (HEF (F x)), HE, HF.
  - by rewrite HE.
  - by rewrite HF.
Qed.

Lemma element_eq (a b : Element) :
  value a = value b → defaultValue a = defaultValue b →
  singleLine a = singleLine b → checked a = checked b →
  defaultChecked a = defaultChecked b → classList a = classList b →
  attrs a = attrs b → textContent a = textContent b →
  display a = display b → required a = required b →
  placeholder a = placeholder b → selectionStart a = selectionStart b →
  selectionEnd a = selectionEnd b → options a = options b →
  selectedIndex a = selectedIndex b →
  defaultSelectedIndex a = defaultSelectedIndex b →
  firstButton a = firstButton b → submitButton a = submitButton b → a = b.
Proof. destruct a, b. cbn. by intros; subst. Qed.

(** Compare two nodes field by field; what is left are the fields that
    are not syntactically the same. *)
Ltac by_fields :=
  apply element_eq;
  unfold error_mark, field_mark_baseline, field_mark_enhanced, setAttribute,
    removeAttribute, classList_add, classList_remove;
  cbn [value defaultValue singleLine checked defaultChecked classList attrs
       textContent display required placeholder selectionStart selectionEnd
       options selectedIndex defaultSelectedIndex firstButton submitButton
       with_classList with_attrs with_textContent];
  try reflexivity.

Lemma field_mark_baseline_idem ok x :
  field_mark_baseline ok (field_mark_baseline ok x) = field_mark_baseline ok x.
Proof. destruct ok; by_fields; set_solver. Qed.

Lemma field_mark_enhanced_idem ok x :
  field_mark_enhanced ok (field_mark_enhanced ok x) = field_mark_enhanced ok x.
Proof.
  destruct ok; by_fields; first [apply insert_insert_eq | set_solver].
Qed.

Lemma error_mark_idem ok msg x :
  error_mark ok msg (error_mark ok msg x) = error_mark ok msg x.
Proof. unfold error_mark. destruct ok, (truthy msg); by_fields; set_solver. Qed.

Lemma error_field_baseline_comm ok msg x :
  error_mark ok msg (field_mark_baseline ok x)
  = field_mark_baseline ok (error_mark ok msg x).
Proof. unfold error_mark. destruct ok, (truthy msg); by_fields; set_solver. Qed.

Lemma error_field_enhanced_comm ok msg x :
  error_mark ok msg (field_mark_enhanced ok x)
  = field_mark_enhanced ok (error_mark ok msg x).
Proof. unfold error_mark. destruct ok, (truthy msg); by_fields; set_solver. Qed.

Lemma validateField_baseline_eq f e fn msg st :
  Baseline.validateField (Some f) (Some e) fn msg st
  = match fn (value (node st f)) st with
    | Ok ok =>
        (set_doc (marked_doc (field_mark_baseline ok) (error_mark ok msg) f e
                    (doc st)) st, Ok ok)
    | Throw x => (st, Throw x)
    end.
Proof.
  unfold Baseline.validateField. erewrite bind_ok; [|reflexivity].
  unfold reading at 1. unfold mbind at 1, M_bind at 1.
  destruct (fn (value (node st f)) st) as [[|]|x]; [| |reflexivity].
  - cbn [negb]. do 2 (erewrite bind_ok; [|reflexivity]).
    erewrite bind_ok; [|reflexivity]. unfold mret, M_ret, marked_doc.
    cbn [fst update doc set_doc]. rewrite alter_twice. reflexivity.
  - cbn [negb]. do 2 (erewrite bind_ok; [|reflexivity]).
    unfold marked_doc, error_mark, field_mark_baseline.
    destruct (truthy msg).
    + do 2 (erewrite bind_ok; [|reflexivity]). unfold mret, M_ret.
      cbn [fst update doc set_doc]. rewrite !alter_twice. reflexivity.
    + do 2 (erewrite bind_ok; [|reflexivity]). unfold mret, M_ret.
      cbn [fst update doc set_doc]. rewrite !alter_twice. reflexivity.
Qed.

Lemma validateField_enhanced_eq f e fn msg st :
  Enhanced.validateField (Some f) (Some e) fn msg st
  = match fn (value (node st f)) st with
    | Ok ok =>
        (set_doc (marked_doc (field_mark_enhanced ok) (error_mark ok msg) f e
                    (doc st)) st, Ok ok)
    | Throw x => (st, Throw x)
    end.
Proof.
  unfold Enhanced.validateField. erewrite bind_ok; [|reflexivity].
  unfold reading at 1. unfold mbind at 1, M_bind at 1.
  destruct (fn (value (node st f)) st) as [[|]|x]; [| |reflexivity].
  - cbn [negb]. do 3 (erewrite bind_ok; [|reflexivity]).
    erewrite bind_ok; [|reflexivity]. unfold mret, M_ret, marked_doc.
    cbn [fst update doc set_doc]. rewrite !alter_twice. reflexivity.
  - cbn [negb]. do 3 (erewrite bind_ok; [|reflexivity]).
    unfold marked_doc, error_mark, field_mark_enhanced.
    destruct (truthy msg).
    + do 2 (erewrite bind_ok; [|reflexivity]). unfold mret, M_ret.
      cbn [fst update doc set_doc]. rewrite !alter_twice. reflexivity.
    + do 2 (erewrite bind_ok; [|reflexivity]). unfold mret, M_ret.
      cbn [fst update doc set_doc]. rewrite !alter_twice. reflexivity.
Qed.

Lemma validateField_again_baseline fo eo fn msg st :
  reads_no_feedback fn →
  fst (Baseline.validateField fo eo fn msg
         (fst (Baseline.validateField fo eo fn msg st)))
  = fst (Baseline.validateField fo eo fn msg st).
Proof.
  intros Hfn. destruct fo as [f|], eo as [e|]; try reflexivity.
  pose proof (ofc_validateField_baseline st (Some f) (Some e) fn msg st
                (ofc_refl st)) as Ho.
  rewrite (validateField_baseline_eq f e fn msg st) in *.
  destruct (fn (value (node st f)) st) as [ok|x] eqn:E;
    [|cbn [fst]; by rewrite validateField_baseline_eq, E].
  cbn [fst] in *. rewrite validateField_baseline_eq.
  destruct (ofc_node _ _ f Ho) as [-> _]. rewrite (Hfn _ _ _ Ho), E.
  cbn [fst doc set_doc]. rewrite marked_doc_idem; [reflexivity|..].
  - apply field_mark_baseline_idem.
  - apply error_mark_idem.
  - apply error_field_baseline_comm.
Qed.

Lemma field_blur_again_baseline name cfg st :
  fst (Baseline.field_blur name cfg (fst (Baseline.field_blur name cfg st)))
  = fst (Baseline.field_blur name cfg st).
Proof.
  assert (Hpure : ∀ g, reads_no_feedback (pure_fn g)) by (by intros g v ? ?).
  assert (Hfalse : reads_no_feedback always_false) by (by intros v ? ?).
  assert (Heq : ∀ s, fst (Baseline.field_blur name cfg s)
                = match assoc_name name element_ids with
                  | Some id =>
                      match doc s !! id with
                      | Some x =>
                          fst (Baseline.validateField (Some id)
                                 (match doc s !! (name ++ "Error")%string
                                  with Some _ => Some (name ++ "Error")%string
                                  | None => None end)
                                 (if String.eqb name "email"
                                     && is_empty (trim (value x))
                                  then always_false
                                  else pure_fn (validator cfg))
                                 (if String.eqb name "email"
                                     && is_empty (trim (value x))
                                  then emptyMessage cfg
                                  else Some (errorMessage cfg)) s)
                      | None => s
                      end
                  | None => s
                  end).
  { intros s. unfold Baseline.field_blur, Baseline.elements.
    destruct (assoc_name name element_ids) as [id|];
      [|by erewrite bind_ok; [|reflexivity]].
    erewrite bind_ok; [|reflexivity].
    destruct (doc s !! id) as [x|] eqn:Ex; [|reflexivity].
    do 2 (erewrite bind_ok; [|reflexivity]).
    rewrite (node_lookup _ _ _ Ex).
    destruct (_ && _); by rewrite fst_bind_ret. }
  rewrite !Heq. destruct (assoc_name name element_ids) as [id|]; [|done].
  destruct (doc st !! id) as [x|] eqn:Ex; [|by rewrite Ex].
  set (eo := match doc st !! (name ++ "Error")%string with
             | Some _ => Some (name ++ "Error")%string | None => None end).
  set (fn := if String.eqb name "email" && is_empty (trim (value x))
             then always_false else pure_fn (validator cfg)).
  set (msg := if String.eqb name "email" && is_empty (trim (value x))
              then emptyMessage cfg else Some (errorMessage cfg)).
  assert (Hfn : reads_no_feedback fn) by (subst fn; by destruct (_ && _)).
  pose proof (ofc_validateField_baseline st (Some id) eo fn msg st (ofc_refl st))
    as Ho.
  set (st1 := fst (Baseline.validateField (Some id) eo fn msg st)) in *.
  pose proof (ofc_lookup st st1 id Ho) as Hid.
  pose proof (ofc_lookup st st1 (name ++ "Error")%string Ho) as Herr.
  rewrite Ex in Hid. destruct (doc st1 !! id) as [x1|]; [|done].
  destruct Hid as (-> & _).
  replace (match doc st1 !! (name ++ "Error")%string with
           | Some _ => Some (name ++ "Error")%string | None => None end)
    with eo
    by (subst eo; destruct (doc st !! (name ++ "Error")%string),
          (doc st1 !! (name ++ "Error")%string); done).
  fold fn msg. subst st1. by apply validateField_again_baseline.
Qed.

Lemma phoneInput_blur_again_baseline `{engine : RegExpEngine} st :
  fst (Baseline.phoneInput_blur (fst (Baseline.phoneInput_blur st)))
  = fst (Baseline.phoneInput_blur st).
Proof.
  assert (Hfalse : reads_no_feedback always_false) by (by intros v ? ?).
  assert (Hphone : ∀ cc, reads_no_feedback
                           (λ value, Baseline.validatePhoneNumber value cc)).
  { intros cc v s s' H. by apply validatePhoneNumber_ofc. }
  assert (Heq : ∀ s, fst (Baseline.phoneInput_blur s)
                = match doc s !! "phone" with
                  | Some p =>
                      if phone_checked s
                      then fst (Baseline.validateField (Some "phone")
                                  (match doc s !! "phoneError" with
                                   | Some _ => Some "phoneError"
                                   | None => None end)
                                  (if is_empty (trim (value p))
                                   then always_false
                                   else λ value,
                                          Baseline.validatePhoneNumber value
                                            (countryCode_ref s))
                                  (if is_empty (trim (value p))
                                   then Some (str "Please provide your phone number.")
                                   else Some (str "Please provide a valid phone number for the selected country."))
                                  s)
                      else s
                  | None => s
                  end).
  { intros s. unfold Baseline.phoneInput_blur, phone_checked, countryCode_ref.
    erewrite bind_ok; [|by apply elements_baseline_eq].
    destruct (doc s !! "phone") as [p|] eqn:Ep; [|reflexivity].
    erewrite bind_ok; [|by apply elements_baseline_eq].
    destruct (doc s !! "contactPhone") as [c|] eqn:Ec.
    - erewrite bind_ok; [|reflexivity]. rewrite (node_lookup _ _ _ Ec).
      destruct (checked c); [|reflexivity].
      erewrite bind_ok; [|reflexivity]. rewrite (node_lookup _ _ _ Ep).
      erewrite bind_ok; [|by apply elements_baseline_eq].
      erewrite bind_ok; [|by apply elements_baseline_eq].
      destruct (is_empty (trim (value p))); by rewrite fst_bind_ret.
    - by erewrite bind_ok; [|reflexivity]. }
  rewrite !Heq. destruct (doc st !! "phone") as [p|] eqn:Ep; [|by rewrite Ep].
  destruct (phone_checked st) eqn:Ech; [|by rewrite Ep, Ech].
  set (eo := match doc st !! "phoneError" with
             | Some _ => Some "phoneError" | None => None end).
  set (fn := if is_empty (trim (value p)) then always_false
             else λ value, Baseline.validatePhoneNumber value
                             (countryCode_ref st)).
  set (msg := if is_empty (trim (value p))
              then Some (str "Please provide your phone number.")
              else Some (str "Please provide a valid phone number for the selected country.")).
  assert (Hfn : reads_no_feedback fn)
    by (subst fn; destruct (is_empty _); auto).
  pose proof (ofc_validateField_baseline st (Some "phone") eo fn msg st
                (ofc_refl st)) as Ho.
  set (st1 := fst (Baseline.validateField (Some "phone") eo fn msg st)) in *.
  pose proof (ofc_lookup st st1 "phone" Ho) as Hid.
  pose proof (ofc_lookup st st1 "phoneError" Ho) as Herr.
  pose proof (ofc_lookup st st1 "contactPhone" Ho) as Hcp.
  pose proof (ofc_lookup st st1 "countryCode" Ho) as Hcc.
  rewrite Ep in Hid. destruct (doc st1 !! "phone") as [p1|]; [|done].
  destruct Hid as (-> & _).
  assert (phone_checked st1 = true) as ->.
  { revert Ech. unfold phone_checked.
    destruct (doc st !! "contactPhone"), (doc st1 !! "contactPhone");
      try done. by destruct Hcp as (_ & -> & _). }
  replace (match doc st1 !! "phoneError" with
           | Some _ => Some "phoneError" | None => None end)
    with eo
    by (subst eo; destruct (doc st !! "phoneError"),
          (doc st1 !! "phoneError"); done).
  replace (countryCode_ref st1) with (countryCode_ref st)
    by (unfold countryCode_ref; destruct (doc st !! "countryCode"),
          (doc st1 !! "countryCode"); done).
  fold fn msg. subst st1. by apply validateField_again_baseline.
Qed.

Lemma blur_listeners_again_baseline `{engine : RegExpEngine} k st :
  fst (Baseline.blur_listeners k (fst (Baseline.blur_listeners k st)))
  = fst (Baseline.blur_listeners k st).
Proof.
  unfold Baseline.blur_listeners.
  destruct (assoc_name k Baseline.fieldValidators) as [cfg|].
  - apply field_blur_again_baseline.
  - destruct (String.eqb k "phone"); [|reflexivity].
    apply phoneInput_blur_again_baseline.
Qed.

Lemma validateField_again_enhanced fo eo fn msg st :
  reads_no_feedback fn →
  fst (Enhanced.validateField fo eo fn msg
         (fst (Enhanced.validateField fo eo fn msg st)))
  = fst (Enhanced.validateField fo eo fn msg st).
Proof.
  intros Hfn. destruct fo as [f|], eo as [e|]; try reflexivity.
  pose proof (ofc_validateField_enhanced st (Some f) (Some e) fn msg st
                (ofc_refl st)) as Ho.
  rewrite (validateField_enhanced_eq f e fn msg st) in *.
  destruct (fn (value (node st f)) st) as [ok|x] eqn:E;
    [|cbn [fst]; by rewrite validateField_enhanced_eq, E].
  cbn [fst] in *. rewrite validateField_enhanced_eq.
  destruct (ofc_node _ _ f Ho) as [-> _]. rewrite (Hfn _ _ _ Ho), E.
  cbn [fst doc set_doc]. rewrite marked_doc_idem; [reflexivity|..].
  - apply field_mark_enhanced_idem.
  - apply error_mark_idem.
  - apply error_field_enhanced_comm.
Qed.

Lemma field_blur_again_enhanced name cfg st :
  fst (Enhanced.field_blur name cfg (fst (Enhanced.field_blur name cfg st)))
  = fst (Enhanced.field_blur name cfg st).
Proof.
  assert (Hpure : ∀ g, reads_no_feedback (pure_fn g)) by (by intros g v ? ?).
  assert (Hfalse : reads_no_feedback always_false) by (by intros v ? ?).
  assert (Heq : ∀ s, fst (Enhanced.field_blur name cfg s)
                = match assoc_name name element_ids with
                  | Some id =>
                      match doc s !! id with
                      | Some x =>
                          fst (Enhanced.validateField (Some id)
                                 (match doc s !! (name ++ "Error")%string
                                  with Some _ => Some (name ++ "Error")%string
                                  | None => None end)
                                 (if String.eqb name "email"
                                     && is_empty (trim (value x))
                                  then always_false
                                  else pure_fn (validator cfg))
                                 (if String.eqb name "email"
                                     && is_empty (trim (value x))
                                  then emptyMessage cfg
                                  else Some (errorMessage cfg)) s)
                      | None => s
                      end
                  | None => s
                  end).
  { intros s. unfold Enhanced.field_blur, Enhanced.elements.
    destruct (assoc_name name element_ids) as [id|];
      [|by erewrite bind_ok; [|reflexivity]].
    erewrite bind_ok; [|reflexivity].
    destruct (doc s !! id) as [x|] eqn:Ex; [|reflexivity].
    do 2 (erewrite bind_ok; [|reflexivity]).
    rewrite (node_lookup _ _ _ Ex).
    destruct (_ && _); by rewrite fst_bind_ret. }
  rewrite !Heq. destruct (assoc_name name element_ids) as [id|]; [|done].
  destruct (doc st !! id) as [x|] eqn:Ex; [|by rewrite Ex].
  set (eo := match doc st !! (name ++ "Error")%string with
             | Some _ => Some (name ++ "Error")%string | None => None end).
  set (fn := if String.eqb name "email" && is_empty (trim (value x))
             then always_false else pure_fn (validator cfg)).
  set (msg := if String.eqb name "email" && is_empty (trim (value x))
              then emptyMessage cfg else Some (errorMessage cfg)).
  assert (Hfn : reads_no_feedback fn) by (subst fn; by destruct (_ && _)).
  pose proof (ofc_validateField_enhanced st (Some id) eo fn msg st (ofc_refl st))
    as Ho.
  set (st1 := fst (Enhanced.validateField (Some id) eo fn msg st)) in *.
  pose proof (ofc_lookup st st1 id Ho) as Hid.
  pose proof (ofc_lookup st st1 (name ++ "Error")%string Ho) as Herr.
  rewrite Ex in Hid. destruct (doc st1 !! id) as [x1|]; [|done].
  destruct Hid as (-> & _).
  replace (match doc st1 !! (name ++ "Error")%string with
           | Some _ => Some (name ++ "Error")%string | None => None end)
    with eo
    by (subst eo; destruct (doc st !! (name ++ "Error")%string),
          (doc st1 !! (name ++ "Error")%string); done).
  fold fn msg. subst st1. by apply validateField_again_enhanced.
Qed.

Lemma phoneInput_blur_again_enhanced `{engine : RegExpEngine} st :
  fst (Enhanced.phoneInput_blur (fst (Enhanced.phoneInput_blur st)))
  = fst (Enhanced.phoneInput_blur st).
Proof.
  assert (Hfalse : reads_no_feedback always_false) by (by intros v ? ?).
  assert (Hphone : ∀ cc, reads_no_feedback
                           (λ value, Enhanced.validatePhoneNumber value cc)).
  { intros cc v s s' H. by apply validatePhoneNumber_ofc. }
  assert (Heq : ∀ s, fst (Enhanced.phoneInput_blur s)
                = match doc s !! "phone" with
                  | Some p =>
                      if phone_checked s
                      then fst (Enhanced.validateField (Some "phone")
                                  (match doc s !! "phoneError" with
                                   | Some _ => Some "phoneError"
                                   | None => None end)
                                  (if is_empty (trim (value p))
                                   then always_false
                                   else λ value,
                                          Enhanced.validatePhoneNumber value
                                            (countryCode_ref s))
                                  (if is_empty (trim (value p))
                                   then Some (str "Please provide your phone number.")
                                   else Some (str "Please provide a valid phone number for the selected country."))
                                  s)
                      else s
                  | None => s
                  end).
  { intros s. unfold Enhanced.phoneInput_blur, phone_checked, countryCode_ref.
    erewrite bind_ok; [|by apply elements_enhanced_eq].
    destruct (doc s !! "phone") as [p|] eqn:Ep; [|reflexivity].
    erewrite bind_ok; [|by apply elements_enhanced_eq].
    destruct (doc s !! "contactPhone") as [c|] eqn:Ec.
    - erewrite bind_ok; [|reflexivity]. rewrite (node_lookup _ _ _ Ec).
      destruct (checked c); [|reflexivity].
      erewrite bind_ok; [|reflexivity]. rewrite (node_lookup _ _ _ Ep).
      erewrite bind_ok; [|by apply elements_enhanced_eq].
      erewrite bind_ok; [|by apply elements_enhanced_eq].
      destruct (is_empty (trim (value p))); by rewrite fst_bind_ret.
    - by erewrite bind_ok; [|reflexivity]. }
  rewrite !Heq. destruct (doc st !! "phone") as [p|] eqn:Ep; [|by rewrite Ep].
  destruct (phone_checked st) eqn:Ech; [|by rewrite Ep, Ech].
  set (eo := match doc st !! "phoneError" with
             | Some _ => Some "phoneError" | None => None end).
  set (fn := if is_empty (trim (value p)) then always_false
             else λ value, Enhanced.validatePhoneNumber value
                             (countryCode_ref st)).
  set (msg := if is_empty (trim (value p))
              then Some (str "Please provide your phone number.")
              else Some (str "Please provide a valid phone number for the selected country.")).
  assert (Hfn : reads_no_feedback fn)
    by (subst fn; destruct (is_empty _); auto).
  pose proof (ofc_validateField_enhanced st (Some "phone") eo fn msg st
                (ofc_refl st)) as Ho.
  set (st1 := fst (Enhanced.validateField (Some "phone") eo fn msg st)) in *.
  pose proof (ofc_lookup st st1 "phone" Ho) as Hid.
  pose proof (ofc_lookup st st1 "phoneError" Ho) as Herr.
  pose proof (ofc_lookup st st1 "contactPhone" Ho) as Hcp.
  pose proof (ofc_lookup st st1 "countryCode" Ho) as Hcc.
  rewrite Ep in Hid. destruct (doc st1 !! "phone") as [p1|]; [|done].
  destruct Hid as (-> & _).
  assert (phone_checked st1 = true) as ->.
  { revert Ech. unfold phone_checked.
    destruct (doc st !! "contactPhone"), (doc st1 !! "contactPhone");
      try done. by destruct Hcp as (_ & -> & _). }
  replace (match doc st1 !! "phoneError" with
           | Some _ => Some "phoneError" | None => None end)
    with eo
    by (subst eo; destruct (doc st !! "phoneError"),
          (doc st1 !! "phoneError"); done).
  replace (countryCode_ref st1) with (countryCode_ref st)
    by (unfold countryCode_ref; destruct (doc st !! "countryCode"),
          (doc st1 !! "countryCode"); done).
  fold fn msg. subst st1. by apply validateField_again_enhanced.
Qed.

Lemma blur_listeners_again_enhanced `{engine : RegExpEngine} k st :
  fst (Enhanced.blur_listeners k (fst (Enhanced.blur_listeners k st)))
  = fst (Enhanced.blur_listeners k st).
Proof.
  unfold Enhanced.blur_listeners.
  destruct (assoc_name k Enhanced.fieldValidators) as [cfg|].
  - apply field_blur_again_enhanced.
  - destruct (String.eqb k "phone"); [|reflexivity].
    apply phoneInput_blur_again_enhanced.
Qed.

(** X22.  Validating again changes nothing.  A second blur event on the
    same node, right after the first, leaves the whole page exactly as the
    first left it: the marks of a field are a function of its value.  In
    both variants, for the five text fields, the phone input and every
    other node. *)
Theorem blur_is_idempotent `{engine : RegExpEngine} (st : State) (k : string) :
  Baseline.run [Blur k; Blur k] st = Baseline.run [Blur k] st
  ∧ Enhanced.run [Blur k; Blur k] st = Enhanced.run [Blur k] st.
Proof.
  split.
  - apply blur_listeners_again_baseline.
  - apply blur_listeners_again_enhanced.
Qed.

Lemma with_any_class_ext cs nodes st st' :
  (∀ k, classList (node st' k) = classList (node st k)) →
  with_any_class cs nodes st' = with_any_class cs nodes st.
Proof.
  intros H. unfold with_any_class. induction nodes as [|k nodes IH]; [done|].
  simpl. by rewrite H, IH.
Qed.

Ltac focus_leaf :=
  idtac;
  match goal with
  | |- preserves _ (update _ _) => intros ? ?; assumption
  | |- preserves _ (setTimeout _ _) => intros ? ?; assumption
  end.

Lemma validateForm_keeps_focus `{engine : RegExpEngine} a :
  preserves (λ st, activeElement st = a) Enhanced.validateForm.
Proof. walking focus_leaf. Qed.

(** X23.  The focus after a blocked submission, in the enhanced
    variant: when validation ends with the verdict [false], the handler
    moves the focus to the first node of the form, in document order, that
    validation has left marked [is-invalid]; when no node of the form is so
    marked the focus stays where it was. *)
Theorem blocked_submission_focuses_first_invalid `{engine : RegExpEngine}
    (st : State) :
  is_Some (doc st !! "contactForm") → form_verdict st = Ok false →
  activeElement (Enhanced.step st Submit)
  = match first_invalid st with
    | Some f => Some f
    | None => activeElement st
    end.
Proof.
  intros [fm Hfm] Hv. unfold first_invalid.
  unfold Enhanced.step, Enhanced.handle, Enhanced.form_submit.
  erewrite bind_ok; [|by apply elements_enhanced_eq]. rewrite Hfm.
  rewrite prologue_eq.
  pose proof (validateForm_enhanced (entered st)) as Hr.
  pose proof (stable_validateForm_enhanced _ (ofc_stable st) (entered st)
                (ofc_entered st)) as Ho.
  pose proof (validateForm_keeps_focus (activeElement st) (entered st)
                eq_refl) as Ha.
  unfold mbind at 1, M_bind at 1.
  destruct (Enhanced.validateForm (entered st)) as [st2 r].
  cbn [fst snd] in *. rewrite form_verdict_entered, Hv in Hr. subst r.
  unfold Enhanced.submit_failure.
  erewrite bind_ok; [|apply announce_eq].
  set (st3 := match doc st2 !! "status-announcer" with
              | Some _ => _ | None => st2 end).
  assert (Hcl : ∀ k, classList (node st3 k) = classList (node st2 k)).
  { intros k. subst st3. destruct (doc st2 !! "status-announcer"); [|done].
    unfold node. simpl. rewrite lookup_alter.
    case_decide; [subst k|done]. by destruct (doc st2 !! _). }
  assert (Hn : formNodes st3 = formNodes st).
  { destruct Ho as (_ & _ & <- & _). subst st3.
    by destruct (doc st2 !! "status-announcer"). }
  assert (Ha3 : activeElement st3 = activeElement st).
  { rewrite <- Ha. subst st3. by destruct (doc st2 !! "status-announcer"). }
  erewrite bind_ok; [|reflexivity].
  rewrite Hn, (with_any_class_ext _ _ st2 st3 Hcl).
  destruct (head _) as [f|]; [|exact Ha3].
  apply focus_result.
Qed.

Lemma blocked_submission_focuses_first_invalid_witness :
  let st := sample_page (str "Ada") [] (str "ada@example") (str "Hello")
              (str "A message.") [] false 0 in
  is_Some (doc st !! "contactForm")
  ∧ form_verdict (engine := fragment_engine) st = Ok false
  ∧ first_invalid (engine := fragment_engine) st = Some "lastName"
  ∧ activeElement (Enhanced.step (engine := fragment_engine) st Submit)
    = Some "lastName".
Proof.
  intros st.
  assert (Hf : is_Some (doc st !! "contactForm")) by (by eexists).
  assert (Hv : form_verdict (engine := fragment_engine) st = Ok false)
    by (vm_compute; reflexivity).
  assert (Hi : first_invalid (engine := fragment_engine) st = Some "lastName")
    by (vm_compute; reflexivity).
  split; [exact Hf|]. split; [exact Hv|]. split; [exact Hi|].
  rewrite (blocked_submission_focuses_first_invalid
             (engine := fragment_engine) st Hf Hv).
  by rewrite Hi.
Defined.

Lemma clean_number_separator (a b : list N) (c : N) :
  cls_separator c = true →
  replace_class_all cls_separator (a ++ c :: b)
  = replace_class_all cls_separator (a ++ b).
Proof.
  intros Hc. unfold replace_class_all. rewrite !List.filter_app. simpl.
  by rewrite Hc.
Qed.

(** X24.  [validatePhoneNumber] does not see separators: a white-space
    character, a hyphen, a parenthesis or a dot, put anywhere into a number
    or taken out of it, changes neither the verdict nor whether the call
    throws.  In both variants. *)
Theorem phone_separators_are_ignored `{engine : RegExpEngine}
    (a b : list N) (c : N) (sel : option string) (st : State) :
  cls_separator c = true →
  Baseline.validatePhoneNumber (a ++ c :: b) sel st
  = Baseline.validatePhoneNumber (a ++ b) sel st
  ∧ Enhanced.validatePhoneNumber (a ++ c :: b) sel st
    = Enhanced.validatePhoneNumber (a ++ b) sel st.
Proof.
  intros Hc.
  unfold Baseline.validatePhoneNumber, Enhanced.validatePhoneNumber.
  by rewrite !(clean_number_separator a b c Hc).
Qed.

Lemma phone_separators_are_ignored_witness :
  let st := sample_page [] [] [] [] [] [] true 0 in
  cls_separator (ch "-") = true
  ∧ Baseline.validatePhoneNumber (engine := fragment_engine)
      (str "79123" ++ ch "-" :: str "4567") (Some "countryCode") st
    = Ok true
  ∧ Baseline.validatePhoneNumber (engine := fragment_engine)
      (str "79123" ++ ch "-" :: str "4567") (Some "countryCode") st
    = Baseline.validatePhoneNumber (engine := fragment_engine)
        (str "79123" ++ str "4567") (Some "countryCode") st.
Proof.
  intros st.
  assert (Hc : cls_separator (ch "-") = true) by reflexivity.
  split; [exact Hc|]. split; [vm_compute; reflexivity|].
  exact (proj1 (phone_separators_are_ignored (engine := fragment_engine)
                  (str "79123") (str "4567") (ch "-") (Some "countryCode")
                  st Hc)).
Defined.

Lemma timers_ok_announce message :
  preserves timers_ok (Enhanced.announceToScreenReader message).
Proof. walking timers_leaf. Qed.

Lemma announce_touches_announcer message st :
  let st' := fst (Enhanced.announceToScreenReader message st) in
  (∀ k, k ≠ "status-announcer" → doc st' !! k = doc st !! k)
  ∧ log st' = log st.
Proof.
  rewrite announce_eq. cbn [fst].
  destruct (doc st !! "status-announcer"); [|done].
  split; [|done]. intros k Hk. simpl. by rewrite lookup_alter_ne.
Qed.

Lemma observe_entry_result entry prev st :
  snd (observe_entry entry prev st)
  = Ok (if shows_section entry then default [] (target_id entry) else prev).
Proof.
  unfold observe_entry, shows_section.
  destruct (isIntersecting entry && _); [|reflexivity]. cbn [andb].
  destruct (truthy (target_id entry)); [|reflexivity]. cbn [andb].
  case_bool_decide as Hid; [by rewrite Hid|]. cbn [negb].
  destruct (target_heading entry).
  - erewrite bind_ok; [|apply announce_eq]. reflexivity.
  - reflexivity.
Qed.

Lemma observe_entry_frame entry prev st :
  let st' := fst (observe_entry entry prev st) in
  (∀ k, k ≠ "status-announcer" → doc st' !! k = doc st !! k)
  ∧ log st' = log st
  ∧ (timers_ok st → timers_ok st').
Proof.
  unfold observe_entry.
  destruct (isIntersecting entry && _); [|done].
  destruct (truthy (target_id entry) && _); [|done].
  destruct (target_heading entry) as [text|]; [|done].
  rewrite fst_bind_ret.
  destruct (announce_touches_announcer
              (str "Navigated to " ++ text ++ str " section") st) as [Hd Hl].
  split; [exact Hd|]. split; [exact Hl|]. apply timers_ok_announce.
Qed.

Lemma observe_entry_nothing_new entry prev st :
  nothing_new prev entry → observe_entry entry prev st = (st, Ok prev).
Proof.
  unfold nothing_new, observe_entry, shows_section.
  destruct (isIntersecting entry && _); [|done]. cbn [andb].
  intros [Hs | Hid].
  - by rewrite Hs.
  - rewrite Hid. cbn [default]. rewrite bool_decide_eq_true_2 by done.
    by rewrite andb_false_r.
Qed.

Lemma section_shown_cons entry entries prev :
  section_shown (entry :: entries) prev
  = section_shown entries
      (if shows_section entry then default [] (target_id entry) else prev).
Proof.
  unfold section_shown. simpl. destruct (shows_section entry); [|done].
  simpl. rewrite last_cons. by destruct (last _).
Qed.

(** X25.  The callback of the section observer (enhanced variant).  It
    never throws.  The section it records is that of the last entry of
    the batch that shows a section (an entry with more than half of the
    section in view and an id that is not empty), and the section recorded
    before when there is no such entry.  Of the document it writes at most
    the announcer's text; it leaves the log alone and keeps the timers in
    order.  A batch of entries that tell nothing new (each shows no
    section, or the section already recorded) changes nothing at all. *)
Theorem observer_records_the_section_shown (entries : list ObserverEntry)
    (lastSection : list N) (st : State) :
  let out := observer_callback entries lastSection st in
  snd out = Ok (section_shown entries lastSection)
  ∧ (∀ k, k ≠ "status-announcer" → doc (fst out) !! k = doc st !! k)
  ∧ log (fst out) = log st
  ∧ (timers_ok st → timers_ok (fst out))
  ∧ (Forall (nothing_new lastSection) entries →
     out = (st, Ok lastSection)).
Proof.
  revert lastSection st. unfold observer_callback.
  induction entries as [|entry entries IH]; intros prev st; cbv zeta.
  - done.
  - cbn [forEachAcc]. rewrite section_shown_cons.
    pose proof (observe_entry_result entry prev st) as Hr.
    pose proof (observe_entry_frame entry prev st) as (Hd & Hl & Ht).
    pose proof (observe_entry_nothing_new entry prev st) as Hn.
    unfold mbind, M_bind.
    destruct (observe_entry entry prev st) as [st1 r]. cbn [fst snd] in *.
    subst r.
    destruct (IH (if shows_section entry
                  then default [] (target_id entry) else prev) st1)
      as (IHr & IHd & IHl & IHt & IHn).
    split_and!.
    + exact IHr.
    + intros k Hk. by rewrite IHd, Hd.
    + by rewrite IHl.
    + auto.
    + intros [H1 Hrest]%Forall_cons. specialize (Hn H1).
      injection Hn as -> Hlast. rewrite Hlast in *. by apply IHn.
Qed.

Lemma observer_records_the_section_shown_witness :
  let st := sample_page [] [] [] [] [] [] false 0 in
  let about := mkEntry true (3 # 4) (Some (str "about")) (Some (str "About")) in
  let gone := mkEntry false 0 (Some (str "home")) (Some (str "Home")) in
  timers_ok st
  ∧ Forall (nothing_new (str "about")) [gone; about]
  ∧ observer_callback [gone; about] (str "about") st = (st, Ok (str "about"))
  ∧ timers_ok (fst (observer_callback [gone; about] (str "home") st))
  ∧ textContent
      (node (fst (observer_callback [gone; about] (str "home") st))
         "status-announcer")
    = str "Navigated to About section".
Proof.
  intros st about gone.
  assert (Hok : timers_ok st) by apply sample_page_timers_ok.
  assert (Hn : Forall (nothing_new (str "about")) [gone; about]).
  { apply Forall_cons_2; [by left|].
    apply Forall_cons_2; [by right|]. apply Forall_nil_2. }
  split; [exact Hok|]. split; [exact Hn|].
  destruct (observer_records_the_section_shown [gone; about] (str "about") st)
    as (_ & _ & _ & _ & H).
  split; [exact (H Hn)|].
  destruct (observer_records_the_section_shown [gone; about] (str "home") st)
    as (_ & _ & _ & Ht & _).
  split; [exact (Ht Hok)|]. vm_compute. reflexivity.
Defined.

Section PagePreserves.
Context (P : Page → Prop).

Lemma page_preserves_ret {A : Type} (a : A) : page_preserves P (mret a).
Proof. intros pg HP. exact HP. Qed.

Lemma page_preserves_reading {A : Type} (f : Page → A) :
  page_preserves P (page_reading f).
Proof. intros pg HP. exact HP. Qed.

Lemma page_preserves_bind {A B : Type} (m : PM A) (k : A → PM B) :
  page_preserves P m → (∀ a, page_preserves P (k a)) →
  page_preserves P (m ≫= k).
Proof.
  intros Hm Hk pg HP. specialize (Hm pg HP).
  unfold mbind, PM_bind. destruct (m pg) as [pg' [a|e]]; simpl in *.
  - by apply Hk.
  - exact Hm.
Qed.

Lemma page_preserves_lift {A : Type} (m : M A) :
  (∀ pg, preserves (λ st, P (set_page_state st pg)) m) →
  page_preserves P (lift m).
Proof.
  intros Hm pg HP. unfold lift. cbn [fst]. apply (Hm pg (page_state pg)).
  by destruct pg.
Qed.
End PagePreserves.

Ltac page_preserving_step :=
  match goal with
  | |- page_preserves _ (mret _) => apply page_preserves_ret
  | |- page_preserves _ (page_reading _) => apply page_preserves_reading
  | |- page_preserves _ (if ?x then _ else _) => destruct x
  | |- page_preserves _ (match ?x with _ => _ end) => destruct x
  | |- page_preserves _ (_ ≫= _) => apply page_preserves_bind; [|intros ?]
  end.

Lemma preserves_and {A : Type} (R1 R2 : State → Prop) (m : M A) :
  preserves R1 m → preserves R2 m → preserves (λ st, R1 st ∧ R2 st) m.
Proof. intros H1 H2 st [? ?]. split; [by apply H1 | by apply H2]. Qed.

Lemma preserves_const {A : Type} (Q : Prop) (m : M A) : preserves (λ _, Q) m.
Proof. intros st HQ. exact HQ. Qed.

Lemma preserves_query `{selectors : SelectorEngine} (R : State → Prop)
    (selector : list N) :
  preserves R (query selector).
Proof. intros st HR. unfold query. by destruct (querySelector _ _). Qed.

(** *** Timer ids *)

Lemma ids_apart_same F (st st' : State) :
  timers st' = timers st → nextTimer st' = nextTimer st →
  ids_apart F st → ids_apart F st'.
Proof. unfold ids_apart. by intros -> ->. Qed.

Lemma ids_apart_setTimeout F cb d : preserves (ids_apart F) (setTimeout cb d).
Proof.
  intros st [Hf Ht]. unfold ids_apart. simpl. split.
  - eapply Forall_impl; [exact Hf|]. simpl. intros i Hi. lia.
  - rewrite Forall_app. split; [exact Ht|]. constructor; [|constructor].
    simpl. intros Hin. rewrite Forall_forall in Hf. apply Hf in Hin. lia.
Qed.

Lemma ids_apart_drop_timer F i st :
  ids_apart F st → ids_apart F (drop_timer i st).
Proof.
  intros [Hf Ht]. split; [exact Hf|]. unfold drop_timer. simpl.
  rewrite Forall_forall in *. intros t Hin. apply Ht.
  apply list_elem_of_In. apply list_elem_of_In, filter_In in Hin. tauto.
Qed.

Lemma ids_apart_clearTimeout F id : preserves (ids_apart F) (clearTimeout id).
Proof.
  intros st H. destruct id as [i|]; [|exact H].
  by apply (ids_apart_drop_timer F i).
Qed.

Ltac ids_leaf :=
  idtac;
  match goal with
  | |- preserves _ (update _ _) => intros ?; by apply ids_apart_same
  | |- preserves _ (emit _) => intros ?; by apply ids_apart_same
  | |- preserves _ (set_focus _) => intros ?; by apply ids_apart_same
  | |- preserves _ (scroll_to _) => intros ?; by apply ids_apart_same
  | |- preserves _ (clearTimeout _) => apply ids_apart_clearTimeout
  | |- preserves _ (setTimeout _ _) => apply ids_apart_setTimeout
  end.

Lemma ids_apart_window_scroll F : preserves (ids_apart F) Enhanced.window_scroll.
Proof.
  intros st H. rewrite window_scroll_eq. cbn [fst].
  pose proof (ids_apart_clearTimeout F (scrollTimeout st) st H) as Hc.
  rewrite clearTimeout_eq in Hc. cbn [fst] in Hc.
  assert (Hn : nextTimer (cleared (scrollTimeout st) st) = nextTimer st)
    by by destruct (scrollTimeout st).
  pose proof (ids_apart_setTimeout F CbNavUpdate 100 _ Hc) as Hs.
  unfold setTimeout in Hs. cbn [fst] in Hs. rewrite Hn in Hs.
  exact Hs.
Qed.

Lemma ids_apart_run_callback `{engine : RegExpEngine} F cb :
  preserves (ids_apart F) (Enhanced.run_callback cb).
Proof. destruct cb; walking ids_leaf. Qed.

Lemma ids_apart_timer_fire `{engine : RegExpEngine} F id :
  preserves (ids_apart F) (Enhanced.timer_fire id).
Proof.
  intros st H. rewrite timer_fire_eq.
  destruct (find _ (timers st)) as [t|]; [|exact H].
  apply ids_apart_run_callback. by apply ids_apart_drop_timer.
Qed.

Lemma ids_apart_handle `{engine : RegExpEngine} F ev :
  preserves (ids_apart F) (Enhanced.handle ev).
Proof.
  destruct ev; unfold Enhanced.handle; try solve [walking ids_leaf].
  - apply preserves_bind; [intros ?; by apply ids_apart_same|].
    intros _. apply ids_apart_window_scroll.
  - apply ids_apart_timer_fire.
Qed.

Lemma ids_apart_subset F F' st :
  (∀ i, i ∈ F' → i ∈ F) → ids_apart F st → ids_apart F' st.
Proof.
  intros Hsub [Hf Ht]. unfold ids_apart. rewrite !Forall_forall in *. split.
  - intros i Hi. by apply Hf, Hsub.
  - intros t Hin Hi. apply (Ht t Hin). by apply Hsub.
Qed.

(** *** The timers of the whole page stay in order *)

Lemma page_timers_ok_lift {A : Type} (m : M A) :
  preserves timers_ok m → (∀ F, preserves (ids_apart F) m) →
  page_preserves page_timers_ok (lift m).
Proof.
  intros H1 H2. apply page_preserves_lift. intros pg st (Hok & Hnd & Hids).
  unfold page_timers_ok in *. cbn [page_state focusTimers set_page_state] in *.
  split; [by apply H1|]. split; [exact Hnd | by apply H2].
Qed.

Lemma page_timers_ok_setFocusTimeout target delay :
  page_preserves page_timers_ok (setFocusTimeout target delay).
Proof.
  intros pg (Hok & Hnd & Hf & Ht). unfold page_timers_ok, setFocusTimeout.
  cbn [fst page_state focusTimers set_page_state set_focusTimers].
  rewrite map_app. cbn [map fst]. split_and!.
  - destruct Hok as (Hfresh & Hnd' & Hst & Hnav). unfold timers_ok. simpl.
    split_and!; try done.
    + eapply Forall_impl; [exact Hfresh|]. simpl. intros t Hlt. lia.
    + intros i Hi. apply Hst in Hi. lia.
  - apply NoDup_app. split; [exact Hnd|]. split; [|apply NoDup_singleton].
    intros i Hi [<-|[]]%list_elem_of_In.
    rewrite Forall_forall in Hf. apply Hf in Hi. lia.
  - unfold ids_apart. simpl. split.
    + rewrite Forall_app. split.
      * eapply Forall_impl; [exact Hf|]. simpl. intros i Hi. lia.
      * constructor; [lia | constructor].
    + destruct Hok as (Hfresh & _). rewrite Forall_forall in *.
      intros t Hin [Hi | Hi]%elem_of_app.
      * by apply (Ht t Hin).
      * apply list_elem_of_In in Hi as [E|[]]. apply Hfresh in Hin. lia.
Qed.

Lemma page_timers_ok_blur_once k : page_preserves page_timers_ok (blur_once k).
Proof.
  intros pg H. unfold blur_once. destruct (decide _); exact H.
Qed.

Lemma page_timers_ok_add_blur_once k :
  page_preserves page_timers_ok (add_blur_once k).
Proof. intros pg H. exact H. Qed.

Lemma timers_ok_blur_listeners `{engine : RegExpEngine} c :
  preserves timers_ok (Enhanced.blur_listeners c).
Proof. walking timers_leaf. Qed.

Lemma ids_apart_blur_listeners `{engine : RegExpEngine} F c :
  preserves (ids_apart F) (Enhanced.blur_listeners c).
Proof. walking ids_leaf. Qed.

Lemma page_timers_ok_focus `{engine : RegExpEngine} r :
  page_preserves page_timers_ok (page_focus r).
Proof.
  unfold page_focus. repeat page_preserving_step.
  - apply page_timers_ok_lift.
    + apply preserves_dispatch, timers_ok_blur_listeners.
    + intros F. apply preserves_dispatch, ids_apart_blur_listeners.
  - apply page_timers_ok_blur_once.
  - apply page_timers_ok_lift; [apply timers_ok_set_focus|].
    intros F st. by apply ids_apart_same.
Qed.

Lemma page_timers_ok_focus_target `{engine : RegExpEngine} target :
  page_preserves page_timers_ok (focus_target target).
Proof.
  unfold focus_target. repeat page_preserving_step;
    try apply page_timers_ok_focus; try apply page_timers_ok_add_blur_once.
  - apply page_timers_ok_lift; [apply preserves_getProp|].
    intros F. apply preserves_getProp.
  - apply page_timers_ok_lift; [apply timers_ok_update|].
    intros F st. by apply ids_apart_same.
Qed.

Lemma page_timers_ok_anchor_click `{selectors : SelectorEngine} anchor offcanvas :
  page_preserves page_timers_ok (enhanced_anchor_click anchor offcanvas).
Proof.
  unfold enhanced_anchor_click. repeat page_preserving_step;
    try apply page_timers_ok_setFocusTimeout;
    (apply page_timers_ok_lift; [|intros F]);
    unfold offcanvas_hide;
    repeat first [ apply preserves_query | timers_leaf | ids_leaf
                 | preserving_step ].
Qed.

Lemma timers_ok_observer_callback entries section :
  preserves timers_ok (observer_callback entries section).
Proof.
  unfold observer_callback. apply preserves_forEachAcc. intros entry s.
  unfold observe_entry. walking timers_leaf.
Qed.

Lemma ids_apart_observer_callback F entries section :
  preserves (ids_apart F) (observer_callback entries section).
Proof.
  unfold observer_callback. apply preserves_forEachAcc. intros entry s.
  unfold observe_entry. walking ids_leaf.
Qed.

Lemma page_timers_ok_intersection entries :
  page_preserves page_timers_ok (page_intersection entries).
Proof.
  intros pg (Hok & Hnd & Hids). unfold page_intersection.
  pose proof (timers_ok_observer_callback entries (lastSection pg) _ Hok) as H1.
  pose proof (ids_apart_observer_callback _ entries (lastSection pg) _ Hids)
    as H2.
  destruct (observer_callback _ _ _) as [st [section|e]]; by split_and!.
Qed.

Lemma page_timers_ok_listened `{engine : RegExpEngine} ev :
  page_preserves page_timers_ok (page_listened ev).
Proof.
  unfold page_listened. repeat page_preserving_step;
    try apply page_timers_ok_blur_once.
  apply page_timers_ok_lift.
  - apply preserves_dispatch, timers_ok_handle.
  - intros F. apply preserves_dispatch, ids_apart_handle.
Qed.

Lemma page_timers_ok_timer_fire `{engine : RegExpEngine} id :
  page_preserves page_timers_ok (page_timer_fire id).
Proof.
  intros pg H. unfold page_timer_fire.
  destruct (find _ (focusTimers pg)) as [[i [d target]]|];
    [|by apply page_timers_ok_listened].
  apply page_timers_ok_focus_target.
  destruct H as (Hok & Hnd & Hids). unfold page_timers_ok.
  cbn [page_state focusTimers set_focusTimers]. split_and!.
  - exact Hok.
  - by apply NoDup_map_filter.
  - eapply ids_apart_subset; [|exact Hids].
    intros j Hj. apply list_elem_of_In, in_map_iff in Hj as (t & <- & Hin).
    apply filter_In in Hin as [Hin _]. apply list_elem_of_In, in_map_iff.
    by exists t.
Qed.

Lemma page_timers_ok_handle `{engine : RegExpEngine}
    `{selectors : SelectorEngine} ev :
  page_preserves page_timers_ok (page_handle ev).
Proof.
  destruct ev as [ev|anchor offcanvas|entries].
  - destruct ev; first [ apply page_timers_ok_timer_fire
                       | apply page_timers_ok_listened ].
  - apply page_timers_ok_anchor_click.
  - apply page_timers_ok_intersection.
Qed.

Lemma page_timers_ok_run `{engine : RegExpEngine}
    `{selectors : SelectorEngine} evs pg :
  page_timers_ok pg → page_timers_ok (page_run evs pg).
Proof.
  revert pg. induction evs as [|ev evs IH]; intros pg Hok; [exact Hok|].
  simpl. apply IH. by apply page_timers_ok_handle.
Qed.

Lemma page_loaded_timers_ok st tree :
  timers_ok st → page_timers_ok (page_loaded st tree).
Proof.
  intros Hok. split; [exact Hok|]. split; [constructor|].
  split; [constructor|]. rewrite Forall_forall. intros t _ Hin.
  by apply elem_of_nil in Hin.
Qed.

Lemma page_listened_eq `{engine : RegExpEngine} ev pg :
  page_listened ev pg
  = (cleaned_up
       (blurred ev (activeElement (page_state pg))
          (activeElement (Enhanced.step (page_state pg) ev)))
       (set_page_state (Enhanced.step (page_state pg) ev) pg),
     Ok tt).
Proof.
  unfold page_listened, mbind, PM_bind, page_reading, lift, dispatch.
  cbn [fst snd page_state set_page_state]. unfold Enhanced.step.
  destruct (blurred _ _ _) as [c|]; [|reflexivity].
  unfold cleaned_up, blur_once. by destruct (decide _).
Qed.

Lemma cleaned_up_focusTimers c pg :
  focusTimers (cleaned_up c pg) = focusTimers pg.
Proof.
  destruct c as [k|]; [|reflexivity]. unfold cleaned_up, blur_once.
  by destruct (decide _).
Qed.

Section StateOnPage.
Context `{engine : RegExpEngine} (R : State → Prop).
Hypothesis R_bump :
  ∀ st, R st → R (set_timers (timers st) (N.succ (nextTimer st)) st).
Hypothesis R_attrs :
  ∀ k (g : gmap string (list N) → gmap string (list N)),
    preserves R (update k (λ e, with_attrs (g (attrs e)) e)).
Hypothesis R_focus : ∀ r, preserves R (set_focus r).
Hypothesis R_blur : ∀ c, preserves R (Enhanced.blur_listeners c).
Hypothesis R_emit : ∀ e, navigation_call e = true → preserves R (emit e).
Hypothesis R_announce :
  ∀ message, preserves R (Enhanced.announceToScreenReader message).

Let P : Page → Prop := λ pg, R (page_state pg).

Lemma on_page_lift {A : Type} (m : M A) :
  preserves R m → page_preserves P (lift m).
Proof. intros Hm. apply page_preserves_lift. intros pg. exact Hm. Qed.

Lemma on_page_blur_once k : page_preserves P (blur_once k).
Proof.
  intros pg H. unfold blur_once. destruct (decide _); [|exact H].
  apply (R_attrs k (delete "tabindex")). exact H.
Qed.

Lemma on_page_cleaned_up c pg : P pg → P (cleaned_up c pg).
Proof.
  intros H. destruct c as [k|]; [|exact H]. by apply on_page_blur_once.
Qed.

Lemma on_page_add_blur_once k : page_preserves P (add_blur_once k).
Proof. intros pg H. exact H. Qed.

Lemma on_page_setFocusTimeout target delay :
  page_preserves P (setFocusTimeout target delay).
Proof. intros pg H. by apply R_bump. Qed.

Lemma on_page_focus r : page_preserves P (page_focus r).
Proof.
  unfold page_focus. repeat page_preserving_step.
  - apply on_page_lift, preserves_dispatch, R_blur.
  - apply on_page_blur_once.
  - apply on_page_lift, R_focus.
Qed.

Lemma on_page_focus_target target : page_preserves P (focus_target target).
Proof.
  unfold focus_target. repeat page_preserving_step;
    try apply on_page_focus; try apply on_page_add_blur_once.
  - apply on_page_lift, preserves_getProp.
  - apply on_page_lift. apply (R_attrs _ (insert "tabindex" (str "-1"))).
Qed.

Lemma on_page_anchor_click `{selectors : SelectorEngine} anchor offcanvas :
  page_preserves P (enhanced_anchor_click anchor offcanvas).
Proof.
  unfold enhanced_anchor_click. repeat page_preserving_step;
    try apply on_page_setFocusTimeout; apply on_page_lift;
    unfold offcanvas_hide;
    repeat first [ apply preserves_query | by apply R_emit
                 | preserving_step ].
Qed.

Lemma on_page_observer_callback entries section :
  preserves R (observer_callback entries section).
Proof.
  unfold observer_callback. apply preserves_forEachAcc. intros entry s.
  unfold observe_entry.
  repeat first [ apply R_announce | preserving_step ].
Qed.

Lemma on_page_intersection entries :
  page_preserves P (page_intersection entries).
Proof.
  intros pg H. unfold page_intersection.
  pose proof (on_page_observer_callback entries (lastSection pg) _ H) as H1.
  by destruct (observer_callback _ _ _) as [st [section|e]].
Qed.

End StateOnPage.

(** *** Pending timers on the whole page *)

Lemma pending_bump t st :
  pending t st → pending t (set_timers (timers st) (N.succ (nextTimer st)) st).
Proof. intros H. exact H. Qed.

Lemma pending_blur_listeners `{engine : RegExpEngine} t c :
  preserves (pending t) (Enhanced.blur_listeners c).
Proof. walking pending_leaf. Qed.

Lemma pending_announce t message :
  preserves (pending t) (Enhanced.announceToScreenReader message).
Proof. walking pending_leaf. Qed.

Lemma page_keeps_pending `{engine : RegExpEngine} `{selectors : SelectorEngine}
    (pg : Page) (ev : PageEvent) (t : N * (nat * Callback)) :
  In t (timers (page_state pg)) →
  In t (timers (page_state (page_step pg ev)))
  ∨ ev = Listened (TimerFire (fst t))
  ∨ (∃ y, ev = Listened (Scroll y))
    ∧ scrollTimeout (page_state pg) = Some (fst t).
Proof.
  intros Ht. change (pending t (page_state pg)) in Ht.
  assert (Hl : ∀ ev0,
    let pg' := fst (page_listened ev0 pg) in
    In t (timers (page_state pg'))
    ∨ Listened ev0 = Listened (TimerFire (fst t))
    ∨ (∃ y, Listened ev0 = Listened (Scroll y))
      ∧ scrollTimeout (page_state pg) = Some (fst t)).
  { intros ev0 pg'. subst pg'. rewrite page_listened_eq. cbn [fst].
    destruct (listener_keeps_pending (page_state pg) ev0 t Ht)
      as [H | [-> | [[y ->] H]]].
    - left. apply (on_page_cleaned_up (pending t)); [|exact H].
      intros k g st. by apply pending_same.
    - right. by left.
    - right. right. split; [by exists y | exact H]. }
  unfold page_step. destruct ev as [ev|anchor offcanvas|entries].
  - destruct ev; try apply Hl. unfold page_handle, page_timer_fire.
    destruct (find _ (focusTimers pg)) as [[i [d target]]|]; [|apply Hl].
    left. apply (on_page_focus_target (pending t)); try exact Ht.
    + intros k g st. by apply pending_same.
    + intros r st. by apply pending_same.
    + apply pending_blur_listeners.
  - left. apply (on_page_anchor_click (pending t)); try exact Ht.
    + apply pending_bump.
    + intros e _ st. by apply pending_same.
  - left. apply (on_page_intersection (pending t)); try exact Ht.
    apply pending_announce.
Qed.

Section FocusTimers.
Context `{engine : RegExpEngine} (t : N * (nat * string)).

Let P : Page → Prop := λ pg, In t (focusTimers pg).

Lemma focus_timer_lift {A : Type} (m : M A) : page_preserves P (lift m).
Proof. intros pg H. exact H. Qed.

Lemma focus_timer_blur_once k : page_preserves P (blur_once k).
Proof. intros pg H. unfold blur_once. by destruct (decide _). Qed.

Lemma focus_timer_focus_target target : page_preserves P (focus_target target).
Proof.
  unfold focus_target, page_focus.
  repeat first [ apply focus_timer_lift | apply focus_timer_blur_once
               | page_preserving_step ]; by intros pg H.
Qed.

Lemma focus_timer_anchor_click `{selectors : SelectorEngine} anchor offcanvas :
  page_preserves P (enhanced_anchor_click anchor offcanvas).
Proof.
  unfold enhanced_anchor_click.
  repeat first [ apply focus_timer_lift | page_preserving_step ].
  intros pg H. unfold P, setFocusTimeout. simpl. apply in_or_app. by left.
Qed.
End FocusTimers.

Lemma page_keeps_focus_timer `{engine : RegExpEngine}
    `{selectors : SelectorEngine}
    (pg : Page) (ev : PageEvent) (t : N * (nat * string)) :
  In t (focusTimers pg) →
  In t (focusTimers (page_step pg ev)) ∨ ev = Listened (TimerFire (fst t)).
Proof.
  intros Ht.
  assert (Hl : ∀ ev0, In t (focusTimers (fst (page_listened ev0 pg)))).
  { intros ev0. rewrite page_listened_eq. cbn [fst].
    by rewrite cleaned_up_focusTimers. }
  unfold page_step. destruct ev as [ev|anchor offcanvas|entries].
  - destruct ev; try (left; apply Hl). unfold page_handle, page_timer_fire.
    destruct (decide (fst t = id)) as [<-|Hne]; [by right|]. left.
    destruct (find _ (focusTimers pg)) as [[i [d target]]|]; [|apply Hl].
    apply (focus_timer_focus_target t).
    cbn [focusTimers set_focusTimers]. apply filter_In.
    split; [exact Ht|]. by apply negb_true_iff, N.eqb_neq.
  - left. by apply (focus_timer_anchor_click t).
  - left. unfold page_handle, page_intersection.
    by destruct (observer_callback _ _ _) as [st [section|e]].
Qed.

(** *** Values and the log on the whole page *)

Lemma values_of_refl st : values_of st st.
Proof. split; [done|]. exists []. by rewrite app_nil_r. Qed.

Lemma values_of_from {A : Type} st0 (m : M A) :
  (∀ st1, preserves (values_and_log_of st1) m) → preserves (values_of st0) m.
Proof.
  intros Hm st [Hv (rest & Hl & Hn)].
  destruct (Hm (set_log (log st0 ++ rest) st0) st) as [Hv' Hl'].
  { split; [exact Hv | exact Hl]. }
  split; [exact Hv'|]. exists rest. split; [exact Hl' | exact Hn].
Qed.

Lemma values_of_emit st0 e :
  navigation_call e = true → preserves (values_of st0) (emit e).
Proof.
  intros He st [Hv (rest & Hl & Hn)]. split; [exact Hv|].
  exists (rest ++ [e]). simpl. rewrite Hl, app_assoc. split; [done|].
  rewrite forallb_app, Hn. simpl. by rewrite He.
Qed.

Lemma values_attrs st0 k (g : gmap string (list N) → gmap string (list N)) :
  preserves (values_and_log_of st0)
    (update k (λ e, with_attrs (g (attrs e)) e)).
Proof. apply values_update. intros e. by split_and!. Qed.

Lemma values_blur_listeners `{engine : RegExpEngine} st0 c :
  preserves (values_and_log_of st0) (Enhanced.blur_listeners c).
Proof. walking values_leaf. Qed.

Lemma values_announce st0 message :
  preserves (values_and_log_of st0) (Enhanced.announceToScreenReader message).
Proof. walking values_leaf. Qed.

Ltac values_of_leaf :=
  idtac;
  match goal with
  | |- preserves _ (emit _) => by apply values_of_emit
  | |- preserves _ (query _) => apply preserves_query
  | |- preserves _ (offcanvas_hide _) => unfold offcanvas_hide
  end.

Lemma values_of_baseline_anchor_click `{selectors : SelectorEngine}
    st0 anchor offcanvas :
  preserves (values_of st0) (baseline_anchor_click anchor offcanvas).
Proof. unfold baseline_anchor_click. walking values_of_leaf. Qed.

Lemma values_of_enhanced_anchor_click `{selectors : SelectorEngine}
    st0 anchor offcanvas :
  page_preserves (λ pg, values_of st0 (page_state pg))
    (enhanced_anchor_click anchor offcanvas).
Proof.
  apply (on_page_anchor_click (values_of st0)).
  - intros st H. exact H.
  - intros e He. by apply values_of_emit.
Qed.

(** What an event of the whole page that is no click on a link and writes
    no value leaves as it was, in the enhanced variant. *)
Lemma page_keeps_the_values `{engine : RegExpEngine}
    `{selectors : SelectorEngine} (pg : Page) (ev : PageEvent) :
  page_writes_values ev = false → is_anchor_click ev = false →
  values_and_log_of (page_state pg) (page_state (page_step pg ev)).
Proof.
  intros Hw Hc.
  assert (H0 : values_and_log_of (page_state pg) (page_state pg))
    by (by split).
  assert (Hl : ∀ ev0, writes_values ev0 = false →
            values_and_log_of (page_state pg)
              (page_state (fst (page_listened ev0 pg)))).
  { intros ev0 H. rewrite page_listened_eq. cbn [fst].
    apply (on_page_cleaned_up (values_and_log_of (page_state pg))).
    - apply values_attrs.
    - by apply (proj2 (listeners_keep_the_values (page_state pg) ev0 H)). }
  unfold page_step. destruct ev as [ev|anchor offcanvas|entries];
    [|discriminate|].
  - destruct ev; try discriminate; try (by apply Hl).
    unfold page_handle, page_timer_fire.
    destruct (find _ (focusTimers pg)) as [[i [d target]]|]; [|by apply Hl].
    apply (on_page_focus_target (values_and_log_of (page_state pg)));
      try exact H0.
    + apply values_attrs.
    + by intros r st.
    + apply values_blur_listeners.
  - apply (on_page_intersection (values_and_log_of (page_state pg)));
      try exact H0.
    apply values_announce.
Qed.

Lemma values_and_log_values_of st0 st :
  values_and_log_of st0 st → values_of st0 st.
Proof.
  intros [Hv Hl]. split; [exact Hv|]. exists []. by rewrite app_nil_r.
Qed.

(** X18.  Only typing, pasting and submitting write the fields, on the
    whole page and in both variants.  Any other event (a change of the
    contact method or of the country, a blur, a click on the overlay or on
    a link into the page, a key, a scroll, the expiry of a timer, a batch
    of observer entries) leaves every value, every checked state and every
    selection as it was, and resets nothing.  Only a click on a link adds
    to the log: its own [preventDefault], [scrollIntoView] and [hide]
    calls. *)
Theorem other_events_keep_the_values `{engine : RegExpEngine}
    `{selectors : SelectorEngine} (st : State) (pg : Page) (ev : PageEvent) :
  page_writes_values ev = false →
  (values_of st (baseline_page_step st ev)
   ∧ values_of (page_state pg) (page_state (page_step pg ev)))
  ∧ (is_anchor_click ev = false →
     log (baseline_page_step st ev) = log st
     ∧ log (page_state (page_step pg ev)) = log (page_state pg)).
Proof.
  intros Hw.
  assert (Hb : is_anchor_click ev = false →
               values_and_log_of st (baseline_page_step st ev)).
  { intros Hc. unfold baseline_page_step.
    destruct ev as [ev|anchor offcanvas|entries]; [|discriminate|by split].
    by apply (proj1 (listeners_keep_the_values st ev Hw)). }
  split.
  - destruct (is_anchor_click ev) eqn:Hc.
    + destruct ev as [ev|anchor offcanvas|entries]; try discriminate.
      split.
      * by apply values_of_baseline_anchor_click, values_of_refl.
      * by apply (values_of_enhanced_anchor_click (page_state pg)),
          values_of_refl.
    + split; apply values_and_log_values_of; [by apply Hb|].
      by apply page_keeps_the_values.
  - intros Hc. split; [by apply Hb|]. by apply page_keeps_the_values.
Qed.

Lemma other_events_keep_the_values_witness :
  let st := page_state sample_site in
  let click := AnchorClick "navContact" Instance in
  let pg := page_step (engine := fragment_engine) (selectors := id_selectors)
              sample_site click in
  page_writes_values click = false
  ∧ log (page_state pg)
    = [PreventDefault; ScrollIntoView "contact"; OffcanvasHide]
  ∧ focusTimers pg = [(1%N, (500%nat, "contact"))]
  ∧ values_of st (page_state pg)
  ∧ values_of st
      (baseline_page_step (engine := fragment_engine)
         (selectors := id_selectors) st click).
Proof.
  intros st click pg.
  split; [reflexivity|]. split; [vm_compute; reflexivity|].
  split; [vm_compute; reflexivity|].
  destruct (other_events_keep_the_values (engine := fragment_engine)
              (selectors := id_selectors) st sample_site click eq_refl)
    as [[Hb He] _].
  split; [exact He | exact Hb].
Defined.

(** *** The timers of the whole page *)

(** X1.  The timers of the whole page in the enhanced variant: on a page
    whose timers are in order (none is pending when the script starts),
    whatever events follow, in whatever order (events of the form, of the
    modal and of the window, clicks on links into the page, observer
    entries, timers expiring), the timers stay in order: no id is handed
    out twice, the timers of the click listener included, and at most one
    nav-link update is pending at any time. *)
Theorem scroll_updates_never_pile_up `{engine : RegExpEngine}
    `{selectors : SelectorEngine} (pg : Page) (evs : list PageEvent) :
  page_timers_ok pg →
  page_timers_ok (page_run evs pg)
  ∧ (length (pending_nav_updates (page_state (page_run evs pg))) ≤ 1)%nat.
Proof.
  intros Hok. apply (page_timers_ok_run evs) in Hok.
  split; [exact Hok|]. apply timers_ok_one_pending. by destruct Hok.
Qed.

Lemma sample_site_timers_ok : page_timers_ok sample_site.
Proof.
  apply page_loaded_timers_ok. unfold timers_ok. simpl.
  repeat split; try constructor; discriminate.
Qed.

Lemma scroll_updates_never_pile_up_witness :
  let about := mkEntry true (3 # 4) (Some (str "about")) (Some (str "About")) in
  let evs := [Listened (Scroll 10); AnchorClick "navContact" NoInstance;
              Intersection [about]; Listened (Scroll 950);
              Listened (TimerFire 2); Listened (TimerFire 1);
              Listened (Scroll 30)] in
  let pg := page_run (engine := fragment_engine) (selectors := id_selectors)
              evs sample_site in
  page_timers_ok sample_site
  ∧ pending_nav_updates (page_state pg) = [(5%N, (100%nat, CbNavUpdate))]
  ∧ map fst (timers (page_state pg)) = [3%N; 5%N]
  ∧ focusTimers pg = []
  ∧ activeElement (page_state pg) = Some "contactHeading"
  ∧ (length (pending_nav_updates (page_state pg)) ≤ 1)%nat.
Proof.
  intros about evs pg.
  pose proof sample_site_timers_ok as Hok.
  split; [exact Hok|]. split; [vm_compute; reflexivity|].
  split; [vm_compute; reflexivity|]. split; [vm_compute; reflexivity|].
  split; [vm_compute; reflexivity|].
  exact (proj2 (scroll_updates_never_pile_up (engine := fragment_engine)
                  (selectors := id_selectors) sample_site evs Hok)).
Defined.

(** X3.  Cancellation on the whole page, in the enhanced variant: a
    pending timer is still pending after an event, unless the event is the
    expiry of that very timer, or a scroll while [scrollTimeout] names it.
    No other handler clears a timer, and none ever clears a timer of the
    click listener. *)
Theorem only_scroll_cancels_a_timer `{engine : RegExpEngine}
    `{selectors : SelectorEngine} (pg : Page) (ev : PageEvent) :
  (∀ t, In t (timers (page_state pg)) →
        In t (timers (page_state (page_step pg ev)))
        ∨ ev = Listened (TimerFire (fst t))
        ∨ (∃ y, ev = Listened (Scroll y))
          ∧ scrollTimeout (page_state pg) = Some (fst t))
  ∧ (∀ t, In t (focusTimers pg) →
          In t (focusTimers (page_step pg ev))
          ∨ ev = Listened (TimerFire (fst t))).
Proof.
  split; intros t Ht.
  - by apply page_keeps_pending.
  - by apply page_keeps_focus_timer.
Qed.

Lemma only_scroll_cancels_a_timer_witness :
  let about := mkEntry true (3 # 4) (Some (str "about")) (Some (str "About")) in
  let pg := page_run (engine := fragment_engine) (selectors := id_selectors)
              [Intersection [about];
               AnchorClick "navContact" NoInstance; Listened (Scroll 10)]
              sample_site in
  let t := (1%N, (1000%nat, CbClearAnnouncer "status-announcer")) in
  let u := (2%N, (500%nat, "contact")) in
  In t (timers (page_state pg)) ∧ In u (focusTimers pg)
  ∧ In t (timers (page_state
                    (page_step (engine := fragment_engine)
                       (selectors := id_selectors) pg (Listened Submit))))
  ∧ In u (focusTimers
            (page_step (engine := fragment_engine)
               (selectors := id_selectors) pg (Listened (Scroll 20)))).
Proof.
  intros about pg t u.
  assert (Ht : In t (timers (page_state pg))) by (vm_compute; by left).
  assert (Hu : In u (focusTimers pg)) by (vm_compute; by left).
  split; [exact Ht|]. split; [exact Hu|]. split.
  - destruct (proj1 (only_scroll_cancels_a_timer (engine := fragment_engine)
                       (selectors := id_selectors) pg (Listened Submit))
                t Ht) as [H | [H | [[y H] _]]];
      [exact H | discriminate H | discriminate H].
  - destruct (proj2 (only_scroll_cancels_a_timer (engine := fragment_engine)
                       (selectors := id_selectors) pg (Listened (Scroll 20)))
                u Hu) as [H | H]; [exact H | discriminate H].
Defined.

(** *** The baseline variant has no timers *)

Ltac untimed_nav_leaf :=
  idtac;
  match goal with
  | |- preserves _ (update _ _) => intros ? ?; assumption
  | |- preserves _ (emit _) => intros ? ?; assumption
  | |- preserves _ (scroll_to _) => intros ? ?; assumption
  | |- preserves _ (query _) => apply preserves_query
  | |- preserves _ (offcanvas_hide _) => unfold offcanvas_hide
  end.

Lemma baseline_page_untimed `{engine : RegExpEngine}
    `{selectors : SelectorEngine} (st : State) (ev : PageEvent) :
  same_timers_and_focus st (baseline_page_step st ev).
Proof.
  destruct ev as [ev|anchor offcanvas|entries].
  - apply baseline_listeners_untimed.
  - assert (H : preserves (same_timers_and_focus st)
                  (baseline_anchor_click anchor offcanvas))
      by (unfold baseline_anchor_click; walking untimed_nav_leaf).
    apply H. by repeat split.
  - by repeat split.
Qed.

(** X4.  The baseline variant sets no timer, cancels none and never moves
    the focus, whatever the event, clicks on links into the page included:
    its scroll handler updates the nav links in the handler itself, and its
    click listener only asks the browser to scroll. *)
Theorem baseline_sets_no_timer `{engine : RegExpEngine}
    `{selectors : SelectorEngine} (st : State) (ev : PageEvent) :
  same_timers_and_focus st (baseline_page_step st ev).
Proof. apply baseline_page_untimed. Qed.

(** ** The scroll debounce *)

Lemma blurred_same ev a :
  (∀ k, ev ≠ Blur k) → blurred ev a a = None.
Proof.
  intros Hev. destruct ev; try (destruct a; simpl;
    [by rewrite bool_decide_eq_true_2 | reflexivity]).
  by destruct (Hev k).
Qed.

Lemma page_scroll_eq `{engine : RegExpEngine} `{selectors : SelectorEngine}
    pg y :
  page_step pg (Listened (Scroll y))
  = set_page_state (Enhanced.step (page_state pg) (Scroll y)) pg.
Proof.
  unfold page_step, page_handle. rewrite page_listened_eq. cbn [fst].
  assert (Ha : activeElement (Enhanced.step (page_state pg) (Scroll y))
               = activeElement (page_state pg)).
  { unfold Enhanced.step, Enhanced.handle.
    erewrite bind_ok; [|reflexivity]. rewrite window_scroll_eq. cbn [fst].
    change (scrollTimeout (set_scrollY y (page_state pg)))
      with (scrollTimeout (page_state pg)).
    by destruct (scrollTimeout (page_state pg)). }
  rewrite Ha, blurred_same by discriminate. reflexivity.
Qed.

Lemma scroll_step_timers `{engine : RegExpEngine} (st : State) (y : Q) :
  timers_ok st →
  let st' := Enhanced.step st (Scroll y) in
  doc st' = doc st
  ∧ pending_nav_updates st' = [(nextTimer st, (100%nat, CbNavUpdate))]
  ∧ other_timers st' = other_timers st.
Proof.
  intros Hok st'. subst st'. unfold Enhanced.step, Enhanced.handle.
  erewrite bind_ok; [|reflexivity]. rewrite window_scroll_eq. cbn [fst].
  assert (Hok' : timers_ok (set_scrollY y st)) by exact Hok.
  pose proof (λ t, cleared_no_nav_update _ t Hok') as Hgone.
  pose proof (other_timers_cleared _ Hok') as Hother.
  change (scrollTimeout (set_scrollY y st)) with (scrollTimeout st) in *.
  change (nextTimer (set_scrollY y st)) with (nextTimer st).
  split_and!.
  - by destruct (scrollTimeout st).
  - unfold pending_nav_updates. cbn [timers set_scrollTimeout set_timers].
    rewrite filter_nav_app; [reflexivity|].
    intros t Ht. by apply Hgone.
  - unfold other_timers at 1. cbn [timers set_scrollTimeout set_timers].
    rewrite List.filter_app. simpl. rewrite app_nil_r. exact Hother.
Qed.

Lemma named_is_nav_update st t :
  timers_ok st → In t (timers st) → scrollTimeout st = Some (fst t) →
  is_nav_update t = true.
Proof.
  intros (_ & _ & _ & Hnav) Hin Hs. rewrite Forall_forall in Hnav.
  by apply (Hnav t); [apply list_elem_of_In|].
Qed.

(** C7 (as amended).  The scroll debounce.  In the enhanced variant, on
    a page whose timers are in order (as they are when the script starts),
    a scroll event leaves the document alone; it cancels the nav-link
    update that was pending, if there is one, and no other timer, and it
    schedules one nav-link update, due in 100 ms.  So at most one nav-link
    update is pending after any events, clicks on links, observer entries
    and expiring timers included.  Nothing else in the script cancels a
    timer: a pending timer stays pending until it expires, unless it is the
    nav-link update and the page is scrolled, and a timer of the click
    listener is never cancelled.  The baseline variant has no debounce:
    none of its listeners sets or clears a timer, and its scroll handler
    has marked the nav links for the new position when it returns. *)
Theorem scroll_debounce `{engine : RegExpEngine} `{selectors : SelectorEngine}
    (pg : Page) :
  page_timers_ok pg →
  (∀ y, let pg' := page_step pg (Listened (Scroll y)) in
        doc (page_state pg') = doc (page_state pg)
        ∧ pending_nav_updates (page_state pg')
          = [(nextTimer (page_state pg), (100%nat, CbNavUpdate))]
        ∧ other_timers (page_state pg') = other_timers (page_state pg)
        ∧ focusTimers pg' = focusTimers pg)
  ∧ (∀ evs,
       (length (pending_nav_updates (page_state (page_run evs pg))) ≤ 1)%nat)
  ∧ (∀ ev t, In t (timers (page_state pg)) →
             In t (timers (page_state (page_step pg ev)))
             ∨ ev = Listened (TimerFire (fst t))
             ∨ (∃ y, ev = Listened (Scroll y)) ∧ is_nav_update t = true)
  ∧ (∀ ev t, In t (focusTimers pg) →
             In t (focusTimers (page_step pg ev))
             ∨ ev = Listened (TimerFire (fst t)))
  ∧ (∀ st ev, timers (baseline_page_step st ev) = timers st
              ∧ scrollTimeout (baseline_page_step st ev) = scrollTimeout st)
  ∧ (∀ st y,
       links_marked (baseline_marked (section_at (sections st) y)) st
         (baseline_page_step st (Listened (Scroll y)))).
Proof.
  intros Hok. split_and!.
  - intros y pg'. subst pg'. rewrite page_scroll_eq.
    cbn [page_state focusTimers set_page_state].
    destruct (scroll_step_timers (page_state pg) y) as (Hd & Hp & Ho);
      [by destruct Hok|].
    by split_and!.
  - intros evs. apply timers_ok_one_pending.
    by destruct (page_timers_ok_run evs pg Hok).
  - intros ev t Ht.
    destruct (page_keeps_pending pg ev t Ht) as [H | [H | [Hy Hs]]];
      [by left | right; by left | right; right].
    split; [exact Hy|].
    apply (named_is_nav_update (page_state pg)); [by destruct Hok|done..].
  - intros ev t Ht. by apply page_keeps_focus_timer.
  - intros st ev.
    destruct (baseline_page_untimed st ev) as (H1 & _ & H2 & _). by split.
  - intros st y. unfold baseline_page_step, baseline_page_handle.
    unfold Baseline.handle. erewrite bind_ok; [|reflexivity].
    unfold Baseline.window_scroll.
    pose proof (updateNavLinks_baseline_marks (set_scrollY y st)) as H.
    rewrite currentSection_baseline in H. exact H.
Qed.

Lemma scroll_debounce_witness :
  let about := mkEntry true (3 # 4) (Some (str "about")) (Some (str "About")) in
  let pg := page_run (engine := fragment_engine) (selectors := id_selectors)
              [Intersection [about]; AnchorClick "navContact" NoInstance;
               Listened (Scroll 10)] sample_site in
  let pg' := page_step (engine := fragment_engine) (selectors := id_selectors)
               pg (Listened (Scroll 950)) in
  page_timers_ok pg
  ∧ map fst (timers (page_state pg)) = [1%N; 3%N]
  ∧ map fst (timers (page_state pg')) = [1%N; 4%N]
  ∧ pending_nav_updates (page_state pg') = [(4%N, (100%nat, CbNavUpdate))]
  ∧ focusTimers pg' = [(2%N, (500%nat, "contact"))].
Proof.
  intros about pg pg'.
  assert (Hok : page_timers_ok pg)
    by apply page_timers_ok_run, sample_site_timers_ok.
  split; [exact Hok|]. split; [vm_compute; reflexivity|].
  split; [vm_compute; reflexivity|].
  destruct (scroll_debounce (engine := fragment_engine)
              (selectors := id_selectors) pg Hok) as (Hs & _).
  destruct (Hs (inject_Z 950)) as (_ & Hp & _ & Hf).
  split; (etransitivity; [eassumption|]); vm_compute; reflexivity.
Defined.

(** C7, the claim as worded fails for the baseline variant, whose scroll
    handler is among the claim's sources: it is not debounced.  On the
    sample page a scroll to 950 is followed by no pending timer, and the
    nav link of the section reached is marked [active] when the handler
    returns; in the enhanced variant the same event leaves the link
    unmarked and one update pending. *)
Lemma baseline_scroll_is_not_debounced :
  let st := sample_page [] [] [] [] [] [] false 0 in
  let baseline := Baseline.step (engine := fragment_engine) st (Scroll 950) in
  let enhanced := Enhanced.step (engine := fragment_engine) st (Scroll 950) in
  timers baseline = []
  ∧ bool_decide ("active" ∈ classList (node baseline "navContact")) = true
  ∧ timers enhanced = [(1%N, (100%nat, CbNavUpdate))]
  ∧ bool_decide ("active" ∈ classList (node enhanced "navContact")) = false.
Proof. vm_compute. repeat split; reflexivity. Qed.

(** ** The phone value *)

Lemma default_update k f :
  (∀ e, defaultValue (f e) = defaultValue e) →
  preserves phone_default_clean (update k f).
Proof.
  intros Hf st H. unfold phone_default_clean, node in *. simpl.
  rewrite lookup_alter. case_decide; [subst|exact H].
  destruct (doc st !! "phone") as [e|]; [|exact H]. simpl in *.
  by rewrite Hf.
Qed.

Lemma defaultValue_assign_value v e :
  defaultValue (assign_value v e) = defaultValue e.
Proof. unfold assign_value. by case_decide. Qed.

Ltac default_leaf :=
  idtac;
  match goal with
  | |- preserves _ (update _ _) =>
      apply default_update; intros ?;
      first [ reflexivity | apply defaultValue_assign_value ]
  | |- preserves _ (emit _) => intros ? ?; assumption
  | |- preserves _ (set_focus _) => intros ? ?; assumption
  | |- preserves _ (scroll_to _) => intros ? ?; assumption
  | |- preserves _ (setTimeout _ _) => intros ? ?; assumption
  | |- preserves _ (clearTimeout ?i) => intros ? ?; destruct i; assumption
  end.

Lemma phone_clean_update k f :
  (∀ e, value (f e) = value e ∨ value (f e) = defaultValue e) →
  (∀ e, defaultValue (f e) = defaultValue e) →
  preserves phone_clean (update k f).
Proof.
  intros Hv Hd st [H1 H2]. unfold phone_clean, phone_default_clean, node in *.
  simpl. rewrite lookup_alter. case_decide; [subst|by split].
  destruct (doc st !! "phone") as [e|]; [|by split]. simpl in *.
  rewrite Hd. split; [|exact H2]. by destruct (Hv e) as [-> | ->].
Qed.

Ltac clean_leaf :=
  idtac;
  match goal with
  | |- preserves _ (update _ _) =>
      apply phone_clean_update; intros ?;
      [ first [ left; reflexivity | right; reflexivity ] | reflexivity ]
  | |- preserves _ (emit _) => intros ? ?; assumption
  | |- preserves _ (set_focus _) => intros ? ?; assumption
  | |- preserves _ (scroll_to _) => intros ? ?; assumption
  | |- preserves _ (setTimeout _ _) => intros ? ?; assumption
  | |- preserves _ (clearTimeout ?i) => intros ? ?; destruct i; assumption
  | |- preserves _ (query _) => apply preserves_query
  | |- preserves _ (offcanvas_hide _) => unfold offcanvas_hide
  end.

Lemma phone_clean_input `{engine : RegExpEngine} :
  preserves phone_clean Baseline.phoneInput_input
  ∧ preserves phone_clean Enhanced.phoneInput_input.
Proof.
  split; intros st [_ Hd]; (split; [|revert st Hd]).
  - apply phoneInput_input_baseline_clean.
  - change (preserves phone_default_clean Baseline.phoneInput_input).
    walking default_leaf.
  - apply phoneInput_input_enhanced_clean.
  - change (preserves phone_default_clean Enhanced.phoneInput_input).
    walking default_leaf.
Qed.

Lemma phone_clean_paste `{engine : RegExpEngine} text :
  preserves phone_clean (Baseline.phoneInput_paste text)
  ∧ preserves phone_clean (Enhanced.phoneInput_paste text).
Proof.
  split; intros st [_ Hd]; (split; [|revert st Hd]).
  - apply phoneInput_paste_baseline_clean.
  - change (preserves phone_default_clean (Baseline.phoneInput_paste text)).
    walking default_leaf.
  - apply phoneInput_paste_enhanced_clean.
  - change (preserves phone_default_clean (Enhanced.phoneInput_paste text)).
    walking default_leaf.
Qed.

Lemma phone_clean_window_scroll :
  preserves phone_clean Enhanced.window_scroll.
Proof.
  intros st H. rewrite window_scroll_eq. by destruct (scrollTimeout st).
Qed.

Lemma phone_clean_timer_fire `{engine : RegExpEngine} id :
  preserves phone_clean (Enhanced.timer_fire id).
Proof.
  intros st H. rewrite timer_fire_eq.
  destruct (find _ (timers st)) as [t|]; [|exact H].
  assert (Hc : preserves phone_clean (Enhanced.run_callback (snd (snd t))))
    by (destruct (snd (snd t)); walking clean_leaf).
  by apply Hc.
Qed.

Lemma phone_clean_listeners `{engine : RegExpEngine} (ev : Event) :
  is_user_edit (Listened ev) = false →
  preserves phone_clean (Baseline.handle ev)
  ∧ preserves phone_clean (Enhanced.handle ev).
Proof.
  intros Hev. split.
  - destruct ev; try discriminate; unfold Baseline.handle;
      try solve [walking clean_leaf].
    + apply phone_clean_input.
    + apply phone_clean_paste.
  - destruct ev; try discriminate; unfold Enhanced.handle;
      try solve [walking clean_leaf].
    + apply phone_clean_input.
    + apply phone_clean_paste.
    + apply preserves_bind; [by intros ? ?|].
      intros _. apply phone_clean_window_scroll.
    + apply phone_clean_timer_fire.
Qed.

Lemma phone_clean_attrs k (g : gmap string (list N) → gmap string (list N)) :
  preserves phone_clean (update k (λ e, with_attrs (g (attrs e)) e)).
Proof. apply phone_clean_update; intros e; [by left | reflexivity]. Qed.

Lemma phone_clean_blur_listeners `{engine : RegExpEngine} c :
  preserves phone_clean (Enhanced.blur_listeners c).
Proof. walking clean_leaf. Qed.

Lemma phone_clean_announce message :
  preserves phone_clean (Enhanced.announceToScreenReader message).
Proof. walking clean_leaf. Qed.

Lemma phone_clean_page `{engine : RegExpEngine} `{selectors : SelectorEngine}
    (st : State) (pg : Page) (ev : PageEvent) :
  is_user_edit ev = false →
  (phone_clean st → phone_clean (baseline_page_step st ev))
  ∧ (phone_clean (page_state pg) →
     phone_clean (page_state (page_step pg ev))).
Proof.
  intros Hev. split; intros H.
  - unfold baseline_page_step.
    destruct ev as [ev|anchor offcanvas|entries]; [| |exact H].
    + by apply (proj1 (phone_clean_listeners ev Hev)).
    + revert st H.
      change (preserves phone_clean (baseline_anchor_click anchor offcanvas)).
      unfold baseline_anchor_click. walking clean_leaf.
  - assert (Hl : ∀ ev0, is_user_edit (Listened ev0) = false →
              phone_clean (page_state (fst (page_listened ev0 pg)))).
    { intros ev0 H0. rewrite page_listened_eq. cbn [fst].
      apply (on_page_cleaned_up phone_clean); [apply phone_clean_attrs|].
      by apply (proj2 (phone_clean_listeners ev0 H0)). }
    unfold page_step. destruct ev as [ev|anchor offcanvas|entries].
    + destruct ev; try discriminate; try (by apply Hl).
      unfold page_handle, page_timer_fire.
      destruct (find _ (focusTimers pg)) as [[i [d target]]|];
        [|by apply Hl].
      apply (on_page_focus_target phone_clean); try exact H.
      * apply phone_clean_attrs.
      * by intros r st0.
      * apply phone_clean_blur_listeners.
    + apply (on_page_anchor_click phone_clean); try exact H.
      * by intros st0.
      * by intros e _ st0.
    + apply (on_page_intersection phone_clean); try exact H.
      apply phone_clean_announce.
Qed.

(** C8 (as amended).  After the [input] handler of the phone field has
    run, and after the [paste] handler (which ends by dispatching [input])
    has run, the value of the phone field consists of digits and white
    space only, whatever the value, the clipboard text and the page were
    before; so it does after every sequence of events that ends with one
    of the two.  In both variants.  Between input events the script
    changes the value in one place only, the reset of the form after a
    successful submission, which restores the default value: when the
    default value too consists of digits and white space, every event of
    the whole page other than an edit by the user keeps the value so. *)
Theorem phone_value_digits_and_spaces `{engine : RegExpEngine}
    `{selectors : SelectorEngine} :
  (∀ st,
     digits_and_spaces
       (value (node (fst (Baseline.phoneInput_input st)) "phone"))
     ∧ digits_and_spaces
         (value (node (fst (Enhanced.phoneInput_input st)) "phone")))
  ∧ (∀ text st,
       digits_and_spaces
         (value (node (fst (Baseline.phoneInput_paste text st)) "phone"))
       ∧ digits_and_spaces
           (value (node (fst (Enhanced.phoneInput_paste text st)) "phone")))
  ∧ (∀ evs ev st,
       ev = PhoneInput ∨ (∃ text, ev = PhonePaste text) →
       digits_and_spaces
         (value (node (Baseline.run (evs ++ [ev]) st) "phone"))
       ∧ digits_and_spaces
           (value (node (Enhanced.run (evs ++ [ev]) st) "phone")))
  ∧ (∀ st pg ev,
       is_user_edit ev = false →
       (phone_clean st → phone_clean (baseline_page_step st ev))
       ∧ (phone_clean (page_state pg) →
          phone_clean (page_state (page_step pg ev)))).
Proof.
  split_and!.
  - intros st. split.
    + apply phoneInput_input_baseline_clean.
    + apply phoneInput_input_enhanced_clean.
  - intros text st. split.
    + apply phoneInput_paste_baseline_clean.
    + apply phoneInput_paste_enhanced_clean.
  - intros evs ev st Hev. unfold Baseline.run, Enhanced.run.
    rewrite !fold_left_app. simpl.
    destruct Hev as [-> | [text ->]]; split.
    + apply phoneInput_input_baseline_clean.
    + apply phoneInput_input_enhanced_clean.
    + apply phoneInput_paste_baseline_clean.
    + apply phoneInput_paste_enhanced_clean.
  - intros st pg ev. apply phone_clean_page.
Qed.

Lemma phone_value_digits_and_spaces_witness :
  let st := sample_page (str "Ann") (str "Lee") (str "ann@lee.ch") (str "Hi")
              (str "Hello there") (str "+41 (79) 12a") false 0 in
  let typed := Enhanced.run (engine := fragment_engine)
                 [PhonePaste (str "x-3.4"); PhoneInput] st in
  value (node typed "phone") = str "3441 79 12"
  ∧ digits_and_spaces
      (value (node (Enhanced.run (engine := fragment_engine)
                      ([PhonePaste (str "x-3.4")] ++ [PhoneInput]) st)
                "phone"))
  ∧ phone_clean typed
  ∧ value (node (baseline_page_step (engine := fragment_engine)
                   (selectors := id_selectors) typed (Listened Submit))
             "phone") = []
  ∧ phone_clean
      (baseline_page_step (engine := fragment_engine)
         (selectors := id_selectors) typed (Listened Submit)).
Proof.
  intros st typed.
  destruct (phone_value_digits_and_spaces (engine := fragment_engine)
              (selectors := id_selectors)) as (_ & _ & H & Hk).
  assert (Hc : digits_and_spaces
                 (value (node (Enhanced.run (engine := fragment_engine)
                                 ([PhonePaste (str "x-3.4")] ++ [PhoneInput])
                                 st) "phone")))
    by (apply (H [PhonePaste (str "x-3.4")] PhoneInput st); by left).
  assert (Ht : phone_clean typed) by (split; [exact Hc | constructor]).
  split; [vm_compute; reflexivity|]. split; [exact Hc|].
  split; [exact Ht|]. split; [vm_compute; reflexivity|].
  exact (proj1 (Hk typed (page_loaded typed ∅) (Listened Submit) eq_refl) Ht).
Defined.

(** C8, the claim as worded fails between input events: the reset of the
    form restores the default value of the phone input without an [input]
    event.  On a page whose phone input has the default value [+41], the
    value is digits and white space after an [input] event, and [+41] again
    after the successful submission that follows, in both variants. *)
Lemma reset_restores_the_default_phone_value :
  let prefilled :=
    mkElement (str "+41") (str "+41") true false false ∅ ∅ [] [] false []
      0 0 [] (-1) (-1) None None in
  let st := with_node "phone" prefilled
              (sample_page (str "Ann") (str "Lee") (str "ann@lee.ch")
                 (str "Hi") (str "Hello there") [] false 0) in
  let typed b := if b : bool
                 then Baseline.run (engine := fragment_engine) [PhoneInput] st
                 else Enhanced.run (engine := fragment_engine) [PhoneInput] st in
  value (node (typed true) "phone") = str "41"
  ∧ value (node (typed false) "phone") = str "41"
  ∧ value (node (Baseline.step (engine := fragment_engine) (typed true) Submit)
             "phone") = str "+41"
  ∧ value (node (Enhanced.step (engine := fragment_engine) (typed false) Submit)
             "phone") = str "+41"
  ∧ forallb (λ c, is_digit c || is_space c) (str "+41") = false.
Proof. vm_compute. repeat split; reflexivity. Qed.
